(** * SubtitleTranslatorAI: the extraction / chunking / reconstruction core

    A shallow embedding of [backend/translatorApi/app/utils.py].

    Python strings are sequences of code points; here a string is a
    [list ascii], the code points 0..255.  The character classes below
    ([isspace], [\d], [\w], [lower], ...) are Python's, restricted to
    that range. *)

From Stdlib Require Import String DecimalString.
From Stdlib Require Import List Ascii Arith ZArith Lia Bool.
Import ListNotations.

(* ===================================================================== *)
(** * Python strings                                                      *)
(* ===================================================================== *)

Module Py.

Definition str := list ascii.

(** String literals. *)
Definition lit (s : string) : str := list_ascii_of_string s.

Definition chr (n : nat) : ascii := ascii_of_nat n.
Definition ord (c : ascii) : nat := nat_of_ascii c.

Definition NL : ascii := chr 10.
Definition nl : str := [NL].

Definition in_range (lo hi : nat) (c : ascii) : bool :=
  (lo <=? ord c) && (ord c <=? hi).

Definition ascii_eqb (a b : ascii) : bool := Ascii.eqb a b.

Fixpoint str_eqb (a b : str) : bool :=
  match a, b with
  | [], [] => true
  | x :: a', y :: b' => ascii_eqb x y && str_eqb a' b'
  | _, _ => false
  end.

(** [str.isspace] on one character: TAB..CR, FS..US, SPACE, NEL, NBSP. *)
Definition isspace (c : ascii) : bool :=
  in_range 9 13 c || in_range 28 32 c || (ord c =? 133) || (ord c =? 160).

(** Decimal digits ([\d], [int()]): only 0-9 below code point 256. *)
Definition isdecimal (c : ascii) : bool := in_range 48 57 c.

(** [str.isdigit] on one character also accepts the superscripts. *)
Definition isdigit_chr (c : ascii) : bool :=
  isdecimal c || (ord c =? 178) || (ord c =? 179) || (ord c =? 185).

Definition is_AZ (c : ascii) : bool := in_range 65 90 c.
Definition is_az (c : ascii) : bool := in_range 97 122 c.
Definition is_azAZ (c : ascii) : bool := is_az c || is_AZ c.

(** [str.isupper] / [str.isalpha] on one character. *)
Definition isupper_chr (c : ascii) : bool :=
  is_AZ c || in_range 192 214 c || in_range 216 222 c.

Definition isalpha_chr (c : ascii) : bool :=
  is_azAZ c || (ord c =? 170) || (ord c =? 181) || (ord c =? 186)
  || in_range 192 214 c || in_range 216 246 c || in_range 248 255 c.

(** [\w]: alphanumeric or underscore. *)
Definition isword (c : ascii) : bool :=
  isalpha_chr c || isdigit_chr c || in_range 188 190 c || (ord c =? 95).

Definition lower_chr (c : ascii) : ascii :=
  if isupper_chr c then chr (ord c + 32) else c.

Definition lower (s : str) : str := map lower_chr s.

(** [s.lstrip()], [s.rstrip()], [s.strip()]. *)
Fixpoint lstrip (s : str) : str :=
  match s with
  | c :: t => if isspace c then lstrip t else s
  | [] => []
  end.

Definition rstrip (s : str) : str := rev (lstrip (rev s)).
Definition strip (s : str) : str := rstrip (lstrip s).

(** [p] is a prefix of [s]: [s.startswith(p)]. *)
Fixpoint startswith (p s : str) : bool :=
  match p, s with
  | [], _ => true
  | x :: p', y :: s' => ascii_eqb x y && startswith p' s'
  | _ :: _, [] => false
  end.

(** [sub in s]. *)
Fixpoint contains (sub s : str) : bool :=
  startswith sub s ||
  match s with
  | [] => false
  | _ :: t => contains sub t
  end.

(** [sep.join(l)]. *)
Fixpoint join (sep : str) (l : list str) : str :=
  match l with
  | [] => []
  | [x] => x
  | x :: t => x ++ sep ++ join sep t
  end.

(** [s.split(sep)] for a non-empty separator: left to right, the
    occurrences do not overlap.  [skip] counts the characters of an
    occurrence still to be passed over, [cur] is the piece being read
    (reversed). *)
Fixpoint split_go (sep : str) (s : str) (skip : nat) (cur : str) : list str :=
  match s with
  | [] => [rev cur]
  | c :: t =>
      match skip with
      | S k => split_go sep t k cur
      | O =>
          if startswith sep s
          then rev cur :: split_go sep t (length sep - 1) []
          else split_go sep t 0 (c :: cur)
      end
  end.

Definition split (sep : str) (s : str) : list str := split_go sep s 0 [].

(** [s.split()]: runs of whitespace separate, no empty pieces. *)
Fixpoint split_ws_go (s : str) (cur : str) : list str :=
  match s with
  | [] => match cur with [] => [] | _ => [rev cur] end
  | c :: t =>
      if isspace c
      then match cur with
           | [] => split_ws_go t []
           | _ => rev cur :: split_ws_go t []
           end
      else split_ws_go t (c :: cur)
  end.

Definition split_ws (s : str) : list str := split_ws_go s [].

(** [s.find(c, i)] for a one-character needle: the index, or [None]
    where Python answers -1. *)
Fixpoint find_chr_go (c : ascii) (s : str) (i : nat) : option nat :=
  match s with
  | [] => None
  | x :: t => if ascii_eqb x c then Some i else find_chr_go c t (S i)
  end.

Definition find_chr (c : ascii) (s : str) (i : nat) : option nat :=
  find_chr_go c (skipn i s) i.

(** [s[i:j]] for [0 <= i], [0 <= j]. *)
Definition slice (s : str) (i j : nat) : str := firstn (j - i) (skipn i s).

Definition is_some {A : Type} (o : option A) : bool :=
  match o with Some _ => true | None => false end.

(** [l[i:j]] on any list. *)
Definition slice_list {A : Type} (l : list A) (i j : nat) : list A :=
  firstn (j - i) (skipn i l).

(** [s.count(c)] for a one-character needle. *)
Definition count_chr (c : ascii) (s : str) : nat :=
  length (filter (ascii_eqb c) s).

(** [s.replace(old, new)]. *)
Fixpoint replace_go (old new : str) (s : str) (skip : nat) : str :=
  match s with
  | [] => []
  | c :: t =>
      match skip with
      | S k => replace_go old new t k
      | O =>
          if startswith old s
          then new ++ replace_go old new t (length old - 1)
          else c :: replace_go old new t 0
      end
  end.

Definition replace (old new : str) (s : str) : str :=
  match old with
  | [] => new ++ flat_map (fun c => c :: new) s
  | _ => replace_go old new s 0
  end.

(** [s.isdigit()]. *)
Definition isdigit (s : str) : bool :=
  match s with
  | [] => false
  | _ => forallb isdigit_chr s
  end.

(** [s.isalpha()]. *)
Definition isalpha (s : str) : bool :=
  match s with
  | [] => false
  | _ => forallb isalpha_chr s
  end.

(** [int(s)]: surrounding whitespace, an optional sign, decimal digits
    with single underscores between them.  [None] is [ValueError]. *)
Fixpoint int_digits (s : str) (acc : Z) (prev_digit : bool) : option Z :=
  match s with
  | [] => if prev_digit then Some acc else None
  | c :: t =>
      if isdecimal c
      then int_digits t (10 * acc + Z.of_nat (ord c - 48))%Z true
      else if ascii_eqb c "_"%char && prev_digit
           then match t with
                | d :: _ => if isdecimal d then int_digits t acc false else None
                | [] => None
                end
           else None
  end.

Definition int (s : str) : option Z :=
  match strip s with
  | c :: t =>
      if ascii_eqb c "-"%char then option_map Z.opp (int_digits t 0%Z false)
      else if ascii_eqb c "+"%char then int_digits t 0%Z false
      else int_digits (c :: t) 0%Z false
  | [] => None
  end.

End Py.

Import Py.

(* ===================================================================== *)
(** * Python's [re]: a backtracking matcher                               *)
(* ===================================================================== *)

(** The patterns of the source are written as terms of [regex].  The
    matcher returns every way a pattern matches at a position, in the
    order in which backtracking tries them; the first one is the match
    Python reports.  Flags are part of the term: under [re.IGNORECASE] a
    literal is written with [ichr], under [re.DOTALL] the dot is [any]. *)

Module Re.

Inductive regex : Type :=
| Eps
| Cls (p : ascii -> bool)               (* one character of a class *)
| Cat (r1 r2 : regex)
| Alt (r1 r2 : regex)
| Star (greedy : bool) (r : regex)      (* r* and r*? *)
| Grp (n : nat) (r : regex)             (* capturing group number n *)
| Bos                                   (* ^ *)
| Eos                                   (* $ *)
| WordB.                                (* \b *)

(** A position in the subject: offset, the character before it, the
    text after it, and the groups closed so far (latest first). *)
Record mstate : Type := MState {
  m_pos : nat;
  m_prev : option ascii;
  m_rest : str;
  m_caps : list (nat * (nat * nat))
}.

Definition at_start (s : str) : mstate := MState 0 None s [].

Definition advance (st : mstate) : option (ascii * mstate) :=
  match m_rest st with
  | [] => None
  | c :: t => Some (c, MState (S (m_pos st)) (Some c) t (m_caps st))
  end.

Definition word_before (st : mstate) : bool :=
  match m_prev st with Some c => isword c | None => false end.

Definition word_after (st : mstate) : bool :=
  match m_rest st with c :: _ => isword c | [] => false end.

(** [$] without [re.MULTILINE]: the end, or just before a final newline. *)
Definition at_eos (st : mstate) : bool :=
  match m_rest st with
  | [] => true
  | [c] => ascii_eqb c NL
  | _ => false
  end.

Definition progress (st st' : mstate) : bool := m_pos st <? m_pos st'.

(** The iterations of a star: [step] matches the body once.  An
    iteration has to consume something, so the length of the text ahead
    bounds their number; [fuel] is that bound. *)
Fixpoint star_iter (step : mstate -> list mstate) (greedy : bool)
    (fuel : nat) (st : mstate) : list mstate :=
  match fuel with
  | O => [st]
  | S fuel' =>
      let more :=
        flat_map (star_iter step greedy fuel')
                 (filter (progress st) (step st)) in
      if greedy then more ++ [st] else st :: more
  end.

Definition add_cap (n : nat) (st st' : mstate) : mstate :=
  MState (m_pos st') (m_prev st') (m_rest st')
         ((n, (m_pos st, m_pos st')) :: m_caps st').

Fixpoint matches (r : regex) (st : mstate) : list mstate :=
  match r with
  | Eps => [st]
  | Cls p =>
      match advance st with
      | Some (c, st') => if p c then [st'] else []
      | None => []
      end
  | Cat r1 r2 => flat_map (matches r2) (matches r1 st)
  | Alt r1 r2 => matches r1 st ++ matches r2 st
  | Star greedy r1 =>
      star_iter (matches r1) greedy (List.length (m_rest st)) st
  | Grp n r1 => map (add_cap n st) (matches r1 st)
  | Bos => if m_pos st =? 0 then [st] else []
  | Eos => if at_eos st then [st] else []
  | WordB => if xorb (word_before st) (word_after st) then [st] else []
  end.

(** Derived forms. *)
Definition Plus (greedy : bool) (r : regex) : regex := Cat r (Star greedy r).
Definition Opt (r : regex) : regex := Alt r Eps.

Fixpoint Seq (l : list regex) : regex :=
  match l with
  | [] => Eps
  | [r] => r
  | r :: t => Cat r (Seq t)
  end.

Definition chr_ (c : ascii) : regex := Cls (ascii_eqb c).
Definition ichr (c : ascii) : regex :=
  Cls (fun x => ascii_eqb (lower_chr x) (lower_chr c)).
Definition not_chr (c : ascii) : regex := Cls (fun x => negb (ascii_eqb c x)).
Definition any : regex := Cls (fun _ => true).
Definition dot : regex := not_chr NL.
Definition digit : regex := Cls isdecimal.
Definition space : regex := Cls isspace.

Definition str_ (s : string) : regex := Seq (map chr_ (lit s)).
Definition istr (s : string) : regex := Seq (map ichr (lit s)).

(** A match: its span and its groups. *)
Record rmatch : Type := RMatch {
  m_start : nat;
  m_end : nat;
  m_groups : list (nat * (nat * nat))
}.

Definition match_here (r : regex) (st : mstate) : option rmatch :=
  match matches r st with
  | st' :: _ => Some (RMatch (m_pos st) (m_pos st') (m_caps st'))
  | [] => None
  end.

(** [re.match(r, s)]. *)
Definition re_match (r : regex) (s : str) : option rmatch :=
  match_here r (at_start s).

(** The leftmost match at or after a position. *)
Fixpoint search_from (r : regex) (fuel : nat) (st : mstate) : option rmatch :=
  match match_here r st with
  | Some m => Some m
  | None =>
      match fuel with
      | O => None
      | S fuel' =>
          match advance st with
          | Some (_, st') => search_from r fuel' st'
          | None => None
          end
      end
  end.

(** [re.search(r, s)]. *)
Definition re_search (r : regex) (s : str) : option rmatch :=
  search_from r (List.length s) (at_start s).

(** [m.group(n)]: the text of the last closing of group [n]. *)
Definition group (s : str) (m : rmatch) (n : nat) : str :=
  match find (fun g => fst g =? n) (m_groups m) with
  | Some (_, (i, j)) => slice s i j
  | None => []
  end.

Definition group0 (s : str) (m : rmatch) : str := slice s (m_start m) (m_end m).

(** [re.sub(r, repl, s, count)] with a function [repl] or a constant
    one.  [budget = None] replaces every occurrence.  None of the
    patterns of the source can match the empty string; an empty match
    is passed over here. *)
Fixpoint sub_go (r : regex) (repl : rmatch -> str) (budget : option nat)
    (fuel : nat) (st : mstate) : str :=
  match fuel with
  | O => m_rest st
  | S fuel' =>
      let step_over :=
        match advance st with
        | Some (c, st') => c :: sub_go r repl budget fuel' st'
        | None => []
        end in
      match budget with
      | Some O => m_rest st
      | _ =>
          match matches r st with
          | st' :: _ =>
              if progress st st'
              then repl (RMatch (m_pos st) (m_pos st') (m_caps st'))
                   ++ sub_go r repl (option_map pred budget) fuel'
                        (MState (m_pos st') (m_prev st') (m_rest st') [])
              else step_over
          | [] => step_over
          end
      end
  end.

Definition re_sub_fn (r : regex) (repl : rmatch -> str) (count : option nat)
    (s : str) : str :=
  sub_go r repl count (S (List.length s)) (at_start s).

Definition re_sub (r : regex) (repl : str) (s : str) : str :=
  re_sub_fn r (fun _ => repl) None s.

(** [m.start()] for each [m] of [re.finditer(r, s)]. *)
Fixpoint finditer_go (r : regex) (fuel : nat) (st : mstate) : list rmatch :=
  match fuel with
  | O => []
  | S fuel' =>
      let step_over :=
        match advance st with
        | Some (_, st') => finditer_go r fuel' st'
        | None => []
        end in
      match matches r st with
      | st' :: _ =>
          if progress st st'
          then RMatch (m_pos st) (m_pos st') (m_caps st')
               :: finditer_go r fuel'
                    (MState (m_pos st') (m_prev st') (m_rest st') [])
          else step_over
      | [] => step_over
      end
  end.

Definition re_finditer (r : regex) (s : str) : list rmatch :=
  finditer_go r (S (List.length s)) (at_start s).

(** [re.split(r, s)] for a pattern without groups. *)
Fixpoint split_go (r : regex) (fuel : nat) (st : mstate) (cur : str)
    : list str :=
  match fuel with
  | O => [rev cur ++ m_rest st]
  | S fuel' =>
      let step_over :=
        match advance st with
        | Some (c, st') => split_go r fuel' st' (c :: cur)
        | None => [rev cur]
        end in
      match matches r st with
      | st' :: _ =>
          if progress st st'
          then rev cur :: split_go r fuel'
                 (MState (m_pos st') (m_prev st') (m_rest st') []) []
          else step_over
      | [] => step_over
      end
  end.

Definition re_split (r : regex) (s : str) : list str :=
  split_go r (S (List.length s)) (at_start s) [].

End Re.

Import Re.

(* ===================================================================== *)
(** * The patterns of the source                                          *)
(* ===================================================================== *)

Module Pat.

Definition d2 : regex := Cat digit digit.
Definition d3 : regex := Cat digit (Cat digit digit).

(** [\d{2}:\d{2}:\d{2},\d{3}] *)
Definition clock : regex :=
  Seq [d2; chr_ ":"; d2; chr_ ":"; d2; chr_ ","; d3].

(** [\d{2}:\d{2}:\d{2},\d{3}\s*-->\s*\d{2}:\d{2}:\d{2},\d{3}] *)
Definition timestamp_range : regex :=
  Seq [clock; Star true space; str_ "-->"; Star true space; clock].

(** [\d+\n\d{2}:\d{2}:\d{2},\d{3}\s*-->\s*\d{2}:\d{2}:\d{2},\d{3}] *)
Definition srt_shape : regex :=
  Seq [Plus true digit; chr_ NL; timestamp_range].

(** [\n\s*\n] *)
Definition blank_line : regex := Seq [chr_ NL; Star true space; chr_ NL].

(** [<font[^>]*>] under [re.IGNORECASE] *)
Definition font_open : regex :=
  Seq [istr "<font"; Star true (not_chr ">"); chr_ ">"].

(** [\s+] *)
Definition spaces : regex := Plus true space.

(** [\{[^}]*\}] *)
Definition braces : regex := Seq [chr_ "{"; Star true (not_chr "}"); chr_ "}"].

(** [<[^>]+>] *)
Definition any_tag : regex := Seq [chr_ "<"; Plus true (not_chr ">"); chr_ ">"].

(** [^\d+[\.\)]\s*] *)
Definition ordinal_marker : regex :=
  Seq [Bos; Plus true digit;
       Cls (fun c => ascii_eqb c "." || ascii_eqb c ")"); Star true space].

End Pat.

(* ===================================================================== *)
(** * Document parser: [extract_text_from_srt]                            *)
(* ===================================================================== *)

(** One entry of the structure map (a dict in the source).  The key
    ['extracted_texts'] is only present on entries with text. *)
Record block_info : Type := BlockInfo {
  block_number : str;
  timestamp : str;
  content : str;
  text_index : option Z;             (* [None] is Python's [None] *)
  has_text : bool;
  extracted_texts : option (list str);
  original_block : str
}.

Definition str_in (x : str) (l : list str) : bool := existsb (str_eqb x) l.

(** The character walk over the text that starts at one [<font ...>]:
    the body of the [while i < len(remainder)] loop.  Every iteration
    moves [i] forward, so [len(remainder) - i] iterations are enough;
    [fuel] counts them. *)
Fixpoint font_walk (fuel : nat) (remainder : str) (stack : list str)
    (text_content : str) (in_text : bool) (i : nat) : str :=
  match fuel with
  | O => text_content
  | S fuel' =>
      if i <? List.length remainder then
        if str_eqb (lower (slice remainder i (i + 5))) (lit "<font") then
          match find_chr ">" remainder i with
          | Some tag_end =>
              font_walk fuel' remainder (lit "font" :: stack) text_content
                        true (tag_end + 1)
          | None =>
              font_walk fuel' remainder stack text_content in_text (i + 1)
          end
        else if str_eqb (lower (slice remainder i (i + 7))) (lit "</font>") then
          match stack with
          | top :: stack' =>
              if str_eqb top (lit "font") then
                match stack' with
                | [] => text_content                         (* break *)
                | _ => font_walk fuel' remainder stack' text_content
                                 in_text (i + 7)
                end
              else font_walk fuel' remainder stack text_content in_text (i + 7)
          | [] => font_walk fuel' remainder stack text_content in_text (i + 7)
          end
        else if str_eqb (lower (slice remainder i (i + 3))) (lit "<b>") then
          font_walk fuel' remainder stack text_content in_text (i + 3)
        else if str_eqb (lower (slice remainder i (i + 4))) (lit "</b>") then
          font_walk fuel' remainder stack text_content in_text (i + 4)
        else if str_eqb (slice remainder i (i + 1)) (lit "<") then
          match find_chr ">" remainder i with
          | Some tag_end =>
              font_walk fuel' remainder stack text_content in_text (tag_end + 1)
          | None =>
              font_walk fuel' remainder stack text_content in_text (i + 1)
          end
        else
          font_walk fuel' remainder stack
            (if in_text && negb (match stack with [] => true | _ => false end)
             then text_content ++ slice remainder i (i + 1)
             else text_content)
            in_text (i + 1)
      else text_content
  end.

(** The body of [for start_pos in font_starts]. *)
Definition font_step (content : str) (extracted : list str) (start_pos : nat)
    : list str :=
  let remainder := skipn start_pos content in
  let text_content :=
    font_walk (List.length remainder) remainder [] [] false 0 in
  match text_content with
  | [] => extracted
  | _ =>
      let clean_text := strip (re_sub Pat.spaces (lit " ") text_content) in
      let clean_text := strip (re_sub Pat.braces [] clean_text) in
      match clean_text with
      | [] => extracted
      | _ => if str_in clean_text extracted then extracted
             else extracted ++ [clean_text]
      end
  end.

(** [extracted_texts] for one block's content. *)
Definition extract_block_texts (content : str) : list str :=
  let extracted :=
    if contains (lit "<font") content then
      let font_starts := map m_start (re_finditer Pat.font_open content) in
      fold_left (font_step content) font_starts []
    else [] in
  match extracted with
  | [] =>
      let clean_text := re_sub Pat.any_tag [] content in
      let clean_text := re_sub Pat.braces [] clean_text in
      let clean_text := strip (re_sub Pat.spaces (lit " ") clean_text) in
      match clean_text with
      | [] => []
      | _ => [clean_text]
      end
  | _ => extracted
  end.

(** The text a block contributes, after the last normalisation. *)
Definition combined_text_of (extracted : list str) : str :=
  let combined_text := join (lit " ") extracted in
  let combined_text := re_sub Pat.braces [] combined_text in
  strip (re_sub Pat.spaces (lit " ") combined_text).

Definition parse_state : Type := (list str * list block_info)%type.

(** The three checks on a (stripped) block; [Some] gives the block
    number and the timestamp line. *)
Definition block_header (block : str) : option (str * str) :=
  match block with
  | [] => None
  | _ =>
      let lines := split nl block in
      if List.length lines <? 2 then None
      else
        let block_number := strip (nth 0 lines []) in
        match int block_number with
        | None => None                                  (* ValueError *)
        | Some _ =>
            let timestamp_line :=
              if 1 <? List.length lines then strip (nth 1 lines []) else [] in
            match re_match Pat.timestamp_range timestamp_line with
            | None => None
            | Some _ => Some (block_number, timestamp_line)
            end
        end
  end.

(** The body of [for block in blocks]. *)
Definition parse_block (st : parse_state) (block0 : str) : parse_state :=
  let '(texts_to_translate, structure_map) := st in
  let block := strip block0 in
  match block_header block with
  | None => st                                            (* continue *)
  | Some (block_number, timestamp_line) =>
      let lines := split nl block in
      let content_lines := if 2 <? List.length lines then skipn 2 lines else [] in
      let content := strip (join nl content_lines) in
      match content with
      | [] =>
          (texts_to_translate,
           structure_map ++
             [BlockInfo block_number timestamp_line [] None false None block])
      | _ =>
          let extracted := extract_block_texts content in
          match extracted with
          | [] =>
              (texts_to_translate,
               structure_map ++
                 [BlockInfo block_number timestamp_line content None false
                            None block])
          | _ =>
              let combined_text := combined_text_of extracted in
              if List.length combined_text <? 2 then
                (texts_to_translate,
                 structure_map ++
                   [BlockInfo block_number timestamp_line content None false
                              None block])
              else
                let text_index := Z.of_nat (List.length texts_to_translate) in
                (texts_to_translate ++ [combined_text],
                 structure_map ++
                   [BlockInfo block_number timestamp_line content
                              (Some text_index) true (Some extracted) block])
          end
      end
  end.

Definition extract_text_from_srt (srt_content : str)
    : list str * list block_info :=
  let blocks := re_split Pat.blank_line (strip srt_content) in
  fold_left parse_block blocks ([], []).

(* ===================================================================== *)
(** * Reconstructor: [reconstruct_srt_from_translations]                  *)
(* ===================================================================== *)

Module PatR.

(** The three patterns of the reconstructor, under
    [re.DOTALL | re.IGNORECASE]; their source text is kept beside them. *)
Definition complex_pattern_src : string :=
  "(<font[^>]*><b[^>]*>(?:\{[^}]*\})*(?:<font[^>]*>)?)(.*?)((?:</font>)?(?:\{[^}]*\})*</b></font>)".

Definition complex_pattern : regex :=
  Seq [Grp 1 (Seq [istr "<font"; Star true (not_chr ">"); chr_ ">";
                   istr "<b"; Star true (not_chr ">"); chr_ ">";
                   Star true Pat.braces; Opt Pat.font_open]);
       Grp 2 (Star false any);
       Grp 3 (Seq [Opt (istr "</font>"); Star true Pat.braces;
                   istr "</b></font>"])].

Definition simple_complex_pattern_src : string :=
  "(<font[^>]*><b[^>]*>(?:\{[^}]*\})*)(.*?)((?:\{[^}]*\})*</b></font>)".

Definition simple_complex_pattern : regex :=
  Seq [Grp 1 (Seq [istr "<font"; Star true (not_chr ">"); chr_ ">";
                   istr "<b"; Star true (not_chr ">"); chr_ ">";
                   Star true Pat.braces]);
       Grp 2 (Star false any);
       Grp 3 (Seq [Star true Pat.braces; istr "</b></font>"])].

Definition simple_font_pattern_src : string :=
  "(<font[^>]*>)(.*?)(</font>)".

Definition simple_font_pattern : regex :=
  Seq [Grp 1 Pat.font_open; Grp 2 (Star false any); Grp 3 (istr "</font>")].

End PatR.

(** What a call does: it returns, or an exception leaves it. *)
Inductive exception : Type := IndexError.

Inductive outcome (A : Type) : Type :=
| Returns (a : A)
| Raises (e : exception).

Arguments Returns {A} a.
Arguments Raises {A} e.

(** [l[i]] for a Python integer [i]: negative indices count from the end. *)
Definition py_index {A : Type} (l : list A) (i : Z) : outcome A :=
  let n := Z.of_nat (List.length l) in
  let j := if (i <? 0)%Z then (n + i)%Z else i in
  if ((0 <=? j) && (j <? n))%Z
  then match nth_error l (Z.to_nat j) with
       | Some x => Returns x
       | None => Raises IndexError
       end
  else Raises IndexError.

(** The inner function [replace_font_content]. *)
Definition replace_font_content (original_content translated_text : str)
    (m : rmatch) : str :=
  let tag_start := group original_content m 1 in
  let middle_content := group original_content m 2 in
  let tag_end := group original_content m 3 in
  let plain := tag_start ++ translated_text ++ tag_end in
  if contains (lit "<") middle_content then
    let clean_middle := re_sub Pat.any_tag [] middle_content in
    let clean_middle := strip (re_sub Pat.braces [] clean_middle) in
    match clean_middle with
    | [] => plain
    | _ => tag_start ++ replace clean_middle translated_text middle_content
           ++ tag_end
    end
  else plain.

(** [new_content] for a block whose content has a font tag. *)
Definition font_new_content (original_content translated_text : str) : str :=
  let temp_content := re_sub Pat.any_tag [] original_content in
  let temp_content := re_sub Pat.braces [] temp_content in
  let original_text := strip (re_sub Pat.spaces (lit " ") temp_content) in
  match original_text with
  | [] => original_content
  | _ =>
      if contains (lit "<b>") original_content then
        match re_search PatR.complex_pattern original_content with
        | Some m =>
            group original_content m 1 ++ translated_text
            ++ group original_content m 3
        | None =>
            match re_search PatR.simple_complex_pattern original_content with
            | Some m =>
                group original_content m 1 ++ translated_text
                ++ group original_content m 3
            | None => replace original_text translated_text original_content
            end
        end
      else
        re_sub_fn PatR.simple_font_pattern
          (replace_font_content original_content translated_text)
          (Some 1) original_content
  end.

(** The block built from a translation. *)
Definition render_block (struct : block_info) (translated_text : str) : str :=
  let block := block_number struct ++ nl ++ timestamp struct ++ nl in
  if contains (lit "<font") (content struct)
  then block ++ font_new_content (content struct) translated_text
  else block ++ translated_text.

(** The body of [for struct in structure_map]: the block appended to
    [result_blocks]. *)
Definition reconstruct_block (translated_texts : list str)
    (struct : block_info) : outcome str :=
  if negb (has_text struct) then Returns (original_block struct)
  else
    match text_index struct with
    | None => Returns (original_block struct)
    | Some text_index =>
        if (Z.of_nat (List.length translated_texts) <=? text_index)%Z
        then Returns (original_block struct)
        else
          match py_index translated_texts text_index with
          | Raises e => Raises e
          | Returns translated_text =>
              Returns (render_block struct translated_text)
          end
    end.

Fixpoint reconstruct_loop (translated_texts : list str)
    (structure_map : list block_info) (result_blocks : list str)
    : outcome (list str) :=
  match structure_map with
  | [] => Returns result_blocks
  | struct :: rest =>
      match reconstruct_block translated_texts struct with
      | Raises e => Raises e
      | Returns b =>
          reconstruct_loop translated_texts rest (result_blocks ++ [b])
      end
  end.

Definition reconstruct_srt_from_translations (translated_texts : list str)
    (structure_map : list block_info) : outcome str :=
  match reconstruct_loop translated_texts structure_map [] with
  | Raises e => Raises e
  | Returns result_blocks => Returns (join (lit "

") result_blocks)
  end.

(* ===================================================================== *)
(** * Fragment chunker: [split_srt_into_chunks]                           *)
(* ===================================================================== *)

Section Chunker.

(** The token budget oracle [count_tokens] (tiktoken, or [len(text) // 4]
    when it fails): a length, so never negative. *)
Variable count_tokens : str -> nat.

(** [re.findall(subtitle_pattern, srt_text, re.MULTILINE | re.DOTALL)]. *)
Variable findall_subtitles : str -> list str.

(** The subtitles the chunker iterates over. *)
Definition subtitles_of (srt_text : str) : list str :=
  match findall_subtitles srt_text with
  | [] =>
      map strip
        (filter (fun block => negb (str_eqb (strip block) []))
                (split (lit "

") srt_text))
  | subtitles => subtitles
  end.

(** The variables of the loop. *)
Record chunk_state : Type := ChunkState {
  chunks : list str;
  current_chunk : str;
  current_tokens : Z
}.

Definition nonempty (s : str) : bool :=
  match s with [] => false | _ => true end.

(** The body of [for subtitle in subtitles]. *)
Definition chunk_step (effective_max_tokens : Z) (st : chunk_state)
    (subtitle : str) : chunk_state :=
  let subtitle_tokens := Z.of_nat (count_tokens subtitle) in
  if (effective_max_tokens <? subtitle_tokens)%Z then
    let chunks1 :=
      if nonempty (current_chunk st)
      then chunks st ++ [strip (current_chunk st)]
      else chunks st in
    let current_chunk1 := if nonempty (current_chunk st) then [] else current_chunk st in
    let current_tokens1 := if nonempty (current_chunk st) then 0%Z else current_tokens st in
    ChunkState (chunks1 ++ [strip subtitle]) current_chunk1 current_tokens1
  else if (effective_max_tokens <? current_tokens st + subtitle_tokens)%Z then
    ChunkState
      (if nonempty (current_chunk st)
       then chunks st ++ [strip (current_chunk st)]
       else chunks st)
      subtitle subtitle_tokens
  else
    ChunkState
      (chunks st)
      (if nonempty (current_chunk st)
       then current_chunk st ++ lit "

" ++ subtitle
       else subtitle)
      (current_tokens st + subtitle_tokens)%Z.

Definition chunk_finish (st : chunk_state) : list str :=
  if nonempty (current_chunk st)
  then chunks st ++ [strip (current_chunk st)]
  else chunks st.

Definition chunk_subtitles (max_chunk_tokens : Z) (subtitles : list str)
    : list str :=
  let effective_max_tokens := (max_chunk_tokens - 200)%Z in
  chunk_finish
    (fold_left (chunk_step effective_max_tokens) subtitles
               (ChunkState [] [] 0%Z)).

Definition split_srt_into_chunks (srt_text : str) (max_chunk_tokens : Z)
    : list str :=
  chunk_subtitles max_chunk_tokens (subtitles_of srt_text).

End Chunker.

(* ===================================================================== *)
(** * Proper-noun guard                                                   *)
(* ===================================================================== *)

Definition quote : ascii := chr 34.

Module PatG.

(** [[A-Z][a-zA-Z]+] *)
Definition cap_word : regex := Cat (Cls is_AZ) (Plus true (Cls is_azAZ)).

(** [\s+[A-Z][a-zA-Z]+] *)
Definition more_word : regex := Cat (Plus true space) cap_word.

(** [\b[A-Z][a-zA-Z]+(?:\s+[A-Z][a-zA-Z]+){0,2}\b]: the bounded
    repetition tries two further words, then one, then none. *)
Definition proper_noun : regex :=
  Seq [WordB; cap_word; Opt (Cat more_word (Opt more_word)); WordB].

(** One or more characters other than the quote character, captured as
    group 1, between two quote characters. *)
Definition quoted : regex :=
  Seq [chr_ quote; Grp 1 (Plus true (not_chr quote)); chr_ quote].

(** [^[A-Z][a-zA-Z]+(?:\s+[A-Z][a-zA-Z]+)*$] *)
Definition preserved_nouns : regex :=
  Seq [Bos; cap_word; Star true more_word; Eos].

End PatG.

(** [text[:start_pos].count(quote) % 2 == 1] *)
Definition quotes_before (text : str) (start_pos : nat) : nat :=
  count_chr quote (firstn start_pos text) mod 2.

(** The inner function [replace_proper_noun]. *)
Definition replace_proper_noun (text : str) (m : rmatch) : str :=
  let phrase := group0 text m in
  if quotes_before text (m_start m) =? 1 then phrase
  else [quote] ++ phrase ++ [quote].

Definition add_quotes_to_proper_nouns (text : str) : str * list nat :=
  let modified_text :=
    re_sub_fn PatG.proper_noun (replace_proper_noun text) None text in
  let added_quotes_positions :=
    map m_start
        (filter (fun m => negb (quotes_before text (m_start m) =? 1))
                (re_finditer PatG.proper_noun text)) in
  (modified_text, added_quotes_positions).

(** The inner function [should_remove_quotes]. *)
Definition should_remove_quotes (text : str) (m : rmatch) : str :=
  let quoted_content := group text m 1 in
  if is_some (re_match PatG.preserved_nouns quoted_content)
     && forallb (fun word =>
                   match word with
                   | c :: _ => isupper_chr c && isalpha word
                   | [] => false
                   end)
                (split_ws quoted_content)
  then quoted_content
  else group0 text m.

Definition remove_added_quotes (text : str) (added_positions : list nat)
    : str :=
  re_sub_fn PatG.quoted (should_remove_quotes text) None text.

(* ===================================================================== *)
(** * The backend and the effects of a call                               *)
(* ===================================================================== *)

(** A request to the backend, named by the prompt it carries and the
    values the prompt is built from. *)
Inductive request : Type :=
| LegacyPrompt (text source_lang target_lang chunk_info : str)
| TextOnlyPrompt (texts : list str) (source_lang target_lang : str)
| EvolutionaryPrompt (texts : list str)
| SimplePrompt (text_with_quotes : str).

(** What [requests.post] and the reading of its body give: the call
    raises; or it answers with a status and, when [response.json()] and
    [.get("response", "")] give a string, that string. *)
Inductive reply : Type :=
| TransportFailure
| Answer (status_code : Z) (response : option str).

(** What the process does to the outside, in order. *)
Inductive event : Type :=
| Post (r : request)
| Sleep (seconds : Z).

Definition trace : Type := list event.

(** Effectful code: it reads the trace so far and returns its result
    and the events it added, latest last. *)
Definition M (A : Type) : Type := trace -> A * trace.

Definition ret {A : Type} (a : A) : M A := fun t => (a, t).

Definition bind {A B : Type} (m : M A) (f : A -> M B) : M B :=
  fun t => let '(a, t') := m t in f a t'.

Notation "x <- m ;; k" := (bind m (fun x => k))
  (at level 61, m at next level, right associativity).
Notation "m ;;; k" := (bind m (fun _ => k))
  (at level 61, right associativity).

Definition posts (t : trace) : list request :=
  flat_map (fun e => match e with Post r => [r] | Sleep _ => [] end) t.

Definition sleeps (t : trace) : list Z :=
  flat_map (fun e => match e with Sleep d => [d] | Post _ => [] end) t.

(** [range(start, stop, step)] for a positive step. *)
Fixpoint range_go (count start step : nat) : list nat :=
  match count with
  | O => []
  | S count' => start :: range_go count' (start + step) step
  end.

Definition range_step (start stop step : nat) : list nat :=
  range_go ((stop - start + (step - 1)) / step) start step.

Section Invoker.

(** The backend: its answer may depend on everything that happened
    before the request. *)
Variable backend : trace -> request -> reply.

Definition post (r : request) : M reply :=
  fun t => (backend t r, t ++ [Post r]).

Definition sleep (seconds : Z) : M unit :=
  fun t => (tt, t ++ [Sleep seconds]).

(** ** [extract_translations_from_evolutionary_response] *)

Definition leaked_instructions : list str :=
  [lit "never translate"; lit "do not translate"; lit "person names";
   lit "place names"; lit "technique/ability"; lit "capital letter";
   lit "translate only"; lit "texts:"; lit "translations:"].

(** The first loop: the stripped lines that are not empty and repeat
    no instruction. *)
Definition clean_lines_of (response : str) : list str :=
  filter
    (fun line =>
       nonempty line
       && negb (existsb (fun skip => contains skip (lower line))
                        leaked_instructions))
    (map strip (split nl response)).

(** The second loop: the ordinal marker removed, empty lines left out. *)
Definition candidate_translations (response : str) : list str :=
  filter nonempty
    (map (re_sub Pat.ordinal_marker [])
         (filter nonempty (clean_lines_of response))).

(** The [while len(translations) < len(original_texts)] loop.  Every
    iteration appends one element, so [len(original_texts)] iterations
    are enough; [fuel] counts them. *)
Fixpoint pad_while (fuel : nat) (translations original_texts : list str)
    : list str :=
  match fuel with
  | O => translations
  | S fuel' =>
      if List.length translations <? List.length original_texts then
        let idx := List.length translations in
        pad_while fuel'
          (translations ++
             [if idx <? List.length original_texts
              then nth idx original_texts []
              else []])
          original_texts
      else translations
  end.

Definition extract_translations_from_evolutionary_response (response : str)
    (original_texts : list str) : list str :=
  let translations := candidate_translations response in
  let translations :=
    pad_while (List.length original_texts) translations original_texts in
  firstn (List.length original_texts) translations.

(** ** [translate_text_chunk_with_evolutionary_config] *)

Definition translate_text_chunk_with_evolutionary_config (texts : list str)
    (source_lang target_lang : str) : M (list str) :=
  r <- post (EvolutionaryPrompt texts) ;;
  match r with
  | Answer status_code body =>
      if (status_code =? 200)%Z then
        match body with
        | Some response =>
            ret (extract_translations_from_evolutionary_response
                   (strip response) texts)
        | None => ret texts                                 (* except *)
        end
      else ret texts
  | TransportFailure => ret texts                           (* except *)
  end.

(** ** [translate_texts_with_evolutionary_config] *)

Definition chunk_size : nat := 10.

Definition text_chunks_of (texts : list str) : list (list str) :=
  map (fun i => slice_list texts i (i + chunk_size))
      (range_step 0 (List.length texts) chunk_size).

(** The [for i, chunk in enumerate(text_chunks)] loop. *)
Fixpoint translate_chunks_loop (source_lang target_lang : str)
    (n_chunks : nat) (i : nat)
    (text_chunks : list (list str)) (all_translations : list str)
    : M (list str) :=
  match text_chunks with
  | [] => ret all_translations
  | chunk :: rest =>
      translated_chunk <-
        translate_text_chunk_with_evolutionary_config chunk source_lang
          target_lang ;;
      (if i <? n_chunks - 1 then sleep 1 else ret tt) ;;;
      translate_chunks_loop source_lang target_lang n_chunks (S i) rest
        (all_translations ++ translated_chunk)
  end.

Definition translate_texts_with_evolutionary_config (texts : list str)
    (source_lang target_lang : str) : M (list str) :=
  let text_chunks := text_chunks_of texts in
  translate_chunks_loop source_lang target_lang (List.length text_chunks) 0
    text_chunks [].

(** ** The retry policy shared by the two legacy invokers *)

Definition max_retries : nat := 3.
Definition base_delay : Z := 1.
Definition max_delay : Z := 10.

Definition backoff (attempt : nat) : Z :=
  Z.min (base_delay * 2 ^ Z.of_nat attempt) max_delay.

(** The [for attempt in range(max_retries)] loop around one attempt.
    [try_once] gives [Some] when the attempt returns from the function
    and [None] when it ends in the error message (a status other than
    200, or an exception caught by [except Exception]). *)
Fixpoint retry_loop {A : Type} (try_once : M (option A))
    (attempts : list nat) : M (option A) :=
  match attempts with
  | [] => ret None
  | attempt :: rest =>
      r <- try_once ;;
      match r with
      | Some a => ret (Some a)
      | None =>
          (if attempt <? max_retries - 1 then sleep (backoff attempt)
           else ret tt) ;;;
          retry_loop try_once rest
      end
  end.

(** ** [translate_chunk_with_ollama] *)

(** The first line that is a subtitle number; [None] when [int] raises
    on a line that [isdigit] accepted. *)
Fixpoint find_start_idx (lines : list str) (i : nat) : option nat :=
  match lines with
  | [] => Some 0
  | line :: rest =>
      let line := strip line in
      if isdigit line then
        match int line with
        | None => None                                     (* ValueError *)
        | Some n => if (0 <? n)%Z then Some i else find_start_idx rest (S i)
        end
      else find_start_idx rest (S i)
  end.

(** [cleanup_patterns], under [re.DOTALL | re.IGNORECASE]. *)
Definition to_end : regex := Cat (Star true any) Eos.
Definition letter_i : regex := Cls is_azAZ.

Definition cleanup_patterns : list regex :=
  [ (* \n---END SRT---.*$ *)
    Seq [chr_ NL; istr "---END SRT---"; to_end];
    (* \nTranslated SRT output:.*$ *)
    Seq [chr_ NL; istr "Translated SRT output:"; to_end];
    (* \n\*\*.*\*\*.*$ *)
    Seq [chr_ NL; str_ "**"; Star true any; str_ "**"; to_end];
    (* \nNote:.*$ *)
    Seq [chr_ NL; istr "Note:"; to_end];
    (* \nNOTE:.*$ *)
    Seq [chr_ NL; istr "NOTE:"; to_end];
    (* \n\d+\.\s+[A-Z][^:]*:.*$ *)
    Seq [chr_ NL; Plus true digit; chr_ "."; Plus true space; letter_i;
         Star true (not_chr ":"); chr_ ":"; to_end];
    (* \n[A-Z\s]+:.*$ *)
    Seq [chr_ NL; Plus true (Cls (fun c => is_azAZ c || isspace c));
         chr_ ":"; to_end] ].

Definition clean_legacy_response (translated : str) : option str :=
  let lines := split nl translated in
  match find_start_idx lines 0 with
  | None => None
  | Some start_idx =>
      let translated :=
        if 0 <? start_idx then join nl (skipn start_idx lines)
        else translated in
      Some (strip (fold_left (fun t pattern => re_sub pattern [] t)
                             cleanup_patterns translated))
  end.

Definition try_legacy (r : request) : M (option str) :=
  a <- post r ;;
  match a with
  | Answer status_code (Some response) =>
      if (status_code =? 200)%Z
      then ret (clean_legacy_response (strip response))
      else ret None
  | Answer status_code None =>
      ret None
  | TransportFailure => ret None
  end.

Definition translate_chunk_with_ollama
    (text source_lang target_lang chunk_info : str) : M str :=
  r <- retry_loop
         (try_legacy (LegacyPrompt text source_lang target_lang chunk_info))
         (seq 0 max_retries) ;;
  match r with
  | Some translated => ret translated
  | None => ret text
  end.

(** ** [translate_text_only_with_ollama] *)

(** [s.upper()]: below code point 256 only the sharp s changes length;
    the two letters whose capital lies outside the range are kept. *)
Definition upper_chr (c : ascii) : str :=
  if is_az c || in_range 224 246 c || in_range 248 254 c
  then [chr (ord c - 32)]
  else if ord c =? 223 then lit "SS"
  else [c].

Definition upper (s : str) : str := flat_map upper_chr s.

Definition c_cedilla : ascii := chr 231.
Definition a_tilde : ascii := chr 227.
Definition o_tilde : ascii := chr 245.
Definition u_acute : ascii := chr 250.
Definition C_cedilla : ascii := chr 199.
Definition A_tilde : ascii := chr 195.

Definition translation_markers : list str :=
  [lit "TRANSLATION"; lit "TRADU" ++ [C_cedilla; A_tilde] ++ lit "O";
   lit "RESPOSTA"].

(** Helpers for [skip_patterns]: every literal is case-insensitive. *)
Definition iseq (s : str) : regex := Seq (map ichr s).
Definition sp1 : regex := Plus true space.                       (* \s+ *)
Definition sp0 : regex := Star true space.                       (* \s* *)
Definition num_dot : regex := Seq [Bos; Plus true digit; chr_ "."].
Definition instrucoe : str := lit "instru" ++ [c_cedilla; o_tilde] ++ lit "e".
Definition traducoe : str := lit "tradu" ++ [c_cedilla; o_tilde] ++ lit "e".
Definition traducao : str := lit "tradu" ++ [c_cedilla; a_tilde] ++ lit "o".
Definition numero : str := lit "n" ++ [u_acute] ++ lit "mero".
Definition opt_s : regex := Opt (ichr "s").
Definition opt_colon : regex := Opt (chr_ ":").

Definition skip_patterns : list regex :=
  [ (* ^(?:as\s+)?instrucoes?\s+importantes?:? *)
    Seq [Bos; Opt (Cat (istr "as") sp1); iseq instrucoe; opt_s; sp1;
         istr "importante"; opt_s; opt_colon];
    (* ^\d+\.\s*(?:traduza|devolva|mantenha|preserve|use|nao\s+inclua) *)
    Seq [num_dot; sp0;
         Alt (istr "traduza") (Alt (istr "devolva") (Alt (istr "mantenha")
         (Alt (istr "preserve") (Alt (istr "use")
         (Seq [iseq (lit "n" ++ [a_tilde] ++ lit "o"); sp1; istr "inclua"])))))];
    (* ^\d+\.\s*(?:translate|return|keep|preserve|use|do\s+not) *)
    Seq [num_dot; sp0;
         Alt (istr "translate") (Alt (istr "return") (Alt (istr "keep")
         (Alt (istr "preserve") (Alt (istr "use")
         (Seq [istr "do"; sp1; istr "not"])))))];
    (* important\s+instrucoes?:? *)
    Seq [istr "important"; sp1; iseq instrucoe; opt_s; opt_colon];
    (* retorne\s+apenas *)
    Seq [istr "retorne"; sp1; istr "apenas"];
    (* return\s+only *)
    Seq [istr "return"; sp1; istr "only"];
    (* uma\s+por\s+linha *)
    Seq [istr "uma"; sp1; istr "por"; sp1; istr "linha"];
    (* one\s+per\s+line *)
    Seq [istr "one"; sp1; istr "per"; sp1; istr "line"];
    (* textos?\s+de\s+entrada *)
    Seq [istr "texto"; opt_s; sp1; istr "de"; sp1; istr "entrada"];
    (* input\s+texts? *)
    Seq [istr "input"; sp1; istr "text"; opt_s];
    (* same\s+number\s+of\s+lines *)
    Seq [istr "same"; sp1; istr "number"; sp1; istr "of"; sp1; istr "lines"];
    (* mesmo\s+numero\s+de\s+linhas *)
    Seq [istr "mesmo"; sp1; iseq numero; sp1; istr "de"; sp1; istr "linhas"];
    (* ^\d+\.$ *)
    Seq [num_dot; Eos];
    (* ^\d+\s*$ *)
    Seq [Bos; Plus true digit; sp0; Eos];
    (* ^(?:input\s+)?texts?:?\s*$ *)
    Seq [Bos; Opt (Cat (istr "input") sp1); istr "text"; opt_s; opt_colon;
         sp0; Eos];
    (* ^translations?:?\s*$ *)
    Seq [Bos; istr "translation"; opt_s; opt_colon; sp0; Eos];
    (* ^traducao|traducoes:?\s*$ *)
    Alt (Seq [Bos; iseq traducao])
        (Seq [iseq traducoe; ichr "s"; opt_colon; sp0; Eos]);
    (* important\s+instructions? *)
    Seq [istr "important"; sp1; istr "instruction"; opt_s];
    (* texto\s+numerado *)
    Seq [istr "texto"; sp1; istr "numerado"];
    (* sound\s+effects *)
    Seq [istr "sound"; sp1; istr "effects"];
    (* efeitos?\s+sonoros? *)
    Seq [istr "efeito"; opt_s; sp1; istr "sonoro"; opt_s];
    (* natural.*express *)
    Seq [istr "natural"; Star true dot; istr "express"];
    (* original\s+text *)
    Seq [istr "original"; sp1; istr "text"];
    (* texto\s+original *)
    Seq [istr "texto"; sp1; istr "original"];
    (* explanations? *)
    Seq [istr "explanation"; opt_s];
    (* explicacoes? *)
    Seq [iseq (lit "explica" ++ [c_cedilla; o_tilde] ++ lit "e"); opt_s];
    (* numbering *)
    istr "numbering";
    (* numeracao *)
    iseq (lit "numera" ++ [c_cedilla; a_tilde] ++ lit "o");
    (* important\s+instrucao *)
    Seq [istr "important"; sp1;
         iseq (lit "instru" ++ [c_cedilla; a_tilde] ++ lit "o")];
    (* textos\s+de\s+entrada:? *)
    Seq [istr "textos"; sp1; istr "de"; sp1; istr "entrada"; opt_colon];
    (* retorne?\s+apenas\s+as\s+traducoes *)
    Seq [istr "retorn"; Opt (ichr "e"); sp1; istr "apenas"; sp1; istr "as";
         sp1; iseq traducoe; ichr "s"];
    (* return\s+only\s+the\s+translations *)
    Seq [istr "return"; sp1; istr "only"; sp1; istr "the"; sp1;
         istr "translations"];
    (* uma\s+por\s+linha *)
    Seq [istr "uma"; sp1; istr "por"; sp1; istr "linha"];
    (* mantenha\s+o\s+mesmo\s+numero *)
    Seq [istr "mantenha"; sp1; istr "o"; sp1; istr "mesmo"; sp1; iseq numero];
    (* keep\s+the\s+same\s+number *)
    Seq [istr "keep"; sp1; istr "the"; sp1; istr "same"; sp1; istr "number"] ].

(** [^\d+\.\s+] *)
Definition numbered_prefix : regex := Seq [num_dot; sp1].

(** The body of [for line in lines]: what the line adds to
    [translations]. *)
Definition text_only_line (line0 : str) : list str :=
  let line := strip line0 in
  if negb (nonempty line) then []
  else if existsb (fun marker => contains marker (upper line))
                  translation_markers then []
  else if existsb (fun pattern => is_some (re_search pattern line))
                  skip_patterns then []
  else
    let line :=
      if is_some (re_match numbered_prefix line)
      then re_sub numbered_prefix [] line
      else line in
    if nonempty line then [line] else [].

(** The reconciliation after the loop. *)
Definition reconcile_text_only (translations texts : list str) : list str :=
  if List.length translations <? List.length texts then
    pad_while (List.length texts) translations texts
  else if List.length texts <? List.length translations then
    firstn (List.length texts) translations
  else translations.

Definition try_text_only (texts : list str) (source_lang target_lang : str)
    : M (option (list str)) :=
  a <- post (TextOnlyPrompt texts source_lang target_lang) ;;
  match a with
  | Answer status_code (Some response) =>
      if (status_code =? 200)%Z then
        let lines := split nl (strip response) in
        let translations := flat_map text_only_line lines in
        ret (Some (reconcile_text_only translations texts))
      else ret None
  | Answer status_code None => ret None
  | TransportFailure => ret None
  end.

(** The result is [None] where the Python function ends without a
    [return] statement and so gives [None]. *)
Definition translate_text_only_with_ollama (texts : list str)
    (source_lang target_lang : str) : M (option (list str)) :=
  match texts with
  | [] => ret (Some [])
  | _ =>
      retry_loop (try_text_only texts source_lang target_lang)
                 (seq 0 max_retries)
  end.

(** ** [translate_simple_text_with_evolutionary_config] *)

(** [^(?:traducao|translation):\s*] under [re.IGNORECASE] *)
Definition answer_label : regex :=
  Seq [Bos; Alt (iseq traducao) (istr "translation"); chr_ ":"; sp0].

Definition translate_simple_text_with_evolutionary_config
    (text source_lang target_lang : str) : M str :=
  let '(text_with_quotes, added_positions) :=
    add_quotes_to_proper_nouns text in
  a <- post (SimplePrompt text_with_quotes) ;;
  match a with
  | Answer status_code (Some response) =>
      if (status_code =? 200)%Z then
        match strip response with
        | [] => ret text
        | translated =>
            let translated := strip (re_sub answer_label [] translated) in
            ret (remove_added_quotes translated added_positions)
        end
      else ret text
  | Answer status_code None => ret text                     (* except *)
  | TransportFailure => ret text                            (* except *)
  end.

(** ** The entry point [translate_srt_optimized] *)

Definition translate_srt_optimized (srt_content source_lang target_lang : str)
    : M (outcome str) :=
  if is_some (re_search Pat.srt_shape srt_content) then
    let '(texts_to_translate, structure_map) :=
      extract_text_from_srt srt_content in
    match texts_to_translate with
    | [] => ret (Returns srt_content)
    | _ =>
        all_translations <-
          translate_texts_with_evolutionary_config texts_to_translate
            source_lang target_lang ;;
        ret (reconstruct_srt_from_translations all_translations structure_map)
    end
  else
    translated <-
      translate_simple_text_with_evolutionary_config srt_content source_lang
        target_lang ;;
    ret (Returns translated).

End Invoker.

(* ===================================================================== *)
(** * The structured prompt                                               *)
(* ===================================================================== *)

(** [str(n)] for a natural number. *)
Definition str_of_nat (n : nat) : str :=
  lit (NilZero.string_of_uint (Nat.to_uint n)).

(** One line of the numbered list of a prompt: [f'{i+1}. {text}']. *)
Definition numbered_line (i : nat) (text : str) : str :=
  str_of_nat (i + 1) ++ lit ". " ++ text.

(** [chr(10).join(f'{i+1}. {text}' for i, text in enumerate(texts))] *)
Definition numbered_lines (texts : list str) : str :=
  join nl (map (fun it => numbered_line (fst it) (snd it))
               (combine (seq 0 (List.length texts)) texts)).

(** The prompt of [translate_text_chunk_with_evolutionary_config], the
    one [EvolutionaryPrompt texts] stands for: the text before the
    numbered list, the list, the text after it.  The line about place
    names ends with a blank, as in the source. *)
Definition evolutionary_prompt_before : str :=
  lit "NEVER translate words inside quotes IF they start with capital letters.

DO NOT translate:
- Person names (John, Maria, etc.)
- Place names (Tokyo, New York, etc.) 
- Technique/ability names (especially capitalized ones)
- Any word starting with capital letter

Translate ONLY the numbered texts to Brazilian Portuguese.

TEXTS:
".

Definition evolutionary_prompt_after : str := lit "

TRANSLATIONS:".

Definition evolutionary_prompt (texts : list str) : str :=
  evolutionary_prompt_before ++ numbered_lines texts
  ++ evolutionary_prompt_after.

(* ===================================================================== *)
(** * The legacy entry point [translate_with_ollama]                      *)
(* ===================================================================== *)

(** It pauses half a second between two chunks: its events are those
    of the invoker, and that pause. *)
Inductive legacy_event : Type :=
| Invoker (e : event)
| SleepHalfSecond.

Definition legacy_trace : Type := list legacy_event.

Definition safe_chunk_size : Z := 256.

Section Legacy.

(** The backend, whose answer may depend on everything that happened
    before the request, and the two oracles of the chunker. *)
Variable backend : legacy_trace -> request -> reply.
Variable count_tokens : str -> nat.
Variable findall_subtitles : str -> list str.

(** A call of [translate_chunk_with_ollama] after the events [lt]. *)
Definition invoke_chunk (text source_lang target_lang chunk_info : str)
    (lt : legacy_trace) : str * legacy_trace :=
  let '(translated, t) :=
    translate_chunk_with_ollama
      (fun t r => backend (lt ++ map Invoker t) r)
      text source_lang target_lang chunk_info [] in
  (translated, lt ++ map Invoker t).

(** [f"Processing chunk {i+1}/{len(chunks)} ({chunk_tokens} tokens)"] *)
Definition chunk_info_of (i n_chunks chunk_tokens : nat) : str :=
  lit "Processing chunk " ++ str_of_nat (i + 1) ++ lit "/"
  ++ str_of_nat n_chunks ++ lit " (" ++ str_of_nat chunk_tokens
  ++ lit " tokens)".

(** The [for i, chunk in enumerate(chunks)] loop. *)
Fixpoint translate_legacy_chunks (source_lang target_lang : str)
    (n_chunks i : nat) (chunks translated_chunks : list str)
    (lt : legacy_trace) : list str * legacy_trace :=
  match chunks with
  | [] => (translated_chunks, lt)
  | chunk :: rest =>
      let chunk_tokens := count_tokens chunk in
      let chunk_info := chunk_info_of i n_chunks chunk_tokens in
      let '(translated_chunk, lt1) :=
        invoke_chunk chunk source_lang target_lang chunk_info lt in
      let lt2 :=
        if i <? n_chunks - 1 then lt1 ++ [SleepHalfSecond] else lt1 in
      translate_legacy_chunks source_lang target_lang n_chunks (S i) rest
        (translated_chunks ++ [translated_chunk]) lt2
  end.

Definition translate_with_ollama (text source_lang target_lang : str)
    (lt : legacy_trace) : str * legacy_trace :=
  if negb (nonempty text) || (List.length (strip text) <? 2) then (text, lt)
  else
    let text_tokens := Z.of_nat (count_tokens text) in
    if (text_tokens <=? safe_chunk_size)%Z then
      invoke_chunk text source_lang target_lang [] lt
    else
      let chunks :=
        split_srt_into_chunks count_tokens findall_subtitles text
          safe_chunk_size in
      let '(translated_chunks, lt') :=
        translate_legacy_chunks source_lang target_lang
          (List.length chunks) 0 chunks [] lt in
      (join (lit "

") translated_chunks, lt').

End Legacy.

(* ===================================================================== *)
(** * Properties of the parser                                            *)
(* ===================================================================== *)

(** The blocks the parser iterates over, each stripped as the loop
    body does first. *)
Definition blocks_of (srt_content : str) : list str :=
  map strip (re_split Pat.blank_line (strip srt_content)).

(** The three checks, in the words of the specification, with "is an
    integer" read as the source does: [int()] accepts the line. *)
Definition first_line (block : str) : str := nth 0 (split nl block) [].
Definition second_line (block : str) : str := nth 1 (split nl block) [].

Definition has_two_lines (block : str) : bool :=
  2 <=? List.length (split nl block).
Definition parses_as_integer (line : str) : bool := is_some (int (strip line)).
Definition matches_timestamp_range (line : str) : bool :=
  is_some (re_match Pat.timestamp_range (strip line)).

Definition passes_checks (block : str) : bool :=
  has_two_lines block
  && parses_as_integer (first_line block)
  && matches_timestamp_range (second_line block).

(** "The first line is a positive integer", as the claim words it. *)
Definition is_positive_integer (line : str) : bool :=
  match int (strip line) with
  | Some n => (0 <? n)%Z
  | None => false
  end.

Lemma strip_nil : strip [] = [].
Proof. reflexivity. Qed.

Lemma block_header_passes (block : str) :
  is_some (block_header block) = passes_checks block.
Proof.
  unfold block_header, passes_checks, has_two_lines, parses_as_integer,
    matches_timestamp_range, first_line, second_line.
  destruct block as [|c block'].
  - reflexivity.
  - set (lines := split nl (c :: block')).
    destruct (Nat.ltb_spec (List.length lines) 2) as [Hlt|Hge].
    + replace (2 <=? List.length lines) with false
        by (symmetry; apply Nat.leb_gt; lia).
      reflexivity.
    + replace (2 <=? List.length lines) with true
        by (symmetry; apply Nat.leb_le; lia).
      replace (1 <? List.length lines) with true
        by (symmetry; apply Nat.ltb_lt; lia).
      simpl.
      destruct (int (strip (nth 0 lines []))); simpl; [|reflexivity].
      destruct (re_match Pat.timestamp_range (strip (nth 1 lines [])));
        reflexivity.
Qed.

(** The fragment a block with text contributed. *)
Definition fragment_of (e : block_info) : str :=
  match extracted_texts e with
  | Some extracted => combined_text_of extracted
  | None => []
  end.

(** The block has its fragment at its index. *)
Definition aligned (texts : list str) (e : block_info) : Prop :=
  has_text e = true ->
  exists k : nat,
    text_index e = Some (Z.of_nat k)
    /\ nth_error texts k = Some (fragment_of e).

(** What one iteration of the block loop does to the two lists. *)
Inductive block_effect (st : parse_state) (block : str)
    : parse_state -> Prop :=
| Dropped :
    passes_checks (strip block) = false ->
    block_effect st block st
| KeptWithoutText (e : block_info) :
    passes_checks (strip block) = true ->
    has_text e = false -> text_index e = None ->
    original_block e = strip block ->
    block_effect st block (fst st, snd st ++ [e])
| KeptWithText (e : block_info) (t : str) :
    passes_checks (strip block) = true ->
    has_text e = true ->
    text_index e = Some (Z.of_nat (List.length (fst st))) ->
    original_block e = strip block ->
    t = fragment_of e ->
    block_effect st block (fst st ++ [t], snd st ++ [e]).

Lemma parse_block_effect (st : parse_state) (block : str) :
  block_effect st block (parse_block st block).
Proof.
  destruct st as [texts smap].
  unfold parse_block.
  pose proof (block_header_passes (strip block)) as Hp.
  destruct (block_header (strip block)) as [[bn ts]|]; simpl in Hp.
  - destruct (strip (join nl _)) as [|c0 content0].
    + apply (@KeptWithoutText (texts, smap) block
               (BlockInfo bn ts [] None false None (strip block))); auto.
    + destruct (extract_block_texts (c0 :: content0)) as [|x xs].
      * apply (@KeptWithoutText (texts, smap) block
                 (BlockInfo bn ts (c0 :: content0) None false None
                            (strip block))); auto.
      * destruct (List.length (combined_text_of (x :: xs)) <? 2).
        -- apply (@KeptWithoutText (texts, smap) block
                    (BlockInfo bn ts (c0 :: content0) None false None
                               (strip block))); auto.
        -- apply (@KeptWithText (texts, smap) block
                    (BlockInfo bn ts (c0 :: content0)
                       (Some (Z.of_nat (List.length texts))) true
                       (Some (x :: xs)) (strip block))
                    (combined_text_of (x :: xs))); auto.
  - apply Dropped. auto.
Qed.

Definition text_blocks (structure_map : list block_info) : list block_info :=
  filter has_text structure_map.

(** The invariant of the block loop. *)
Record parse_inv (blocks : list str) (st : parse_state) : Prop := ParseInv {
  inv_kept :
    map original_block (snd st) = filter passes_checks (map strip blocks);
  inv_indices :
    map text_index (text_blocks (snd st))
    = map (fun i => Some (Z.of_nat i)) (seq 0 (List.length (fst st)));
  inv_no_index :
    Forall (fun e => has_text e = false -> text_index e = None) (snd st);
  inv_aligned : Forall (aligned (fst st)) (snd st)
}.

Lemma aligned_grow (texts : list str) (t : str) (e : block_info) :
  aligned texts e -> aligned (texts ++ [t]) e.
Proof.
  intros H Hh. destruct (H Hh) as [k [Hi Hk]].
  exists k. split; [exact Hi|].
  rewrite nth_error_app1; [exact Hk|].
  apply nth_error_Some. congruence.
Qed.

Lemma parse_inv_step (blocks : list str) (st : parse_state) (block : str) :
  parse_inv blocks st ->
  parse_inv (blocks ++ [block]) (parse_block st block).
Proof.
  intros [Hk Hi Hn Ha].
  destruct (parse_block_effect st block)
    as [Hp | e Hp Hh Ht Ho | e t Hp Hh Ht Ho Hf];
    constructor; simpl; unfold text_blocks in *;
    rewrite ?map_app, ?filter_app, ?length_app, ?seq_app, ?map_app; simpl;
    rewrite ?Hp, ?Hh; simpl; rewrite ?app_nil_r.
  - exact Hk.
  - exact Hi.
  - exact Hn.
  - exact Ha.
  - now rewrite Hk, Ho.
  - exact Hi.
  - apply Forall_app; split; [exact Hn | constructor; auto].
  - apply Forall_app; split; [exact Ha | constructor; auto].
    intros Hh'. congruence.
  - now rewrite Hk, Ho.
  - now rewrite Hi, Ht.
  - apply Forall_app; split; [exact Hn | constructor; [congruence | auto]].
  - apply Forall_app; split.
    + eapply Forall_impl; [|exact Ha]. intros a. apply aligned_grow.
    + constructor; [|constructor].
      intros _. exists (List.length (fst st)). split; [exact Ht|].
      rewrite nth_error_app2 by lia. rewrite Nat.sub_diag. simpl. now rewrite Hf.
Qed.

Lemma parse_inv_fold (blocks done : list str) (st : parse_state) :
  parse_inv done st ->
  parse_inv (done ++ blocks) (fold_left parse_block blocks st).
Proof.
  revert done st.
  induction blocks as [|b blocks IH]; intros done st H; simpl.
  - now rewrite app_nil_r.
  - replace (done ++ b :: blocks) with ((done ++ [b]) ++ blocks)
      by (rewrite <- app_assoc; reflexivity).
    apply IH, parse_inv_step, H.
Qed.

Lemma parse_inv_init : parse_inv [] ([], []).
Proof. constructor; simpl; auto. Qed.

Lemma extract_inv (srt_content : str) :
  parse_inv (re_split Pat.blank_line (strip srt_content))
            (extract_text_from_srt srt_content).
Proof.
  unfold extract_text_from_srt.
  apply (parse_inv_fold _ [] ([], [])), parse_inv_init.
Qed.

(* ===================================================================== *)
(** * Properties of the count reconciliation                              *)
(* ===================================================================== *)

Lemma skipn_nth_cons {A : Type} (d : A) (l : list A) (k : nat) :
  k < List.length l -> skipn k l = nth k l d :: skipn (S k) l.
Proof.
  revert k. induction l as [|x l IH]; intros k Hk; simpl in Hk.
  - lia.
  - destruct k as [|k]; [reflexivity|].
    simpl. apply IH. lia.
Qed.

(** The padding loop leaves by its condition, whatever fuel at least
    the number of missing elements it is given. *)
Lemma pad_while_spec (fuel : nat) (translations original_texts : list str) :
  List.length original_texts - List.length translations <= fuel ->
  pad_while fuel translations original_texts
  = translations ++ skipn (List.length translations) original_texts.
Proof.
  revert translations.
  induction fuel as [|fuel IH]; intros translations Hfuel; simpl.
  - rewrite skipn_all2 by lia. now rewrite app_nil_r.
  - destruct (Nat.ltb_spec (List.length translations)
                           (List.length original_texts)) as [Hlt|Hge].
    + rewrite IH by (rewrite length_app; simpl; lia).
      rewrite length_app, <- app_assoc. simpl.
      rewrite Nat.add_1_r.
      f_equal. symmetry. apply skipn_nth_cons, Hlt.
    + rewrite skipn_all2 by lia. now rewrite app_nil_r.
Qed.

Lemma pad_while_exits (translations original_texts : list str) :
  List.length original_texts
  <= List.length
       (pad_while (List.length original_texts) translations original_texts).
Proof.
  rewrite pad_while_spec by lia.
  rewrite length_app, length_skipn. lia.
Qed.

Definition reconciled (candidates original_texts : list str) : list str :=
  firstn (List.length original_texts)
         (candidates ++ skipn (List.length candidates) original_texts).

Lemma reconciled_length (candidates original_texts : list str) :
  List.length (reconciled candidates original_texts)
  = List.length original_texts.
Proof.
  unfold reconciled.
  rewrite length_firstn, length_app, length_skipn. lia.
Qed.

Lemma reconciled_nth (candidates original_texts : list str) (i : nat) :
  nth_error (reconciled candidates original_texts) i
  = if i <? List.length original_texts
    then if i <? List.length candidates
         then nth_error candidates i
         else nth_error original_texts i
    else None.
Proof.
  unfold reconciled.
  destruct (Nat.ltb_spec i (List.length original_texts)) as [Hi|Hi].
  - rewrite nth_error_firstn.
    replace (i <? List.length original_texts) with true
      by (symmetry; apply Nat.ltb_lt; exact Hi).
    destruct (Nat.ltb_spec i (List.length candidates)) as [Hc|Hc].
    + now rewrite nth_error_app1.
    + rewrite nth_error_app2 by lia.
      rewrite nth_error_skipn. f_equal. lia.
  - apply nth_error_None.
    rewrite length_firstn. lia.
Qed.

Lemma candidate_translations_nonempty (response : str) :
  Forall (fun c => c <> []) (candidate_translations response).
Proof.
  unfold candidate_translations.
  apply Forall_forall. intros c Hc.
  apply filter_In in Hc. destruct Hc as [_ Hc].
  destruct c; [discriminate | congruence].
Qed.

Lemma extract_translations_reconciled (response : str)
    (original_texts : list str) :
  extract_translations_from_evolutionary_response response original_texts
  = reconciled (candidate_translations response) original_texts.
Proof.
  unfold extract_translations_from_evolutionary_response, reconciled.
  now rewrite pad_while_spec by lia.
Qed.

Lemma reconcile_text_only_reconciled (translations texts : list str) :
  reconcile_text_only translations texts = reconciled translations texts.
Proof.
  unfold reconcile_text_only, reconciled.
  destruct (Nat.ltb_spec (List.length translations) (List.length texts))
    as [Hlt|Hge].
  - rewrite pad_while_spec by lia.
    rewrite firstn_all2; [reflexivity|].
    rewrite length_app, length_skipn. lia.
  - rewrite skipn_all2 by lia. rewrite app_nil_r.
    destruct (Nat.ltb_spec (List.length texts) (List.length translations))
      as [Hgt|Hle].
    + reflexivity.
    + now rewrite firstn_all2 by lia.
Qed.

(** C1. Response cleaning and count reconciliation
    ([extract_translations_from_evolutionary_response], and the same
    step inside [translate_text_only_with_ollama]) return exactly one
    element per input fragment: position [i] holds the [i]-th candidate
    line when the response has one, and otherwise the original fragment
    of the same index [i]; candidates beyond the input count are cut
    off.  A candidate line is never empty, so an empty string can only
    appear where it is the original fragment itself. *)
Theorem C1_count_reconciliation (response : str)
    (translations original_texts : list str) :
  let candidates := candidate_translations response in
  let result :=
    extract_translations_from_evolutionary_response response original_texts in
  List.length result = List.length original_texts
  /\ (forall i : nat,
        nth_error result i
        = if i <? List.length original_texts
          then if i <? List.length candidates
               then nth_error candidates i
               else nth_error original_texts i
          else None)
  /\ Forall (fun c => c <> []) candidates
  /\ List.length (reconcile_text_only translations original_texts)
     = List.length original_texts
  /\ (forall i : nat,
        nth_error (reconcile_text_only translations original_texts) i
        = if i <? List.length original_texts
          then if i <? List.length translations
               then nth_error translations i
               else nth_error original_texts i
          else None).
Proof.
  cbv zeta.
  rewrite extract_translations_reconciled, reconcile_text_only_reconciled.
  repeat split.
  - apply reconciled_length.
  - intro i. apply reconciled_nth.
  - apply candidate_translations_nonempty.
  - apply reconciled_length.
  - intro i. apply reconciled_nth.
Qed.

(* ===================================================================== *)
(** * Properties of the parser: the claims                                *)
(* ===================================================================== *)

(** C4. The fragment indices of the blocks with text are, in document
    order, exactly 0, 1, ..., n-1 for n the length of the fragment
    list (so they are unique, contiguous from 0 and ordered, one per
    such block); a block without text carries no index; and the number
    of blocks with text is the length of the fragment list. *)
Theorem C4_fragment_indices (srt_content : str) :
  let texts_to_translate := fst (extract_text_from_srt srt_content) in
  let structure_map := snd (extract_text_from_srt srt_content) in
  map text_index (text_blocks structure_map)
  = map (fun i => Some (Z.of_nat i)) (seq 0 (List.length texts_to_translate))
  /\ Forall (fun e => has_text e = false -> text_index e = None) structure_map
  /\ List.length texts_to_translate = List.length (text_blocks structure_map).
Proof.
  cbv zeta.
  destruct (extract_inv srt_content) as [_ Hi Hn _].
  repeat split; auto.
  apply (f_equal (@List.length _)) in Hi.
  rewrite !length_map, length_seq in Hi. now symmetry.
Qed.

Definition doc_zero_number : str := lit "0
00:00:01,000 --> 00:00:02,000
Hello".

Definition doc_negative_number : str := lit "-5
00:00:01,000 --> 00:00:02,000
Hello".

(** C6, as stated, fails: a block whose first line is 0 or -5 is not a
    positive integer, and the parser keeps it. *)
Lemma C6_counterexample :
  is_positive_integer (first_line doc_zero_number) = false
  /\ map original_block (snd (extract_text_from_srt doc_zero_number))
     = [doc_zero_number]
  /\ fst (extract_text_from_srt doc_zero_number) = [lit "Hello"]
  /\ is_positive_integer (first_line doc_negative_number) = false
  /\ map original_block (snd (extract_text_from_srt doc_negative_number))
     = [doc_negative_number].
Proof. vm_compute. repeat split. Qed.

(** C6, amended.  A block is left out of the fragment list and of the
    structure map exactly when it has fewer than two lines, or [int()]
    rejects its first line, or its second line does not start with a
    timestamp range; a block that passes the three checks always gets
    an entry.  So the structure map lists, in order, the blocks of the
    document that pass. *)
Theorem C6_blocks_kept_iff_checks (srt_content : str) :
  map original_block (snd (extract_text_from_srt srt_content))
  = filter passes_checks (blocks_of srt_content)
  /\ (forall (st : parse_state) (block : str),
        if passes_checks (strip block)
        then exists e : block_info,
               snd (parse_block st block) = snd st ++ [e]
               /\ original_block e = strip block
        else parse_block st block = st).
Proof.
  split.
  - destruct (extract_inv srt_content) as [Hk _ _ _]. exact Hk.
  - intros st block.
    destruct (parse_block_effect st block)
      as [Hp | e Hp Hh Ht Ho | e t Hp Hh Ht Ho Hf];
      rewrite Hp; [reflexivity | exists e; auto | exists e; auto].
Qed.

(* ===================================================================== *)
(** * Properties of the structured translation pass                       *)
(* ===================================================================== *)

Lemma firstn_add_skipn {A : Type} (a b : nat) (l : list A) :
  firstn a l ++ firstn b (skipn a l) = firstn (a + b) l.
Proof.
  revert l. induction a as [|a IH]; intros l; simpl.
  - reflexivity.
  - destruct l as [|x l]; simpl.
    + now rewrite firstn_nil.
    + now rewrite IH.
Qed.

Lemma skipn_skipn_add {A : Type} (a b : nat) (l : list A) :
  skipn b (skipn a l) = skipn (a + b) l.
Proof.
  revert l. induction a as [|a IH]; intros l; simpl.
  - reflexivity.
  - destruct l as [|x l]; simpl.
    + now rewrite skipn_nil.
    + apply IH.
Qed.

Definition slices (texts : list str) (count start : nat) : list (list str) :=
  map (fun i => slice_list texts i (i + chunk_size))
      (range_go count start chunk_size).

Lemma slice_list_chunk (texts : list str) (i : nat) :
  slice_list texts i (i + chunk_size) = firstn chunk_size (skipn i texts).
Proof. unfold slice_list. f_equal. lia. Qed.

Lemma slices_concat (texts : list str) (count start : nat) :
  concat (slices texts count start)
  = firstn (chunk_size * count) (skipn start texts).
Proof.
  unfold slices.
  revert start. induction count as [|count IH]; intros start.
  - now rewrite Nat.mul_0_r.
  - cbn [range_go map concat].
    rewrite IH, slice_list_chunk.
    rewrite <- (skipn_skipn_add start chunk_size texts).
    rewrite firstn_add_skipn. f_equal. lia.
Qed.

Lemma chunk_count_bounds (m : nat) :
  let count := (m + (chunk_size - 1)) / chunk_size in
  m <= chunk_size * count < m + chunk_size.
Proof.
  cbv zeta. unfold chunk_size.
  pose proof (Nat.div_mod_eq (m + (10 - 1)) 10) as E.
  pose proof (Nat.mod_upper_bound (m + (10 - 1)) 10) as U.
  lia.
Qed.

Lemma text_chunks_concat (texts : list str) :
  concat (text_chunks_of texts) = texts.
Proof.
  unfold text_chunks_of, range_step.
  change (concat (slices texts
            ((List.length texts - 0 + (chunk_size - 1)) / chunk_size) 0)
          = texts).
  rewrite slices_concat. simpl skipn.
  apply firstn_all2.
  rewrite Nat.sub_0_r.
  pose proof (chunk_count_bounds (List.length texts)) as B. cbv zeta in B.
  lia.
Qed.

(** The sizes of the chunks: as many full chunks as fit, then the rest. *)
Definition chunk_sizes (n : nat) : list nat :=
  repeat chunk_size (n / chunk_size)
  ++ (if n mod chunk_size =? 0 then [] else [n mod chunk_size]).

Lemma slices_sizes (texts : list str) (count start : nat) :
  count = (List.length texts - start + (chunk_size - 1)) / chunk_size ->
  map (@List.length str) (slices texts count start)
  = chunk_sizes (List.length texts - start).
Proof.
  unfold slices, chunk_sizes.
  revert start. induction count as [|count IH]; intros start Hc.
  - pose proof (chunk_count_bounds (List.length texts - start)) as B.
    cbv zeta in B. rewrite <- Hc in B.
    assert (Hm : List.length texts - start = 0) by lia.
    rewrite Hm. reflexivity.
  - cbn [range_go map].
    rewrite slice_list_chunk, length_firstn, length_skipn.
    set (m := List.length texts - start) in *.
    pose proof (chunk_count_bounds m) as B. cbv zeta in B.
    rewrite <- Hc in B.
    unfold chunk_size in *.
    pose proof (Nat.div_mod_eq m 10) as E.
    pose proof (Nat.mod_upper_bound m 10) as U.
    destruct (Nat.le_gt_cases 10 m) as [Hbig|Hsmall].
    + (* a full chunk, then the chunks of the rest *)
      assert (Hc' : count
                    = (List.length texts - (start + 10) + (10 - 1)) / 10).
      { pose proof (chunk_count_bounds (List.length texts - (start + 10))) as B'.
        cbv zeta in B'. unfold chunk_size in B'.
        set (c' := (List.length texts - (start + 10) + (10 - 1)) / 10) in *.
        subst m. lia. }
      rewrite (IH (start + 10) Hc').
      replace (List.length texts - (start + 10)) with (m - 10)
        by (subst m; lia).
      assert (Hd : m / 10 = S ((m - 10) / 10)).
      { pose proof (Nat.div_mod_eq (m - 10) 10) as E'.
        pose proof (Nat.mod_upper_bound (m - 10) 10) as U'.
        symmetry. apply (Nat.div_unique m 10 _ ((m - 10) mod 10)); lia. }
      assert (Hr : m mod 10 = (m - 10) mod 10).
      { pose proof (Nat.div_mod_eq (m - 10) 10) as E'.
        pose proof (Nat.mod_upper_bound (m - 10) 10) as U'.
        symmetry. apply (Nat.mod_unique m 10 (S ((m - 10) / 10))); lia. }
      rewrite Hd, Hr. cbn [repeat app].
      rewrite Nat.min_l by lia. reflexivity.
    + (* the last, short chunk *)
      assert (count = 0) by lia. subst count. cbn [range_go map].
      rewrite Nat.div_small by lia.
      rewrite Nat.mod_small by lia.
      rewrite Nat.min_r by lia.
      destruct (Nat.eqb_spec m 0) as [Hz|Hnz]; [lia | reflexivity].
Qed.

Lemma text_chunks_sizes (texts : list str) :
  map (@List.length str) (text_chunks_of texts)
  = chunk_sizes (List.length texts).
Proof.
  unfold text_chunks_of, range_step.
  change (map (@List.length str)
              (slices texts
                 ((List.length texts - 0 + (chunk_size - 1)) / chunk_size) 0)
          = chunk_sizes (List.length texts)).
  rewrite (slices_sizes texts _ 0 eq_refl).
  now rewrite Nat.sub_0_r.
Qed.

Lemma bind_run {A B : Type} (m : M A) (f : A -> M B) (t : trace) :
  bind m f t = f (fst (m t)) (snd (m t)).
Proof. unfold bind. now destruct (m t). Qed.

Section Pass.

Variable backend : trace -> request -> reply.
Variables source_lang target_lang : str.

(** [r] is what the chunk invoker returns for [chunk] at some moment. *)
Definition chunk_result (chunk r : list str) : Prop :=
  exists t : trace,
    r = fst (translate_text_chunk_with_evolutionary_config backend chunk
               source_lang target_lang t).

Lemma translate_text_chunk_trace (chunk : list str) (t : trace) :
  snd (translate_text_chunk_with_evolutionary_config backend chunk
         source_lang target_lang t)
  = t ++ [Post (EvolutionaryPrompt chunk)].
Proof.
  unfold translate_text_chunk_with_evolutionary_config, bind, post, ret.
  destruct (backend t (EvolutionaryPrompt chunk)) as [|code [response|]];
    try reflexivity;
    destruct (code =? 200)%Z; reflexivity.
Qed.

Lemma translate_text_chunk_length (chunk : list str) (t : trace) :
  List.length (fst (translate_text_chunk_with_evolutionary_config backend
                      chunk source_lang target_lang t))
  = List.length chunk.
Proof.
  unfold translate_text_chunk_with_evolutionary_config, bind, post, ret.
  destruct (backend t (EvolutionaryPrompt chunk)) as [|code [response|]];
    try reflexivity;
    destruct (code =? 200)%Z; try reflexivity.
  simpl. rewrite extract_translations_reconciled. apply reconciled_length.
Qed.

Lemma posts_app (t1 t2 : trace) : posts (t1 ++ t2) = posts t1 ++ posts t2.
Proof. unfold posts. now rewrite flat_map_app. Qed.

Lemma translate_chunks_loop_spec (text_chunks : list (list str)) :
  forall (n_chunks i : nat) (all_translations : list str) (t : trace),
  exists results : list (list str),
    fst (translate_chunks_loop backend source_lang target_lang n_chunks i
           text_chunks all_translations t)
    = all_translations ++ concat results
    /\ Forall2 (fun chunk r =>
                  chunk_result chunk r /\ List.length r = List.length chunk)
               text_chunks results
    /\ posts (snd (translate_chunks_loop backend source_lang target_lang
                     n_chunks i text_chunks all_translations t))
       = posts t ++ map EvolutionaryPrompt text_chunks.
Proof.
  induction text_chunks as [|chunk rest IH]; intros n_chunks i acc t.
  - exists []. simpl. unfold ret. simpl.
    rewrite !app_nil_r. repeat split. constructor.
  - cbn [translate_chunks_loop]. rewrite !bind_run.
    pose proof (translate_text_chunk_trace chunk t) as Ht.
    pose proof (translate_text_chunk_length chunk t) as Hl.
    assert (Hr : chunk_result chunk
              (fst (translate_text_chunk_with_evolutionary_config backend
                      chunk source_lang target_lang t)))
      by (exists t; reflexivity).
    destruct (translate_text_chunk_with_evolutionary_config backend chunk
                source_lang target_lang t) as [r t1].
    simpl in Ht, Hl, Hr. subst t1. cbn [fst snd].
    set (pause := (if i <? n_chunks - 1 then sleep 1 else ret tt)
                    (t ++ [Post (EvolutionaryPrompt chunk)])).
    assert (Hp : posts (snd pause) = posts t ++ [EvolutionaryPrompt chunk]).
    { subst pause. destruct (i <? n_chunks - 1); unfold sleep, ret; simpl;
        rewrite !posts_app; simpl; now rewrite ?app_nil_r. }
    destruct (IH n_chunks (S i) (acc ++ r) (snd pause))
      as [results [Hres [Hall Hposts]]].
    exists (r :: results). repeat split.
    + rewrite Hres. simpl. now rewrite app_assoc.
    + constructor; auto.
    + rewrite Hposts, Hp. simpl. now rewrite <- app_assoc.
Qed.

Lemma concat_lengths_Forall2 (text_chunks results : list (list str)) :
  Forall2 (fun chunk r =>
             chunk_result chunk r /\ List.length r = List.length chunk)
          text_chunks results ->
  List.length (concat results) = List.length (concat text_chunks).
Proof.
  induction 1 as [|chunk r cs rs [_ Hl] _ IH]; simpl.
  - reflexivity.
  - rewrite !length_app. lia.
Qed.

(** The pass returns one element per fragment, whatever the backend
    answers. *)
Lemma translate_texts_length (texts : list str) (t : trace) :
  List.length (fst (translate_texts_with_evolutionary_config backend texts
                      source_lang target_lang t))
  = List.length texts.
Proof.
  unfold translate_texts_with_evolutionary_config.
  destruct (translate_chunks_loop_spec (text_chunks_of texts)
              (List.length (text_chunks_of texts)) 0 [] t)
    as [results [Hres [Hall _]]].
  rewrite Hres. simpl.
  rewrite (concat_lengths_Forall2 _ _ Hall).
  now rewrite text_chunks_concat.
Qed.

(** C9. The pass cuts the fragment list into consecutive chunks of ten
    fragments, the last one holding the remainder (the sizes depend on
    the number of fragments only); the chunks put together give the
    fragment list back, so each fragment is in exactly one chunk; the
    backend receives the chunks one after the other in that order; and
    the result is the chunk results put together in the same order. *)
Theorem C9_fixed_size_chunks (texts : list str) (t : trace) :
  let text_chunks := text_chunks_of texts in
  let run :=
    translate_texts_with_evolutionary_config backend texts source_lang
      target_lang t in
  concat text_chunks = texts
  /\ map (@List.length str) text_chunks = chunk_sizes (List.length texts)
  /\ posts (snd run) = posts t ++ map EvolutionaryPrompt text_chunks
  /\ exists results : list (list str),
       fst run = concat results
       /\ Forall2 (fun chunk r =>
                     chunk_result chunk r
                     /\ List.length r = List.length chunk)
                  text_chunks results.
Proof.
  cbv zeta.
  split; [apply text_chunks_concat|].
  split; [apply text_chunks_sizes|].
  unfold translate_texts_with_evolutionary_config.
  destruct (translate_chunks_loop_spec (text_chunks_of texts)
              (List.length (text_chunks_of texts)) 0 [] t)
    as [results [Hres [Hall Hposts]]].
  split; [exact Hposts|].
  exists results. split; [exact Hres | exact Hall].
Qed.

End Pass.

(* ===================================================================== *)
(** * Properties of the retrying invokers                                 *)
(* ===================================================================== *)

(** A failed attempt, in the words of the specification: the transport
    fails, or the status is not the success status. *)
Definition failing (a : reply) : bool :=
  match a with
  | TransportFailure => true
  | Answer status_code _ => negb (status_code =? 200)%Z
  end.

(** The trace of three failed attempts at one request. *)
Definition exhausted_trace (r : request) : trace :=
  [Post r; Sleep (backoff 0); Post r; Sleep (backoff 1); Post r].

Lemma backoff_values : backoff 0 = 1%Z /\ backoff 1 = 2%Z /\ backoff 2 = 4%Z.
Proof. repeat split. Qed.

Lemma retry_loop_failed_attempt {A : Type} (try_once : M (option A))
    (r : request) (attempt : nat) (rest : list nat) (t : trace) :
  try_once t = (None, t ++ [Post r]) ->
  retry_loop try_once (attempt :: rest) t
  = retry_loop try_once rest
      (snd ((if attempt <? max_retries - 1
             then sleep (backoff attempt) else ret tt) (t ++ [Post r]))).
Proof.
  intros H. cbn [retry_loop].
  rewrite bind_run, H. cbn [fst snd].
  now rewrite bind_run.
Qed.

Lemma retry_loop_exhausted {A : Type} (try_once : M (option A)) (r : request) :
  (forall t : trace, try_once t = (None, t ++ [Post r])) ->
  forall t : trace,
    retry_loop try_once (seq 0 max_retries) t = (None, t ++ exhausted_trace r).
Proof.
  intros H t.
  change (seq 0 max_retries) with [0; 1; 2].
  rewrite (retry_loop_failed_attempt _ r 0 _ _ (H _)).
  change (0 <? max_retries - 1) with true. unfold sleep at 1. cbn [snd].
  rewrite (retry_loop_failed_attempt _ r 1 _ _ (H _)).
  change (1 <? max_retries - 1) with true. unfold sleep at 1. cbn [snd].
  rewrite (retry_loop_failed_attempt _ r 2 _ _ (H _)).
  change (2 <? max_retries - 1) with false. unfold ret at 1. cbn [snd].
  cbn [retry_loop]. unfold ret, exhausted_trace.
  now rewrite <- !app_assoc.
Qed.

(** However the attempts end, the loop posts at most once per attempt. *)
Lemma retry_loop_posts {A : Type} (try_once : M (option A)) (r : request) :
  (forall t : trace, snd (try_once t) = t ++ [Post r]) ->
  forall (attempts : list nat) (t : trace),
    exists k : nat,
      1 <= k + match attempts with [] => 1 | _ => 0 end
      /\ k <= List.length attempts
      /\ posts (snd (retry_loop try_once attempts t)) = posts t ++ repeat r k.
Proof.
  intros H attempts.
  induction attempts as [|attempt rest IH]; intros t.
  - exists 0. simpl. unfold ret. simpl. rewrite app_nil_r. repeat split; lia.
  - cbn [retry_loop]. rewrite bind_run.
    pose proof (H t) as Ht.
    destruct (try_once t) as [[a|] t1]; simpl in Ht; subst t1; cbn [fst snd].
    + exists 1. unfold ret. simpl. rewrite posts_app. simpl.
      repeat split; lia.
    + rewrite bind_run.
      set (pause := (if attempt <? max_retries - 1
                     then sleep (backoff attempt) else ret tt)
                      (t ++ [Post r])).
      assert (Hp : posts (snd pause) = posts t ++ [r]).
      { subst pause. destruct (attempt <? max_retries - 1);
          unfold sleep, ret; simpl; rewrite !posts_app; simpl;
          now rewrite ?app_nil_r. }
      destruct (IH (snd pause)) as [k [_ [Hk Hposts]]].
      exists (S k). rewrite Hposts, Hp. simpl.
      rewrite <- app_assoc. simpl. repeat split; lia.
Qed.

Section Retry.

Variable backend : trace -> request -> reply.

Lemma try_legacy_trace (r : request) (t : trace) :
  snd (try_legacy backend r t) = t ++ [Post r].
Proof.
  unfold try_legacy, bind, post, ret.
  destruct (backend t r) as [|code [response|]]; try reflexivity.
  destruct (code =? 200)%Z; reflexivity.
Qed.

Lemma try_text_only_trace (texts : list str) (source_lang target_lang : str)
    (t : trace) :
  snd (try_text_only backend texts source_lang target_lang t)
  = t ++ [Post (TextOnlyPrompt texts source_lang target_lang)].
Proof.
  unfold try_text_only, bind, post, ret.
  destruct (backend t _) as [|code [response|]]; try reflexivity.
  destruct (code =? 200)%Z; reflexivity.
Qed.

(** The legacy text invoker makes at most three attempts and always
    returns a string. *)
Lemma translate_chunk_at_most_three
    (text source_lang target_lang chunk_info : str) (t : trace) :
  exists k : nat,
    1 <= k <= 3
    /\ posts (snd (translate_chunk_with_ollama backend text source_lang
                     target_lang chunk_info t))
       = posts t
         ++ repeat (LegacyPrompt text source_lang target_lang chunk_info) k.
Proof.
  unfold translate_chunk_with_ollama. rewrite bind_run.
  destruct (retry_loop_posts
              (try_legacy backend
                 (LegacyPrompt text source_lang target_lang chunk_info))
              (LegacyPrompt text source_lang target_lang chunk_info)
              (try_legacy_trace _) (seq 0 max_retries) t)
    as [k [Hk1 [Hk Hposts]]].
  exists k. simpl in Hk1, Hk. split; [lia|].
  destruct (retry_loop _ _ t) as [[a|] t1]; unfold ret; simpl in *; exact Hposts.
Qed.

Hypothesis every_attempt_fails :
  forall (t : trace) (r : request), failing (backend t r) = true.

Lemma try_legacy_fails (r : request) (t : trace) :
  try_legacy backend r t = (None, t ++ [Post r]).
Proof.
  unfold try_legacy, bind, post, ret.
  pose proof (every_attempt_fails t r) as F.
  destruct (backend t r) as [|code [response|]]; try reflexivity.
  simpl in F. destruct (code =? 200)%Z; [discriminate | reflexivity].
Qed.

Lemma try_text_only_fails (texts : list str) (source_lang target_lang : str)
    (t : trace) :
  try_text_only backend texts source_lang target_lang t
  = (None, t ++ [Post (TextOnlyPrompt texts source_lang target_lang)]).
Proof.
  unfold try_text_only, bind, post, ret.
  pose proof (every_attempt_fails t
                (TextOnlyPrompt texts source_lang target_lang)) as F.
  destruct (backend t _) as [|code [response|]]; try reflexivity.
  simpl in F. destruct (code =? 200)%Z; [discriminate | reflexivity].
Qed.

(** After three failed attempts, with pauses of 1 and 2 seconds between
    them, the legacy text invoker returns its input unchanged. *)
Lemma translate_chunk_exhausted
    (text source_lang target_lang chunk_info : str) (t : trace) :
  translate_chunk_with_ollama backend text source_lang target_lang
    chunk_info t
  = (text,
     t ++ exhausted_trace
            (LegacyPrompt text source_lang target_lang chunk_info)).
Proof.
  unfold translate_chunk_with_ollama. rewrite bind_run.
  rewrite (retry_loop_exhausted _ _ (try_legacy_fails _)).
  reflexivity.
Qed.

(** C3 (the code departs from the claim).  When every attempt fails,
    [translate_text_only_with_ollama] makes its three attempts, pausing
    1 and 2 seconds between them, and then leaves the loop without a
    [return]: the caller gets [None], not the fragments it passed. *)
Theorem C3_text_only_exhausted_returns_none (texts : list str)
    (source_lang target_lang : str) (t : trace) :
  texts <> [] ->
  translate_text_only_with_ollama backend texts source_lang target_lang t
  = (None,
     t ++ exhausted_trace (TextOnlyPrompt texts source_lang target_lang)).
Proof.
  intros Hne.
  unfold translate_text_only_with_ollama.
  destruct texts as [|x texts']; [congruence|].
  apply (retry_loop_exhausted _ _ (try_text_only_fails _ _ _)).
Qed.

End Retry.

(** A backend that answers every request with status 500. *)
Definition backend_down : trace -> request -> reply :=
  fun _ _ => Answer 500 None.

Lemma C3_text_only_exhausted_witness :
  translate_text_only_with_ollama backend_down [lit "Hello"] (lit "en")
    (lit "pt-br") []
  = (None,
     exhausted_trace (TextOnlyPrompt [lit "Hello"] (lit "en") (lit "pt-br"))).
Proof.
  apply (C3_text_only_exhausted_returns_none backend_down).
  - intros t r. reflexivity.
  - discriminate.
Defined.

(* ===================================================================== *)
(** * Properties of the chunker                                           *)
(* ===================================================================== *)

Section ChunkerProps.

Variable count_tokens : str -> nat.
Variable findall_subtitles : str -> list str.

Definition cost (fragment : str) : Z := Z.of_nat (count_tokens fragment).

Definition group_cost (group : list str) : Z :=
  fold_right Z.add 0%Z (map cost group).

Definition paragraph : str := lit "

".

(** The string a chunk is, from the fragments put into it. *)
Definition render_group (group : list str) : str :=
  strip (join paragraph group).

(** Ghost variables beside the loop: the fragments that make up each
    chunk appended so far, and those of the pending chunk. *)
Record ghost : Type := Ghost {
  g_chunks : list (list str);
  g_current : list str
}.

Definition flush (st : chunk_state) (g : ghost) : list (list str) :=
  if nonempty (current_chunk st) then g_chunks g ++ [g_current g]
  else g_chunks g.

Definition ghost_step (effective_max_tokens : Z) (st : chunk_state)
    (g : ghost) (subtitle : str) : ghost :=
  if (effective_max_tokens <? cost subtitle)%Z then
    Ghost (flush st g ++ [[subtitle]])
          (if nonempty (current_chunk st) then [] else g_current g)
  else if (effective_max_tokens <? current_tokens st + cost subtitle)%Z then
    Ghost (flush st g) [subtitle]
  else
    Ghost (g_chunks g)
          (if nonempty (current_chunk st) then g_current g ++ [subtitle]
           else [subtitle]).

Definition both_step (effective_max_tokens : Z) (sg : chunk_state * ghost)
    (subtitle : str) : chunk_state * ghost :=
  (chunk_step count_tokens effective_max_tokens (fst sg) subtitle,
   ghost_step effective_max_tokens (fst sg) (snd sg) subtitle).

Definition both_run (effective_max_tokens : Z) (subtitles : list str)
    : chunk_state * ghost :=
  fold_left (both_step effective_max_tokens) subtitles
            (ChunkState [] [] 0%Z, Ghost [] []).

(** The fragments of each chunk the chunker returns. *)
Definition chunk_groups (max_chunk_tokens : Z) (subtitles : list str)
    : list (list str) :=
  let sg := both_run (max_chunk_tokens - 200) subtitles in
  flush (fst sg) (snd sg).

(** A chunk within the budget, or one oversized fragment alone. *)
Definition within_budget (effective_max_tokens : Z) (group : list str)
    : Prop :=
  group <> [] /\ (group_cost group <= effective_max_tokens)%Z.

Definition oversized_singleton (effective_max_tokens : Z) (group : list str)
    : Prop :=
  exists fragment : str,
    group = [fragment] /\ (effective_max_tokens < cost fragment)%Z.

Definition chunk_ok (effective_max_tokens : Z) (group : list str) : Prop :=
  within_budget effective_max_tokens group
  \/ oversized_singleton effective_max_tokens group.

Record chunk_inv (effective_max_tokens : Z) (sg : chunk_state * ghost)
    : Prop := ChunkInv {
  ci_chunks : chunks (fst sg) = map render_group (g_chunks (snd sg));
  ci_current : current_chunk (fst sg) = join paragraph (g_current (snd sg));
  ci_nonneg : (0 <= current_tokens (fst sg))%Z;
  ci_cost : (group_cost (g_current (snd sg)) <= current_tokens (fst sg))%Z;
  ci_budget :
    g_current (snd sg) <> [] ->
    (current_tokens (fst sg) <= effective_max_tokens)%Z;
  ci_ok : Forall (chunk_ok effective_max_tokens) (g_chunks (snd sg))
}.

Lemma fold_fst_both (effective_max_tokens : Z) (subtitles : list str)
    (sg : chunk_state * ghost) :
  fst (fold_left (both_step effective_max_tokens) subtitles sg)
  = fold_left (chunk_step count_tokens effective_max_tokens) subtitles (fst sg).
Proof.
  revert sg. induction subtitles as [|s subtitles IH]; intros sg; simpl.
  - reflexivity.
  - now rewrite IH.
Qed.

Lemma join_snoc (sep : str) (group : list str) (s : str) :
  group <> [] -> join sep (group ++ [s]) = join sep group ++ sep ++ s.
Proof.
  induction group as [|x group IH]; intros Hne; [congruence|].
  destruct group as [|y group].
  - reflexivity.
  - change (join sep ((x :: y :: group) ++ [s]))
      with (x ++ sep ++ join sep ((y :: group) ++ [s])).
    rewrite IH by discriminate.
    change (join sep (x :: y :: group)) with (x ++ sep ++ join sep (y :: group)).
    now rewrite <- !app_assoc.
Qed.

Lemma group_cost_snoc (group : list str) (s : str) :
  group_cost (group ++ [s]) = (group_cost group + cost s)%Z.
Proof.
  unfold group_cost. induction group as [|x group IH]; simpl; lia.
Qed.

Lemma nonempty_join (sep : str) (group : list str) :
  nonempty (join sep group) = true -> group <> [].
Proof. destruct group; [discriminate | discriminate]. Qed.

Lemma flush_ok (effective_max_tokens : Z) (sg : chunk_state * ghost) :
  chunk_inv effective_max_tokens sg ->
  chunks (if nonempty (current_chunk (fst sg))
          then ChunkState (chunks (fst sg) ++ [strip (current_chunk (fst sg))])
                          [] 0%Z
          else fst sg)
  = map render_group (flush (fst sg) (snd sg))
  /\ Forall (chunk_ok effective_max_tokens) (flush (fst sg) (snd sg)).
Proof.
  intros [Hc Hcur Hnn Hcost Hb Hok]. unfold flush.
  destruct (nonempty (current_chunk (fst sg))) eqn:E; simpl.
  - rewrite Hcur in E. apply nonempty_join in E.
    split.
    + rewrite map_app, Hc. simpl. unfold render_group. now rewrite Hcur.
    + apply Forall_app; split; [exact Hok|].
      constructor; [|constructor].
      left. split; [exact E|]. specialize (Hb E). lia.
  - split; assumption.
Qed.

Lemma chunk_inv_step (effective_max_tokens : Z) (sg : chunk_state * ghost)
    (subtitle : str) :
  chunk_inv effective_max_tokens sg ->
  chunk_inv effective_max_tokens (both_step effective_max_tokens sg subtitle).
Proof.
  intros I.
  destruct (flush_ok effective_max_tokens sg I) as [Hfl Hfok].
  destruct I as [Hc Hcur Hnn Hcost Hb Hok].
  destruct sg as [st g]. simpl in *.
  unfold both_step, chunk_step, ghost_step. simpl fst. simpl snd.
  fold (cost subtitle).
  pose proof (Nat2Z.is_nonneg (count_tokens subtitle)) as Hpos.
  fold (cost subtitle) in Hpos.
  destruct (Z.ltb_spec effective_max_tokens (cost subtitle)) as [Hover|Hfit].
  - (* an oversized fragment *)
    unfold flush in *.
    destruct (nonempty (current_chunk st)) eqn:E; simpl in *; constructor; simpl.
    + rewrite map_app, <- Hfl. reflexivity.
    + reflexivity.
    + lia.
    + unfold group_cost. simpl. lia.
    + congruence.
    + apply Forall_app; split; [exact Hfok|].
      constructor; [|constructor]. right. exists subtitle. auto.
    + rewrite map_app, Hc. reflexivity.
    + exact Hcur.
    + exact Hnn.
    + exact Hcost.
    + exact Hb.
    + apply Forall_app; split; [exact Hok|].
      constructor; [|constructor]. right. exists subtitle. auto.
  - destruct (Z.ltb_spec effective_max_tokens
                (current_tokens st + cost subtitle)) as [Hfull|Hroom].
    + (* the pending chunk is closed, a new one starts *)
      unfold flush in *.
      destruct (nonempty (current_chunk st)) eqn:E; simpl in *;
        constructor; simpl; auto; try lia;
        unfold group_cost; simpl; fold (cost subtitle); lia.
    + (* the fragment joins the pending chunk *)
      destruct (nonempty (current_chunk st)) eqn:E; simpl;
        constructor; simpl; auto; try lia.
      * rewrite Hcur in E. apply nonempty_join in E.
        rewrite join_snoc by exact E. now rewrite Hcur.
      * rewrite group_cost_snoc. lia.
      * unfold group_cost; simpl; fold (cost subtitle). lia.
Qed.

Lemma chunk_inv_run (effective_max_tokens : Z) (subtitles : list str)
    (sg : chunk_state * ghost) :
  chunk_inv effective_max_tokens sg ->
  chunk_inv effective_max_tokens
            (fold_left (both_step effective_max_tokens) subtitles sg).
Proof.
  revert sg. induction subtitles as [|s subtitles IH]; intros sg I; simpl.
  - exact I.
  - apply IH, chunk_inv_step, I.
Qed.

Lemma chunk_inv_init (effective_max_tokens : Z) :
  chunk_inv effective_max_tokens (ChunkState [] [] 0%Z, Ghost [] []).
Proof.
  constructor; simpl.
  - reflexivity.
  - reflexivity.
  - lia.
  - unfold group_cost. simpl. lia.
  - intros H. now contradiction H.
  - constructor.
Qed.

Lemma chunk_subtitles_groups (max_chunk_tokens : Z) (subtitles : list str) :
  chunk_subtitles count_tokens max_chunk_tokens subtitles
  = map render_group (chunk_groups max_chunk_tokens subtitles)
  /\ Forall (chunk_ok (max_chunk_tokens - 200))
            (chunk_groups max_chunk_tokens subtitles).
Proof.
  unfold chunk_subtitles, chunk_groups, both_run, chunk_finish.
  pose proof (fold_fst_both (max_chunk_tokens - 200) subtitles
                (ChunkState [] [] 0%Z, Ghost [] [])) as F.
  cbn [fst] in F. rewrite <- F. clear F.
  destruct (flush_ok (max_chunk_tokens - 200) _
              (chunk_inv_run (max_chunk_tokens - 200) subtitles _
                 (chunk_inv_init (max_chunk_tokens - 200)))) as [Hfl Hok].
  split; [|exact Hok].
  rewrite <- Hfl.
  destruct (nonempty (current_chunk _)); reflexivity.
Qed.

(** An oversized fragment: the pending chunk is flushed, then the
    fragment is appended alone, and nothing stays pending. *)
Lemma chunk_step_oversized (effective_max_tokens : Z) (st : chunk_state)
    (subtitle : str) :
  (effective_max_tokens < cost subtitle)%Z ->
  chunks (chunk_step count_tokens effective_max_tokens st subtitle)
  = chunk_finish st ++ [strip subtitle]
  /\ current_chunk (chunk_step count_tokens effective_max_tokens st subtitle)
     = [].
Proof.
  intros Hover. unfold chunk_step, chunk_finish. fold (cost subtitle).
  replace (effective_max_tokens <? cost subtitle)%Z with true
    by (symmetry; apply Z.ltb_lt; exact Hover).
  simpl. destruct (current_chunk st); simpl; auto.
Qed.

(** When no fragment is the empty string, the chunks hold all the
    fragments, each once, in their order. *)
Record cover_inv (done : list str) (sg : chunk_state * ghost) : Prop :=
  CoverInv {
    cv_all : concat (g_chunks (snd sg)) ++ g_current (snd sg) = done;
    cv_sync : nonempty (current_chunk (fst sg)) = false ->
              g_current (snd sg) = []
  }.

Lemma cover_inv_step (effective_max_tokens : Z) (done : list str)
    (sg : chunk_state * ghost) (subtitle : str) :
  subtitle <> [] ->
  cover_inv done sg ->
  cover_inv (done ++ [subtitle])
            (both_step effective_max_tokens sg subtitle).
Proof.
  intros Hne [Hall Hsync]. destruct sg as [st g]. simpl in *.
  unfold both_step, chunk_step, ghost_step, flush. simpl fst. simpl snd.
  fold (cost subtitle).
  assert (Hsub : nonempty subtitle = true)
    by (destruct subtitle; [congruence | reflexivity]).
  destruct (nonempty (current_chunk st)) eqn:E;
    [clear Hsync | specialize (Hsync eq_refl); rewrite Hsync in * ];
    (destruct (effective_max_tokens <? cost subtitle)%Z;
     [|destruct (effective_max_tokens <? current_tokens st + cost subtitle)%Z]);
    constructor; simpl;
    rewrite ?concat_app; simpl; rewrite ?app_nil_r, <- ?Hall, <- ?app_assoc;
    simpl; rewrite ?app_nil_r;
    try reflexivity; try congruence.
  - destruct (current_chunk st); discriminate.
Qed.

Lemma cover_inv_run (effective_max_tokens : Z) (subtitles done : list str)
    (sg : chunk_state * ghost) :
  Forall (fun s => s <> []) subtitles ->
  cover_inv done sg ->
  cover_inv (done ++ subtitles)
            (fold_left (both_step effective_max_tokens) subtitles sg).
Proof.
  revert done sg.
  induction subtitles as [|s subtitles IH]; intros done sg Hne I; simpl.
  - now rewrite app_nil_r.
  - inversion Hne as [|? ? Hs Hrest]; subst.
    replace (done ++ s :: subtitles) with ((done ++ [s]) ++ subtitles)
      by (rewrite <- app_assoc; reflexivity).
    apply IH; [exact Hrest|].
    apply cover_inv_step; assumption.
Qed.

Lemma chunk_groups_cover (max_chunk_tokens : Z) (subtitles : list str) :
  Forall (fun s => s <> []) subtitles ->
  concat (chunk_groups max_chunk_tokens subtitles) = subtitles.
Proof.
  intros Hne. unfold chunk_groups, both_run.
  destruct (cover_inv_run (max_chunk_tokens - 200) subtitles []
              (ChunkState [] [] 0%Z, Ghost [] []) Hne) as [Hall Hsync].
  { constructor; reflexivity. }
  cbv zeta. unfold flush.
  destruct (nonempty (current_chunk _)) eqn:E.
  - rewrite concat_app. simpl. rewrite app_nil_r. exact Hall.
  - rewrite (Hsync eq_refl) in Hall. now rewrite app_nil_r in Hall.
Qed.

(** C5. Every chunk the chunker returns is made of fragments whose
    token costs add up to at most the effective budget (the budget
    minus the margin of 200), unless it is one fragment alone whose own
    cost exceeds the effective budget.  Such a fragment is appended as
    a chunk of its own right after the pending chunk, if any, is
    flushed.  The chunker is a total function: it raises nothing. *)
Theorem C5_chunk_budget (srt_text : str) (max_chunk_tokens : Z) :
  let effective_max_tokens := (max_chunk_tokens - 200)%Z in
  let groups :=
    chunk_groups max_chunk_tokens (subtitles_of findall_subtitles srt_text) in
  split_srt_into_chunks count_tokens findall_subtitles srt_text
    max_chunk_tokens
  = map render_group groups
  /\ Forall (fun group =>
               within_budget effective_max_tokens group
               \/ oversized_singleton effective_max_tokens group)
            groups
  /\ (forall (st : chunk_state) (subtitle : str),
        (effective_max_tokens < cost subtitle)%Z ->
        chunks (chunk_step count_tokens effective_max_tokens st subtitle)
        = chunk_finish st ++ [strip subtitle]
        /\ current_chunk
             (chunk_step count_tokens effective_max_tokens st subtitle)
           = []).
Proof.
  cbv zeta. unfold split_srt_into_chunks.
  destruct (chunk_subtitles_groups max_chunk_tokens
              (subtitles_of findall_subtitles srt_text)) as [Hg Hok].
  split; [exact Hg|]. split; [exact Hok|].
  intros st subtitle. apply chunk_step_oversized.
Qed.

End ChunkerProps.

(* ===================================================================== *)
(** * Properties of the reconstructor                                     *)
(* ===================================================================== *)

Lemma py_index_nth {A : Type} (l : list A) (k : nat) (x : A) :
  nth_error l k = Some x -> py_index l (Z.of_nat k) = Returns x.
Proof.
  intros H. unfold py_index.
  assert (Hk : k < List.length l) by (apply nth_error_Some; congruence).
  replace (Z.of_nat k <? 0)%Z with false by (symmetry; apply Z.ltb_ge; lia).
  replace ((0 <=? Z.of_nat k) && (Z.of_nat k <? Z.of_nat (List.length l)))%Z
    with true
    by (symmetry; apply andb_true_iff; split;
        [apply Z.leb_le | apply Z.ltb_lt]; lia).
  now rewrite Nat2Z.id, H.
Qed.

(** An index at or past the end, or no index, or no text: the original
    block is emitted. *)
Definition falls_back (translated_texts : list str) (struct : block_info)
    : bool :=
  negb (has_text struct)
  || match text_index struct with
     | None => true
     | Some i => (Z.of_nat (List.length translated_texts) <=? i)%Z
     end.

Lemma reconstruct_block_fallback (translated_texts : list str)
    (struct : block_info) :
  falls_back translated_texts struct = true ->
  reconstruct_block translated_texts struct
  = Returns (original_block struct).
Proof.
  unfold falls_back, reconstruct_block.
  destruct (has_text struct); simpl; [|reflexivity].
  destruct (text_index struct) as [i|]; [|reflexivity].
  intros H. now rewrite H.
Qed.

(** With an index that is not negative, the block loop body returns. *)
Lemma reconstruct_block_returns (translated_texts : list str)
    (struct : block_info) :
  match text_index struct with Some i => (0 <= i)%Z | None => True end ->
  exists block : str,
    reconstruct_block translated_texts struct = Returns block.
Proof.
  intros Hi. unfold reconstruct_block.
  destruct (has_text struct); simpl; [|eauto].
  destruct (text_index struct) as [i|]; [|eauto].
  destruct (Z.leb_spec (Z.of_nat (List.length translated_texts)) i);
    [eauto|].
  destruct (nth_error translated_texts (Z.to_nat i)) as [x|] eqn:E.
  - pose proof (py_index_nth _ _ _ E) as P.
    rewrite Z2Nat.id in P by exact Hi. rewrite P. eauto.
  - apply nth_error_None in E. lia.
Qed.

Lemma reconstruct_loop_returns (translated_texts : list str)
    (structure_map : list block_info) (f : block_info -> str) :
  Forall (fun e => reconstruct_block translated_texts e = Returns (f e))
         structure_map ->
  forall result_blocks : list str,
    reconstruct_loop translated_texts structure_map result_blocks
    = Returns (result_blocks ++ map f structure_map).
Proof.
  induction 1 as [|e rest He _ IH]; intros acc; simpl.
  - now rewrite app_nil_r.
  - rewrite He, IH, <- app_assoc. reflexivity.
Qed.

Lemma reconstruct_never_raises (translated_texts : list str)
    (structure_map : list block_info) :
  Forall (fun e => match text_index e with
                   | Some i => (0 <= i)%Z
                   | None => True
                   end) structure_map ->
  exists srt : str,
    reconstruct_srt_from_translations translated_texts structure_map
    = Returns srt.
Proof.
  intros H. unfold reconstruct_srt_from_translations.
  assert (L : forall acc, exists blocks,
             reconstruct_loop translated_texts structure_map acc
             = Returns blocks).
  { induction H as [|e rest He _ IH]; intros acc; simpl; [eauto|].
    destruct (reconstruct_block_returns translated_texts e He) as [b Hb].
    rewrite Hb. apply IH. }
  destruct (L []) as [blocks Hb]. rewrite Hb. eauto.
Qed.

(** What the reconstructor emits for a block when every fragment comes
    back as it was sent. *)
Definition rebuilt (e : block_info) : str :=
  if has_text e then render_block e (fragment_of e) else original_block e.

Lemma reconstruct_block_identity (texts : list str) (e : block_info) :
  aligned texts e -> reconstruct_block texts e = Returns (rebuilt e).
Proof.
  intros Ha. unfold reconstruct_block, rebuilt, aligned in *.
  destruct (has_text e); simpl; [|reflexivity].
  destruct (Ha eq_refl) as [k [Hi Hk]]. rewrite Hi.
  assert (Hlt : k < List.length texts) by (apply nth_error_Some; congruence).
  replace (Z.of_nat (List.length texts) <=? Z.of_nat k)%Z with false
    by (symmetry; apply Z.leb_gt; lia).
  now rewrite (py_index_nth _ _ _ Hk).
Qed.

Definition negative_index_entry : block_info :=
  BlockInfo (lit "1") (lit "00:00:01,000 --> 00:00:02,000") (lit "Hello")
            (Some (-1)%Z) true (Some [lit "Hello"])
            (lit "1
00:00:01,000 --> 00:00:02,000
Hello").

(** The guard of the reconstructor tests
    [text_index >= len(translated_texts)] only, so what follows is
    about indices that are positions.  On a dict built by hand with a
    negative index the guard passes: with no translations
    [translated_texts[-1]] raises [IndexError], with some the last
    translation is taken.  No map of the parser holds such an index
    ([parsed_indices_nonnegative] below). *)
Lemma negative_index_not_guarded :
  reconstruct_srt_from_translations [] [negative_index_entry]
  = Raises IndexError
  /\ reconstruct_srt_from_translations [lit "Bonjour"; lit "Monde"]
       [negative_index_entry]
     = Returns (lit "1
00:00:01,000 --> 00:00:02,000
Monde").
Proof. split; reflexivity. Qed.

(** Parsing, then reconstructing from the fragments as they were
    extracted: the pipeline with a backend that changes nothing. *)
Definition round_trip (srt_content : str) : outcome str :=
  reconstruct_srt_from_translations
    (fst (extract_text_from_srt srt_content))
    (snd (extract_text_from_srt srt_content)).

Lemma round_trip_rebuilt (srt_content : str) :
  round_trip srt_content
  = Returns (join paragraph
               (map rebuilt (snd (extract_text_from_srt srt_content)))).
Proof.
  unfold round_trip, reconstruct_srt_from_translations.
  destruct (extract_inv srt_content) as [_ _ _ Ha].
  rewrite (reconstruct_loop_returns _ _ rebuilt).
  - reflexivity.
  - eapply Forall_impl; [|exact Ha].
    intros e. apply reconstruct_block_identity.
Qed.

Definition doc_two_lines : str := lit "1
00:00:01,000 --> 00:00:02,000
Hello
world".

Definition doc_italic : str := lit "1
00:00:01,000 --> 00:00:02,000
<i>Hello</i> there".

Definition doc_dropped_block : str := lit "1
00:00:01,000 --> 00:00:02,000
Hello there

The End".

Definition doc_final_newline : str := lit "1
00:00:01,000 --> 00:00:02,000
Hello there
".


(** The document is made of the blocks the parser kept, as it kept
    them, with one empty line between them. *)
Definition blocks_as_kept (srt_content : str) : Prop :=
  srt_content
  = join paragraph
      (map original_block (snd (extract_text_from_srt srt_content))).

(** Putting a block's own fragment back gives the block as it was. *)
Definition text_as_extracted (e : block_info) : Prop :=
  has_text e = true -> render_block e (fragment_of e) = original_block e.

(** With every fragment returned unchanged, a document made of the
    blocks as kept, each text block reproduced by its own fragment,
    comes back as it was. *)
Lemma round_trip_as_kept (srt_content : str) :
  blocks_as_kept srt_content ->
  Forall text_as_extracted (snd (extract_text_from_srt srt_content)) ->
  round_trip srt_content = Returns srt_content.
Proof.
  intros Hdoc Htext.
  rewrite round_trip_rebuilt. f_equal.
  unfold blocks_as_kept in Hdoc. rewrite Hdoc at 2. f_equal.
  apply map_ext_in. intros e He.
  unfold rebuilt.
  destruct (has_text e) eqn:E; [|reflexivity].
  rewrite Forall_forall in Htext. exact (Htext e He E).
Qed.

Lemma str_eqb_eq (a b : str) : str_eqb a b = true -> a = b.
Proof.
  revert b. induction a as [|x a IH]; intros [|y b] H; simpl in H;
    try discriminate; [reflexivity|].
  apply andb_true_iff in H. destruct H as [Hx Ha].
  apply Ascii.eqb_eq in Hx. subst y. f_equal. now apply IH.
Qed.

(** The same condition as a test that can be run on a document. *)
Definition text_as_extracted_b (e : block_info) : bool :=
  negb (has_text e)
  || str_eqb (render_block e (fragment_of e)) (original_block e).

Lemma text_as_extracted_check (structure_map : list block_info) :
  forallb text_as_extracted_b structure_map = true ->
  Forall text_as_extracted structure_map.
Proof.
  intros H. apply Forall_forall. intros e He Ht.
  rewrite forallb_forall in H. specialize (H e He).
  unfold text_as_extracted_b in H. rewrite Ht in H. simpl in H.
  now apply str_eqb_eq.
Qed.

(* ===================================================================== *)
(** * Properties of the entry point                                       *)
(* ===================================================================== *)

Section EntryPoint.

Variable backend : trace -> request -> reply.

(** C10. A document of subtitle shape from which the parser extracts
    no fragment is returned as it is, and the trace is left as it was:
    no request is posted (and no pause is made). *)
Theorem C10_no_fragments_passthrough
    (srt_content source_lang target_lang : str) (t : trace) :
  is_some (re_search Pat.srt_shape srt_content) = true ->
  fst (extract_text_from_srt srt_content) = [] ->
  translate_srt_optimized backend srt_content source_lang target_lang t
  = (Returns srt_content, t).
Proof.
  intros Hshape Hnone.
  unfold translate_srt_optimized. rewrite Hshape.
  destruct (extract_text_from_srt srt_content) as [texts structure_map].
  simpl in Hnone. subst texts. reflexivity.
Qed.

(** The entry point never raises on the structured path: the indices
    the parser assigns are never negative. *)
Lemma parsed_indices_nonnegative (srt_content : str) :
  Forall (fun e => match text_index e with
                   | Some i => (0 <= i)%Z
                   | None => True
                   end)
         (snd (extract_text_from_srt srt_content)).
Proof.
  destruct (extract_inv srt_content) as [_ _ Hn Ha].
  rewrite Forall_forall in *. intros e He.
  destruct (has_text e) eqn:E.
  - destruct (Ha e He E) as [k [Hi _]]. rewrite Hi. lia.
  - now rewrite (Hn e He E).
Qed.

Lemma translate_srt_optimized_returns
    (srt_content source_lang target_lang : str) (t : trace) :
  exists translated : str,
    fst (translate_srt_optimized backend srt_content source_lang
           target_lang t)
    = Returns translated.
Proof.
  unfold translate_srt_optimized.
  destruct (is_some (re_search Pat.srt_shape srt_content)).
  - pose proof (parsed_indices_nonnegative srt_content) as Hnn.
    destruct (extract_text_from_srt srt_content) as [texts structure_map].
    simpl in Hnn.
    destruct texts as [|x texts]; [unfold ret; simpl; eauto|].
    rewrite bind_run. unfold ret. simpl.
    apply reconstruct_never_raises, Hnn.
  - rewrite bind_run. unfold ret. simpl. eauto.
Qed.

End EntryPoint.

Definition doc_no_text : str := lit "1
00:00:01,000 --> 00:00:02,000
-

2
00:00:03,000 --> 00:00:04,000
".

Lemma C10_no_fragments_witness :
  translate_srt_optimized backend_down doc_no_text (lit "en") (lit "pt-br") []
  = (Returns doc_no_text, []).
Proof.
  apply C10_no_fragments_passthrough; vm_compute; reflexivity.
Defined.

(* ===================================================================== *)
(** * The reconstructor on indices out of range                           *)
(* ===================================================================== *)

(** A fragment index is a position in the fragment list, or absent. *)
Definition index_is_position (struct : block_info) : Prop :=
  match text_index struct with
  | Some i => (0 <= i)%Z
  | None => True
  end.

(** The block emitted for an entry: the original block when the entry
    has no text, no index, or an index at or past the end of the
    translations; otherwise the block rendered from the translation at
    the index. *)
Definition emitted (translated_texts : list str) (struct : block_info) : str :=
  if negb (has_text struct) then original_block struct
  else
    match text_index struct with
    | None => original_block struct
    | Some i =>
        if (Z.of_nat (List.length translated_texts) <=? i)%Z
        then original_block struct
        else render_block struct (nth (Z.to_nat i) translated_texts [])
    end.

Lemma reconstruct_block_emitted (translated_texts : list str)
    (struct : block_info) :
  index_is_position struct ->
  reconstruct_block translated_texts struct
  = Returns (emitted translated_texts struct).
Proof.
  unfold index_is_position, reconstruct_block, emitted.
  destruct (has_text struct); simpl; [|reflexivity].
  destruct (text_index struct) as [i|]; [|reflexivity].
  intros Hi.
  destruct (Z.leb_spec (Z.of_nat (List.length translated_texts)) i);
    [reflexivity|].
  assert (Hlt : Z.to_nat i < List.length translated_texts) by lia.
  pose proof (py_index_nth translated_texts (Z.to_nat i)
                (nth (Z.to_nat i) translated_texts [])
                (nth_error_nth' translated_texts [] Hlt)) as P.
  rewrite Z2Nat.id in P by exact Hi. now rewrite P.
Qed.

Lemma reconstruct_emitted (translated_texts : list str)
    (structure_map : list block_info) :
  Forall index_is_position structure_map ->
  reconstruct_srt_from_translations translated_texts structure_map
  = Returns (join paragraph (map (emitted translated_texts) structure_map)).
Proof.
  intros H. unfold reconstruct_srt_from_translations.
  rewrite (reconstruct_loop_returns _ _ (emitted translated_texts)).
  - reflexivity.
  - eapply Forall_impl; [|exact H].
    intros e. apply reconstruct_block_emitted.
Qed.

(** C8.  For every translations list and every structure map whose
    indices are positions, the reconstructor raises nothing and returns
    the blocks of the entries in document order, joined by empty
    lines; the block of an entry without text, without index or with
    an index at or past the end of the translations list is the
    entry's original block, unchanged.  Every structure map the parser
    returns is such a map, so on the parser's map this holds for every
    document and every translations list, also one that is too
    short. *)
Theorem C8_out_of_range_falls_back :
  (forall (translated_texts : list str) (structure_map : list block_info),
     Forall index_is_position structure_map ->
     reconstruct_srt_from_translations translated_texts structure_map
     = Returns
         (join paragraph (map (emitted translated_texts) structure_map)))
  /\ (forall (srt_content : str) (translated_texts : list str),
        reconstruct_srt_from_translations translated_texts
          (snd (extract_text_from_srt srt_content))
        = Returns
            (join paragraph
               (map (emitted translated_texts)
                    (snd (extract_text_from_srt srt_content)))))
  /\ (forall (translated_texts : list str) (struct : block_info),
        has_text struct = false
        \/ text_index struct = None
        \/ (exists i : Z,
              text_index struct = Some i
              /\ (Z.of_nat (List.length translated_texts) <= i)%Z) ->
        emitted translated_texts struct = original_block struct).
Proof.
  split; [exact reconstruct_emitted|]. split.
  - intros srt_content translated_texts. apply reconstruct_emitted.
    exact (parsed_indices_nonnegative srt_content).
  - intros translated_texts struct H. unfold emitted.
    destruct (has_text struct); [|reflexivity]. cbn [negb].
    destruct H as [H|[H|[i [H Hi]]]]; [discriminate | now rewrite H |].
    rewrite H.
    now replace (Z.of_nat (List.length translated_texts) <=? i)%Z with true
      by (symmetry; apply Z.leb_le; exact Hi).
Qed.

Definition doc_two_texts : str := lit "1
00:00:01,000 --> 00:00:02,000
Hello there

2
00:00:03,000 --> 00:00:04,000
Good morning".

Definition entry_past_the_end : block_info :=
  BlockInfo (lit "7") (lit "00:00:09,000 --> 00:00:10,000") (lit "Bye")
            (Some 3%Z) true (Some [lit "Bye"])
            (lit "7
00:00:09,000 --> 00:00:10,000
Bye").

Lemma C8_out_of_range_witness :
  reconstruct_srt_from_translations [lit "Bonjour"] [entry_past_the_end]
  = Returns (lit "7
00:00:09,000 --> 00:00:10,000
Bye")
  /\ reconstruct_srt_from_translations [lit "Bonjour"]
       (snd (extract_text_from_srt doc_two_texts))
     = Returns (lit "1
00:00:01,000 --> 00:00:02,000
Bonjour

2
00:00:03,000 --> 00:00:04,000
Good morning").
Proof.
  split.
  - apply (proj1 C8_out_of_range_falls_back [lit "Bonjour"]
             [entry_past_the_end]).
    repeat constructor. discriminate.
  - apply (proj1 (proj2 C8_out_of_range_falls_back) doc_two_texts
             [lit "Bonjour"]).
Defined.

(* ===================================================================== *)
(** * The matcher and the words a pattern accepts                         *)
(* ===================================================================== *)

(** The words of a pattern, assertions read as the empty word.  An
    iteration of a star is never empty, as in the matcher. *)
Inductive lang : regex -> str -> Prop :=
| LEps : lang Eps []
| LCls (p : ascii -> bool) (c : ascii) : p c = true -> lang (Cls p) [c]
| LCat (r1 r2 : regex) (w1 w2 : str) :
    lang r1 w1 -> lang r2 w2 -> lang (Cat r1 r2) (w1 ++ w2)
| LAltL (r1 r2 : regex) (w : str) : lang r1 w -> lang (Alt r1 r2) w
| LAltR (r1 r2 : regex) (w : str) : lang r2 w -> lang (Alt r1 r2) w
| LStarO (g : bool) (r : regex) : lang (Star g r) []
| LStarS (g : bool) (r : regex) (w1 w2 : str) :
    lang r w1 -> w1 <> [] -> lang (Star g r) w2 ->
    lang (Star g r) (w1 ++ w2)
| LGrp (n : nat) (r : regex) (w : str) : lang r w -> lang (Grp n r) w
| LBos : lang Bos []
| LEos : lang Eos []
| LWordB : lang WordB [].

(** [st'] lies [w] further in the same text than [st]. *)
Definition ahead (st : mstate) (w : str) (st' : mstate) : Prop :=
  m_rest st = w ++ m_rest st' /\ m_pos st' = m_pos st + List.length w.

Lemma ahead_refl (st : mstate) : ahead st [] st.
Proof. split; simpl; [reflexivity | lia]. Qed.

Lemma ahead_trans (st1 st2 st3 : mstate) (w1 w2 : str) :
  ahead st1 w1 st2 -> ahead st2 w2 st3 -> ahead st1 (w1 ++ w2) st3.
Proof.
  intros [R1 P1] [R2 P2]. split.
  - now rewrite R1, R2, app_assoc.
  - rewrite length_app. lia.
Qed.

Lemma progress_nonempty (st st' : mstate) (w : str) :
  ahead st w st' -> progress st st' = true -> w <> [].
Proof.
  intros [_ P] H. unfold progress in H. apply Nat.ltb_lt in H.
  destruct w; [simpl in P; lia | discriminate].
Qed.

Lemma star_iter_sound (step : mstate -> list mstate) (g : bool) (r : regex) :
  (forall st st', In st' (step st) -> exists w, lang r w /\ ahead st w st') ->
  forall (fuel : nat) (st st' : mstate),
    In st' (star_iter step g fuel st) ->
    exists w, lang (Star g r) w /\ ahead st w st'.
Proof.
  intros Hstep fuel.
  induction fuel as [|fuel IH]; intros st st' Hin.
  - simpl in Hin. destruct Hin as [<-|[]].
    exists []. split; [constructor | apply ahead_refl].
  - cbn [star_iter] in Hin.
    assert (Hcases :
      st' = st
      \/ In st' (flat_map (star_iter step g fuel)
                          (filter (progress st) (step st)))).
    { destruct g.
      - apply in_app_or in Hin. destruct Hin as [H|[<-|[]]]; auto.
      - destruct Hin as [<-|H]; auto. }
    destruct Hcases as [->|Hmore].
    + exists []. split; [constructor | apply ahead_refl].
    + apply in_flat_map in Hmore. destruct Hmore as [st1 [H1 H2]].
      apply filter_In in H1. destruct H1 as [H1 Hprog].
      destruct (Hstep _ _ H1) as [w1 [L1 A1]].
      destruct (IH _ _ H2) as [w2 [L2 A2]].
      exists (w1 ++ w2). split.
      * apply LStarS; auto. eapply progress_nonempty; eauto.
      * eapply ahead_trans; eauto.
Qed.

(** Whatever the matcher returns lies a word of the pattern ahead. *)
Lemma matches_sound (r : regex) :
  forall st st' : mstate,
    In st' (matches r st) -> exists w, lang r w /\ ahead st w st'.
Proof.
  induction r as [|p|r1 IH1 r2 IH2|r1 IH1 r2 IH2|g r IH|n r IH| | |];
    intros st st' Hin; cbn [matches] in Hin.
  - destruct Hin as [<-|[]]. exists []. split; [constructor | apply ahead_refl].
  - unfold advance in Hin. destruct (m_rest st) as [|c t] eqn:E; [easy|].
    destruct (p c) eqn:Hp; [|easy].
    destruct Hin as [<-|[]]. exists [c].
    split; [now constructor|]. split; simpl; [exact E | lia].
  - apply in_flat_map in Hin. destruct Hin as [st1 [H1 H2]].
    destruct (IH1 _ _ H1) as [w1 [L1 A1]].
    destruct (IH2 _ _ H2) as [w2 [L2 A2]].
    exists (w1 ++ w2). split; [now constructor | eapply ahead_trans; eauto].
  - apply in_app_or in Hin. destruct Hin as [H|H].
    + destruct (IH1 _ _ H) as [w [L A]]. exists w. split; [now apply LAltL | auto].
    + destruct (IH2 _ _ H) as [w [L A]]. exists w. split; [now apply LAltR | auto].
  - eapply star_iter_sound; eauto.
  - apply in_map_iff in Hin. destruct Hin as [st1 [<- H1]].
    destruct (IH _ _ H1) as [w [L A]].
    exists w. split; [now constructor | exact A].
  - destruct (m_pos st =? 0); [|easy]. destruct Hin as [<-|[]].
    exists []. split; [constructor | apply ahead_refl].
  - destruct (at_eos st); [|easy]. destruct Hin as [<-|[]].
    exists []. split; [constructor | apply ahead_refl].
  - destruct (xorb _ _); [|easy]. destruct Hin as [<-|[]].
    exists []. split; [constructor | apply ahead_refl].
Qed.

(** Patterns without groups and assertions. *)
Fixpoint plain (r : regex) : bool :=
  match r with
  | Eps | Cls _ => true
  | Cat r1 r2 | Alt r1 r2 => plain r1 && plain r2
  | Star _ r1 => plain r1
  | Grp _ _ | Bos | Eos | WordB => false
  end.

(** The position after reading [w]. *)
Fixpoint consume (st : mstate) (w : str) : mstate :=
  match w with
  | [] => st
  | c :: w' =>
      consume (MState (S (m_pos st)) (Some c) (tl (m_rest st)) (m_caps st)) w'
  end.

Lemma consume_app (st : mstate) (w1 w2 : str) :
  consume st (w1 ++ w2) = consume (consume st w1) w2.
Proof. revert st. induction w1 as [|c w1 IH]; intros st; simpl; auto. Qed.

Lemma consume_rest (st : mstate) (w rest : str) :
  m_rest st = w ++ rest -> m_rest (consume st w) = rest.
Proof.
  revert st. induction w as [|c w IH]; intros st H; simpl.
  - exact H.
  - apply IH. simpl. now rewrite H.
Qed.

Lemma consume_pos (st : mstate) (w : str) :
  m_pos (consume st w) = m_pos st + List.length w.
Proof.
  revert st. induction w as [|c w IH]; intros st; simpl.
  - lia.
  - rewrite IH. simpl. lia.
Qed.

Lemma consume_caps (st : mstate) (w : str) :
  m_caps (consume st w) = m_caps st.
Proof.
  revert st. induction w as [|c w IH]; intros st; simpl; [reflexivity|].
  now rewrite IH.
Qed.

Lemma star_iter_self (step : mstate -> list mstate) (g : bool) (fuel : nat)
    (st : mstate) :
  In st (star_iter step g fuel st).
Proof.
  destruct fuel as [|fuel]; simpl; [auto|].
  destruct g; [apply in_or_app; right; simpl; auto | simpl; auto].
Qed.

Lemma star_iter_more_fuel (step : mstate -> list mstate) (g : bool) :
  forall (fuel fuel' : nat) (st st' : mstate),
    fuel <= fuel' ->
    In st' (star_iter step g fuel st) ->
    In st' (star_iter step g fuel' st).
Proof.
  induction fuel as [|fuel IH]; intros fuel' st st' Hle Hin.
  - simpl in Hin. destruct Hin as [<-|[]]. apply star_iter_self.
  - destruct fuel' as [|fuel']; [lia|].
    cbn [star_iter] in *.
    assert (Hcases :
      st' = st
      \/ In st' (flat_map (star_iter step g fuel)
                          (filter (progress st) (step st)))).
    { destruct g.
      - apply in_app_or in Hin. destruct Hin as [H|[<-|[]]]; auto.
      - destruct Hin as [<-|H]; auto. }
    assert (Hgoal :
      st' = st
      \/ In st' (flat_map (star_iter step g fuel')
                          (filter (progress st) (step st))) ->
      In st' (if g
              then flat_map (star_iter step g fuel')
                            (filter (progress st) (step st)) ++ [st]
              else st :: flat_map (star_iter step g fuel')
                                  (filter (progress st) (step st)))).
    { intros [->|H]; destruct g; simpl.
      - apply in_or_app. right. simpl. auto.
      - auto.
      - apply in_or_app. auto.
      - auto. }
    apply Hgoal.
    destruct Hcases as [->|Hmore]; [auto|right].
    apply in_flat_map in Hmore. destruct Hmore as [st1 [H1 H2]].
    apply in_flat_map. exists st1. split; [exact H1|].
    apply IH; [lia | exact H2].
Qed.

(** A plain pattern reads each of its words, wherever the word stands. *)
Lemma matches_complete (r : regex) (w : str) :
  lang r w ->
  plain r = true ->
  forall (st : mstate) (rest : str),
    m_rest st = w ++ rest -> In (consume st w) (matches r st).
Proof.
  induction 1 as [|p c Hp|r1 r2 w1 w2 _ IH1 _ IH2|r1 r2 w _ IH|r1 r2 w _ IH
                 |g r|g r w1 w2 _ IH1 Hne _ IH2|n r w _ IH| | |];
    intros Hplain st rest Hrest; simpl in Hplain; try discriminate.
  - cbn [matches consume]. left. reflexivity.
  - cbn [matches consume]. unfold advance. rewrite Hrest.
    cbn [app tl]. rewrite Hp. left. reflexivity.
  - apply andb_true_iff in Hplain. destruct Hplain as [P1 P2].
    cbn [matches]. apply in_flat_map.
    exists (consume st w1). split.
    + apply (IH1 P1 st (w2 ++ rest)). now rewrite Hrest, app_assoc.
    + rewrite consume_app.
      apply (IH2 P2 _ rest).
      apply consume_rest. now rewrite Hrest, app_assoc.
  - apply andb_true_iff in Hplain. destruct Hplain as [P1 P2].
    cbn [matches]. apply in_or_app. left. eapply IH; eauto.
  - apply andb_true_iff in Hplain. destruct Hplain as [P1 P2].
    cbn [matches]. apply in_or_app. right. eapply IH; eauto.
  - cbn [matches consume]. apply star_iter_self.
  - cbn [matches]. rewrite Hrest.
    destruct w1 as [|c w1]; [congruence|].
    cbn [app List.length]. cbn [star_iter].
    assert (Hmore :
      In (consume st ((c :: w1) ++ w2))
         (flat_map (star_iter (matches r) g
                      (List.length (w1 ++ w2 ++ rest)))
                   (filter (progress st) (matches r st)))).
    { apply in_flat_map. exists (consume st (c :: w1)). split.
      - apply filter_In. split.
        + apply (IH1 Hplain st (w2 ++ rest)).
          now rewrite Hrest, <- app_assoc.
        + unfold progress. apply Nat.ltb_lt.
          rewrite consume_pos. simpl. lia.
      - rewrite consume_app.
        assert (R1 : m_rest (consume st (c :: w1)) = w2 ++ rest).
        { apply consume_rest. now rewrite Hrest, <- app_assoc. }
        pose proof (IH2 Hplain (consume st (c :: w1)) rest R1) as H2.
        cbn [matches] in H2. rewrite R1 in H2.
        eapply star_iter_more_fuel; [|exact H2].
        rewrite !length_app. lia. }
    rewrite <- app_assoc.
    destruct g; [apply in_or_app; left | right]; exact Hmore.
Qed.

(* ===================================================================== *)
(** * The fuel of the loops is never used up                              *)
(* ===================================================================== *)

Lemma find_chr_go_ge (c : ascii) (s : str) :
  forall i k : nat, find_chr_go c s i = Some k -> i <= k.
Proof.
  induction s as [|x s IH]; intros i k H; simpl in H; [discriminate|].
  destruct (ascii_eqb x c).
  - inversion H. lia.
  - apply IH in H. lia.
Qed.

Lemma find_chr_ge (c : ascii) (s : str) (i k : nat) :
  find_chr c s i = Some k -> i <= k.
Proof. apply find_chr_go_ge. Qed.

(** More fuel than the characters left changes nothing in the walk
    over a font span. *)
Lemma font_walk_fuel (remainder : str) :
  forall (fuel fuel' : nat) (stack : list str) (text_content : str)
         (in_text : bool) (i : nat),
    List.length remainder - i <= fuel -> fuel <= fuel' ->
    font_walk fuel remainder stack text_content in_text i
    = font_walk fuel' remainder stack text_content in_text i.
Proof.
  induction fuel as [|fuel IH]; intros fuel' stack tc it i Hleft Hle.
  - destruct fuel' as [|fuel']; [reflexivity|].
    cbn [font_walk].
    replace (i <? List.length remainder) with false
      by (symmetry; apply Nat.ltb_ge; lia).
    reflexivity.
  - destruct fuel' as [|fuel']; [lia|].
    cbn [font_walk].
    destruct (Nat.ltb_spec i (List.length remainder)) as [Hi|Hi];
      [|reflexivity].
    repeat match goal with
           | |- context [find_chr ?c ?s ?j] =>
               let E := fresh "E" in
               destruct (find_chr c s j) eqn:E;
               [apply find_chr_ge in E|]
           | |- context [if ?b then _ else _] => destruct b
           | |- context [match ?l with [] => _ | _ :: _ => _ end] =>
               destruct l
           end;
      try reflexivity; apply IH; lia.
Qed.

Lemma matches_shrinks (r : regex) (st st' : mstate) :
  In st' (matches r st) -> progress st st' = true ->
  List.length (m_rest st') < List.length (m_rest st).
Proof.
  intros Hin Hp.
  destruct (matches_sound r st st' Hin) as [w [_ A]].
  pose proof (progress_nonempty st st' w A Hp) as Hne.
  destruct A as [R _]. rewrite R, length_app.
  destruct w; [congruence | simpl; lia].
Qed.

Lemma flat_map_ext_in {A B : Type} (f g : A -> list B) (l : list A) :
  (forall x, In x l -> f x = g x) -> flat_map f l = flat_map g l.
Proof.
  induction l as [|x l IH]; intros H; simpl; [reflexivity|].
  rewrite (H x) by now left.
  rewrite IH; [reflexivity|]. intros y Hy. apply H. now right.
Qed.

(** The iterations of a star never need more fuel than the text ahead
    is long. *)
Lemma star_iter_fuel (r : regex) (g : bool) :
  forall (fuel fuel' : nat) (st : mstate),
    List.length (m_rest st) <= fuel -> fuel <= fuel' ->
    star_iter (matches r) g fuel st = star_iter (matches r) g fuel' st.
Proof.
  induction fuel as [|fuel IH]; intros fuel' st Hlen Hle.
  - destruct fuel' as [|fuel']; [reflexivity|].
    cbn [star_iter].
    assert (Hnone : filter (progress st) (matches r st) = []).
    { destruct (filter (progress st) (matches r st)) as [|x l] eqn:E;
        [reflexivity|].
      assert (Hx : In x (filter (progress st) (matches r st)))
        by (rewrite E; now left).
      apply filter_In in Hx. destruct Hx as [Hin Hp].
      pose proof (matches_shrinks r st x Hin Hp). lia. }
    rewrite Hnone. simpl. now destruct g.
  - destruct fuel' as [|fuel']; [lia|].
    cbn [star_iter].
    rewrite (flat_map_ext_in (star_iter (matches r) g fuel)
                             (star_iter (matches r) g fuel')).
    + reflexivity.
    + intros x Hx. apply filter_In in Hx. destruct Hx as [Hin Hp].
      pose proof (matches_shrinks r st x Hin Hp).
      apply IH; lia.
Qed.

(** Nor do the scans of [re.sub], [re.split], [re.finditer] and
    [re.search]. *)
Lemma sub_go_fuel (r : regex) (repl : rmatch -> str) :
  forall (fuel fuel' : nat) (budget : option nat) (st : mstate),
    List.length (m_rest st) < fuel -> fuel <= fuel' ->
    sub_go r repl budget fuel st = sub_go r repl budget fuel' st.
Proof.
  induction fuel as [|fuel IH]; intros fuel' budget st Hlen Hle; [lia|].
  destruct fuel' as [|fuel']; [lia|].
  cbn [sub_go].
  assert (Hstep :
    match advance st with
    | Some (c, st') => c :: sub_go r repl budget fuel st'
    | None => []
    end
    = match advance st with
      | Some (c, st') => c :: sub_go r repl budget fuel' st'
      | None => []
      end).
  { unfold advance. destruct (m_rest st) as [|c t] eqn:E; [reflexivity|].
    f_equal. apply IH; simpl in *; lia. }
  rewrite Hstep.
  destruct budget as [[|n]|]; try reflexivity;
    (destruct (matches r st) as [|st' l] eqn:EM; [reflexivity|];
     destruct (progress st st') eqn:EP; [|reflexivity];
     f_equal; apply IH; [|lia];
     assert (Hin : In st' (matches r st)) by (rewrite EM; now left);
     pose proof (matches_shrinks r st st' Hin EP); simpl; lia).
Qed.

Lemma split_go_fuel (r : regex) :
  forall (fuel fuel' : nat) (st : mstate) (cur : str),
    List.length (m_rest st) < fuel -> fuel <= fuel' ->
    Re.split_go r fuel st cur = Re.split_go r fuel' st cur.
Proof.
  induction fuel as [|fuel IH]; intros fuel' st cur Hlen Hle; [lia|].
  destruct fuel' as [|fuel']; [lia|].
  cbn [Re.split_go].
  assert (Hstep :
    match advance st with
    | Some (c, st') => Re.split_go r fuel st' (c :: cur)
    | None => [rev cur]
    end
    = match advance st with
      | Some (c, st') => Re.split_go r fuel' st' (c :: cur)
      | None => [rev cur]
      end).
  { unfold advance. destruct (m_rest st) as [|c t] eqn:E; [reflexivity|].
    apply IH; simpl in *; lia. }
  rewrite Hstep.
  destruct (matches r st) as [|st' l] eqn:EM; [reflexivity|].
  destruct (progress st st') eqn:EP; [|reflexivity].
  f_equal. apply IH; [|lia].
  assert (Hin : In st' (matches r st)) by (rewrite EM; now left).
  pose proof (matches_shrinks r st st' Hin EP). simpl. lia.
Qed.

Lemma finditer_go_fuel (r : regex) :
  forall (fuel fuel' : nat) (st : mstate),
    List.length (m_rest st) < fuel -> fuel <= fuel' ->
    finditer_go r fuel st = finditer_go r fuel' st.
Proof.
  induction fuel as [|fuel IH]; intros fuel' st Hlen Hle; [lia|].
  destruct fuel' as [|fuel']; [lia|].
  cbn [finditer_go].
  assert (Hstep :
    match advance st with
    | Some (_, st') => finditer_go r fuel st'
    | None => []
    end
    = match advance st with
      | Some (_, st') => finditer_go r fuel' st'
      | None => []
      end).
  { unfold advance. destruct (m_rest st) as [|c t] eqn:E; [reflexivity|].
    apply IH; simpl in *; lia. }
  rewrite Hstep.
  destruct (matches r st) as [|st' l] eqn:EM; [reflexivity|].
  destruct (progress st st') eqn:EP; [|reflexivity].
  f_equal. apply IH; [|lia].
  assert (Hin : In st' (matches r st)) by (rewrite EM; now left).
  pose proof (matches_shrinks r st st' Hin EP). simpl. lia.
Qed.

Lemma search_from_fuel (r : regex) :
  forall (fuel fuel' : nat) (st : mstate),
    List.length (m_rest st) <= fuel -> fuel <= fuel' ->
    search_from r fuel st = search_from r fuel' st.
Proof.
  induction fuel as [|fuel IH]; intros fuel' st Hlen Hle.
  - destruct fuel' as [|fuel']; [reflexivity|].
    cbn [search_from]. destruct (match_here r st); [reflexivity|].
    unfold advance.
    destruct (m_rest st) as [|c t] eqn:E; [reflexivity | simpl in Hlen; lia].
  - destruct fuel' as [|fuel']; [lia|].
    cbn [search_from]. destruct (match_here r st); [reflexivity|].
    unfold advance.
    destruct (m_rest st) as [|c t] eqn:E; [reflexivity|].
    apply IH; simpl in *; lia.
Qed.

(* ===================================================================== *)
(** * Properties of the proper-noun guard                                 *)
(* ===================================================================== *)

Ltac inv H := inversion H; subst; clear H.

Lemma lang_star_cls (g : bool) (p : ascii -> bool) (w : str) :
  lang (Star g (Cls p)) w -> Forall (fun c => p c = true) w.
Proof.
  intros H. remember (Star g (Cls p)) as r eqn:E.
  induction H as [| | | | | |g' r' w1 w2 H1 _ Hne _ IH2| | | |];
    try discriminate.
  - constructor.
  - inv E. inv H1. constructor; auto.
Qed.

Lemma lang_plus_cls (g : bool) (p : ascii -> bool) (w : str) :
  lang (Plus g (Cls p)) w -> w <> [] /\ Forall (fun c => p c = true) w.
Proof.
  intros H. unfold Plus in H. inv H.
  match goal with H : lang (Cls p) _ |- _ => inv H end.
  split; [discriminate|].
  constructor; [assumption|]. eapply lang_star_cls; eauto.
Qed.

(** The words of [[A-Z][a-zA-Z]+]. *)
Definition is_cap_word (w : str) : Prop :=
  exists (c : ascii) (l : str),
    w = c :: l /\ is_AZ c = true /\ l <> []
    /\ Forall (fun x => is_azAZ x = true) l.

(** A capitalized word, then any number of capitalized words, each
    after some whitespace. *)
Inductive is_noun_phrase_tail : str -> Prop :=
| TailEnd : is_noun_phrase_tail []
| TailMore (sp cw tl : str) :
    sp <> [] -> Forall (fun x => isspace x = true) sp ->
    is_cap_word cw -> is_noun_phrase_tail tl ->
    is_noun_phrase_tail (sp ++ cw ++ tl).

Definition is_noun_phrase (w : str) : Prop :=
  exists cw tl : str,
    w = cw ++ tl /\ is_cap_word cw /\ is_noun_phrase_tail tl.

Lemma lang_cap_word (w : str) : lang PatG.cap_word w <-> is_cap_word w.
Proof.
  unfold PatG.cap_word, is_cap_word. split.
  - intros H. inv H.
    match goal with H : lang (Cls is_AZ) _ |- _ => inv H end.
    match goal with H : lang (Plus _ _) _ |- _ =>
      apply lang_plus_cls in H; destruct H as [Hne Hall] end.
    simpl. eexists _, _. repeat split; eauto.
  - intros [c [l [-> [Hc [Hne Hall]]]]].
    change (c :: l) with ([c] ++ l).
    constructor; [now constructor|].
    destruct l as [|x l]; [congruence|].
    inversion Hall as [|? ? Hx Hl]; subst.
    unfold Plus. change (x :: l) with ([x] ++ l).
    constructor; [now constructor|].
    clear Hne Hall Hx. induction l as [|y l IH].
    + constructor.
    + inversion Hl; subst. change (y :: l) with ([y] ++ l).
      apply LStarS; [now constructor | discriminate | auto].
Qed.

Lemma lang_spaces (w : str) :
  lang (Plus true space) w
  <-> w <> [] /\ Forall (fun x => isspace x = true) w.
Proof.
  split.
  - apply lang_plus_cls.
  - intros [Hne Hall]. destruct w as [|x l]; [congruence|].
    inversion Hall as [|? ? Hx Hl]; subst.
    unfold Plus, space. change (x :: l) with ([x] ++ l).
    constructor; [now constructor|].
    clear Hne Hall Hx. induction l as [|y l IH].
    + constructor.
    + inversion Hl; subst. change (y :: l) with ([y] ++ l).
      apply LStarS; [now constructor | discriminate | auto].
Qed.

Lemma lang_more_word (w : str) :
  lang PatG.more_word w
  <-> exists sp cw : str,
        w = sp ++ cw /\ sp <> []
        /\ Forall (fun x => isspace x = true) sp /\ is_cap_word cw.
Proof.
  unfold PatG.more_word. split.
  - intros H. inv H.
    match goal with H : lang (Plus true space) _ |- _ =>
      apply lang_spaces in H; destruct H as [Hne Hall] end.
    match goal with H : lang PatG.cap_word _ |- _ =>
      apply lang_cap_word in H end.
    eexists _, _. repeat split; eauto.
  - intros [sp [cw [-> [Hne [Hall Hcw]]]]].
    constructor; [apply lang_spaces; auto | apply lang_cap_word; auto].
Qed.

Lemma cap_word_nonempty (w : str) : is_cap_word w -> w <> [].
Proof. intros [c [l [-> _]]]. discriminate. Qed.

(** What the pattern of [add_quotes_to_proper_nouns] matches is a
    phrase of capitalized words. *)
Lemma lang_proper_noun (w : str) :
  lang PatG.proper_noun w -> is_noun_phrase w.
Proof.
  unfold PatG.proper_noun, Seq, Opt. intros H.
  inv H.
  match goal with H : lang WordB _ |- _ => inv H end.
  match goal with H : lang (Cat PatG.cap_word _) _ |- _ => inv H end.
  match goal with H : lang PatG.cap_word _ |- _ =>
    apply lang_cap_word in H; rename H into Hcw end.
  match goal with H : lang (Cat _ WordB) _ |- _ => inv H end.
  match goal with H : lang WordB _ |- _ => inv H end.
  simpl. rewrite app_nil_r.
  eexists _, _. split; [reflexivity|]. split; [exact Hcw|].
  match goal with H : lang (Alt _ Eps) _ |- _ => inv H end.
  - match goal with H : lang (Cat PatG.more_word _) _ |- _ => inv H end.
    match goal with H : lang PatG.more_word _ |- _ =>
      apply lang_more_word in H;
      destruct H as [sp [cw [-> [Hne [Hsp Hc]]]]] end.
    rewrite <- app_assoc.
    apply TailMore; auto.
    match goal with H : lang (Alt PatG.more_word Eps) _ |- _ => inv H end.
    + match goal with H : lang PatG.more_word _ |- _ =>
        apply lang_more_word in H;
        destruct H as [sp2 [cw2 [-> [Hne2 [Hsp2 Hc2]]]]] end.
      rewrite <- (app_nil_r cw2).
      apply TailMore; auto. constructor.
    + match goal with H : lang Eps _ |- _ => inv H end. constructor.
  - match goal with H : lang Eps _ |- _ => inv H end. constructor.
Qed.

(** A phrase of capitalized words is one word of the pattern that
    [remove_added_quotes] tests the quoted content with. *)
Lemma noun_phrase_tail_star (tl : str) :
  is_noun_phrase_tail tl -> lang (Star true PatG.more_word) tl.
Proof.
  induction 1 as [|sp cw tl Hne Hsp Hcw _ IH].
  - constructor.
  - rewrite app_assoc. apply LStarS; [|  |exact IH].
    + apply lang_more_word. eexists _, _. repeat split; eauto.
    + destruct sp; [congruence | discriminate].
Qed.

Lemma plain_cap_word : plain PatG.cap_word = true.
Proof. reflexivity. Qed.

Lemma plain_more_words : plain (Star true PatG.more_word) = true.
Proof. reflexivity. Qed.

Lemma noun_phrase_preserved (w : str) :
  is_noun_phrase w -> is_some (re_match PatG.preserved_nouns w) = true.
Proof.
  intros [cw [tl [-> [Hcw Htl]]]].
  unfold re_match, match_here.
  assert (Hin : In (consume (at_start (cw ++ tl)) (cw ++ tl))
                   (matches PatG.preserved_nouns (at_start (cw ++ tl)))).
  { unfold PatG.preserved_nouns, Seq. cbn [matches].
    cbn [at_start m_pos Nat.eqb flat_map]. rewrite app_nil_r.
    apply in_flat_map. exists (consume (at_start (cw ++ tl)) cw). split.
    - apply (matches_complete PatG.cap_word cw) with (rest := tl);
        [now apply lang_cap_word | reflexivity | reflexivity].
    - apply in_flat_map.
      exists (consume (consume (at_start (cw ++ tl)) cw) tl). split.
      + apply (matches_complete (Star true PatG.more_word) tl) with (rest := []).
        * now apply noun_phrase_tail_star.
        * reflexivity.
        * rewrite app_nil_r. now apply consume_rest.
      + rewrite consume_app. unfold at_eos.
        rewrite (consume_rest _ tl []);
          [left; reflexivity|].
        rewrite app_nil_r. now apply consume_rest. }
  destruct (matches PatG.preserved_nouns (at_start (cw ++ tl)));
    [destruct Hin | reflexivity].
Qed.

(** The test [should_remove_quotes] makes on the quoted content. *)
Definition word_check (word : str) : bool :=
  match word with
  | c :: _ => isupper_chr c && isalpha word
  | [] => false
  end.

Definition removable (quoted_content : str) : bool :=
  is_some (re_match PatG.preserved_nouns quoted_content)
  && forallb word_check (split_ws quoted_content).

(** A small automaton for "every word starts with a capital and holds
    letters only". *)
Fixpoint words_ok (word_start : bool) (s : str) : bool :=
  match s with
  | [] => true
  | c :: t =>
      if isspace c then words_ok true t
      else (if word_start then is_AZ c else is_azAZ c) && words_ok false t
  end.

Lemma letter_not_space (c : ascii) : is_azAZ c = true -> isspace c = false.
Proof.
  destruct c as [[] [] [] [] [] [] [] []]; vm_compute; congruence.
Qed.

Lemma capital_is_letter (c : ascii) : is_AZ c = true -> is_azAZ c = true.
Proof. intros H. unfold is_azAZ. rewrite H. apply orb_true_r. Qed.

Definition partial_word (w : str) : Prop :=
  exists (c : ascii) (l : str),
    w = c :: l /\ is_AZ c = true /\ Forall (fun x => is_azAZ x = true) l.

Lemma partial_word_check (w : str) : partial_word w -> word_check w = true.
Proof.
  intros [c [l [-> [Hc Hl]]]]. unfold word_check, isalpha.
  apply andb_true_iff. split.
  - unfold isupper_chr. now rewrite Hc.
  - apply forallb_forall. intros x [<-|Hx].
    + unfold isalpha_chr. now rewrite (capital_is_letter _ Hc).
    + rewrite Forall_forall in Hl. unfold isalpha_chr. now rewrite (Hl x Hx).
Qed.

Lemma split_ws_go_check (s : str) :
  forall cur : str,
    words_ok (match cur with [] => true | _ => false end) s = true ->
    (cur = [] \/ partial_word (rev cur)) ->
    forallb word_check (split_ws_go s cur) = true.
Proof.
  induction s as [|c t IH]; intros cur Hok Hcur; cbn [split_ws_go].
  - destruct cur as [|x cur]; [reflexivity|].
    destruct Hcur as [H|H]; [discriminate|].
    cbn [forallb]. now rewrite (partial_word_check _ H).
  - cbn [words_ok] in Hok.
    destruct (isspace c) eqn:Hsp.
    + destruct cur as [|x cur].
      * apply IH; auto.
      * destruct Hcur as [H|H]; [discriminate|].
        cbn [forallb]. rewrite (partial_word_check _ H). simpl.
        apply IH; auto.
    + apply andb_true_iff in Hok. destruct Hok as [Hc Ht].
      apply IH; [exact Ht|]. right.
      destruct cur as [|x cur].
      * exists c, []. simpl. repeat split; auto.
      * destruct Hcur as [H|[c0 [l [E [Hc0 Hl]]]]]; [discriminate|].
        exists c0, (l ++ [c]). change (rev (c :: x :: cur))
          with (rev (x :: cur) ++ [c]).
        rewrite E. repeat split; auto.
        apply Forall_app. split; [exact Hl|]. constructor; auto.
Qed.

Lemma words_ok_letters (l y : str) :
  Forall (fun x => is_azAZ x = true) l ->
  words_ok false (l ++ y) = words_ok false y.
Proof.
  induction 1 as [|x l Hx _ IH]; simpl; [reflexivity|].
  now rewrite (letter_not_space _ Hx), Hx, IH.
Qed.

Lemma words_ok_cap_word (cw y : str) :
  is_cap_word cw -> words_ok true (cw ++ y) = words_ok false y.
Proof.
  intros [c [l [-> [Hc [_ Hl]]]]]. simpl.
  rewrite (letter_not_space _ (capital_is_letter _ Hc)), Hc. simpl.
  now apply words_ok_letters.
Qed.

Lemma words_ok_spaces (sp y : str) (b : bool) :
  sp <> [] -> Forall (fun x => isspace x = true) sp ->
  words_ok b (sp ++ y) = words_ok true y.
Proof.
  intros Hne Hsp. revert b.
  induction Hsp as [|x sp Hx Hsp IH]; intros b; [congruence|].
  simpl. rewrite Hx.
  destruct sp as [|x' sp']; [reflexivity|].
  apply IH. discriminate.
Qed.

Lemma words_ok_tail (tl : str) :
  is_noun_phrase_tail tl -> words_ok false tl = true.
Proof.
  induction 1 as [|sp cw tl Hne Hsp Hcw _ IH]; [reflexivity|].
  now rewrite (words_ok_spaces sp _ false Hne Hsp), (words_ok_cap_word _ _ Hcw).
Qed.

Lemma noun_phrase_removable (w : str) :
  is_noun_phrase w -> removable w = true.
Proof.
  intros H. unfold removable.
  rewrite (noun_phrase_preserved w H). simpl.
  destruct H as [cw [tl [-> [Hcw Htl]]]].
  apply split_ws_go_check; [|now left].
  now rewrite (words_ok_cap_word _ _ Hcw), (words_ok_tail _ Htl).
Qed.

(** The marked text, piece by piece: a character copied as it is, or
    a phrase put between quotes. *)
Inductive seg : Type :=
| Plain (c : ascii)
| Quoted (p : str).

Definition seg_orig (s : seg) : str :=
  match s with
  | Plain c => [c]
  | Quoted p => p
  end.

Definition seg_marked (s : seg) : str :=
  match s with
  | Plain c => [c]
  | Quoted p => [quote] ++ p ++ [quote]
  end.

Definition good_seg (s : seg) : Prop :=
  match s with
  | Plain c => c <> quote
  | Quoted p => p <> [] /\ ~ In quote p /\ removable p = true
  end.

Lemma count_chr_zero (c : ascii) (s : str) :
  count_chr c s = 0 <-> ~ In c s.
Proof.
  unfold count_chr. induction s as [|x s IH]; simpl.
  - tauto.
  - unfold ascii_eqb at 1. destruct (Ascii.eqb_spec c x) as [->|Hne]; simpl.
    + split; [discriminate | intros H; exfalso; apply H; auto].
    + rewrite IH. split.
      * intros H [E|E]; [congruence | tauto].
      * intros H E. apply H. auto.
Qed.

Lemma slice_middle {A : Type} (done w rest : list A) :
  firstn (List.length w) (skipn (List.length done) (done ++ w ++ rest)) = w.
Proof.
  rewrite skipn_app, skipn_all, Nat.sub_diag. simpl.
  rewrite firstn_app, firstn_all, Nat.sub_diag. simpl.
  now rewrite app_nil_r.
Qed.

Section Protect.

Variable text : str.
Hypothesis no_quote : ~ In quote text.

Lemma quotes_before_zero (start_pos : nat) :
  (quotes_before text start_pos =? 1) = false.
Proof.
  unfold quotes_before.
  assert (H : count_chr quote (firstn start_pos text) = 0).
  { apply count_chr_zero. intros Hin. apply no_quote.
    rewrite <- (firstn_skipn start_pos text). apply in_or_app. auto. }
  now rewrite H.
Qed.

Lemma protect_scan (fuel : nat) :
  forall (st : mstate) (done : str),
    text = done ++ m_rest st ->
    m_pos st = List.length done ->
    List.length (m_rest st) < fuel ->
    exists segs : list seg,
      Forall good_seg segs
      /\ sub_go PatG.proper_noun (replace_proper_noun text) None fuel st
         = concat (map seg_marked segs)
      /\ m_rest st = concat (map seg_orig segs).
Proof.
  induction fuel as [|fuel IH]; intros st done Htext Hpos Hfuel; [lia|].
  cbn [sub_go].
  assert (Hstep :
    exists segs : list seg,
      Forall good_seg segs
      /\ match advance st with
         | Some (c, st') =>
             c :: sub_go PatG.proper_noun (replace_proper_noun text) None
                    fuel st'
         | None => []
         end = concat (map seg_marked segs)
      /\ m_rest st = concat (map seg_orig segs)).
  { unfold advance. destruct (m_rest st) as [|c t] eqn:ER.
    - exists []. repeat split. constructor.
    - destruct (IH (MState (S (m_pos st)) (Some c) t (m_caps st))
                   (done ++ [c])) as [segs [Hg [Hs Ho]]].
      + simpl. now rewrite <- app_assoc.
      + simpl. rewrite length_app. simpl. lia.
      + simpl in *. lia.
      + exists (Plain c :: segs). split; [|split].
        * constructor; [|exact Hg]. simpl. intros ->.
          apply no_quote. rewrite Htext. apply in_or_app. right. now left.
        * simpl. now rewrite Hs.
        * simpl in *. now rewrite Ho. }
  destruct (matches PatG.proper_noun st) as [|st' l] eqn:EM; [exact Hstep|].
  destruct (progress st st') eqn:EP; [|exact Hstep].
  clear Hstep.
  destruct (matches_sound PatG.proper_noun st st') as [w [Hl [Hr Hp]]].
  { rewrite EM. now left. }
  assert (Hne : w <> []).
  { eapply progress_nonempty; [split; eauto | exact EP]. }
  destruct (IH (MState (m_pos st') (m_prev st') (m_rest st') []) (done ++ w))
    as [segs [Hg [Hs Ho]]].
  - simpl. now rewrite <- app_assoc, <- Hr.
  - simpl. rewrite length_app. lia.
  - simpl. rewrite Hr, length_app in Hfuel.
    destruct w; [congruence | simpl in Hfuel; lia].
  - exists (Quoted w :: segs). split; [|split].
    + constructor; [|exact Hg]. simpl. split; [exact Hne|]. split.
      * intros Hin. apply no_quote. rewrite Htext, Hr.
        apply in_or_app. right. apply in_or_app. now left.
      * apply noun_phrase_removable, lang_proper_noun, Hl.
    + cbn [map concat seg_marked]. rewrite <- Hs.
      unfold replace_proper_noun. cbn [m_start].
      rewrite quotes_before_zero.
      unfold group0, slice. cbn [m_start m_end].
      rewrite Hp, Hpos.
      replace (List.length done + List.length w - List.length done)
        with (List.length w) by lia.
      rewrite Htext, Hr, slice_middle.
      cbn [option_map]. now rewrite <- !app_assoc.
    + cbn [map concat seg_orig]. simpl in Ho. now rewrite <- Ho.
Qed.

End Protect.

(** A greedy star over a class, followed by something that fails
    inside the run: only the end of the run is left. *)
Lemma star_cls_then {B : Type} (p : ascii -> bool) (K : mstate -> list B)
    (rest : str) :
  match rest with [] => True | c :: _ => p c = false end ->
  forall (w : str) (st : mstate) (fuel : nat),
    m_rest st = w ++ rest ->
    Forall (fun c => p c = true) w ->
    List.length w <= fuel ->
    (forall w1 w2 : str, w = w1 ++ w2 -> w2 <> [] -> K (consume st w1) = []) ->
    flat_map K (star_iter (matches (Cls p)) true fuel st) = K (consume st w).
Proof.
  intros Hrest.
  induction w as [|c w IH]; intros st fuel Hst Hall Hfuel HK.
  - assert (Hnone : matches (Cls p) st = []).
    { cbn [matches]. unfold advance. rewrite Hst. simpl.
      destruct rest as [|c t]; [reflexivity|]. now rewrite Hrest. }
    destruct fuel as [|fuel]; cbn [star_iter consume].
    + simpl. now rewrite app_nil_r.
    + rewrite Hnone. simpl. now rewrite app_nil_r.
  - destruct fuel as [|fuel]; [simpl in Hfuel; lia|].
    inversion Hall as [|? ? Hc Hw]; subst.
    cbn [star_iter].
    assert (Hone : matches (Cls p) st
                   = [MState (S (m_pos st)) (Some c) (tl (m_rest st))
                             (m_caps st)]).
    { cbn [matches]. unfold advance. rewrite Hst. simpl. now rewrite Hc. }
    rewrite Hone. cbn [filter].
    replace (progress st _) with true
      by (symmetry; unfold progress; simpl; apply Nat.ltb_lt; lia).
    cbn [flat_map]. rewrite app_nil_r, flat_map_app. cbn [flat_map].
    assert (H0 : K st = [])
      by (apply (HK [] (c :: w)); [reflexivity | discriminate]).
    rewrite H0, !app_nil_r. cbn [consume].
    apply IH.
    + simpl. now rewrite Hst.
    + exact Hw.
    + simpl in Hfuel. lia.
    + intros w1 w2 E Hne. apply (HK (c :: w1) w2); [now rewrite E | exact Hne].
Qed.

Lemma flat_map_map {A B C : Type} (f : A -> B) (g : B -> list C)
    (l : list A) :
  flat_map g (map f l) = flat_map (fun x => g (f x)) l.
Proof. induction l as [|x l IH]; simpl; [reflexivity | now rewrite IH]. Qed.


(** The matcher on each form of pattern, as equations. *)
Lemma matches_cat (r1 r2 : regex) (st : mstate) :
  matches (Cat r1 r2) st = flat_map (matches r2) (matches r1 st).
Proof. reflexivity. Qed.

Lemma matches_grp (n : nat) (r : regex) (st : mstate) :
  matches (Grp n r) st = map (add_cap n st) (matches r st).
Proof. reflexivity. Qed.

Lemma matches_star (g : bool) (r : regex) (st : mstate) :
  matches (Star g r) st
  = star_iter (matches r) g (List.length (m_rest st)) st.
Proof. reflexivity. Qed.

Lemma matches_cls (p : ascii -> bool) (st : mstate) (c : ascii) (t : str) :
  m_rest st = c :: t ->
  matches (Cls p) st
  = if p c then [MState (S (m_pos st)) (Some c) t (m_caps st)] else [].
Proof. intros H. cbn [matches]. unfold advance. now rewrite H. Qed.

(** At a quote that opens a quoted run, the pattern of
    [remove_added_quotes] has one match: up to the next quote. *)
Lemma matches_quoted (st : mstate) (p rest : str) :
  m_rest st = [quote] ++ p ++ [quote] ++ rest ->
  p <> [] -> ~ In quote p ->
  matches PatG.quoted st
  = [MState (m_pos st + List.length p + 2) (Some quote) rest
            ((1, (S (m_pos st), S (m_pos st) + List.length p))
               :: m_caps st)].
Proof.
  intros Hst Hne Hq.
  destruct p as [|c p]; [congruence|].
  assert (Hc : negb (ascii_eqb quote c) = true).
  { apply negb_true_iff. unfold ascii_eqb.
    destruct (Ascii.eqb_spec quote c) as [E|E]; [|reflexivity].
    exfalso. apply Hq. now left. }
  assert (Hp : Forall (fun x => negb (ascii_eqb quote x) = true) p).
  { apply Forall_forall. intros x Hx. apply negb_true_iff. unfold ascii_eqb.
    destruct (Ascii.eqb_spec quote x) as [E|E]; [|reflexivity].
    exfalso. apply Hq. right. now rewrite E. }
  assert (Hqq : ascii_eqb quote quote = true)
    by (unfold ascii_eqb; apply Ascii.eqb_refl).
  unfold PatG.quoted, Seq, Plus, chr_, not_chr.
  rewrite matches_cat, (matches_cls _ st quote _ Hst), Hqq.
  cbn [flat_map]. rewrite app_nil_r.
  set (st1 := MState (S (m_pos st)) (Some quote)
                     ((c :: p) ++ [quote] ++ rest) (m_caps st)).
  rewrite matches_cat, matches_grp, matches_cat.
  rewrite (matches_cls _ st1 c (p ++ [quote] ++ rest) eq_refl), Hc.
  cbn [flat_map]. rewrite app_nil_r.
  set (st2 := MState (S (m_pos st1)) (Some c) (p ++ [quote] ++ rest)
                     (m_caps st1)).
  rewrite matches_star, flat_map_map.
  rewrite (star_cls_then (fun x => negb (ascii_eqb quote x))
             (fun x => matches (Cls (ascii_eqb quote)) (add_cap 1 st1 x))
             (quote :: rest)) with (w := p).
  - rewrite (matches_cls _ _ quote rest), Hqq.
    + unfold add_cap. rewrite consume_pos, consume_caps.
      subst st2 st1. cbn [m_pos m_caps m_prev m_rest List.length].
      replace (S (S (S (m_pos st)) + List.length p))
        with (m_pos st + S (List.length p) + 2) by lia.
      replace (S (S (m_pos st)) + List.length p)
        with (S (m_pos st) + S (List.length p)) by lia.
      reflexivity.
    + unfold add_cap. cbn [m_rest].
      now apply consume_rest.
  - reflexivity.
  - reflexivity.
  - exact Hp.
  - subst st2 st1. cbn [m_rest]. rewrite length_app. simpl. lia.
  - intros w1 w2 E Hw2.
    destruct w2 as [|x w2]; [congruence|].
    assert (Hx : negb (ascii_eqb quote x) = true).
    { rewrite Forall_forall in Hp. apply Hp. rewrite E.
      apply in_or_app. right. now left. }
    apply negb_true_iff in Hx.
    rewrite (matches_cls _ _ x (w2 ++ [quote] ++ rest)), Hx; [reflexivity|].
    unfold add_cap. cbn [m_rest].
    apply consume_rest. subst st2. cbn [m_rest].
    rewrite E, <- app_assoc. reflexivity.
Qed.

Lemma matches_cls_nil (p : ascii -> bool) (st : mstate) :
  m_rest st = [] -> matches (Cls p) st = [].
Proof. intros H. cbn [matches]. unfold advance. now rewrite H. Qed.

Lemma matches_quoted_none (st : mstate) :
  match m_rest st with [] => True | c :: _ => c <> quote end ->
  matches PatG.quoted st = [].
Proof.
  intros H. unfold PatG.quoted, Seq, chr_. rewrite matches_cat.
  destruct (m_rest st) as [|c t] eqn:E.
  - now rewrite (matches_cls_nil _ st E).
  - rewrite (matches_cls _ st c t E). unfold ascii_eqb.
    destruct (Ascii.eqb_spec quote c) as [Eq|Eq]; [congruence | reflexivity].
Qed.

Lemma should_remove_quotes_removable (full : str) (m : rmatch)
    (i j : nat) (p : str) (caps : list (nat * (nat * nat))) :
  m_groups m = (1, (i, j)) :: caps ->
  slice full i j = p ->
  removable p = true ->
  should_remove_quotes full m = p.
Proof.
  intros Hg Hs Hr. unfold should_remove_quotes, group.
  rewrite Hg. cbn [find fst Nat.eqb]. rewrite Hs.
  change ((if removable p then p else group0 full m) = p).
  now rewrite Hr.
Qed.

Lemma unprotect_scan (full : str) (segs : list seg) :
  forall (fuel : nat) (st : mstate) (done : str),
    full = done ++ concat (map seg_marked segs) ->
    m_rest st = concat (map seg_marked segs) ->
    m_pos st = List.length done ->
    Forall good_seg segs ->
    List.length (m_rest st) < fuel ->
    sub_go PatG.quoted (should_remove_quotes full) None fuel st
    = concat (map seg_orig segs).
Proof.
  induction segs as [|s segs IH]; intros fuel st done Hfull Hrest Hpos Hgood Hfuel;
    (destruct fuel as [|fuel]; [lia|]); cbn [sub_go].
  - simpl in Hrest.
    rewrite matches_quoted_none by now rewrite Hrest.
    unfold advance. now rewrite Hrest.
  - apply Forall_cons_iff in Hgood. destruct Hgood as [Hs Hg].
    destruct s as [c|p]; cbn [map concat seg_marked seg_orig] in *.
    + simpl in Hs.
      rewrite matches_quoted_none by now rewrite Hrest.
      unfold advance. rewrite Hrest. cbn [app]. f_equal.
      apply (IH fuel _ (done ++ [c])).
      * rewrite Hfull, <- !app_assoc. reflexivity.
      * reflexivity.
      * simpl. rewrite length_app. simpl. lia.
      * exact Hg.
      * simpl. rewrite Hrest in Hfuel. simpl in Hfuel. lia.
    + destruct Hs as [Hne [Hq Hr]].
      assert (Hrest' : m_rest st
                = [quote] ++ p ++ [quote] ++ concat (map seg_marked segs))
        by (rewrite Hrest; simpl; rewrite <- app_assoc; reflexivity).
      rewrite (matches_quoted st p (concat (map seg_marked segs)) Hrest' Hne Hq).
      replace (progress st _) with true
        by (symmetry; unfold progress; simpl; apply Nat.ltb_lt; lia).
      cbn [m_pos m_prev m_rest m_caps option_map].
      rewrite (should_remove_quotes_removable full _ (S (m_pos st))
                 (S (m_pos st) + List.length p) p (m_caps st)).
      * f_equal.
        apply (IH fuel _ (done ++ [quote] ++ p ++ [quote])).
        -- rewrite Hfull, <- !app_assoc. reflexivity.
        -- reflexivity.
        -- simpl. rewrite !length_app. simpl. rewrite length_app. simpl. lia.
        -- exact Hg.
        -- simpl. rewrite Hrest in Hfuel. simpl in Hfuel.
           rewrite !length_app in Hfuel. simpl in Hfuel. lia.
      * reflexivity.
      * unfold slice.
        replace (S (m_pos st) + List.length p - S (m_pos st))
          with (List.length p) by lia.
        rewrite Hfull, Hpos.
        replace (S (List.length done)) with (List.length (done ++ [quote]))
          by (rewrite length_app; simpl; lia).
        replace (done ++ ([quote] ++ p ++ [quote]) ++ concat (map seg_marked segs))
          with ((done ++ [quote]) ++ p ++ [quote] ++ concat (map seg_marked segs))
          by (now rewrite <- !app_assoc).
        apply slice_middle.
      * exact Hr.
Qed.

Definition text_with_quoted_name : str :=
  lit "He said " ++ [quote] ++ lit "Hello World" ++ [quote] ++ lit " to Bob".

(** A backend that returns the marked text as it got it: the protected
    spans are not altered. *)
Definition backend_keeps_marks : trace -> request -> reply :=
  fun _ r =>
    match r with
    | SimplePrompt text_with_quotes => Answer 200 (Some text_with_quotes)
    | _ => TransportFailure
    end.

(** C7 (the code departs from the claim).  [remove_added_quotes] never
    reads [added_positions]: it removes every pair of quotes around
    capitalized words, also a pair the author wrote.  On the text
    [He said "Hello World" to Bob] the guard adds quotes at positions 0
    and 25 only, around [He] and [Bob], and skips [Hello World], which
    has an odd number of quotes before it; the unmarking then removes
    three pairs, and the entry point, with a backend that returns the
    marked text unchanged, gives the text without the author's
    quotes. *)
Theorem C7_author_quotes_removed :
  (forall (text : str) (positions positions' : list nat),
     remove_added_quotes text positions = remove_added_quotes text positions')
  /\ add_quotes_to_proper_nouns text_with_quoted_name
     = ([quote] ++ lit "He" ++ [quote] ++ lit " said " ++ [quote]
        ++ lit "Hello World" ++ [quote] ++ lit " to " ++ [quote] ++ lit "Bob"
        ++ [quote],
        [0; 25])
  /\ remove_added_quotes
       (fst (add_quotes_to_proper_nouns text_with_quoted_name))
       (snd (add_quotes_to_proper_nouns text_with_quoted_name))
     = lit "He said Hello World to Bob"
  /\ fst (translate_srt_optimized backend_keeps_marks text_with_quoted_name
            (lit "en") (lit "pt-br") [])
     = Returns (lit "He said Hello World to Bob")
  /\ lit "He said Hello World to Bob" <> text_with_quoted_name.
Proof.
  split; [reflexivity|]. vm_compute. repeat split. discriminate.
Qed.

(** Two substitutions whose replacement functions agree do the same. *)
Lemma sub_go_ext (r : regex) (repl repl' : rmatch -> str)
    (budget : option nat) :
  (forall m : rmatch, repl m = repl' m) ->
  forall (fuel : nat) (st : mstate),
    sub_go r repl budget fuel st = sub_go r repl' budget fuel st.
Proof.
  intros H fuel. revert budget.
  induction fuel as [|fuel IH]; intros budget st; [reflexivity|].
  cbn [sub_go]. unfold advance.
  destruct budget as [[|n]|]; [reflexivity | |].
  - destruct (matches r st) as [|st' l].
    + destruct (m_rest st); [reflexivity | now rewrite IH].
    + destruct (progress st st').
      * now rewrite H, IH.
      * destruct (m_rest st); [reflexivity | now rewrite IH].
  - destruct (matches r st) as [|st' l].
    + destruct (m_rest st); [reflexivity | now rewrite IH].
    + destruct (progress st st').
      * now rewrite H, IH.
      * destruct (m_rest st); [reflexivity | now rewrite IH].
Qed.

(** For every text without a quote character: the guard puts every
    match of the pattern (one to three capitalized words) between
    quotes and records where each starts, none being skipped since no
    quote comes before it; and removing the quotes from the marked
    text gives the text back, whatever list of positions is passed. *)
Theorem guard_round_trip_without_quotes (text : str) :
  count_chr quote text = 0 ->
  fst (add_quotes_to_proper_nouns text)
  = re_sub_fn PatG.proper_noun
      (fun m => [quote] ++ group0 text m ++ [quote]) None text
  /\ snd (add_quotes_to_proper_nouns text)
     = map m_start (re_finditer PatG.proper_noun text)
  /\ (forall positions : list nat,
        remove_added_quotes (fst (add_quotes_to_proper_nouns text)) positions
        = text)
  /\ exists segs : list seg,
       Forall good_seg segs
       /\ fst (add_quotes_to_proper_nouns text) = concat (map seg_marked segs)
       /\ text = concat (map seg_orig segs).
Proof.
  intros Hq. apply count_chr_zero in Hq.
  split; [|split].
  - cbn [add_quotes_to_proper_nouns fst]. unfold re_sub_fn.
    apply sub_go_ext. intros m. unfold replace_proper_noun.
    now rewrite (quotes_before_zero text Hq).
  - cbn [add_quotes_to_proper_nouns snd]. f_equal.
    apply forallb_filter_id. apply forallb_forall. intros m _.
    now rewrite (quotes_before_zero text Hq).
  - destruct (protect_scan text Hq (S (List.length text)) (at_start text) [])
      as [segs [Hg [Hm Ho]]]; try reflexivity.
    { simpl. lia. }
    simpl in Ho.
    split; [|exists segs; repeat split; assumption].
    intros positions.
    unfold remove_added_quotes, re_sub_fn.
    cbn [add_quotes_to_proper_nouns fst]. unfold re_sub_fn. rewrite Hm.
    rewrite (unprotect_scan (concat (map seg_marked segs)) segs
               (S (List.length (concat (map seg_marked segs))))
               (at_start (concat (map seg_marked segs))) []);
      try reflexivity; auto.
Qed.

Lemma guard_round_trip_witness :
  fst (add_quotes_to_proper_nouns (lit "John Smith met Mary Ann Lee"))
  = [quote] ++ lit "John Smith" ++ [quote] ++ lit " met " ++ [quote]
    ++ lit "Mary Ann Lee" ++ [quote]
  /\ remove_added_quotes
       (fst (add_quotes_to_proper_nouns (lit "John Smith met Mary Ann Lee")))
       (snd (add_quotes_to_proper_nouns (lit "John Smith met Mary Ann Lee")))
     = lit "John Smith met Mary Ann Lee".
Proof.
  destruct (guard_round_trip_without_quotes
              (lit "John Smith met Mary Ann Lee") eq_refl)
    as (Hm & _ & Hr & _).
  split; [rewrite Hm; reflexivity | apply Hr].
Defined.

(* ===================================================================== *)
(** * Documents in normal form                                            *)
(* ===================================================================== *)

(** No line break inside. *)
Definition one_line (s : str) : bool :=
  forallb (fun c => negb (ascii_eqb NL c)) s.

(** Not empty, and no whitespace at either end. *)
Definition tight (s : str) : bool :=
  match s with
  | [] => false
  | c :: _ => negb (isspace c) && negb (isspace (last s c))
  end.

Lemma lstrip_tight (s : str) (c : ascii) (t : str) :
  s = c :: t -> isspace c = false -> lstrip s = s.
Proof. intros -> H. simpl. now rewrite H. Qed.

Lemma last_rev_head (s : str) (d : ascii) :
  s <> [] -> exists t, rev s = last s d :: t.
Proof.
  intros Hne. destruct (exists_last Hne) as [l [a ->]].
  rewrite rev_app_distr, last_last. simpl. eauto.
Qed.

Lemma strip_tight (s : str) : tight s = true -> strip s = s.
Proof.
  unfold tight. destruct s as [|c t] eqn:E; [discriminate|].
  rewrite <- E. intros H. apply andb_true_iff in H. destruct H as [Hf Hl].
  apply negb_true_iff in Hf, Hl.
  unfold strip, rstrip.
  rewrite (lstrip_tight s c t E Hf).
  destruct (last_rev_head s c) as [r Hr]; [rewrite E; discriminate|].
  rewrite Hr. simpl. rewrite Hl. rewrite <- Hr. apply rev_involutive.
Qed.

Lemma startswith_nl (c : ascii) (t : str) :
  startswith nl (c :: t) = ascii_eqb NL c.
Proof. unfold nl. cbn [startswith]. apply andb_true_r. Qed.

Lemma py_split_go_cons (sep : str) (c : ascii) (t cur : str) :
  Py.split_go sep (c :: t) 0 cur
  = if startswith sep (c :: t)
    then rev cur :: Py.split_go sep t (List.length sep - 1) []
    else Py.split_go sep t 0 (c :: cur).
Proof. reflexivity. Qed.

Lemma split_nl_line (a rest cur : str) :
  one_line a = true ->
  Py.split_go nl (a ++ rest) 0 cur = Py.split_go nl rest 0 (rev a ++ cur).
Proof.
  revert cur. induction a as [|c a IH]; intros cur H.
  - reflexivity.
  - unfold one_line in H. cbn [forallb] in H.
    apply andb_true_iff in H. destruct H as [Hc Ha].
    apply negb_true_iff in Hc.
    cbn [app]. rewrite py_split_go_cons, startswith_nl, Hc.
    rewrite IH by exact Ha. simpl. now rewrite <- app_assoc.
Qed.

Lemma split_nl_break (rest cur : str) :
  Py.split_go nl (NL :: rest) 0 cur = rev cur :: Py.split_go nl rest 0 [].
Proof.
  rewrite py_split_go_cons, startswith_nl.
  unfold ascii_eqb. now rewrite Ascii.eqb_refl.
Qed.

Lemma split_go_end (cur : str) : Py.split_go nl [] 0 cur = [rev cur].
Proof. reflexivity. Qed.

Lemma join_cons (sep l l2 : str) (ls : list str) :
  join sep (l :: l2 :: ls) = l ++ sep ++ join sep (l2 :: ls).
Proof. reflexivity. Qed.

(** Splitting at the line breaks gives back the lines that were
    joined. *)
Lemma split_go_join (ls : list str) :
  forall (l cur : str),
    one_line l = true ->
    Forall (fun x => one_line x = true) ls ->
    Py.split_go nl (join nl (l :: ls)) 0 cur = (rev cur ++ l) :: ls.
Proof.
  induction ls as [|l2 ls IH]; intros l cur Hl Hls.
  - cbn [join]. rewrite <- (app_nil_r l) at 1.
    rewrite (split_nl_line l [] cur Hl), split_go_end.
    now rewrite rev_app_distr, rev_involutive.
  - inversion Hls as [|? ? H2 Hrest]; subst.
    rewrite join_cons, (split_nl_line l _ cur Hl).
    cbn [nl app]. rewrite split_nl_break.
    rewrite rev_app_distr, rev_involutive.
    rewrite (IH l2 [] H2 Hrest). reflexivity.
Qed.

Lemma split_join_lines (l : str) (ls : list str) :
  one_line l = true ->
  Forall (fun x => one_line x = true) ls ->
  split nl (join nl (l :: ls)) = l :: ls.
Proof. intros Hl Hls. unfold split. now rewrite split_go_join. Qed.

(** A pattern that starts with a character the text does not hold
    matches nowhere, and [re.sub] returns the text. *)
Lemma matches_first_fails (c0 : ascii) (r : regex) (st : mstate) :
  match m_rest st with [] => True | c :: _ => c <> c0 end ->
  matches (Cat (chr_ c0) r) st = [].
Proof.
  intros H. unfold chr_. rewrite matches_cat.
  destruct (m_rest st) as [|c t] eqn:E.
  - now rewrite (matches_cls_nil _ st E).
  - rewrite (matches_cls _ st c t E). unfold ascii_eqb.
    destruct (Ascii.eqb_spec c0 c) as [Eq|Eq]; [congruence | reflexivity].
Qed.

Lemma sub_go_no_match (r : regex) (repl : rmatch -> str)
    (budget : option nat) (P : str -> Prop) :
  (forall st : mstate, P (m_rest st) -> matches r st = []) ->
  (forall (c : ascii) (t : str), P (c :: t) -> P t) ->
  forall (fuel : nat) (st : mstate),
    P (m_rest st) -> sub_go r repl budget fuel st = m_rest st.
Proof.
  intros Hnone Htail.
  induction fuel as [|fuel IH]; intros st HP; [reflexivity|].
  cbn [sub_go]. rewrite (Hnone st HP).
  assert (Hstep : match advance st with
                  | Some (c, st') => c :: sub_go r repl budget fuel st'
                  | None => []
                  end = m_rest st).
  { unfold advance. destruct (m_rest st) as [|c t] eqn:E; [reflexivity|].
    f_equal. rewrite IH; [reflexivity|]. simpl. eapply Htail; eauto. }
  rewrite Hstep. now destruct budget as [[|n]|].
Qed.

Definition lacks (c0 : ascii) (s : str) : bool :=
  forallb (fun c => negb (ascii_eqb c0 c)) s.

Lemma lacks_cons (c0 c : ascii) (t : str) :
  lacks c0 (c :: t) = true -> c <> c0 /\ lacks c0 t = true.
Proof.
  unfold lacks. cbn [forallb]. intros H.
  apply andb_true_iff in H. destruct H as [Hc Ht]. split; [|exact Ht].
  apply negb_true_iff in Hc. unfold ascii_eqb in Hc.
  intros ->. now rewrite Ascii.eqb_refl in Hc.
Qed.

Lemma re_sub_lacks (c0 : ascii) (r : regex) (repl s : str) :
  lacks c0 s = true -> re_sub (Cat (chr_ c0) r) repl s = s.
Proof.
  intros H. unfold re_sub, re_sub_fn.
  apply (sub_go_no_match _ _ _ (fun x => lacks c0 x = true)).
  - intros st Hst. apply matches_first_fails.
    destruct (m_rest st) as [|c t]; [exact I|].
    now apply lacks_cons in Hst.
  - intros c t Hct. now apply lacks_cons in Hct.
  - exact H.
Qed.

Lemma contains_lacks (c0 : ascii) (p s : str) :
  lacks c0 s = true -> contains (c0 :: p) s = false.
Proof.
  induction s as [|c t IH]; intros H.
  - reflexivity.
  - apply lacks_cons in H. destruct H as [Hc Ht].
    cbn [contains startswith]. rewrite (IH Ht).
    unfold ascii_eqb. destruct (Ascii.eqb_spec c0 c) as [E|E];
      [congruence | reflexivity].
Qed.

(** Whitespace is single blanks only. *)
Fixpoint single_spaced (s : str) : bool :=
  match s with
  | [] => true
  | c :: t =>
      (if isspace c
       then ascii_eqb c " "
            && match t with d :: _ => negb (isspace d) | [] => true end
       else true)
      && single_spaced t
  end.

Lemma matches_spaces_one (st : mstate) (t : str) :
  m_rest st = " "%char :: t ->
  match t with d :: _ => isspace d = false | [] => True end ->
  matches Pat.spaces st
  = [MState (S (m_pos st)) (Some " "%char) t (m_caps st)].
Proof.
  intros Hst Ht. unfold Pat.spaces, Plus, space.
  rewrite matches_cat, (matches_cls _ st " "%char t Hst).
  change (isspace " ") with true. cbn [flat_map]. rewrite app_nil_r.
  rewrite matches_star.
  destruct t as [|d t']; [reflexivity|].
  set (st1 := MState (S (m_pos st)) (Some " "%char) (d :: t') (m_caps st)).
  change (List.length (m_rest st1)) with (S (List.length t')).
  cbn [star_iter].
  rewrite (matches_cls _ st1 d t' eq_refl), Ht. reflexivity.
Qed.

Lemma matches_spaces_none (st : mstate) :
  match m_rest st with [] => True | c :: _ => isspace c = false end ->
  matches Pat.spaces st = [].
Proof.
  intros H. unfold Pat.spaces, Plus, space. rewrite matches_cat.
  destruct (m_rest st) as [|c t] eqn:E.
  - now rewrite (matches_cls_nil _ st E).
  - now rewrite (matches_cls _ st c t E), H.
Qed.

Lemma sub_spaces_id (fuel : nat) :
  forall st : mstate,
    single_spaced (m_rest st) = true ->
    List.length (m_rest st) < fuel ->
    sub_go Pat.spaces (fun _ => lit " ") None fuel st = m_rest st.
Proof.
  induction fuel as [|fuel IH]; intros st Hs Hfuel; [lia|].
  cbn [sub_go].
  destruct (m_rest st) as [|c t] eqn:E.
  - rewrite matches_spaces_none by now rewrite E.
    unfold advance. now rewrite E.
  - cbn [single_spaced] in Hs. apply andb_true_iff in Hs.
    destruct Hs as [Hc Ht].
    destruct (isspace c) eqn:Hsp.
    + apply andb_true_iff in Hc. destruct Hc as [Hblank Hnext].
      apply Ascii.eqb_eq in Hblank. subst c.
      rewrite (matches_spaces_one st t E).
      * replace (progress st _) with true
          by (symmetry; unfold progress; simpl; apply Nat.ltb_lt; lia).
        cbn [m_pos m_prev m_rest option_map lit list_ascii_of_string app].
        f_equal. rewrite IH; [reflexivity | exact Ht |].
        simpl in *. lia.
      * destruct t as [|d t']; [exact I|]. now apply negb_true_iff.
    + rewrite matches_spaces_none by now rewrite E.
      unfold advance. rewrite E. f_equal.
      rewrite IH; [reflexivity | exact Ht | simpl in *; lia].
Qed.

Lemma re_sub_spaces_id (s : str) :
  single_spaced s = true -> re_sub Pat.spaces (lit " ") s = s.
Proof.
  intros H. unfold re_sub, re_sub_fn.
  apply (sub_spaces_id (S (List.length s)) (at_start s) H). simpl. lia.
Qed.

(** Plain text: one line of at least two characters, no tag, no
    brace code, words separated by single blanks. *)
Definition plain_text (t : str) : bool :=
  (2 <=? List.length t) && tight t
  && lacks "<" t && lacks "{" t && single_spaced t.

Lemma single_spaced_one_line (s : str) :
  single_spaced s = true -> one_line s = true.
Proof.
  induction s as [|c t IH]; intros H; [reflexivity|].
  cbn [single_spaced] in H. apply andb_true_iff in H. destruct H as [Hc Ht].
  unfold one_line. cbn [forallb]. apply andb_true_iff. split.
  - apply negb_true_iff. unfold ascii_eqb.
    destruct (Ascii.eqb_spec NL c) as [<-|Hne]; [|reflexivity].
    change (isspace NL) with true in Hc. cbv iota in Hc.
    apply andb_true_iff in Hc. destruct Hc as [Hc _]. discriminate.
  - apply IH, Ht.
Qed.

Lemma extract_plain_text (t : str) :
  plain_text t = true -> extract_block_texts t = [t].
Proof.
  unfold plain_text. intros H.
  repeat (apply andb_true_iff in H; destruct H as [H ?]).
  unfold extract_block_texts.
  change (lit "<font") with ("<"%char :: lit "font").
  rewrite (contains_lacks "<" (lit "font") t) by assumption.
  unfold Pat.any_tag, Pat.braces, Seq.
  rewrite (re_sub_lacks "<") by assumption.
  rewrite (re_sub_lacks "{") by assumption.
  rewrite re_sub_spaces_id by assumption.
  rewrite strip_tight by assumption.
  destruct t; [discriminate | reflexivity].
Qed.

Lemma combined_plain_text (t : str) :
  plain_text t = true -> combined_text_of [t] = t.
Proof.
  unfold plain_text. intros H.
  repeat (apply andb_true_iff in H; destruct H as [H ?]).
  unfold combined_text_of. cbn [join].
  unfold Pat.braces, Seq.
  rewrite (re_sub_lacks "{") by assumption.
  rewrite re_sub_spaces_id by assumption.
  now apply strip_tight.
Qed.

(** ** Splitting a document at its empty lines *)

Lemma blank_line_form :
  Pat.blank_line = Cat (chr_ NL) (Cat (Star true space) (chr_ NL)).
Proof. reflexivity. Qed.

Lemma matches_blank_line_inner (st : mstate) (d : ascii) (t : str) :
  m_rest st = NL :: d :: t -> isspace d = false ->
  matches Pat.blank_line st = [].
Proof.
  intros Hst Hd. rewrite blank_line_form. unfold chr_, space.
  rewrite matches_cat, (matches_cls _ st NL (d :: t) Hst).
  change (ascii_eqb NL NL) with true. cbn [flat_map]. rewrite app_nil_r.
  set (st1 := MState (S (m_pos st)) (Some NL) (d :: t) (m_caps st)).
  rewrite matches_cat, matches_star.
  change (List.length (m_rest st1)) with (S (List.length t)).
  cbn [star_iter].
  rewrite (matches_cls _ st1 d t eq_refl), Hd.
  cbn [filter flat_map app].
  rewrite (matches_cls _ st1 d t eq_refl).
  assert (Hne : ascii_eqb NL d = false).
  { unfold ascii_eqb. destruct (Ascii.eqb_spec NL d) as [<-|]; [|reflexivity].
    discriminate Hd. }
  now rewrite Hne.
Qed.

Lemma matches_blank_line_gap (st : mstate) (t : str) :
  m_rest st = NL :: NL :: t ->
  match t with d :: _ => isspace d = false | [] => True end ->
  matches Pat.blank_line st
  = [MState (S (S (m_pos st))) (Some NL) t (m_caps st)].
Proof.
  intros Hst Ht. rewrite blank_line_form. unfold chr_, space.
  rewrite matches_cat, (matches_cls _ st NL (NL :: t) Hst).
  change (ascii_eqb NL NL) with true. cbn [flat_map]. rewrite app_nil_r.
  set (st1 := MState (S (m_pos st)) (Some NL) (NL :: t) (m_caps st)).
  rewrite matches_cat, matches_star.
  change (List.length (m_rest st1)) with (S (List.length t)).
  cbn [star_iter].
  rewrite (matches_cls _ st1 NL t eq_refl).
  change (isspace NL) with true. cbn [filter].
  replace (progress st1 _) with true
    by (symmetry; unfold progress; simpl; apply Nat.ltb_lt; lia).
  cbn [flat_map]. rewrite app_nil_r.
  set (st2 := MState (S (m_pos st1)) (Some NL) t (m_caps st1)).
  assert (Hstar : star_iter (matches (Cls isspace)) true (List.length t) st2
                  = [st2]).
  { destruct t as [|d t']; [reflexivity|].
    cbn [List.length star_iter].
    now rewrite (matches_cls _ st2 d t' eq_refl), Ht. }
  rewrite Hstar. cbn [app flat_map]. rewrite app_nil_r.
  assert (H2 : matches (Cls (ascii_eqb NL)) st2 = []).
  { destruct t as [|d t'].
    - now apply matches_cls_nil.
    - rewrite (matches_cls _ st2 d t' eq_refl).
      assert (Hne : ascii_eqb NL d = false).
      { unfold ascii_eqb.
        destruct (Ascii.eqb_spec NL d) as [<-|]; [|reflexivity].
        discriminate Ht. }
      now rewrite Hne. }
  rewrite H2. cbn [app].
  rewrite (matches_cls _ st1 NL t eq_refl).
  change (ascii_eqb NL NL) with true. reflexivity.
Qed.

(** Every line break is followed by a character that is no
    whitespace. *)
Fixpoint nl_safe (s : str) : bool :=
  match s with
  | [] => true
  | c :: t =>
      (if ascii_eqb NL c
       then match t with d :: _ => negb (isspace d) | [] => false end
       else true)
      && nl_safe t
  end.

Lemma split_go_block (b : str) :
  forall (st : mstate) (cur : str) (fuel : nat) (rest : str),
    m_rest st = b ++ rest ->
    nl_safe b = true ->
    List.length (m_rest st) < fuel ->
    exists st' : mstate,
      m_rest st' = rest
      /\ Re.split_go Pat.blank_line fuel st cur
         = Re.split_go Pat.blank_line (fuel - List.length b) st'
             (rev b ++ cur).
Proof.
  induction b as [|c b IH]; intros st cur fuel rest Hst Hsafe Hfuel.
  - exists st. split; [exact Hst|]. simpl. now rewrite Nat.sub_0_r.
  - destruct fuel as [|fuel]; [lia|].
    cbn [nl_safe] in Hsafe. apply andb_true_iff in Hsafe.
    destruct Hsafe as [Hc Hb].
    assert (Hnone : matches Pat.blank_line st = []).
    { destruct (ascii_eqb NL c) eqn:E.
      - apply Ascii.eqb_eq in E. subst c.
        destruct b as [|d b']; [discriminate|].
        apply (matches_blank_line_inner st d (b' ++ rest));
          [exact Hst | now apply negb_true_iff].
      - rewrite blank_line_form. apply matches_first_fails.
        rewrite Hst. simpl. intros ->.
        unfold ascii_eqb in E. now rewrite Ascii.eqb_refl in E. }
    cbn [Re.split_go]. rewrite Hnone.
    unfold advance. rewrite Hst. cbn [app].
    destruct (IH (MState (S (m_pos st)) (Some c) (b ++ rest) (m_caps st))
                 (c :: cur) fuel rest eq_refl Hb) as [st' [Hr Hs]].
    { simpl. rewrite Hst in Hfuel. simpl in Hfuel. lia. }
    exists st'. split; [exact Hr|].
    rewrite Hs. cbn [List.length Nat.sub rev]. now rewrite <- app_assoc.
Qed.

(** A block as the parser wants it: it starts with a character that
    is no whitespace, and so does each of its lines. *)
Definition blocky (b : str) : bool :=
  match b with
  | [] => false
  | c :: _ => negb (isspace c) && nl_safe b
  end.

Lemma join_paragraph_head (b : str) (bs : list str) :
  blocky b = true ->
  match join paragraph (b :: bs) with
  | d :: _ => isspace d = false
  | [] => True
  end.
Proof.
  intros H. destruct b as [|c b]; [discriminate|].
  unfold blocky in H. apply andb_true_iff in H. destruct H as [Hc _].
  apply negb_true_iff in Hc.
  destruct bs; simpl; exact Hc.
Qed.

Lemma split_go_blocks (bs : list str) :
  forall (b : str) (st : mstate) (cur : str) (fuel : nat),
    m_rest st = join paragraph (b :: bs) ->
    Forall (fun x => blocky x = true) (b :: bs) ->
    List.length (m_rest st) < fuel ->
    Re.split_go Pat.blank_line fuel st cur = (rev cur ++ b) :: bs.
Proof.
  induction bs as [|b2 bs IH]; intros b st cur fuel Hst Hall Hfuel.
  - inversion Hall as [|? ? Hb _]; subst.
    assert (Hsafe : nl_safe b = true).
    { destruct b; [discriminate|]. unfold blocky in Hb.
      apply andb_true_iff in Hb. tauto. }
    cbn [join] in Hst.
    destruct (split_go_block b st cur fuel [] (eq_trans Hst (eq_sym (app_nil_r b)))
                Hsafe Hfuel) as [st' [Hr Hs]].
    rewrite Hs.
    assert (Hf : fuel - List.length b = S (fuel - List.length b - 1)).
    { rewrite Hst in Hfuel. lia. }
    rewrite Hf. cbn [Re.split_go].
    rewrite blank_line_form, matches_first_fails by now rewrite Hr.
    unfold advance. rewrite Hr.
    now rewrite rev_app_distr, rev_involutive.
  - inversion Hall as [|? ? Hb Hrest]; subst.
    assert (Hsafe : nl_safe b = true).
    { destruct b; [discriminate|]. unfold blocky in Hb.
      apply andb_true_iff in Hb. tauto. }
    rewrite join_cons in Hst.
    destruct (split_go_block b st cur fuel _ Hst Hsafe Hfuel)
      as [st' [Hr Hs]].
    rewrite Hs.
    assert (Hlen : List.length (m_rest st)
                   = List.length b + 2
                     + List.length (join paragraph (b2 :: bs))).
    { rewrite Hst, !length_app. simpl. lia. }
    assert (Hf : fuel - List.length b = S (fuel - List.length b - 1)) by lia.
    rewrite Hf. cbn [Re.split_go].
    inversion Hrest as [|? ? Hb2 _]; subst.
    rewrite (matches_blank_line_gap st' (join paragraph (b2 :: bs)) Hr
               (join_paragraph_head b2 bs Hb2)).
    replace (progress st' _) with true
      by (symmetry; unfold progress; simpl; apply Nat.ltb_lt; lia).
    cbn [m_pos m_prev m_rest].
    rewrite rev_app_distr, rev_involutive. f_equal.
    rewrite (IH b2 (MState (S (S (m_pos st'))) (Some NL)
                           (join paragraph (b2 :: bs)) [])
                [] (fuel - List.length b - 1) eq_refl Hrest).
    + reflexivity.
    + cbn [m_rest]. lia.
Qed.

Lemma re_split_blocks (b : str) (bs : list str) :
  Forall (fun x => blocky x = true) (b :: bs) ->
  re_split Pat.blank_line (join paragraph (b :: bs)) = b :: bs.
Proof.
  intros H. unfold re_split.
  rewrite (split_go_blocks bs b (at_start (join paragraph (b :: bs))) []
             _ eq_refl H); [reflexivity|].
  simpl. lia.
Qed.

(** ** Subtitles in normal form and their document *)

Record subtitle : Type := Subtitle {
  sub_number : str;
  sub_timestamp : str;
  sub_text : option str
}.

(** A number line and a timestamp line the parser accepts, each one
    line without whitespace around it, and at most one line of plain
    text. *)
Definition subtitle_ok (s : subtitle) : bool :=
  tight (sub_number s) && one_line (sub_number s)
  && parses_as_integer (sub_number s)
  && tight (sub_timestamp s) && one_line (sub_timestamp s)
  && matches_timestamp_range (sub_timestamp s)
  && match sub_text s with
     | Some t => plain_text t
     | None => true
     end.

Definition block_lines (s : subtitle) : list str :=
  match sub_text s with
  | Some t => [sub_number s; sub_timestamp s; t]
  | None => [sub_number s; sub_timestamp s]
  end.

Definition block_str (s : subtitle) : str := join nl (block_lines s).

(** The blocks with one empty line between them. *)
Definition document (subs : list subtitle) : str :=
  join paragraph (map block_str subs).

Lemma last_default {A : Type} (l : list A) (d1 d2 : A) :
  l <> [] -> last l d1 = last l d2.
Proof.
  induction l as [|x l IH]; intros H; [congruence|].
  destruct l as [|y l]; [reflexivity|].
  cbn [last]. apply IH. discriminate.
Qed.

Lemma last_app_nonempty {A : Type} (a b : list A) (d : A) :
  b <> [] -> last (a ++ b) d = last b d.
Proof.
  intros H. induction a as [|x a IH]; [reflexivity|].
  cbn [app]. destruct (a ++ b) eqn:E.
  - destruct a; [simpl in E; congruence | discriminate].
  - cbn [last]. exact IH.
Qed.

Lemma tight_glue (a x b : str) :
  tight a = true -> tight b = true -> tight (a ++ x ++ b) = true.
Proof.
  unfold tight. destruct a as [|ca a]; [discriminate|].
  destruct b as [|cb b]; [discriminate|].
  intros Ha Hb.
  apply andb_true_iff in Ha. destruct Ha as [Ha _].
  apply andb_true_iff in Hb. destruct Hb as [_ Hb].
  cbn [app]. rewrite Ha. cbn [andb].
  replace (ca :: a ++ x ++ cb :: b) with ((ca :: a ++ x) ++ cb :: b)
    by (simpl; now rewrite <- app_assoc).
  rewrite last_app_nonempty by discriminate.
  now rewrite (last_default (cb :: b) ca cb) by discriminate.
Qed.

Lemma tight_head (s : str) :
  tight s = true -> exists c t, s = c :: t /\ isspace c = false.
Proof.
  unfold tight. destruct s as [|c t]; [discriminate|].
  intros H. apply andb_true_iff in H. destruct H as [H _].
  apply negb_true_iff in H. eauto.
Qed.

Lemma nl_safe_one_line (a : str) : one_line a = true -> nl_safe a = true.
Proof.
  induction a as [|c a IH]; intros H; [reflexivity|].
  unfold one_line in H. cbn [forallb] in H.
  apply andb_true_iff in H. destruct H as [Hc Ha].
  apply negb_true_iff in Hc. cbn [nl_safe]. rewrite Hc. now apply IH.
Qed.

Lemma nl_safe_line (a b : str) :
  one_line a = true -> tight b = true -> nl_safe b = true ->
  nl_safe (a ++ nl ++ b) = true.
Proof.
  intros Ha Hb Hsafe.
  induction a as [|c a IH].
  - destruct (tight_head b Hb) as [d [t [-> Hd]]].
    cbn [app nl nl_safe]. change (ascii_eqb NL NL) with true.
    rewrite Hd. exact Hsafe.
  - unfold one_line in Ha. cbn [forallb] in Ha.
    apply andb_true_iff in Ha. destruct Ha as [Hc Ha].
    apply negb_true_iff in Hc. cbn [app nl_safe]. rewrite Hc.
    now apply IH.
Qed.

Lemma plain_text_parts (t : str) :
  plain_text t = true ->
  tight t = true /\ one_line t = true /\ 2 <= List.length t.
Proof.
  unfold plain_text. intros H.
  repeat (apply andb_true_iff in H; destruct H as [H ?]).
  repeat split; auto using single_spaced_one_line.
  now apply Nat.leb_le.
Qed.

Section NormalForm.

Variable s : subtitle.
Hypothesis s_ok : subtitle_ok s = true.

Lemma subtitle_parts :
  tight (sub_number s) = true /\ one_line (sub_number s) = true
  /\ parses_as_integer (sub_number s) = true
  /\ tight (sub_timestamp s) = true /\ one_line (sub_timestamp s) = true
  /\ matches_timestamp_range (sub_timestamp s) = true
  /\ match sub_text s with
     | Some t => plain_text t = true
     | None => True
     end.
Proof.
  pose proof s_ok as H. unfold subtitle_ok in H.
  repeat (apply andb_true_iff in H; destruct H as [H ?]).
  repeat split; auto.
  destruct (sub_text s); auto.
Qed.

Lemma block_lines_one_line :
  Forall (fun x => one_line x = true) (block_lines s).
Proof.
  destruct subtitle_parts as [_ [Hn [_ [_ [Ht [_ Hx]]]]]].
  unfold block_lines. destruct (sub_text s) as [t|].
  - apply plain_text_parts in Hx. repeat constructor; tauto.
  - repeat constructor; auto.
Qed.

Lemma block_str_tight : tight (block_str s) = true.
Proof.
  destruct subtitle_parts as [Hn [_ [_ [Ht [_ [_ Hx]]]]]].
  unfold block_str, block_lines. destruct (sub_text s) as [t|].
  - apply plain_text_parts in Hx. destruct Hx as [Hx _].
    rewrite join_cons. apply tight_glue; [exact Hn|].
    rewrite join_cons. apply tight_glue; assumption.
  - rewrite join_cons. apply tight_glue; assumption.
Qed.

Lemma block_str_blocky : blocky (block_str s) = true.
Proof.
  pose proof block_str_tight as Htight.
  destruct subtitle_parts as [Hn [Hn1 [_ [Ht [Ht1 [_ Hx]]]]]].
  assert (Hsafe : nl_safe (block_str s) = true).
  { unfold block_str, block_lines. destruct (sub_text s) as [t|].
    - apply plain_text_parts in Hx. destruct Hx as [Hx [Hx1 _]].
      rewrite join_cons.
      apply nl_safe_line; [exact Hn1 | |].
      + rewrite join_cons. apply tight_glue; assumption.
      + rewrite join_cons.
        apply nl_safe_line; [exact Ht1 | exact Hx|].
        now apply nl_safe_one_line.
    - rewrite join_cons.
      apply nl_safe_line; [exact Hn1 | exact Ht|].
      now apply nl_safe_one_line. }
  destruct (tight_head _ Htight) as [c [t [E Hc]]].
  unfold blocky. rewrite E in *. now rewrite Hc, Hsafe.
Qed.

Lemma block_header_subtitle :
  block_header (block_str s) = Some (sub_number s, sub_timestamp s).
Proof.
  destruct subtitle_parts as [Hn [Hn1 [Hint [Ht [Ht1 [Hts _]]]]]].
  pose proof block_lines_one_line as Hlines.
  unfold block_header.
  destruct (tight_head _ block_str_tight) as [c [t [E _]]].
  rewrite E, <- E. clear E.
  assert (Hsplit : split nl (block_str s) = block_lines s).
  { unfold block_str, block_lines in *.
    destruct (sub_text s); inversion Hlines; subst;
      now apply split_join_lines. }
  rewrite Hsplit.
  assert (Hfirst : nth 0 (block_lines s) [] = sub_number s)
    by (unfold block_lines; now destruct (sub_text s)).
  assert (Hsecond : nth 1 (block_lines s) [] = sub_timestamp s)
    by (unfold block_lines; now destruct (sub_text s)).
  assert (Hlen : (List.length (block_lines s) <? 2) = false
                 /\ (1 <? List.length (block_lines s)) = true)
    by (unfold block_lines; now destruct (sub_text s)).
  destruct Hlen as [Hl1 Hl2]. rewrite Hl1, Hl2, Hfirst, Hsecond.
  rewrite (strip_tight _ Hn), (strip_tight _ Ht).
  unfold parses_as_integer in Hint. rewrite (strip_tight _ Hn) in Hint.
  unfold matches_timestamp_range in Hts.
  rewrite (strip_tight _ Ht) in Hts.
  destruct (int (sub_number s)); [|discriminate].
  destruct (re_match Pat.timestamp_range (sub_timestamp s));
    [reflexivity | discriminate].
Qed.

(** The entry the parser makes for the block. *)
Definition entry_of (text_index : nat) : block_info :=
  match sub_text s with
  | Some t =>
      BlockInfo (sub_number s) (sub_timestamp s) t
                (Some (Z.of_nat text_index)) true (Some [t]) (block_str s)
  | None =>
      BlockInfo (sub_number s) (sub_timestamp s) [] None false None
                (block_str s)
  end.

Lemma parse_block_subtitle (st : parse_state) :
  parse_block st (block_str s)
  = (fst st ++ match sub_text s with Some t => [t] | None => [] end,
     snd st ++ [entry_of (List.length (fst st))]).
Proof.
  destruct st as [texts smap]. unfold parse_block.
  rewrite (strip_tight _ block_str_tight), block_header_subtitle.
  pose proof block_lines_one_line as Hlines.
  assert (Hsplit : split nl (block_str s) = block_lines s).
  { unfold block_str, block_lines in *.
    destruct (sub_text s); inversion Hlines; subst;
      now apply split_join_lines. }
  rewrite Hsplit.
  destruct subtitle_parts as [_ [_ [_ [_ [_ [_ Hx]]]]]].
  unfold entry_of, block_lines.
  destruct (sub_text s) as [t|].
  - pose proof (plain_text_parts t Hx) as [Ht [_ Hlen]].
    cbn [List.length Nat.ltb Nat.leb skipn join].
    rewrite (strip_tight _ Ht).
    rewrite (extract_plain_text t Hx), (combined_plain_text t Hx).
    replace (List.length t <=? 1) with false
      by (symmetry; apply Nat.leb_gt; lia).
    destruct t as [|c t']; [simpl in Hlen; lia | reflexivity].
  - cbn [List.length Nat.ltb Nat.leb skipn join fst snd].
    rewrite strip_nil, app_nil_r. reflexivity.
Qed.

Lemma entry_as_extracted (text_index : nat) :
  text_as_extracted (entry_of text_index).
Proof.
  destruct subtitle_parts as [_ [_ [_ [_ [_ [_ Hx]]]]]].
  unfold text_as_extracted, entry_of, block_str, block_lines.
  destruct (sub_text s) as [t|]; [|discriminate].
  intros _. unfold render_block, fragment_of. cbn [content extracted_texts
    block_number timestamp original_block].
  rewrite (combined_plain_text t Hx).
  unfold plain_text in Hx.
  repeat (apply andb_true_iff in Hx; destruct Hx as [Hx ?]).
  change (lit "<font") with ("<"%char :: lit "font").
  rewrite (contains_lacks "<" (lit "font") t) by assumption.
  cbn [join]. now rewrite <- !app_assoc.
Qed.

Lemma entry_original (text_index : nat) :
  original_block (entry_of text_index) = block_str s.
Proof. unfold entry_of. now destruct (sub_text s). Qed.

End NormalForm.

Lemma tight_document (s : subtitle) (subs : list subtitle) :
  Forall (fun x => subtitle_ok x = true) (s :: subs) ->
  tight (document (s :: subs)) = true.
Proof.
  unfold document. revert s.
  induction subs as [|s2 subs IH]; intros s H;
    inversion H as [|? ? Hs Hrest]; subst.
  - now apply block_str_tight.
  - cbn [map]. rewrite join_cons.
    apply tight_glue; [now apply block_str_tight | now apply IH].
Qed.

Lemma parse_subtitles (subs : list subtitle) :
  Forall (fun x => subtitle_ok x = true) subs ->
  forall st : parse_state,
    Forall text_as_extracted (snd st) ->
    let st' := fold_left parse_block (map block_str subs) st in
    map original_block (snd st')
    = map original_block (snd st) ++ map block_str subs
    /\ Forall text_as_extracted (snd st').
Proof.
  induction 1 as [|s subs Hs _ IH]; intros st Hst; cbn [map fold_left].
  - split; [now rewrite app_nil_r | exact Hst].
  - rewrite (parse_block_subtitle s Hs st).
    edestruct IH as [Hm Hf]; [|split; [rewrite Hm|exact Hf]].
    + cbn [snd]. apply Forall_app. split; [exact Hst|].
      constructor; [|constructor]. now apply entry_as_extracted.
    + cbn [snd]. rewrite map_app. cbn [map].
      rewrite (entry_original s). now rewrite <- app_assoc.
Qed.

Lemma extract_document (subs : list subtitle) :
  Forall (fun x => subtitle_ok x = true) subs ->
  map original_block (snd (extract_text_from_srt (document subs)))
  = map block_str subs
  /\ Forall text_as_extracted (snd (extract_text_from_srt (document subs))).
Proof.
  intros H. destruct subs as [|s subs].
  - split; [reflexivity | constructor].
  - unfold extract_text_from_srt.
    rewrite (strip_tight _ (tight_document s subs H)).
    unfold document. cbn [map].
    rewrite re_split_blocks.
    + apply (parse_subtitles (s :: subs) H ([], [])). constructor.
    + change (block_str s :: map block_str subs)
        with (map block_str (s :: subs)).
      apply Forall_map. eapply Forall_impl; [|exact H].
      intros x Hx. now apply block_str_blocky.
Qed.

Lemma round_trip_document (subs : list subtitle) :
  Forall (fun x => subtitle_ok x = true) subs ->
  round_trip (document subs) = Returns (document subs).
Proof.
  intros H. destruct (extract_document subs H) as [Hm Hf].
  apply round_trip_as_kept; [|exact Hf].
  unfold blocks_as_kept. now rewrite Hm.
Qed.

Definition doc_normal : str := lit "1
00:00:01,000 --> 00:00:02,000
Hello <font color=#fff>John</font>

2
00:00:03,000 --> 00:00:04,000
[explosion]

3
00:00:05,000 --> 00:00:06,000".

Definition subs_normal : list subtitle :=
  [Subtitle (lit "1") (lit "00:00:01,000 --> 00:00:02,000")
            (Some (lit "Hello there, John!"));
   Subtitle (lit "2") (lit "00:00:03,000 --> 00:00:04,000") None;
   Subtitle (lit "3") (lit "00:00:05,000 --> 00:00:06,500")
            (Some (lit "[explosion]"))].

(* ===================================================================== *)
(** * Further properties of the pipeline                                  *)
(* ===================================================================== *)

(** The legacy text invoker keeps the retry policy: when every attempt
    fails it posts three times, pauses 1 and 2 seconds in between, and
    returns the text it was given. *)
Theorem legacy_invoker_degrades (backend : trace -> request -> reply)
    (text source_lang target_lang chunk_info : str) (t : trace) :
  (forall (t' : trace) (r : request), failing (backend t' r) = true) ->
  translate_chunk_with_ollama backend text source_lang target_lang
    chunk_info t
  = (text,
     t ++ exhausted_trace
            (LegacyPrompt text source_lang target_lang chunk_info)).
Proof. intros H. now apply translate_chunk_exhausted. Qed.

Lemma legacy_invoker_degrades_witness :
  translate_chunk_with_ollama backend_down (lit "Hello") (lit "en")
    (lit "pt-br") [] []
  = (lit "Hello",
     exhausted_trace (LegacyPrompt (lit "Hello") (lit "en") (lit "pt-br") [])).
Proof.
  apply (legacy_invoker_degrades backend_down).
  intros t r. reflexivity.
Defined.

Lemma reconstruct_loop_blocks (translated_texts : list str)
    (structure_map : list block_info) :
  Forall (fun e => match text_index e with
                   | Some i => (0 <= i)%Z
                   | None => True
                   end) structure_map ->
  forall result_blocks : list str,
    exists blocks : list str,
      reconstruct_loop translated_texts structure_map result_blocks
      = Returns (result_blocks ++ blocks)
      /\ Forall2 (fun e b => reconstruct_block translated_texts e = Returns b)
                 structure_map blocks.
Proof.
  induction 1 as [|e rest He _ IH]; intros acc; simpl.
  - exists []. rewrite app_nil_r. split; [reflexivity | constructor].
  - destruct (reconstruct_block_returns translated_texts e He) as [b Hb].
    rewrite Hb. destruct (IH (acc ++ [b])) as [blocks [Hl Hf]].
    exists (b :: blocks). split.
    + rewrite Hl, <- app_assoc. reflexivity.
    + constructor; assumption.
Qed.

(** With indices that are not negative, as the parser assigns them, the
    reconstructor raises nothing: it returns one block per entry, in
    order, joined by empty lines, and the block of an entry without
    text, without index or with an index past the translations is the
    entry's original block. *)
Theorem reconstructor_falls_back (translated_texts : list str)
    (structure_map : list block_info) :
  Forall (fun e => match text_index e with
                   | Some i => (0 <= i)%Z
                   | None => True
                   end) structure_map ->
  exists blocks : list str,
    reconstruct_srt_from_translations translated_texts structure_map
    = Returns (join paragraph blocks)
    /\ Forall2 (fun e b =>
                  reconstruct_block translated_texts e = Returns b
                  /\ (falls_back translated_texts e = true ->
                      b = original_block e))
               structure_map blocks.
Proof.
  intros H.
  destruct (reconstruct_loop_blocks translated_texts structure_map H [])
    as [blocks [Hl Hf]].
  exists blocks. unfold reconstruct_srt_from_translations. rewrite Hl.
  split; [reflexivity|].
  eapply Forall2_impl; [|exact Hf].
  intros e b Hb. split; [exact Hb|].
  intros Hfb. pose proof (reconstruct_block_fallback _ _ Hfb) as F.
  cbv beta in Hb. congruence.
Qed.

Definition out_of_range_entry : block_info :=
  BlockInfo (lit "1") (lit "00:00:01,000 --> 00:00:02,000") (lit "Hello")
            (Some 7%Z) true (Some [lit "Hello"])
            (lit "1
00:00:01,000 --> 00:00:02,000
Hello").

Lemma reconstructor_falls_back_witness :
  exists blocks : list str,
    reconstruct_srt_from_translations [lit "Bonjour"] [out_of_range_entry]
    = Returns (join paragraph blocks)
    /\ Forall2 (fun e b =>
                  reconstruct_block [lit "Bonjour"] e = Returns b
                  /\ (falls_back [lit "Bonjour"] e = true ->
                      b = original_block e))
               [out_of_range_entry] blocks.
Proof.
  apply (reconstructor_falls_back [lit "Bonjour"] [out_of_range_entry]).
  repeat constructor. discriminate.
Defined.

(** Whatever the backend answers, the structured pass returns exactly
    one translation per fragment. *)
Theorem pass_preserves_length (backend : trace -> request -> reply)
    (texts : list str) (source_lang target_lang : str) (t : trace) :
  List.length (fst (translate_texts_with_evolutionary_config backend texts
                      source_lang target_lang t))
  = List.length texts.
Proof. apply translate_texts_length. Qed.

(** The entry point returns a document for every input and every
    backend: no exception leaves it. *)
Theorem entry_point_never_raises (backend : trace -> request -> reply)
    (srt_content source_lang target_lang : str) (t : trace) :
  exists translated : str,
    fst (translate_srt_optimized backend srt_content source_lang
           target_lang t)
    = Returns translated.
Proof. apply translate_srt_optimized_returns. Qed.

(** When no fragment is the empty string, the chunks of the chunker
    hold every fragment once, in document order. *)
Theorem chunker_covers (count_tokens : str -> nat) (max_chunk_tokens : Z)
    (subtitles : list str) :
  Forall (fun s => s <> []) subtitles ->
  concat (chunk_groups count_tokens max_chunk_tokens subtitles) = subtitles
  /\ chunk_subtitles count_tokens max_chunk_tokens subtitles
     = map render_group
           (chunk_groups count_tokens max_chunk_tokens subtitles).
Proof.
  intros H. split.
  - now apply chunk_groups_cover.
  - apply chunk_subtitles_groups.
Qed.

Lemma chunker_covers_witness :
  concat (chunk_groups (fun s => 100 * List.length s) 600
            [lit "a"; lit "bc"; lit "defghij"; lit "k"])
  = [lit "a"; lit "bc"; lit "defghij"; lit "k"]
  /\ chunk_subtitles (fun s => 100 * List.length s) 600
       [lit "a"; lit "bc"; lit "defghij"; lit "k"]
     = map render_group
           (chunk_groups (fun s => 100 * List.length s) 600
              [lit "a"; lit "bc"; lit "defghij"; lit "k"]).
Proof.
  apply (chunker_covers (fun s => 100 * List.length s) 600).
  repeat constructor; discriminate.
Defined.

(* ===================================================================== *)
(** * What [strip] and the whitespace pattern do to a text                *)
(* ===================================================================== *)

(** ** [strip], piece by piece *)

Lemma lstrip_app (x y : str) :
  lstrip (x ++ y)
  = match lstrip x with
    | [] => lstrip y
    | l => l ++ y
    end.
Proof.
  induction x as [|c x IH]; [reflexivity|].
  cbn [app lstrip]. destruct (isspace c); [exact IH | reflexivity].
Qed.

Lemma rstrip_cons (c : ascii) (t : str) :
  rstrip (c :: t)
  = match rstrip t with
    | [] => if isspace c then [] else [c]
    | _ => c :: rstrip t
    end.
Proof.
  unfold rstrip. cbn [rev]. rewrite lstrip_app.
  destruct (lstrip (rev t)) as [|x l] eqn:E.
  - cbn [rev lstrip]. now destruct (isspace c).
  - rewrite rev_app_distr. cbn [rev app].
    destruct (rev l ++ [x]) eqn:E2; [|reflexivity].
    destruct (rev l); discriminate.
Qed.

Lemma rstrip_nil : rstrip [] = [].
Proof. reflexivity. Qed.

(** [rstrip] keeps a prefix and drops whitespace only. *)
Lemma rstrip_spec (s : str) :
  exists b : str,
    s = rstrip s ++ b /\ Forall (fun c => isspace c = true) b.
Proof.
  induction s as [|c t [b [Hb Hs]]].
  - exists []. split; [reflexivity | constructor].
  - rewrite rstrip_cons.
    destruct (rstrip t) as [|x r] eqn:E.
    + destruct (isspace c) eqn:Hc.
      * exists (c :: t). split; [reflexivity|].
        constructor; [exact Hc|]. simpl in Hb. now rewrite Hb.
      * exists b. split; [|exact Hs]. simpl in *. now rewrite Hb at 1.
    + exists b. split; [|exact Hs]. cbn [app]. now rewrite Hb at 1.
Qed.

Lemma lstrip_spec (s : str) :
  exists a : str,
    s = a ++ lstrip s /\ Forall (fun c => isspace c = true) a.
Proof.
  induction s as [|c t [a [Ha Hs]]].
  - exists []. split; [reflexivity | constructor].
  - cbn [lstrip]. destruct (isspace c) eqn:Hc.
    + exists (c :: a). split; [cbn [app]; now rewrite Ha at 1|].
      now constructor.
    + exists []. split; [reflexivity | constructor].
Qed.

Lemma lstrip_head (s : str) :
  match lstrip s with [] => True | c :: _ => isspace c = false end.
Proof.
  induction s as [|c t IH]; [exact I|].
  cbn [lstrip]. destruct (isspace c) eqn:Hc; [exact IH | exact Hc].
Qed.

Lemma rstrip_head (s : str) (c : ascii) (r : str) :
  rstrip s = c :: r -> exists t, s = c :: t.
Proof.
  destruct s as [|x t]; [discriminate|].
  rewrite rstrip_cons.
  destruct (rstrip t).
  - destruct (isspace x); [discriminate|]. intros H. inversion H. eauto.
  - intros H. inversion H. eauto.
Qed.

Lemma rstrip_last (s : str) (d : ascii) :
  rstrip s <> [] -> isspace (last (rstrip s) d) = false.
Proof.
  induction s as [|c t IH]; [intros H; now contradiction H|].
  rewrite rstrip_cons.
  destruct (rstrip t) as [|x r] eqn:E.
  - destruct (isspace c) eqn:Hc; [intros H; now contradiction H|].
    intros _. exact Hc.
  - intros _. cbn [last]. apply IH. discriminate.
Qed.

(** What [strip] returns is empty or has no whitespace at either end. *)
Lemma strip_tight_or_empty (s : str) :
  strip s = [] \/ tight (strip s) = true.
Proof.
  unfold strip.
  destruct (rstrip (lstrip s)) as [|c r] eqn:E; [now left|]. right.
  destruct (rstrip_head _ _ _ E) as [t Ht].
  pose proof (lstrip_head s) as Hh. rewrite Ht in Hh.
  unfold tight. rewrite Hh. cbn [negb andb].
  apply negb_true_iff. rewrite <- E. apply rstrip_last. now rewrite E.
Qed.

Lemma strip_spec (s : str) :
  exists a b : str,
    s = a ++ strip s ++ b
    /\ Forall (fun c => isspace c = true) a
    /\ Forall (fun c => isspace c = true) b.
Proof.
  destruct (lstrip_spec s) as [a [Ha Hsa]].
  destruct (rstrip_spec (lstrip s)) as [b [Hb Hsb]].
  exists a, b. unfold strip. rewrite <- Hb. auto.
Qed.

Lemma lstrip_spaces (a x : str) :
  Forall (fun c => isspace c = true) a -> lstrip (a ++ x) = lstrip x.
Proof.
  induction 1 as [|c a Hc _ IH]; [reflexivity|].
  cbn [app lstrip]. now rewrite Hc.
Qed.

Lemma rstrip_spaces (x b : str) :
  Forall (fun c => isspace c = true) b -> rstrip (x ++ b) = rstrip x.
Proof.
  intros H. unfold rstrip. rewrite rev_app_distr.
  rewrite lstrip_spaces; [reflexivity|].
  now apply Forall_rev.
Qed.

(** Whitespace around a text does not change what [strip] gives. *)
Lemma strip_spaces (a x b : str) :
  Forall (fun c => isspace c = true) a ->
  Forall (fun c => isspace c = true) b ->
  strip (a ++ x ++ b) = strip x.
Proof.
  intros Ha Hb. unfold strip. rewrite (lstrip_spaces a _ Ha), lstrip_app.
  destruct (lstrip x) as [|c l] eqn:E.
  - assert (Hl : lstrip b = []).
    { clear -Hb. induction Hb as [|c b Hc _ IH]; [reflexivity|].
      cbn [lstrip]. now rewrite Hc. }
    now rewrite Hl.
  - now apply rstrip_spaces.
Qed.

Lemma strip_idempotent (s : str) : strip (strip s) = strip s.
Proof.
  destruct (strip_tight_or_empty s) as [->|H]; [reflexivity|].
  now apply strip_tight.
Qed.

(** ** Runs of whitespace become one blank *)

Fixpoint collapse (in_run : bool) (s : str) : str :=
  match s with
  | [] => []
  | c :: t =>
      if isspace c
      then if in_run then collapse true t else " "%char :: collapse true t
      else c :: collapse false t
  end.

Lemma span_class (p : ascii -> bool) (s : str) :
  exists w rest : str,
    s = w ++ rest
    /\ Forall (fun c => p c = true) w
    /\ match rest with [] => True | d :: _ => p d = false end.
Proof.
  induction s as [|c t [w [rest [E [Hw Hr]]]]].
  - exists [], []. repeat split. constructor.
  - destruct (p c) eqn:Hc.
    + exists (c :: w), rest. rewrite E. repeat split; auto.
    + exists [], (c :: t). repeat split; auto.
Qed.

(** A greedy star over a class first reads the whole run. *)
Lemma star_cls_greedy_first (p : ascii -> bool) (rest : str) :
  match rest with [] => True | c :: _ => p c = false end ->
  forall (w : str) (st : mstate) (fuel : nat),
    m_rest st = w ++ rest ->
    Forall (fun c => p c = true) w ->
    List.length w <= fuel ->
    exists l : list mstate,
      star_iter (matches (Cls p)) true fuel st = consume st w :: l.
Proof.
  intros Hrest.
  induction w as [|c w IH]; intros st fuel Hst Hall Hfuel.
  - assert (Hnone : matches (Cls p) st = []).
    { cbn [matches]. unfold advance. rewrite Hst. simpl.
      destruct rest as [|c t]; [reflexivity|]. now rewrite Hrest. }
    destruct fuel as [|fuel]; cbn [star_iter consume].
    + eauto.
    + rewrite Hnone. simpl. eauto.
  - destruct fuel as [|fuel]; [simpl in Hfuel; lia|].
    inversion Hall as [|? ? Hc Hw]; subst.
    cbn [star_iter].
    rewrite (matches_cls p st c (w ++ rest) Hst), Hc. cbn [filter].
    replace (progress st _) with true
      by (symmetry; unfold progress; simpl; apply Nat.ltb_lt; lia).
    cbn [flat_map]. rewrite app_nil_r.
    destruct (IH (MState (S (m_pos st)) (Some c) (w ++ rest) (m_caps st)) fuel)
      as [l Hl]; [reflexivity | exact Hw | simpl in Hfuel; lia |].
    rewrite Hl. cbn [consume app]. rewrite Hst. cbn [tl]. eauto.
Qed.

Lemma matches_spaces_run (st : mstate) (c : ascii) (w rest : str) :
  m_rest st = c :: w ++ rest ->
  isspace c = true ->
  Forall (fun x => isspace x = true) w ->
  match rest with [] => True | d :: _ => isspace d = false end ->
  exists l : list mstate,
    matches Pat.spaces st = consume st (c :: w) :: l.
Proof.
  intros Hst Hc Hw Hrest. unfold Pat.spaces, Plus, space.
  rewrite matches_cat, (matches_cls _ st c (w ++ rest) Hst), Hc.
  cbn [flat_map]. rewrite app_nil_r, matches_star.
  destruct (star_cls_greedy_first isspace rest Hrest w
              (MState (S (m_pos st)) (Some c) (w ++ rest) (m_caps st))
              (List.length (w ++ rest)))
    as [l Hl]; [reflexivity | exact Hw | rewrite length_app; lia |].
  cbn [m_rest]. rewrite Hl. cbn [consume]. rewrite Hst. cbn [tl]. eauto.
Qed.

Lemma collapse_run (w rest : str) :
  Forall (fun x => isspace x = true) w ->
  match rest with [] => True | d :: _ => isspace d = false end ->
  collapse true (w ++ rest) = collapse false rest.
Proof.
  intros Hw Hrest. induction Hw as [|x w Hx _ IH].
  - destruct rest as [|d t]; [reflexivity|]. cbn [app collapse].
    now rewrite Hrest.
  - cbn [app collapse]. now rewrite Hx.
Qed.

Lemma sub_spaces_collapse (fuel : nat) :
  forall st : mstate,
    List.length (m_rest st) < fuel ->
    sub_go Pat.spaces (fun _ => lit " ") None fuel st
    = collapse false (m_rest st).
Proof.
  induction fuel as [|fuel IH]; intros st Hfuel; [lia|].
  cbn [sub_go].
  destruct (m_rest st) as [|c t] eqn:E.
  - rewrite matches_spaces_none by now rewrite E.
    unfold advance. now rewrite E.
  - cbn [collapse]. destruct (isspace c) eqn:Hc.
    + destruct (span_class isspace t) as [w [rest [Et [Hw Hrest]]]].
      destruct (matches_spaces_run st c w rest) as [l Hl]; auto.
      { now rewrite E, Et. }
      rewrite Hl.
      replace (progress st _) with true
        by (symmetry; unfold progress; rewrite consume_pos; simpl;
            apply Nat.ltb_lt; lia).
      cbn [option_map lit list_ascii_of_string app]. f_equal.
      rewrite IH.
      * cbn [m_rest]. rewrite (consume_rest st (c :: w) rest).
        -- rewrite Et. symmetry. now apply collapse_run.
        -- now rewrite E, Et.
      * cbn [m_rest]. rewrite (consume_rest st (c :: w) rest).
        -- simpl in Hfuel. rewrite Et, length_app in Hfuel. lia.
        -- now rewrite E, Et.
    + rewrite matches_spaces_none by now rewrite E, Hc.
      unfold advance. rewrite E. f_equal.
      rewrite IH; [reflexivity | simpl in *; lia].
Qed.

Lemma re_sub_spaces_collapse (s : str) :
  re_sub Pat.spaces (lit " ") s = collapse false s.
Proof.
  unfold re_sub, re_sub_fn.
  apply (sub_spaces_collapse (S (List.length s)) (at_start s)). simpl. lia.
Qed.

Lemma collapse_true_head (s : str) :
  match collapse true s with [] => True | d :: _ => isspace d = false end.
Proof.
  induction s as [|c t IH]; [exact I|].
  cbn [collapse]. destruct (isspace c) eqn:Hc; [exact IH | exact Hc].
Qed.

Lemma collapse_single_spaced (s : str) (b : bool) :
  single_spaced (collapse b s) = true.
Proof.
  revert b. induction s as [|c t IH]; intros b; [reflexivity|].
  cbn [collapse]. destruct (isspace c) eqn:Hc.
  - destruct b; [apply IH|].
    cbn [single_spaced]. change (isspace " ") with true.
    rewrite IH. cbn [ascii_eqb]. rewrite andb_true_r.
    pose proof (collapse_true_head t) as Hh.
    destruct (collapse true t); [reflexivity|].
    now rewrite Hh.
  - cbn [single_spaced]. now rewrite Hc, IH.
Qed.

Lemma single_spaced_tail (c : ascii) (t : str) :
  single_spaced (c :: t) = true -> single_spaced t = true.
Proof.
  cbn [single_spaced]. intros H. apply andb_true_iff in H. tauto.
Qed.

Lemma single_spaced_lstrip (s : str) :
  single_spaced s = true -> single_spaced (lstrip s) = true.
Proof.
  induction s as [|c t IH]; intros H; [reflexivity|].
  cbn [lstrip]. destruct (isspace c); [|exact H].
  apply IH. eapply single_spaced_tail; eauto.
Qed.

Lemma single_spaced_cons2 (c x : ascii) (r : str) :
  single_spaced (c :: x :: r)
  = (if isspace c then ascii_eqb c " " && negb (isspace x) else true)
    && single_spaced (x :: r).
Proof. reflexivity. Qed.

Lemma single_spaced_rstrip (s : str) :
  single_spaced s = true -> single_spaced (rstrip s) = true.
Proof.
  induction s as [|c t IH]; intros H; [reflexivity|].
  rewrite rstrip_cons.
  pose proof (single_spaced_tail c t H) as Ht.
  specialize (IH Ht).
  destruct (rstrip t) as [|x r] eqn:E.
  - destruct (isspace c) eqn:Hc; [reflexivity|].
    cbn [single_spaced]. now rewrite Hc.
  - destruct (rstrip_head _ _ _ E) as [t' ->].
    rewrite single_spaced_cons2 in H |- *.
    apply andb_true_iff in H. destruct H as [Hc _].
    now rewrite Hc, IH.
Qed.

Lemma single_spaced_strip (s : str) :
  single_spaced s = true -> single_spaced (strip s) = true.
Proof.
  intros H. unfold strip. now apply single_spaced_rstrip, single_spaced_lstrip.
Qed.


(* ===================================================================== *)
(** * The fragments the parser extracts                                   *)
(* ===================================================================== *)

(** A fragment as the backend gets it: one line of at least two
    characters, no whitespace at either end, words separated by single
    blanks. *)
Definition fragment_ok (t : str) : Prop :=
  2 <= List.length t /\ tight t = true /\ one_line t = true
  /\ single_spaced t = true.

Lemma combined_text_ok (extracted : list str) :
  (List.length (combined_text_of extracted) <? 2) = false ->
  fragment_ok (combined_text_of extracted).
Proof.
  intros Hlen. apply Nat.ltb_ge in Hlen.
  unfold combined_text_of in *.
  set (x := re_sub Pat.braces [] (join (lit " ") extracted)) in *.
  assert (Hs : single_spaced (strip (re_sub Pat.spaces (lit " ") x)) = true).
  { apply single_spaced_strip. rewrite re_sub_spaces_collapse.
    apply collapse_single_spaced. }
  repeat split; auto.
  - destruct (strip_tight_or_empty (re_sub Pat.spaces (lit " ") x)) as [E|E];
      [|exact E].
    rewrite E in Hlen. simpl in Hlen. lia.
  - now apply single_spaced_one_line.
Qed.

Lemma parse_block_fragments (st : parse_state) (block : str) :
  Forall fragment_ok (fst st) ->
  Forall fragment_ok (fst (parse_block st block)).
Proof.
  intros H. destruct st as [texts smap]. unfold parse_block.
  destruct (block_header (strip block)) as [[bn ts]|]; [|exact H].
  destruct (strip (join nl _)); [exact H|].
  destruct (extract_block_texts _) as [|x xs]; [exact H|].
  destruct (_ <? 2) eqn:E; [exact H|].
  cbn [fst]. apply Forall_app. split; [exact H|].
  constructor; [|constructor]. now apply combined_text_ok.
Qed.

(** Every fragment the parser hands to the translation pass is one
    line of at least two characters, without whitespace at either end,
    and its only whitespace is single blanks between words: line
    breaks, tabs and runs of blanks of the subtitle text are gone. *)
Theorem fragments_well_formed (srt_content : str) :
  Forall fragment_ok (fst (extract_text_from_srt srt_content)).
Proof.
  unfold extract_text_from_srt.
  generalize (re_split Pat.blank_line (strip srt_content)).
  assert (H : Forall fragment_ok (fst (([], []) : parse_state)))
    by constructor.
  revert H. generalize (([], []) : parse_state).
  intros st H blocks. revert st H.
  induction blocks as [|b blocks IH]; intros st H; simpl; [exact H|].
  apply IH, parse_block_fragments, H.
Qed.

(** Whitespace before and after a document (blank lines, a final line
    break) changes neither the fragments nor the structure map. *)
Theorem parser_ignores_margin (a srt_content b : str) :
  Forall (fun c => isspace c = true) a ->
  Forall (fun c => isspace c = true) b ->
  extract_text_from_srt (a ++ srt_content ++ b)
  = extract_text_from_srt srt_content.
Proof.
  intros Ha Hb. unfold extract_text_from_srt.
  now rewrite (strip_spaces a srt_content b Ha Hb).
Qed.

Lemma parser_ignores_margin_witness :
  extract_text_from_srt (nl ++ nl ++ doc_two_lines ++ lit " " ++ nl)
  = extract_text_from_srt doc_two_lines.
Proof.
  apply (parser_ignores_margin (nl ++ nl) doc_two_lines (lit " " ++ nl));
    repeat constructor.
Defined.

(* ===================================================================== *)
(** * What the structured pass does to the outside                        *)
(* ===================================================================== *)

(** The events of the pass: each chunk posted once, a pause of one
    second between two chunks. *)
Fixpoint pass_events (text_chunks : list (list str)) : trace :=
  match text_chunks with
  | [] => []
  | chunk :: rest =>
      Post (EvolutionaryPrompt chunk)
      :: match rest with
         | [] => []
         | _ => Sleep 1 :: pass_events rest
         end
  end.

Section PassEvents.

Variable backend : trace -> request -> reply.
Variables source_lang target_lang : str.

Lemma translate_chunks_loop_events (text_chunks : list (list str)) :
  forall (n_chunks i : nat) (all_translations : list str) (t : trace),
    n_chunks = i + List.length text_chunks ->
    snd (translate_chunks_loop backend source_lang target_lang n_chunks i
           text_chunks all_translations t)
    = t ++ pass_events text_chunks.
Proof.
  induction text_chunks as [|chunk rest IH]; intros n_chunks i acc t Hn.
  - simpl. unfold ret. simpl. now rewrite app_nil_r.
  - cbn [translate_chunks_loop]. rewrite !bind_run.
    rewrite translate_text_chunk_trace.
    destruct rest as [|chunk2 rest'].
    + replace (i <? n_chunks - 1) with false
        by (symmetry; apply Nat.ltb_ge; simpl in Hn; lia).
      unfold ret. simpl. reflexivity.
    + replace (i <? n_chunks - 1) with true
        by (symmetry; apply Nat.ltb_lt; simpl in Hn; lia).
      unfold sleep at 1. cbn [snd].
      rewrite IH by (simpl in *; lia).
      cbn [pass_events]. now rewrite <- !app_assoc.
Qed.

Lemma translate_texts_events (texts : list str) (t : trace) :
  snd (translate_texts_with_evolutionary_config backend texts source_lang
         target_lang t)
  = t ++ pass_events (text_chunks_of texts).
Proof.
  unfold translate_texts_with_evolutionary_config.
  apply translate_chunks_loop_events. reflexivity.
Qed.

Hypothesis every_attempt_fails :
  forall (t : trace) (r : request), failing (backend t r) = true.

Lemma translate_text_chunk_fails (chunk : list str) (t : trace) :
  fst (translate_text_chunk_with_evolutionary_config backend chunk
         source_lang target_lang t) = chunk.
Proof.
  unfold translate_text_chunk_with_evolutionary_config, bind, post, ret.
  pose proof (every_attempt_fails t (EvolutionaryPrompt chunk)) as F.
  destruct (backend t _) as [|code body]; [reflexivity|].
  simpl in F. destruct (code =? 200)%Z; [discriminate | reflexivity].
Qed.

Lemma translate_chunks_loop_fails (text_chunks : list (list str)) :
  forall (n_chunks i : nat) (all_translations : list str) (t : trace),
    fst (translate_chunks_loop backend source_lang target_lang n_chunks i
           text_chunks all_translations t)
    = all_translations ++ concat text_chunks.
Proof.
  induction text_chunks as [|chunk rest IH]; intros n_chunks i acc t.
  - simpl. unfold ret. simpl. now rewrite app_nil_r.
  - cbn [translate_chunks_loop]. rewrite !bind_run.
    rewrite translate_text_chunk_fails, IH. simpl. now rewrite <- app_assoc.
Qed.

Lemma translate_texts_fails (texts : list str) (t : trace) :
  fst (translate_texts_with_evolutionary_config backend texts source_lang
         target_lang t)
  = texts.
Proof.
  unfold translate_texts_with_evolutionary_config.
  rewrite translate_chunks_loop_fails. simpl. apply text_chunks_concat.
Qed.

End PassEvents.

(** Whatever the backend answers, the structured pass does the same
    things to the outside: it posts each chunk once, in order, and
    pauses one second between two chunks, not after the last one.  It
    never posts a chunk again. *)
Theorem pass_events_fixed (backend : trace -> request -> reply)
    (texts : list str) (source_lang target_lang : str) (t : trace) :
  snd (translate_texts_with_evolutionary_config backend texts source_lang
         target_lang t)
  = t ++ pass_events (text_chunks_of texts).
Proof. apply translate_texts_events. Qed.

(** When every request fails (the transport fails or the status is not
    200), the structured pass returns the fragments as it was given
    them. *)
Theorem pass_degrades (backend : trace -> request -> reply)
    (texts : list str) (source_lang target_lang : str) (t : trace) :
  (forall (t' : trace) (r : request), failing (backend t' r) = true) ->
  fst (translate_texts_with_evolutionary_config backend texts source_lang
         target_lang t)
  = texts.
Proof. intros H. now apply translate_texts_fails. Qed.

Lemma pass_degrades_witness :
  fst (translate_texts_with_evolutionary_config backend_down
         [lit "Hello"; lit "world"] (lit "en") (lit "pt-br") [])
  = [lit "Hello"; lit "world"].
Proof.
  apply (pass_degrades backend_down).
  intros t r. reflexivity.
Defined.

(* ===================================================================== *)
(** * The entry point, block by block                                     *)
(* ===================================================================== *)

Section EntryEvents.

Variable backend : trace -> request -> reply.
Variables source_lang target_lang : str.

Lemma translate_simple_events (text : str) (t : trace) :
  snd (translate_simple_text_with_evolutionary_config backend text
         source_lang target_lang t)
  = t ++ [Post (SimplePrompt (fst (add_quotes_to_proper_nouns text)))].
Proof.
  unfold translate_simple_text_with_evolutionary_config,
    add_quotes_to_proper_nouns.
  rewrite bind_run. unfold post. cbn [fst snd].
  destruct (backend t _) as [|code [response|]]; try reflexivity.
  destruct (code =? 200)%Z; [|reflexivity].
  destruct (strip response); reflexivity.
Qed.

Lemma text_chunks_of_nil : text_chunks_of [] = [].
Proof. reflexivity. Qed.

(** The requests of the entry point depend on the document only, not
    on what the backend answers: for a document of subtitle shape, one
    request per chunk of ten fragments with a pause of one second
    between two chunks (nothing at all when there is no fragment);
    otherwise one request with the text, its proper nouns between
    quotes.  No request is made twice. *)
Theorem entry_point_events (srt_content : str) (t : trace) :
  snd (translate_srt_optimized backend srt_content source_lang target_lang t)
  = t ++ (if is_some (re_search Pat.srt_shape srt_content)
          then pass_events
                 (text_chunks_of (fst (extract_text_from_srt srt_content)))
          else [Post (SimplePrompt
                        (fst (add_quotes_to_proper_nouns srt_content)))]).
Proof.
  unfold translate_srt_optimized.
  destruct (is_some (re_search Pat.srt_shape srt_content)).
  - destruct (extract_text_from_srt srt_content) as [texts structure_map].
    cbn [fst].
    destruct texts as [|x texts].
    + rewrite text_chunks_of_nil. unfold ret. simpl. now rewrite app_nil_r.
    + rewrite bind_run. unfold ret. cbn [snd].
      apply translate_texts_events.
  - rewrite bind_run. unfold ret. cbn [snd].
    apply translate_simple_events.
Qed.

End EntryEvents.

(** What follows the number and the timestamp in a rebuilt block. *)
Definition block_body (e : block_info) (translated_text : str) : str :=
  if contains (lit "<font") (content e)
  then font_new_content (content e) translated_text
  else translated_text.

(** The number and the timestamp of an entry are the first two lines
    of its block, without the whitespace around them. *)
Definition header_kept (e : block_info) : Prop :=
  block_number e = strip (first_line (original_block e))
  /\ timestamp e = strip (second_line (original_block e)).

Lemma block_header_fields (block bn ts : str) :
  block_header block = Some (bn, ts) ->
  bn = strip (first_line block) /\ ts = strip (second_line block).
Proof.
  unfold block_header, first_line, second_line.
  destruct block as [|c block']; [discriminate|].
  set (lines := split nl (c :: block')).
  destruct (Nat.ltb_spec (List.length lines) 2) as [Hlt|Hge]; [discriminate|].
  replace (1 <? List.length lines) with true
    by (symmetry; apply Nat.ltb_lt; lia).
  destruct (int (strip (nth 0 lines []))); [|discriminate].
  destruct (re_match Pat.timestamp_range (strip (nth 1 lines [])));
    [|discriminate].
  intros H. inversion H. auto.
Qed.

Lemma parse_block_header_kept (st : parse_state) (block : str) :
  Forall header_kept (snd st) ->
  Forall header_kept (snd (parse_block st block)).
Proof.
  intros H. destruct st as [texts smap]. unfold parse_block.
  destruct (block_header (strip block)) as [[bn ts]|] eqn:E; [|exact H].
  apply block_header_fields in E.
  assert (Hnew : forall c ti ht ex,
            Forall header_kept
                   (smap ++ [BlockInfo bn ts c ti ht ex (strip block)])).
  { intros. apply Forall_app. split; [exact H|].
    constructor; [exact E | constructor]. }
  destruct (strip (join nl _)); [apply Hnew|].
  destruct (extract_block_texts _); [apply Hnew|].
  destruct (_ <? 2); apply Hnew.
Qed.

Lemma extract_header_kept (srt_content : str) :
  Forall header_kept (snd (extract_text_from_srt srt_content)).
Proof.
  unfold extract_text_from_srt.
  generalize (re_split Pat.blank_line (strip srt_content)).
  assert (H : Forall header_kept (snd (([], []) : parse_state)))
    by constructor.
  revert H. generalize (([], []) : parse_state).
  intros st H blocks. revert st H.
  induction blocks as [|b blocks IH]; intros st H; simpl; [exact H|].
  apply IH, parse_block_header_kept, H.
Qed.

(** The block emitted for an entry: the block as it was, or its first
    two lines and then the translation of its fragment (inside the
    font markup, if the content has some). *)
Definition translated_block (translations : list str) (e : block_info) : str :=
  match text_index e with
  | Some k =>
      strip (first_line (original_block e)) ++ nl
      ++ strip (second_line (original_block e)) ++ nl
      ++ block_body e (nth (Z.to_nat k) translations [])
  | None => original_block e
  end.

Lemma reconstruct_block_translated (texts translations : list str)
    (e : block_info) :
  List.length translations = List.length texts ->
  aligned texts e ->
  (has_text e = false -> text_index e = None) ->
  header_kept e ->
  reconstruct_block translations e = Returns (translated_block translations e).
Proof.
  intros Hlen Ha Hn [Hb Ht]. unfold reconstruct_block, translated_block.
  unfold aligned in Ha.
  destruct (has_text e) eqn:E; simpl.
  - destruct (Ha eq_refl) as [k [Hi Hk]]. rewrite Hi.
    assert (Hlt : k < List.length translations).
    { rewrite Hlen. apply nth_error_Some. congruence. }
    replace (Z.of_nat (List.length translations) <=? Z.of_nat k)%Z with false
      by (symmetry; apply Z.leb_gt; lia).
    rewrite (py_index_nth translations k (nth k translations [])).
    + rewrite Nat2Z.id. unfold render_block, block_body.
      rewrite Hb, Ht.
      destruct (contains (lit "<font") (content e));
        now rewrite <- !app_assoc.
    + now apply nth_error_nth'.
  - now rewrite (Hn eq_refl).
Qed.

Lemma reconstruct_translated (srt_content : str) (translations : list str) :
  List.length translations
  = List.length (fst (extract_text_from_srt srt_content)) ->
  reconstruct_srt_from_translations translations
    (snd (extract_text_from_srt srt_content))
  = Returns (join paragraph
               (map (translated_block translations)
                    (snd (extract_text_from_srt srt_content)))).
Proof.
  intros Hlen. unfold reconstruct_srt_from_translations.
  destruct (extract_inv srt_content) as [_ _ Hn Ha].
  pose proof (extract_header_kept srt_content) as Hh.
  rewrite (reconstruct_loop_returns _ _ (translated_block translations)).
  - reflexivity.
  - rewrite Forall_forall in *. intros e He.
    apply (reconstruct_block_translated
             (fst (extract_text_from_srt srt_content))); auto.
Qed.

Section EntryBlocks.

Variable backend : trace -> request -> reply.
Variables source_lang target_lang : str.

Lemma translate_srt_optimized_blocks (srt_content : str) (t : trace) :
  is_some (re_search Pat.srt_shape srt_content) = true ->
  fst (extract_text_from_srt srt_content) <> [] ->
  fst (translate_srt_optimized backend srt_content source_lang target_lang t)
  = Returns
      (join paragraph
         (map (translated_block
                 (fst (translate_texts_with_evolutionary_config backend
                         (fst (extract_text_from_srt srt_content))
                         source_lang target_lang t)))
              (snd (extract_text_from_srt srt_content)))).
Proof.
  intros Hshape Hne. unfold translate_srt_optimized. rewrite Hshape.
  pose proof (fun tr => reconstruct_translated srt_content tr) as R.
  destruct (extract_text_from_srt srt_content) as [texts structure_map].
  cbn [fst snd] in *.
  destruct texts as [|x texts]; [congruence|].
  rewrite bind_run. unfold ret. cbn [fst].
  apply R. apply translate_texts_length.
Qed.

Hypothesis every_attempt_fails :
  forall (t : trace) (r : request), failing (backend t r) = true.

Lemma translate_simple_fails (text : str) (t : trace) :
  fst (translate_simple_text_with_evolutionary_config backend text
         source_lang target_lang t)
  = text.
Proof.
  unfold translate_simple_text_with_evolutionary_config,
    add_quotes_to_proper_nouns.
  rewrite bind_run. unfold post. cbn [fst snd].
  pose proof (every_attempt_fails t
    (SimplePrompt (re_sub_fn PatG.proper_noun (replace_proper_noun text)
                     None text))) as F.
  destruct (backend t _) as [|code [response|]]; try reflexivity.
  simpl in F. destruct (code =? 200)%Z; [discriminate | reflexivity].
Qed.

Lemma translate_srt_optimized_fails (srt_content : str) (t : trace) :
  fst (translate_srt_optimized backend srt_content source_lang target_lang t)
  = if is_some (re_search Pat.srt_shape srt_content)
    then match fst (extract_text_from_srt srt_content) with
         | [] => Returns srt_content
         | _ => round_trip srt_content
         end
    else Returns srt_content.
Proof.
  unfold translate_srt_optimized, round_trip.
  destruct (is_some (re_search Pat.srt_shape srt_content)).
  - destruct (extract_text_from_srt srt_content) as [texts structure_map].
    cbn [fst snd].
    destruct texts as [|x texts]; [reflexivity|].
    rewrite bind_run. unfold ret. cbn [fst].
    now rewrite translate_texts_fails.
  - rewrite bind_run. unfold ret. cbn [fst].
    now rewrite translate_simple_fails.
Qed.

Lemma translate_document_fails (subs : list subtitle) (t : trace) :
  Forall (fun x => subtitle_ok x = true) subs ->
  fst (translate_srt_optimized backend (document subs) source_lang
         target_lang t)
  = Returns (document subs).
Proof.
  intros H. rewrite translate_srt_optimized_fails.
  rewrite (round_trip_document subs H).
  destruct (is_some _); [|reflexivity].
  now destruct (fst _).
Qed.

End EntryBlocks.

(** A backend that answers every request with the same numbered list. *)
Definition backend_pt : trace -> request -> reply :=
  fun _ _ => Answer 200 (Some (lit "1. Ola, John!
2. [explosao]")).

(** When every request fails, the entry point returns what the parser
    and the reconstructor make of the document on their own: a text
    that has not the shape of a subtitle file, or a document without
    fragments, as it is, and any other document as rebuilt from its own
    fragments.  A document in normal form comes back byte for byte. *)
Theorem entry_point_degrades (backend : trace -> request -> reply)
    (source_lang target_lang : str) :
  (forall (t : trace) (r : request), failing (backend t r) = true) ->
  (forall (srt_content : str) (t : trace),
     fst (translate_srt_optimized backend srt_content source_lang
            target_lang t)
     = if is_some (re_search Pat.srt_shape srt_content)
       then match fst (extract_text_from_srt srt_content) with
            | [] => Returns srt_content
            | _ => round_trip srt_content
            end
       else Returns srt_content)
  /\ (forall (subs : list subtitle) (t : trace),
        Forall (fun x => subtitle_ok x = true) subs ->
        fst (translate_srt_optimized backend (document subs) source_lang
               target_lang t)
        = Returns (document subs)).
Proof.
  intros H. split.
  - intros srt_content t. now apply translate_srt_optimized_fails.
  - intros subs t Hok. now apply translate_document_fails.
Qed.

Lemma entry_point_degrades_witness :
  fst (translate_srt_optimized backend_down (document subs_normal) (lit "en")
         (lit "pt-br") [])
  = Returns (document subs_normal).
Proof.
  apply (proj2 (entry_point_degrades backend_down (lit "en") (lit "pt-br")
                  (fun _ _ => eq_refl))).
  repeat constructor.
Defined.

(* ===================================================================== *)
(** * Documents in normal form through the entry point                    *)
(* ===================================================================== *)

(** The fragments of a document in normal form, and its structure map. *)
Definition fragments (subs : list subtitle) : list str :=
  flat_map (fun s => match sub_text s with Some t => [t] | None => [] end) subs.

Fixpoint entries_from (k : nat) (subs : list subtitle) : list block_info :=
  match subs with
  | [] => []
  | s :: rest =>
      entry_of s k
      :: entries_from (k + match sub_text s with Some _ => 1 | None => 0 end)
                      rest
  end.

(** The subtitles with the translations put in place of the texts. *)
Fixpoint with_texts (subs : list subtitle) (translations : list str)
    : list subtitle :=
  match subs with
  | [] => []
  | s :: rest =>
      match sub_text s, translations with
      | Some _, translated_text :: translations' =>
          Subtitle (sub_number s) (sub_timestamp s) (Some translated_text)
          :: with_texts rest translations'
      | _, _ => s :: with_texts rest translations
      end
  end.

Lemma parse_subtitles_exact (subs : list subtitle) :
  Forall (fun x => subtitle_ok x = true) subs ->
  forall st : parse_state,
    fold_left parse_block (map block_str subs) st
    = (fst st ++ fragments subs,
       snd st ++ entries_from (List.length (fst st)) subs).
Proof.
  induction 1 as [|s subs Hs _ IH]; intros st; cbn [map fold_left].
  - simpl. rewrite !app_nil_r. now destruct st.
  - rewrite (parse_block_subtitle s Hs st), IH. cbn [fst snd].
    cbn [fragments flat_map entries_from].
    rewrite <- !app_assoc. f_equal. f_equal. f_equal.
    rewrite length_app. now destruct (sub_text s).
Qed.

Lemma extract_document_exact (subs : list subtitle) :
  Forall (fun x => subtitle_ok x = true) subs ->
  extract_text_from_srt (document subs) = (fragments subs, entries_from 0 subs).
Proof.
  intros H. destruct subs as [|s subs]; [reflexivity|].
  unfold extract_text_from_srt.
  rewrite (strip_tight _ (tight_document s subs H)).
  unfold document. cbn [map].
  rewrite re_split_blocks.
  - apply (parse_subtitles_exact (s :: subs) H ([], [])).
  - change (block_str s :: map block_str subs)
      with (map block_str (s :: subs)).
    apply Forall_map. eapply Forall_impl; [|exact H].
    intros x Hx. now apply block_str_blocky.
Qed.

Lemma block_str_lines (s : subtitle) :
  subtitle_ok s = true -> split nl (block_str s) = block_lines s.
Proof.
  intros Hs. pose proof (block_lines_one_line s Hs) as Hlines.
  unfold block_str, block_lines in *.
  destruct (sub_text s); inversion Hlines; subst; now apply split_join_lines.
Qed.

Lemma translated_block_entry (s : subtitle) (k : nat) (t : str)
    (translations : list str) :
  subtitle_ok s = true -> sub_text s = Some t ->
  translated_block translations (entry_of s k)
  = block_str (Subtitle (sub_number s) (sub_timestamp s)
                        (Some (nth k translations []))).
Proof.
  intros Hs Ht.
  destruct (subtitle_parts s Hs) as [Hn [_ [_ [Hts [_ [_ Hx]]]]]].
  rewrite Ht in Hx.
  unfold translated_block, entry_of. rewrite Ht.
  cbn [text_index original_block]. rewrite Nat2Z.id.
  unfold first_line, second_line. rewrite (block_str_lines s Hs).
  unfold block_lines. rewrite Ht. cbn [nth].
  rewrite (strip_tight _ Hn), (strip_tight _ Hts).
  unfold block_body. cbn [content].
  unfold plain_text in Hx.
  repeat (apply andb_true_iff in Hx; destruct Hx as [Hx ?]).
  change (lit "<font") with ("<"%char :: lit "font").
  rewrite (contains_lacks "<" (lit "font") t) by assumption.
  unfold block_str, block_lines. cbn [sub_text sub_number sub_timestamp join].
  reflexivity.
Qed.

Lemma translated_block_entry_none (s : subtitle) (k : nat)
    (translations : list str) :
  sub_text s = None ->
  translated_block translations (entry_of s k) = block_str s.
Proof.
  intros Ht. unfold translated_block, entry_of. now rewrite Ht.
Qed.

Lemma translated_entries (subs : list subtitle) :
  Forall (fun x => subtitle_ok x = true) subs ->
  forall (k : nat) (translations : list str),
    k + List.length (fragments subs) <= List.length translations ->
    map (translated_block translations) (entries_from k subs)
    = map block_str (with_texts subs (skipn k translations)).
Proof.
  induction 1 as [|s subs Hs _ IH]; intros k translations Hk; [reflexivity|].
  cbn [entries_from with_texts map].
  destruct (sub_text s) as [t|] eqn:Ht.
  - cbn [fragments flat_map] in Hk. rewrite Ht in Hk.
    rewrite length_app in Hk. simpl in Hk.
    rewrite (@skipn_nth_cons str [] translations k) by lia.
    cbn [map]. rewrite (translated_block_entry s k t translations Hs Ht).
    f_equal. rewrite IH.
    + now rewrite Nat.add_1_r.
    + unfold fragments. lia.
  - cbn [fragments flat_map] in Hk. rewrite Ht in Hk. simpl in Hk.
    cbn [map]. rewrite (translated_block_entry_none s k translations Ht).
    f_equal.
    rewrite Nat.add_0_r.
    destruct (skipn k translations) eqn:Es; rewrite <- Es; apply IH;
      unfold fragments; lia.
Qed.

(** ** A document in normal form has the shape of a subtitle file *)

Lemma search_from_found (r : regex) (pre : str) :
  forall (st : mstate) (fuel : nat),
    (exists rest, m_rest st = pre ++ rest) ->
    matches r (consume st pre) <> [] ->
    List.length pre <= fuel ->
    is_some (search_from r fuel st) = true.
Proof.
  induction pre as [|c pre IH]; intros st fuel [rest Hst] Hm Hfuel.
  - cbn [consume] in Hm.
    destruct fuel; cbn [search_from]; unfold match_here;
      (destruct (matches r st); [congruence | reflexivity]).
  - destruct fuel as [|fuel]; [simpl in Hfuel; lia|].
    cbn [search_from]. destruct (match_here r st); [reflexivity|].
    unfold advance. rewrite Hst. cbn [app].
    apply IH.
    + exists rest. reflexivity.
    + cbn [consume] in Hm. rewrite Hst in Hm. exact Hm.
    + simpl in Hfuel. lia.
Qed.

Lemma re_search_found (r : regex) (pre w rest : str) :
  lang r w -> plain r = true ->
  is_some (re_search r (pre ++ w ++ rest)) = true.
Proof.
  intros Hl Hp. unfold re_search.
  apply (search_from_found r pre).
  - exists (w ++ rest). reflexivity.
  - assert (Hin : In (consume (consume (at_start (pre ++ w ++ rest)) pre) w)
                     (matches r (consume (at_start (pre ++ w ++ rest)) pre))).
    { apply (matches_complete r w Hl Hp _ rest).
      now apply consume_rest. }
    intros E. rewrite E in Hin. destruct Hin.
  - rewrite length_app. lia.
Qed.

Lemma int_digits_last (s : str) :
  forall (acc : Z) (prev_digit : bool) (z : Z),
    int_digits s acc prev_digit = Some z ->
    s = []
    \/ exists (pre : str) (d : ascii), s = pre ++ [d] /\ isdecimal d = true.
Proof.
  induction s as [|c t IH]; intros acc b z H; [now left|]. right.
  cbn [int_digits] in H.
  destruct (isdecimal c) eqn:Hc.
  - destruct (IH _ _ _ H) as [->|[pre [d [-> Hd]]]].
    + exists [], c. auto.
    + exists (c :: pre), d. auto.
  - destruct (ascii_eqb c "_" && b); [|discriminate].
    destruct t as [|d t']; [discriminate|].
    destruct (isdecimal d); [|discriminate].
    destruct (IH _ _ _ H) as [E|[pre [d' [E Hd]]]]; [discriminate|].
    exists (c :: pre), d'. rewrite E. auto.
Qed.

Lemma int_last_digit (s : str) :
  is_some (int s) = true ->
  exists (pre : str) (d : ascii), strip s = pre ++ [d] /\ isdecimal d = true.
Proof.
  unfold int. destruct (strip s) as [|c t]; [discriminate|].
  assert (Hsigned : forall z, int_digits t 0%Z false = Some z ->
            exists pre d, c :: t = pre ++ [d] /\ isdecimal d = true).
  { intros z Hz.
    destruct (int_digits_last t _ _ _ Hz) as [->|[pre [d [-> Hd]]]];
      [discriminate Hz|].
    exists (c :: pre), d. auto. }
  destruct (ascii_eqb c "-").
  - destruct (int_digits t 0%Z false) as [z|] eqn:E; [|discriminate].
    intros _. now apply (Hsigned z).
  - destruct (ascii_eqb c "+").
    + destruct (int_digits t 0%Z false) as [z|] eqn:E; [|discriminate].
      intros _. now apply (Hsigned z).
    + destruct (int_digits (c :: t) 0%Z false) as [z|] eqn:E; [|discriminate].
      intros _.
      destruct (int_digits_last _ _ _ _ E) as [E0|H]; [discriminate | exact H].
Qed.

Lemma plain_srt_shape : plain Pat.srt_shape = true.
Proof. reflexivity. Qed.

Lemma block_str_shape (s : subtitle) :
  subtitle_ok s = true ->
  exists pre w rest : str,
    block_str s = pre ++ w ++ rest /\ lang Pat.srt_shape w.
Proof.
  intros Hs.
  destruct (subtitle_parts s Hs) as [Hn [_ [Hint [Hts [_ [Hm _]]]]]].
  unfold parses_as_integer in Hint.
  destruct (int_last_digit (strip (sub_number s))) as [pre [d [E Hd]]].
  { exact Hint. }
  rewrite !(strip_tight _ Hn) in E.
  unfold matches_timestamp_range, re_match, match_here in Hm.
  rewrite (strip_tight _ Hts) in Hm.
  destruct (matches Pat.timestamp_range (at_start (sub_timestamp s)))
    as [|st' l] eqn:EM; [discriminate|].
  destruct (matches_sound Pat.timestamp_range
              (at_start (sub_timestamp s)) st') as [w [Hl [Hr _]]].
  { rewrite EM. now left. }
  cbn [at_start m_rest] in Hr.
  exists pre, ([d] ++ [NL] ++ w),
    (m_rest st' ++ match sub_text s with Some t => nl ++ t | None => [] end).
  split.
  - unfold block_str, block_lines.
    destruct (sub_text s); cbn [join]; rewrite E, Hr;
      rewrite <- ?app_assoc; cbn [app nl]; rewrite <- ?app_assoc;
      rewrite ?app_nil_r; reflexivity.
  - unfold Pat.srt_shape. cbn [Seq].
    apply LCat; [|apply LCat; [now constructor | exact Hl]].
    unfold Plus. rewrite <- (app_nil_r [d]).
    apply LCat; [now constructor | constructor].
Qed.

Lemma document_shape (s : subtitle) (subs : list subtitle) :
  subtitle_ok s = true ->
  is_some (re_search Pat.srt_shape (document (s :: subs))) = true.
Proof.
  intros Hs.
  destruct (block_str_shape s Hs) as [pre [w [rest [E Hl]]]].
  unfold document. cbn [map].
  assert (Hdoc : exists rest', join paragraph (block_str s :: map block_str subs)
                               = pre ++ w ++ rest').
  { destruct (map block_str subs) as [|b bs].
    - exists rest. exact E.
    - exists (rest ++ paragraph ++ join paragraph (b :: bs)).
      rewrite join_cons, E, <- !app_assoc. reflexivity. }
  destruct Hdoc as [rest' ->].
  apply re_search_found; [exact Hl | reflexivity].
Qed.

Section NormalDocument.

Variable backend : trace -> request -> reply.
Variables source_lang target_lang : str.

(** A document in normal form (blocks separated by one empty line,
    each a number line, a timestamp line and at most one line of plain
    text) is recognised as a subtitle file, and what the entry point
    returns for it is the same document with each text line replaced
    by the translation the pass returned for it: numbers, timestamps,
    blocks without text and the empty lines between blocks are
    untouched, whatever the backend answers. *)
Theorem normal_document_translated (subs : list subtitle) (t : trace) :
  subs <> [] ->
  Forall (fun x => subtitle_ok x = true) subs ->
  fst (translate_srt_optimized backend (document subs) source_lang
         target_lang t)
  = Returns
      (document
         (with_texts subs
            (fst (translate_texts_with_evolutionary_config backend
                    (fragments subs) source_lang target_lang t)))).
Proof.
  intros Hne Hok.
  destruct subs as [|s subs]; [congruence|].
  assert (Hs : subtitle_ok s = true) by now inversion Hok.
  pose proof (document_shape s subs Hs) as Hshape.
  pose proof (extract_document_exact (s :: subs) Hok) as Hx.
  destruct (fragments (s :: subs)) as [|x texts] eqn:Ef.
  - unfold translate_srt_optimized. rewrite Hshape, Hx.
    cbn [ret fst].
    assert (Hsame : forall l, fragments l = [] -> with_texts l [] = l).
    { induction l as [|a l IH]; intros Hl; [reflexivity|].
      cbn [with_texts]. cbn [fragments flat_map] in Hl.
      apply app_eq_nil in Hl. destruct Hl as [Ha Hl].
      rewrite (IH Hl). now destruct (sub_text a). }
    unfold translate_texts_with_evolutionary_config.
    rewrite text_chunks_of_nil. cbn [translate_chunks_loop].
    unfold ret. cbn [fst]. do 2 f_equal. symmetry. apply Hsame, Ef.
  - rewrite translate_srt_optimized_blocks;
      [|exact Hshape | rewrite Hx; discriminate].
    rewrite Hx. cbn [fst snd]. f_equal. unfold document. f_equal.
    rewrite translated_entries; [reflexivity | exact Hok |].
    rewrite translate_texts_length, Ef. simpl. lia.
Qed.

End NormalDocument.

Lemma normal_document_translated_witness :
  fst (translate_srt_optimized backend_pt (document subs_normal) (lit "en")
         (lit "pt-br") [])
  = Returns
      (document
         (with_texts subs_normal
            (fst (translate_texts_with_evolutionary_config backend_pt
                    (fragments subs_normal) (lit "en") (lit "pt-br") [])))).
Proof.
  apply (normal_document_translated backend_pt (lit "en") (lit "pt-br")
           subs_normal []).
  - discriminate.
  - repeat constructor.
Defined.

(* ===================================================================== *)
(** * The guard changes quote characters only                             *)
(* ===================================================================== *)

(** [marked] is [text] with quote characters put in, nothing else
    changed. *)
Inductive quotes_added : str -> str -> Prop :=
| QuotesNone : quotes_added [] []
| QuotesSame (c : ascii) (text marked : str) :
    quotes_added text marked -> quotes_added (c :: text) (c :: marked)
| QuotesMore (text marked : str) :
    quotes_added text marked -> quotes_added text (quote :: marked).

Lemma quotes_added_refl (s : str) : quotes_added s s.
Proof. induction s; constructor; auto. Qed.

Lemma quotes_added_app (a b c d : str) :
  quotes_added a b -> quotes_added c d -> quotes_added (a ++ c) (b ++ d).
Proof.
  induction 1 as [|x a' b' _ IH|a' b' _ IH]; intros Hcd; cbn [app];
    [exact Hcd | |]; constructor; auto.
Qed.

Lemma quotes_added_around (w : str) :
  quotes_added w ([quote] ++ w ++ [quote]).
Proof.
  cbn [app]. constructor.
  rewrite <- (app_nil_r w) at 1.
  apply quotes_added_app; [apply quotes_added_refl|].
  constructor. constructor.
Qed.

(** The scan of [re.sub], piece by piece: what is copied is related
    to itself, what is replaced to its replacement. *)
Lemma sub_go_pieces (R : str -> str -> Prop) (r : regex)
    (repl : rmatch -> str) (full : str) :
  R [] [] ->
  (forall (c : ascii) (a b : str), R a b -> R (c :: a) (c :: b)) ->
  (forall a b c d : str, R a b -> R c d -> R (a ++ c) (b ++ d)) ->
  (forall (st st' : mstate) (l : list mstate) (done w : str),
     full = done ++ m_rest st -> m_pos st = List.length done ->
     matches r st = st' :: l -> progress st st' = true ->
     m_rest st = w ++ m_rest st' ->
     m_pos st' = m_pos st + List.length w ->
     R w (repl (RMatch (m_pos st) (m_pos st') (m_caps st')))) ->
  forall (fuel : nat) (st : mstate) (done : str),
    full = done ++ m_rest st -> m_pos st = List.length done ->
    List.length (m_rest st) < fuel ->
    R (m_rest st) (sub_go r repl None fuel st).
Proof.
  intros Rnil Rcons Rapp Rrepl.
  induction fuel as [|fuel IH]; intros st done Hfull Hpos Hfuel; [lia|].
  cbn [sub_go].
  assert (Hstep :
    R (m_rest st)
      match advance st with
      | Some (c, st') => c :: sub_go r repl None fuel st'
      | None => []
      end).
  { unfold advance. destruct (m_rest st) as [|c t] eqn:ER; [exact Rnil|].
    apply Rcons.
    apply (IH (MState (S (m_pos st)) (Some c) t (m_caps st)) (done ++ [c])).
    - simpl. now rewrite <- app_assoc.
    - simpl. rewrite length_app. simpl. lia.
    - simpl in *. lia. }
  destruct (matches r st) as [|st' l] eqn:EM; [exact Hstep|].
  destruct (progress st st') eqn:EP; [|exact Hstep].
  clear Hstep.
  destruct (matches_sound r st st') as [w [_ [Hr Hp]]].
  { rewrite EM. now left. }
  assert (Hne : w <> []).
  { eapply progress_nonempty; [split; eauto | exact EP]. }
  rewrite Hr at 1. apply Rapp.
  - eapply Rrepl; eauto.
  - apply (IH (MState (m_pos st') (m_prev st') (m_rest st') []) (done ++ w)).
    + simpl. now rewrite <- app_assoc, <- Hr.
    + simpl. rewrite length_app. lia.
    + simpl. rewrite Hr, length_app in Hfuel.
      destruct w; [congruence | simpl in Hfuel; lia].
Qed.

Lemma group0_piece (done w rest : str) (caps : list (nat * (nat * nat))) :
  group0 (done ++ w ++ rest)
         (RMatch (List.length done) (List.length done + List.length w) caps)
  = w.
Proof.
  unfold group0, slice. cbn [m_start m_end].
  replace (List.length done + List.length w - List.length done)
    with (List.length w) by lia.
  apply slice_middle.
Qed.

(** For every text, with or without quotes of its own, the marked
    text is the text with quote characters put in: no other character
    is added, dropped, changed or moved. *)
Theorem protect_adds_only_quotes (text : str) :
  quotes_added text (fst (add_quotes_to_proper_nouns text)).
Proof.
  cbn [add_quotes_to_proper_nouns fst]. unfold re_sub_fn.
  refine (sub_go_pieces quotes_added PatG.proper_noun
            (replace_proper_noun text) text _ _ _ _
            (S (List.length text)) (at_start text) [] eq_refl eq_refl _).
  - constructor.
  - intros. now constructor.
  - apply quotes_added_app.
  - intros st st' l done w Hfull Hpos _ _ Hr Hp.
    assert (G : group0 text (RMatch (m_pos st) (m_pos st') (m_caps st')) = w).
    { rewrite Hfull, Hr, Hp, Hpos. apply group0_piece. }
    unfold replace_proper_noun. rewrite G.
    destruct (quotes_before text _ =? 1).
    + apply quotes_added_refl.
    + apply quotes_added_around.
  - simpl. lia.
Qed.

Lemma lang_chr (c : ascii) (w : str) : lang (chr_ c) w -> w = [c].
Proof.
  unfold chr_. intros H. inv H.
  match goal with H : ascii_eqb _ _ = true |- _ =>
    apply Ascii.eqb_eq in H; now subst end.
Qed.

Lemma lang_quoted (w : str) :
  lang PatG.quoted w ->
  exists p : str, w = [quote] ++ p ++ [quote] /\ p <> [] /\ ~ In quote p.
Proof.
  unfold PatG.quoted. cbn [Seq]. intros H. inv H.
  match goal with H : lang (chr_ quote) _ |- _ => apply lang_chr in H; subst end.
  match goal with H : lang (Cat _ _) _ |- _ => inv H end.
  match goal with H : lang (chr_ quote) _ |- _ => apply lang_chr in H; subst end.
  match goal with H : lang (Grp _ _) _ |- _ => inv H end.
  match goal with H : lang (Plus _ _) _ |- _ =>
    apply lang_plus_cls in H; destruct H as [Hne Hall] end.
  eexists. split; [reflexivity|]. split; [exact Hne|].
  intros Hin. rewrite Forall_forall in Hall. specialize (Hall _ Hin).
  unfold ascii_eqb in Hall. now rewrite Ascii.eqb_refl in Hall.
Qed.

(** For every text and every list of positions, what
    [remove_added_quotes] returns is the text with some of its quote
    characters taken out: it changes no other character, and it never
    adds a quote. *)
Theorem unprotect_removes_only_quotes (text : str)
    (added_positions : list nat) :
  quotes_added (remove_added_quotes text added_positions) text.
Proof.
  unfold remove_added_quotes, re_sub_fn.
  refine (sub_go_pieces (fun a b => quotes_added b a) PatG.quoted
            (should_remove_quotes text) text _ _ _ _
            (S (List.length text)) (at_start text) [] eq_refl eq_refl _).
  - constructor.
  - intros. now constructor.
  - intros. now apply quotes_added_app.
  - intros st st' l done w Hfull Hpos EM _ Hr Hp.
    destruct (matches_sound PatG.quoted st st') as [w' [Hl [Hr' _]]].
    { rewrite EM. now left. }
    apply lang_quoted in Hl. destruct Hl as [p [-> [Hne Hq]]].
    assert (Hst : m_rest st = [quote] ++ p ++ [quote] ++ m_rest st')
      by (rewrite Hr'; now rewrite <- !app_assoc).
    rewrite (matches_quoted st p (m_rest st') Hst Hne Hq) in EM.
    inversion EM as [[E1 E2]]. clear EM.
    assert (Hw : w = [quote] ++ p ++ [quote]).
    { rewrite Hr in Hr'. rewrite <- E1 in Hr'. cbn [m_rest] in Hr'.
      rewrite app_assoc in Hr'. apply app_inv_tail in Hr'.
      now rewrite <- app_assoc in Hr'. }
    cbn [m_pos m_caps].
    unfold should_remove_quotes, group. cbn [m_groups find fst Nat.eqb].
    assert (Hp1 : slice text (S (m_pos st)) (S (m_pos st) + List.length p) = p).
    { unfold slice.
      replace (S (m_pos st) + List.length p - S (m_pos st))
        with (List.length p) by lia.
      rewrite Hfull, Hst, Hpos.
      replace (S (List.length done)) with (List.length (done ++ [quote]))
        by (rewrite length_app; simpl; lia).
      replace (done ++ [quote] ++ p ++ [quote] ++ m_rest st')
        with ((done ++ [quote]) ++ p ++ [quote] ++ m_rest st')
        by (now rewrite <- !app_assoc).
      apply slice_middle. }
    change (S (m_pos st) + List.length p)
      with (S (m_pos st + List.length p)) in Hp1.
    rewrite Hp1.
    destruct (is_some _ && forallb _ _).
    + rewrite Hw. apply quotes_added_around.
    + replace (group0 text _) with w; [apply quotes_added_refl|].
      rewrite Hfull at 1. rewrite Hst, Hpos.
      replace (List.length done + List.length p + 2)
        with (List.length done + List.length w)
        by (rewrite Hw, !length_app; simpl; lia).
      replace ([quote] ++ p ++ [quote] ++ m_rest st')
        with (w ++ m_rest st') by (rewrite Hw; now rewrite <- !app_assoc).
      symmetry. apply group0_piece.
  - simpl. lia.
Qed.

(* ===================================================================== *)
(** * The chunker packs greedily, and never makes an empty chunk          *)
(* ===================================================================== *)

Section ChunkerPacking.

Variable count_tokens : str -> nat.


(** Each chunk after the first starts with a fragment that did not fit
    into the chunk before it. *)
Fixpoint packed (effective_max_tokens : Z) (groups : list (list str)) : Prop :=
  match groups with
  | [] => True
  | g :: rest =>
      match rest with
      | (s :: _) :: _ => (effective_max_tokens < group_cost count_tokens g + cost count_tokens s)%Z
      | _ => True
      end
      /\ packed effective_max_tokens rest
  end.

Definition fits_not (effective_max_tokens : Z) (groups : list (list str))
    (next : list str) : Prop :=
  match groups, next with
  | _ :: _, s :: _ =>
      (effective_max_tokens < group_cost count_tokens (last groups []) + cost count_tokens s)%Z
  | _, _ => True
  end.

Lemma packed_snoc (effective_max_tokens : Z) (groups : list (list str))
    (next : list str) :
  packed effective_max_tokens (groups ++ [next])
  <-> packed effective_max_tokens groups
      /\ fits_not effective_max_tokens groups next.
Proof.
  induction groups as [|g groups IH].
  - simpl. tauto.
  - cbn [app packed]. rewrite IH.
    destruct groups as [|g2 groups'].
    + cbn [app packed fits_not last]. destruct next; tauto.
    + cbn [app]. unfold fits_not at 2.
      change (last (g :: g2 :: groups') []) with (last (g2 :: groups') []).
      unfold fits_not. destruct g2; destruct next; tauto.
Qed.

Lemma group_cost_nonneg (group : list str) : (0 <= group_cost count_tokens group)%Z.
Proof.
  unfold group_cost, cost.
  induction group as [|x group IH]; simpl; lia.
Qed.

Lemma packed_pairs (effective_max_tokens : Z) (groups : list (list str)) :
  packed effective_max_tokens groups ->
  forall (before : list (list str)) (g : list str) (s : str) (g' : list str)
         (after : list (list str)),
    groups = before ++ g :: (s :: g') :: after ->
    (effective_max_tokens < group_cost count_tokens g + cost count_tokens s)%Z.
Proof.
  intros H before. revert groups H.
  induction before as [|b before IH]; intros groups H g s g' after E; subst.
  - cbn [app packed] in H. tauto.
  - cbn [app packed] in H. destruct H as [_ H]. eapply IH; eauto.
Qed.

Record pack_inv (effective_max_tokens : Z) (sg : chunk_state * ghost)
    : Prop := PackInv {
  pk_current : current_chunk (fst sg) = join paragraph (g_current (snd sg));
  pk_sync : nonempty (current_chunk (fst sg)) = false ->
            g_current (snd sg) = [];
  pk_tokens : current_tokens (fst sg) = group_cost count_tokens (g_current (snd sg));
  pk_packed :
    packed effective_max_tokens (g_chunks (snd sg) ++ [g_current (snd sg)]);
  pk_after_oversized :
    g_current (snd sg) = [] ->
    g_chunks (snd sg) = []
    \/ (effective_max_tokens < group_cost count_tokens (last (g_chunks (snd sg)) []))%Z
}.

Lemma nonempty_join_cons (x : str) (group : list str) :
  x <> [] -> nonempty (join paragraph (x :: group)) = true.
Proof.
  intros Hx. destruct x as [|c x]; [congruence|].
  destruct group; reflexivity.
Qed.

Lemma pack_inv_step (effective_max_tokens : Z) (sg : chunk_state * ghost)
    (subtitle : str) :
  subtitle <> [] ->
  pack_inv effective_max_tokens sg ->
  pack_inv effective_max_tokens
           (both_step count_tokens effective_max_tokens sg subtitle).
Proof.
  intros Hne [Hcur Hsync Htok Hpk Hov].
  destruct sg as [st g]. cbn [fst snd] in *.
  unfold both_step, chunk_step, ghost_step, flush. cbn [fst snd].
  fold (cost count_tokens subtitle).
  pose proof (group_cost_nonneg (g_current g)) as Hnn.
  pose proof (Nat2Z.is_nonneg (count_tokens subtitle)) as Hpos.
  fold (cost count_tokens subtitle) in Hpos.
  apply packed_snoc in Hpk. destruct Hpk as [Hpk Hfit].
  assert (Hone : group_cost count_tokens [subtitle] = cost count_tokens subtitle)
    by (unfold group_cost; simpl; lia).
  destruct (nonempty (current_chunk st)) eqn:E.
  - (* a chunk is pending *)
    assert (Hg : g_current g <> []).
    { intros Eg. rewrite Eg in Hcur. rewrite Hcur in E. discriminate. }
    assert (Hclosed : packed effective_max_tokens
                             (g_chunks g ++ [g_current g]))
      by (apply packed_snoc; auto).
    destruct (Z.ltb_spec effective_max_tokens (cost count_tokens subtitle)) as [Hover|Hfit'].
    + constructor; cbn [fst snd current_chunk current_tokens g_chunks g_current].
      * reflexivity.
      * reflexivity.
      * reflexivity.
      * apply packed_snoc. split; [|unfold fits_not; now destruct (_ ++ _)].
        apply packed_snoc. split; [exact Hclosed|].
        unfold fits_not. destruct (g_chunks g ++ [g_current g]) eqn:El.
        -- exact I.
        -- rewrite <- El, last_last. lia.
      * intros _. right. rewrite last_last, Hone. exact Hover.
    + destruct (Z.ltb_spec effective_max_tokens
                  (current_tokens st + cost count_tokens subtitle)) as [Hfull|Hroom].
      * constructor;
          cbn [fst snd current_chunk current_tokens g_chunks g_current].
        -- reflexivity.
        -- destruct subtitle; [congruence | discriminate].
        -- now rewrite Hone.
        -- apply packed_snoc. split; [exact Hclosed|].
           unfold fits_not. destruct (g_chunks g ++ [g_current g]) eqn:El.
           ++ exact I.
           ++ rewrite <- El, last_last. lia.
        -- discriminate.
      * constructor;
          cbn [fst snd current_chunk current_tokens g_chunks g_current].
        -- rewrite join_snoc by exact Hg. now rewrite Hcur.
        -- rewrite Hcur. destruct (g_current g) as [|x l]; [congruence|].
           destruct x; destruct l; discriminate.
        -- rewrite group_cost_snoc. lia.
        -- apply packed_snoc. split; [exact Hpk|].
           unfold fits_not in *. destruct (g_chunks g); [exact I|].
           destruct (g_current g); [congruence | exact Hfit].
        -- intros Eg. destruct (g_current g); discriminate.
  - (* nothing is pending *)
    specialize (Hsync eq_refl). rewrite Hsync in *.
    assert (H0 : current_tokens st = 0%Z)
      by (rewrite Htok; reflexivity).
    specialize (Hov eq_refl).
    assert (Hafter : fits_not effective_max_tokens (g_chunks g) [subtitle]).
    { unfold fits_not. destruct (g_chunks g) eqn:El; [exact I|].
      destruct Hov as [Hov|Hov]; [discriminate|]. lia. }
    destruct (Z.ltb_spec effective_max_tokens (cost count_tokens subtitle)) as [Hover|Hfit'].
    + constructor; cbn [fst snd current_chunk current_tokens g_chunks g_current].
      * exact Hcur.
      * reflexivity.
      * exact Htok.
      * apply packed_snoc. split; [|unfold fits_not; now destruct (_ ++ _)].
        apply packed_snoc. split; [exact Hpk | exact Hafter].
      * intros _. right. rewrite last_last, Hone. exact Hover.
    + destruct (Z.ltb_spec effective_max_tokens
                  (current_tokens st + cost count_tokens subtitle)) as [Hfull|Hroom];
        [lia|].
      constructor; cbn [fst snd current_chunk current_tokens g_chunks g_current].
      * reflexivity.
      * destruct subtitle; [congruence | discriminate].
      * rewrite Hone. lia.
      * apply packed_snoc. split; [exact Hpk | exact Hafter].
      * discriminate.
Qed.

Lemma pack_inv_run (effective_max_tokens : Z) (subtitles : list str) :
  Forall (fun s => s <> []) subtitles ->
  forall sg : chunk_state * ghost,
    pack_inv effective_max_tokens sg ->
    pack_inv effective_max_tokens
             (fold_left (both_step count_tokens effective_max_tokens)
                        subtitles sg).
Proof.
  induction 1 as [|s subtitles Hs _ IH]; intros sg I; simpl; [exact I|].
  apply IH, pack_inv_step; assumption.
Qed.

Lemma chunk_groups_packed (max_chunk_tokens : Z) (subtitles : list str) :
  Forall (fun s => s <> []) subtitles ->
  packed (max_chunk_tokens - 200)
         (chunk_groups count_tokens max_chunk_tokens subtitles).
Proof.
  intros Hne. unfold chunk_groups, both_run. cbv zeta.
  destruct (pack_inv_run (max_chunk_tokens - 200) subtitles Hne
              (ChunkState [] [] 0%Z, Ghost [] [])) as [_ _ _ Hpk _].
  { constructor; simpl; auto. }
  unfold flush. destruct (nonempty _); [exact Hpk|].
  apply packed_snoc in Hpk. tauto.
Qed.

(** ** No empty chunk, and no more chunks than fragments *)

Lemma chunk_groups_nonempty (max_chunk_tokens : Z) (subtitles : list str) :
  Forall (fun g => g <> [])
         (chunk_groups count_tokens max_chunk_tokens subtitles).
Proof.
  destruct (chunk_subtitles_groups count_tokens max_chunk_tokens subtitles)
    as [_ Hok].
  eapply Forall_impl; [|exact Hok].
  intros g [[Hg _]|[f [-> _]]]; [exact Hg | discriminate].
Qed.

Lemma length_concat_nonempty {A : Type} (groups : list (list A)) :
  Forall (fun g => g <> []) groups ->
  List.length groups <= List.length (concat groups).
Proof.
  induction 1 as [|g groups Hg _ IH]; simpl; [lia|].
  rewrite length_app. destruct g; [congruence | simpl; lia].
Qed.

Lemma strip_empty_spaces (s : str) :
  strip s = [] -> Forall (fun c => isspace c = true) s.
Proof.
  intros H. destruct (strip_spec s) as [a [b [E [Ha Hb]]]].
  rewrite H in E. rewrite E. apply Forall_app. auto.
Qed.

Lemma strip_spaces_empty (s : str) :
  Forall (fun c => isspace c = true) s -> strip s = [].
Proof.
  intros H. rewrite <- (app_nil_r s).
  change (s ++ []) with (s ++ [] ++ []).
  rewrite strip_spaces; [reflexivity | exact H | constructor].
Qed.

Lemma render_group_tight (group : list str) :
  group <> [] -> Forall (fun s => strip s <> []) group ->
  tight (render_group group) = true.
Proof.
  intros Hne Hall. unfold render_group.
  destruct (strip_tight_or_empty (join paragraph group)) as [E|E]; [|exact E].
  exfalso. apply strip_empty_spaces in E.
  destruct group as [|x group]; [congruence|].
  inversion Hall as [|? ? Hx _]; subst. apply Hx.
  apply strip_spaces_empty.
  destruct group; cbn [join] in E; [exact E|].
  apply Forall_app in E. tauto.
Qed.

Lemma chunks_tight (max_chunk_tokens : Z) (subtitles : list str) :
  Forall (fun s => strip s <> []) subtitles ->
  Forall (fun chunk => tight chunk = true)
         (chunk_subtitles count_tokens max_chunk_tokens subtitles)
  /\ List.length (chunk_subtitles count_tokens max_chunk_tokens subtitles)
     <= List.length subtitles.
Proof.
  intros Hnb.
  assert (Hne : Forall (fun s : str => s <> []) subtitles).
  { eapply Forall_impl; [|exact Hnb]. intros s Hs ->. now apply Hs. }
  destruct (chunk_subtitles_groups count_tokens max_chunk_tokens subtitles)
    as [-> _].
  pose proof (chunk_groups_cover count_tokens max_chunk_tokens subtitles Hne)
    as Hcover.
  pose proof (chunk_groups_nonempty max_chunk_tokens subtitles) as Hg.
  split.
  - apply Forall_map. rewrite Forall_forall in *. intros g Hin.
    apply render_group_tight; [now apply Hg|].
    apply Forall_forall. intros s Hs. apply Hnb.
    rewrite <- Hcover. apply in_concat. eauto.
  - rewrite length_map.
    etransitivity; [apply length_concat_nonempty, Hg|].
    now rewrite Hcover.
Qed.

Lemma subtitles_of_fallback (findall_subtitles : str -> list str)
    (srt_text : str) :
  findall_subtitles srt_text = [] ->
  Forall (fun s => strip s <> [])
         (subtitles_of findall_subtitles srt_text).
Proof.
  intros H. unfold subtitles_of. rewrite H.
  apply Forall_map. apply Forall_forall. intros b Hb.
  apply filter_In in Hb. destruct Hb as [_ Hb].
  rewrite strip_idempotent. intros E. rewrite E in Hb. discriminate.
Qed.

(** A chunk is closed only when the next fragment does not fit: the
    first fragment of every chunk but the first, added to the cost of
    the chunk before it, exceeds the effective budget.  So no two
    neighbouring chunks could have been one. *)
Theorem chunker_greedy (max_chunk_tokens : Z) (subtitles : list str)
    (before : list (list str)) (g : list str) (s : str) (g' : list str)
    (after : list (list str)) :
  Forall (fun s => s <> []) subtitles ->
  chunk_groups count_tokens max_chunk_tokens subtitles
  = before ++ g :: (s :: g') :: after ->
  (max_chunk_tokens - 200 < group_cost count_tokens g + cost count_tokens s)%Z.
Proof.
  intros Hne E.
  eapply packed_pairs; [|exact E].
  now apply chunk_groups_packed.
Qed.

(** Unless the subtitle pattern finds a subtitle that is whitespace
    only (its matches start with a digit), no chunk is empty or has
    whitespace at either end, and there are at most as many chunks as
    subtitles: the backend is never sent an empty chunk. *)
Theorem chunks_never_blank (findall_subtitles : str -> list str)
    (srt_text : str) (max_chunk_tokens : Z) :
  Forall (fun s => strip s <> []) (findall_subtitles srt_text) ->
  Forall (fun chunk => tight chunk = true)
         (split_srt_into_chunks count_tokens findall_subtitles srt_text
            max_chunk_tokens)
  /\ List.length (split_srt_into_chunks count_tokens findall_subtitles
                    srt_text max_chunk_tokens)
     <= List.length (subtitles_of findall_subtitles srt_text).
Proof.
  intros H. unfold split_srt_into_chunks. apply chunks_tight.
  destruct (findall_subtitles srt_text) as [|x l] eqn:E.
  - now apply subtitles_of_fallback.
  - unfold subtitles_of. now rewrite E.
Qed.

End ChunkerPacking.

(** A token count for examples: a hundred tokens per character. *)
Definition hundred_per_character (s : str) : nat := 100 * List.length s.

Lemma chunker_greedy_witness :
  (600 - 200
   < group_cost hundred_per_character [lit "a"; lit "bc"]
     + cost hundred_per_character (lit "de"))%Z.
Proof.
  apply (chunker_greedy hundred_per_character 600
           [lit "a"; lit "bc"; lit "de"; lit "f"]
           [] [lit "a"; lit "bc"] (lit "de") [lit "f"] []).
  - repeat constructor; discriminate.
  - reflexivity.
Defined.

(** What [re.findall] gives for the subtitle pattern on [doc_normal]:
    the first two blocks, each with the line break that ends it; the
    third block has no line after its timestamp and is not matched. *)
Definition found_in_doc_normal : list str :=
  [lit "1
00:00:01,000 --> 00:00:02,000
Hello <font color=#fff>John</font>
";
   lit "2
00:00:03,000 --> 00:00:04,000
[explosion]
"].

Lemma chunks_never_blank_witness :
  Forall (fun chunk => tight chunk = true)
         (split_srt_into_chunks (fun s => List.length s / 4)
            (fun _ => found_in_doc_normal) doc_normal 220)
  /\ List.length (split_srt_into_chunks (fun s => List.length s / 4)
                    (fun _ => found_in_doc_normal) doc_normal 220)
     <= List.length (subtitles_of (fun _ => found_in_doc_normal) doc_normal).
Proof.
  apply (chunks_never_blank (fun s => List.length s / 4)
           (fun _ => found_in_doc_normal) doc_normal 220).
  repeat constructor; vm_compute; discriminate.
Defined.


(* ===================================================================== *)
(** * The legacy invoker: what it keeps of a response, and its attempts   *)
(* ===================================================================== *)

Lemma py_split_go_nonempty (s : str) :
  forall (skip : nat) (cur : str), Py.split_go nl s skip cur <> [].
Proof.
  induction s as [|c t IH]; intros skip cur; cbn [Py.split_go]; [discriminate|].
  destruct skip; [|apply IH].
  destruct (startswith nl (c :: t)); [discriminate | apply IH].
Qed.

Lemma join_split_go (s : str) :
  forall cur : str, join nl (Py.split_go nl s 0 cur) = rev cur ++ s.
Proof.
  induction s as [|c t IH]; intros cur.
  - cbn [Py.split_go join]. now rewrite app_nil_r.
  - rewrite py_split_go_cons, startswith_nl.
    destruct (ascii_eqb NL c) eqn:E.
    + apply Ascii.eqb_eq in E. subst c.
      change (List.length nl - 1) with 0.
      pose proof (py_split_go_nonempty t 0 []) as Hne.
      pose proof (IH []) as Ht.
      destruct (Py.split_go nl t 0 []) as [|x l]; [congruence|].
      rewrite join_cons, Ht. reflexivity.
    + rewrite IH. cbn [rev]. now rewrite <- app_assoc.
Qed.

Lemma join_split (s : str) : join nl (split nl s) = s.
Proof. unfold split. now rewrite join_split_go. Qed.

Lemma join_skipn_suffix (lines : list str) (k : nat) :
  exists before : str, join nl lines = before ++ join nl (skipn k lines).
Proof.
  revert lines. induction k as [|k IH]; intros lines.
  - exists []. reflexivity.
  - destruct lines as [|l lines]; [exists []; reflexivity|].
    cbn [skipn]. destruct (IH lines) as [before Hb].
    destruct lines as [|l2 lines].
    + exists l. destruct k; cbn [skipn join]; now rewrite app_nil_r.
    + rewrite join_cons, Hb. exists (l ++ nl ++ before).
      now rewrite <- !app_assoc.
Qed.

(** A pattern that ends in [.*$] under [re.DOTALL]. *)
Inductive to_the_end : regex -> Prop :=
| EndHere : to_the_end to_end
| EndLater (r1 r2 : regex) : to_the_end r2 -> to_the_end (Cat r1 r2).

Lemma flat_map_head {A B : Type} (f : A -> list B) (l : list A) (x : B)
    (l' : list B) :
  flat_map f l = x :: l' -> exists a l'', In a l /\ f a = x :: l''.
Proof.
  induction l as [|a l IH]; [discriminate|].
  cbn [flat_map]. destruct (f a) as [|y fl] eqn:E.
  - intros H. destruct (IH H) as [a' [l'' [Hin Hf]]].
    exists a', l''. split; [now right | exact Hf].
  - intros H. inversion H; subst. exists a, fl. split; [now left | exact E].
Qed.

Lemma matches_to_end (st : mstate) :
  exists l : list mstate,
    matches to_end st = consume st (m_rest st) :: l.
Proof.
  unfold to_end, any. rewrite matches_cat, matches_star.
  destruct (star_cls_greedy_first (fun _ => true) [] I (m_rest st) st
              (List.length (m_rest st)))
    as [l Hl].
  - now rewrite app_nil_r.
  - apply Forall_forall. auto.
  - lia.
  - rewrite Hl. cbn [flat_map matches]. unfold at_eos.
    rewrite (consume_rest st (m_rest st) []) by now rewrite app_nil_r.
    cbn [app]. eauto.
Qed.

Lemma to_the_end_first (r : regex) :
  to_the_end r ->
  forall (st x : mstate) (l : list mstate),
    matches r st = x :: l -> m_rest x = [].
Proof.
  induction 1 as [|r1 r2 _ IH]; intros st x l Hm.
  - destruct (matches_to_end st) as [l' Hl]. rewrite Hl in Hm.
    inversion Hm; subst. apply consume_rest. now rewrite app_nil_r.
  - rewrite matches_cat in Hm.
    apply flat_map_head in Hm. destruct Hm as [a [l'' [_ Hf]]].
    eapply IH; eauto.
Qed.

Lemma sub_go_done (r : regex) (repl : rmatch -> str) (budget : option nat)
    (fuel : nat) (st : mstate) :
  m_rest st = [] -> sub_go r repl budget fuel st = [].
Proof.
  intros E. destruct fuel as [|fuel]; [exact E|].
  cbn [sub_go]. unfold advance. rewrite E.
  destruct budget as [[|n]|]; try reflexivity;
    (destruct (matches r st) as [|st' l] eqn:EM; [reflexivity|];
     destruct (progress st st') eqn:EP; [|reflexivity];
     assert (Hin : In st' (matches r st)) by (rewrite EM; now left);
     pose proof (matches_shrinks r st st' Hin EP) as Hs;
     rewrite E in Hs; simpl in Hs; lia).
Qed.

(** Removing what such a pattern matches leaves a prefix. *)
Lemma sub_go_prefix (r : regex) :
  to_the_end r ->
  forall (fuel : nat) (st : mstate),
    exists after : str,
      m_rest st = sub_go r (fun _ => []) None fuel st ++ after.
Proof.
  intros Hr. induction fuel as [|fuel IH]; intros st.
  - exists []. cbn [sub_go]. now rewrite app_nil_r.
  - cbn [sub_go].
    assert (Hstep : exists after : str,
              m_rest st
              = match advance st with
                | Some (c, st') => c :: sub_go r (fun _ => []) None fuel st'
                | None => []
                end ++ after).
    { unfold advance. destruct (m_rest st) as [|c t] eqn:E.
      - exists []. reflexivity.
      - destruct (IH (MState (S (m_pos st)) (Some c) t (m_caps st)))
          as [after Ha].
        exists after. cbn [app]. f_equal. exact Ha. }
    destruct (matches r st) as [|st' l] eqn:EM; [exact Hstep|].
    destruct (progress st st'); [|exact Hstep].
    exists (m_rest st). cbn [app option_map].
    rewrite sub_go_done; [reflexivity|].
    cbn [m_rest]. eapply to_the_end_first; eauto.
Qed.

Lemma re_sub_prefix (r : regex) (s : str) :
  to_the_end r -> exists after : str, s = re_sub r [] s ++ after.
Proof.
  intros Hr. unfold re_sub, re_sub_fn.
  apply (sub_go_prefix r Hr (S (List.length s)) (at_start s)).
Qed.

Lemma cleanup_patterns_to_the_end : Forall to_the_end cleanup_patterns.
Proof. unfold cleanup_patterns. repeat constructor. Qed.

Lemma fold_re_sub_prefix (patterns : list regex) :
  Forall to_the_end patterns ->
  forall s : str,
    exists after : str,
      s = fold_left (fun t pattern => re_sub pattern [] t) patterns s ++ after.
Proof.
  induction 1 as [|r patterns Hr _ IH]; intros s.
  - exists []. cbn [fold_left]. now rewrite app_nil_r.
  - cbn [fold_left].
    destruct (re_sub_prefix r s Hr) as [a1 H1].
    destruct (IH (re_sub r [] s)) as [a2 H2].
    exists (a2 ++ a1). rewrite app_assoc, <- H2. exact H1.
Qed.

(** The cleaning of a legacy response only cuts: what it returns is
    one contiguous part of the response.  Lines before the first
    subtitle number, everything from the first line that looks like a
    leaked instruction or a comment of the model, and the whitespace
    around are dropped; no character is added or changed. *)
Theorem legacy_cleaning_keeps_part (translated cleaned : str) :
  clean_legacy_response translated = Some cleaned ->
  exists before after : str, translated = before ++ cleaned ++ after.
Proof.
  unfold clean_legacy_response.
  destruct (find_start_idx (split nl translated) 0) as [start_idx|];
    [|discriminate].
  cbv zeta.
  set (kept := if 0 <? start_idx
               then join nl (skipn start_idx (split nl translated))
               else translated).
  generalize (fold_re_sub_prefix cleanup_patterns cleanup_patterns_to_the_end
                kept).
  generalize (fold_left (fun t pattern => re_sub pattern [] t)
                        cleanup_patterns kept).
  intros cut [a2 H2] H.
  assert (Hc : strip cut = cleaned) by congruence.
  subst cleaned. clear H.
  assert (Hkept : exists before, translated = before ++ kept).
  { subst kept. destruct (0 <? start_idx); [|exists []; reflexivity].
    destruct (join_skipn_suffix (split nl translated) start_idx) as [b Hb].
    rewrite join_split in Hb. eauto. }
  destruct Hkept as [b1 H1].
  destruct (strip_spec cut) as [b3 [a3 [H3 _]]].
  exists (b1 ++ b3), (a3 ++ a2).
  rewrite H1, H2. rewrite H3 at 1.
  now rewrite <- !app_assoc.
Qed.

(** ** The attempts of the legacy invoker *)

Section LegacyAttempts.

Variable backend : trace -> request -> reply.

(** What one attempt makes of the reply: the cleaned response when the
    status is 200 and the cleaning raises nothing, and otherwise the
    attempt has failed. *)
Definition legacy_answer (a : reply) : option str :=
  match a with
  | Answer status_code (Some response) =>
      if (status_code =? 200)%Z then clean_legacy_response (strip response)
      else None
  | _ => None
  end.

Lemma try_legacy_answer (r : request) (t : trace) :
  try_legacy backend r t = (legacy_answer (backend t r), t ++ [Post r]).
Proof.
  unfold try_legacy, legacy_answer, bind, post, ret.
  destruct (backend t r) as [|code [response|]]; try reflexivity.
  now destruct (code =? 200)%Z.
Qed.

Lemma retry_loop_success {A : Type} (try_once : M (option A)) (a : A)
    (attempt : nat) (rest : list nat) (t t' : trace) :
  try_once t = (Some a, t') ->
  retry_loop try_once (attempt :: rest) t = (Some a, t').
Proof. intros H. cbn [retry_loop]. now rewrite bind_run, H. Qed.

(** The run of the invoker, read off the replies to its attempts. *)
Lemma translate_chunk_run
    (text source_lang target_lang chunk_info : str) (t : trace) :
  let r := LegacyPrompt text source_lang target_lang chunk_info in
  translate_chunk_with_ollama backend text source_lang target_lang
    chunk_info t
  = match legacy_answer (backend t r) with
    | Some cleaned => (cleaned, t ++ firstn 1 (exhausted_trace r))
    | None =>
        match legacy_answer
                (backend (t ++ firstn 2 (exhausted_trace r)) r) with
        | Some cleaned => (cleaned, t ++ firstn 3 (exhausted_trace r))
        | None =>
            match legacy_answer
                    (backend (t ++ firstn 4 (exhausted_trace r)) r) with
            | Some cleaned => (cleaned, t ++ exhausted_trace r)
            | None => (text, t ++ exhausted_trace r)
            end
        end
    end.
Proof.
  cbv zeta.
  set (r := LegacyPrompt text source_lang target_lang chunk_info).
  unfold translate_chunk_with_ollama. fold r. rewrite bind_run.
  change (seq 0 max_retries) with [0; 1; 2].
  unfold exhausted_trace. cbn [firstn].
  pose proof (try_legacy_answer r t) as E1.
  destruct (legacy_answer (backend t r)) as [c1|].
  { now rewrite (retry_loop_success _ c1 0 _ _ _ E1). }
  rewrite (retry_loop_failed_attempt _ r 0 _ _ E1).
  change (snd ((if 0 <? max_retries - 1 then sleep (backoff 0) else ret tt)
                 (t ++ [Post r])))
    with ((t ++ [Post r]) ++ [Sleep (backoff 0)]).
  replace ((t ++ [Post r]) ++ [Sleep (backoff 0)])
    with (t ++ [Post r; Sleep (backoff 0)]) by (now rewrite <- app_assoc).
  pose proof (try_legacy_answer r (t ++ [Post r; Sleep (backoff 0)])) as E2.
  destruct (legacy_answer (backend (t ++ [Post r; Sleep (backoff 0)]) r))
    as [c2|].
  { rewrite (retry_loop_success _ c2 1 _ _ _ E2). unfold ret. cbn [fst snd].
    now rewrite <- app_assoc. }
  rewrite (retry_loop_failed_attempt _ r 1 _ _ E2).
  change (snd ((if 1 <? max_retries - 1 then sleep (backoff 1) else ret tt)
                 ((t ++ [Post r; Sleep (backoff 0)]) ++ [Post r])))
    with (((t ++ [Post r; Sleep (backoff 0)]) ++ [Post r])
          ++ [Sleep (backoff 1)]).
  replace (((t ++ [Post r; Sleep (backoff 0)]) ++ [Post r])
           ++ [Sleep (backoff 1)])
    with (t ++ [Post r; Sleep (backoff 0); Post r; Sleep (backoff 1)])
    by (now rewrite <- !app_assoc).
  pose proof (try_legacy_answer r
                (t ++ [Post r; Sleep (backoff 0); Post r; Sleep (backoff 1)]))
    as E3.
  destruct (legacy_answer
              (backend
                 (t ++ [Post r; Sleep (backoff 0); Post r; Sleep (backoff 1)])
                 r)) as [c3|].
  { rewrite (retry_loop_success _ c3 2 _ _ _ E3). unfold ret. cbn [fst snd].
    now rewrite <- app_assoc. }
  rewrite (retry_loop_failed_attempt _ r 2 _ _ E3).
  cbn [retry_loop]. unfold ret. cbn [fst snd Nat.ltb Nat.leb max_retries Nat.sub].
  now rewrite <- app_assoc.
Qed.

(** The invoker stops at the first attempt that succeeds.  The events
    before attempt [i] are the first [2 * i] of the five events of
    three failed attempts: a post and a pause for each attempt before
    it.  If the attempts before attempt [k] fail and attempt [k] is
    answered with status 200 and a response that the cleaning turns
    into [cleaned], the invoker returns [cleaned] right after the post
    of attempt [k]: it has posted [k + 1] times and paused 1 second
    after a first and 2 seconds after a second failed attempt.  If all
    three attempts fail it returns the text it was given, after three
    posts and no pause after the last. *)
Theorem legacy_invoker_first_success
    (text source_lang target_lang chunk_info : str) (t : trace) :
  let r := LegacyPrompt text source_lang target_lang chunk_info in
  let answer (i : nat) :=
    legacy_answer (backend (t ++ firstn (2 * i) (exhausted_trace r)) r) in
  let run :=
    translate_chunk_with_ollama backend text source_lang target_lang
      chunk_info t in
  (forall (k : nat) (cleaned : str),
     k < 3 ->
     (forall i : nat, i < k -> answer i = None) ->
     answer k = Some cleaned ->
     run = (cleaned, t ++ firstn (2 * k + 1) (exhausted_trace r)))
  /\ ((forall i : nat, i < 3 -> answer i = None) ->
      run = (text, t ++ exhausted_trace r)).
Proof.
  cbv zeta.
  pose proof (translate_chunk_run text source_lang target_lang chunk_info t)
    as R. cbv zeta in R.
  set (r := LegacyPrompt text source_lang target_lang chunk_info) in *.
  assert (E0 : t ++ firstn (2 * 0) (exhausted_trace r) = t)
    by apply app_nil_r.
  split.
  - intros k cleaned Hk Hfail Hok.
    destruct k as [|[|[|k]]]; [| | |lia].
    + rewrite E0 in Hok. now rewrite R, Hok.
    + pose proof (Hfail 0 ltac:(lia)) as H0. rewrite E0 in H0.
      rewrite R, H0.
      change (2 * 1) with 2 in Hok. now rewrite Hok.
    + pose proof (Hfail 0 ltac:(lia)) as H0. rewrite E0 in H0.
      pose proof (Hfail 1 ltac:(lia)) as H1. change (2 * 1) with 2 in H1.
      rewrite R, H0, H1.
      change (2 * 2) with 4 in Hok. now rewrite Hok.
  - intros Hfail.
    pose proof (Hfail 0 ltac:(lia)) as H0. rewrite E0 in H0.
    pose proof (Hfail 1 ltac:(lia)) as H1. change (2 * 1) with 2 in H1.
    pose proof (Hfail 2 ltac:(lia)) as H2. change (2 * 2) with 4 in H2.
    now rewrite R, H0, H1, H2.
Qed.

(** The attempts a call makes after the events [t]. *)
Definition attempts_made (r : request) (t : trace) : nat :=
  if is_some (legacy_answer (backend t r)) then 1
  else if is_some
            (legacy_answer (backend (t ++ firstn 2 (exhausted_trace r)) r))
       then 2
       else 3.

Lemma translate_chunk_events
    (text source_lang target_lang chunk_info : str) (t : trace) :
  let r := LegacyPrompt text source_lang target_lang chunk_info in
  snd (translate_chunk_with_ollama backend text source_lang target_lang
         chunk_info t)
  = t ++ firstn (2 * attempts_made r t - 1) (exhausted_trace r).
Proof.
  cbv zeta. rewrite translate_chunk_run. unfold attempts_made.
  destruct (legacy_answer (backend t _)); [reflexivity|].
  destruct (legacy_answer (backend (t ++ firstn 2 _) _)); [reflexivity|].
  destruct (legacy_answer (backend (t ++ firstn 4 _) _)); reflexivity.
Qed.

End LegacyAttempts.

Definition response_with_chatter : str := lit "Sure, here it is:
1
00:00:01,000 --> 00:00:02,000
Ola

Note: I kept the timing.".

Lemma legacy_cleaning_keeps_part_witness :
  exists before after : str,
    response_with_chatter
    = before ++ lit "1
00:00:01,000 --> 00:00:02,000
Ola" ++ after.
Proof.
  apply (legacy_cleaning_keeps_part response_with_chatter).
  vm_compute. reflexivity.
Defined.

(** A backend whose first answer fails and whose second is accepted. *)
Definition backend_second_try : trace -> request -> reply :=
  fun t _ =>
    match t with
    | [] => Answer 503 None
    | _ => Answer 200 (Some response_with_chatter)
    end.

Lemma legacy_invoker_first_success_witness :
  translate_chunk_with_ollama backend_second_try (lit "Hello") (lit "en")
    (lit "pt-br") [] []
  = (lit "1
00:00:01,000 --> 00:00:02,000
Ola",
     [Post (LegacyPrompt (lit "Hello") (lit "en") (lit "pt-br") []);
      Sleep 1;
      Post (LegacyPrompt (lit "Hello") (lit "en") (lit "pt-br") [])]).
Proof.
  apply (proj1 (legacy_invoker_first_success backend_second_try
                  (lit "Hello") (lit "en") (lit "pt-br") [] []) 1).
  - lia.
  - intros i Hi. replace i with 0 by lia. reflexivity.
  - vm_compute. reflexivity.
Defined.

(* ===================================================================== *)
(** * The numbered list of the prompt and the cleaning of the response    *)
(* ===================================================================== *)

Lemma string_of_uint_digits (d : Decimal.uint) :
  Forall (fun c => isdecimal c = true) (lit (NilEmpty.string_of_uint d)).
Proof.
  induction d; cbn [NilEmpty.string_of_uint lit list_ascii_of_string];
    constructor; auto.
Qed.

Lemma str_of_nat_digits (n : nat) :
  str_of_nat n <> []
  /\ Forall (fun c => isdecimal c = true) (str_of_nat n).
Proof.
  unfold str_of_nat, NilZero.string_of_uint.
  destruct (Nat.to_uint n) eqn:E;
    try (split; [discriminate | rewrite <- E; apply string_of_uint_digits]).
  split; [discriminate | repeat constructor].
Qed.

(** ** The numbered list, decoded *)

(** An answer the cleaning keeps as it is: one line, no whitespace
    around it, and none of the instructions of the prompt in it. *)
Definition clean_answer (a : str) : Prop :=
  tight a = true /\ one_line a = true
  /\ existsb (fun skip => contains skip (lower a)) leaked_instructions = false.

Lemma contains_after (h : ascii) (tl pre s : str) :
  Forall (fun c => c <> h) pre ->
  contains (h :: tl) (pre ++ s) = contains (h :: tl) s.
Proof.
  induction 1 as [|c pre Hc _ IH]; [reflexivity|].
  cbn [app contains startswith]. rewrite IH.
  unfold ascii_eqb. destruct (Ascii.eqb_spec h c) as [E|E];
    [congruence | reflexivity].
Qed.

(** A character of the marker in front of an answer. *)
Definition marker_chr (c : ascii) : bool :=
  isdecimal c || ascii_eqb c "." || ascii_eqb c " ".

Lemma marker_chr_lower (c : ascii) : marker_chr c = true -> lower_chr c = c.
Proof.
  destruct c as [[] [] [] [] [] [] [] []]; vm_compute; congruence.
Qed.

Lemma marker_chr_no_letter (c h : ascii) :
  marker_chr c = true -> is_az h = true -> c <> h.
Proof.
  intros Hc Hh ->. revert Hc Hh.
  destruct h as [[] [] [] [] [] [] [] []]; vm_compute; congruence.
Qed.

Lemma leaked_instructions_heads :
  Forall (fun skip => exists h tl, skip = h :: tl /\ is_az h = true)
         leaked_instructions.
Proof.
  unfold leaked_instructions.
  repeat (constructor; [eexists _, _; split; reflexivity|]). constructor.
Qed.

Lemma lower_marker (pre : str) :
  Forall (fun c => marker_chr c = true) pre -> lower pre = pre.
Proof.
  induction 1 as [|c pre Hc _ IH]; [reflexivity|].
  unfold lower in *. cbn [map]. now rewrite IH, (marker_chr_lower c Hc).
Qed.

Lemma leaked_after_marker (pre a : str) :
  Forall (fun c => marker_chr c = true) pre ->
  existsb (fun skip => contains skip (lower (pre ++ a))) leaked_instructions
  = existsb (fun skip => contains skip (lower a)) leaked_instructions.
Proof.
  intros Hpre.
  assert (E : lower (pre ++ a) = pre ++ lower a).
  { unfold lower. rewrite map_app. fold (lower pre) (lower a).
    now rewrite (lower_marker pre Hpre). }
  rewrite E.
  pose proof leaked_instructions_heads as Hh.
  induction Hh as [|skip l [h [tl [-> Hl]]] _ IH]; [reflexivity|].
  cbn [existsb]. rewrite IH. f_equal.
  apply contains_after.
  eapply Forall_impl; [|exact Hpre].
  intros c Hc. now apply marker_chr_no_letter.
Qed.

Lemma tight_all (s : str) :
  s <> [] -> Forall (fun c => isspace c = false) s -> tight s = true.
Proof.
  intros Hne Hall. destruct s as [|c t]; [congruence|].
  unfold tight.
  assert (Hl : In (last (c :: t) c) (c :: t)).
  { destruct (exists_last Hne) as [l [x E]]. rewrite E, last_last.
    apply in_or_app. right. now left. }
  rewrite Forall_forall in Hall.
  now rewrite (Hall c (or_introl eq_refl)), (Hall _ Hl).
Qed.

Lemma decimal_not_space (c : ascii) : isdecimal c = true -> isspace c = false.
Proof.
  destruct c as [[] [] [] [] [] [] [] []]; vm_compute; congruence.
Qed.

(** A greedy [+] over a class first reads the whole run. *)
Lemma matches_plus_cls_first (p : ascii -> bool) (st : mstate) (c : ascii)
    (w rest : str) :
  m_rest st = c :: w ++ rest ->
  p c = true ->
  Forall (fun x => p x = true) w ->
  match rest with [] => True | d :: _ => p d = false end ->
  exists l : list mstate,
    matches (Plus true (Cls p)) st = consume st (c :: w) :: l.
Proof.
  intros Hst Hc Hw Hrest. unfold Plus.
  rewrite matches_cat, (matches_cls _ st c (w ++ rest) Hst), Hc.
  cbn [flat_map]. rewrite app_nil_r, matches_star.
  destruct (star_cls_greedy_first p rest Hrest w
              (MState (S (m_pos st)) (Some c) (w ++ rest) (m_caps st))
              (List.length (w ++ rest)))
    as [l Hl]; [reflexivity | exact Hw | rewrite length_app; lia |].
  cbn [m_rest]. rewrite Hl. cbn [consume]. rewrite Hst. cbn [tl]. eauto.
Qed.

Lemma flat_map_first {A B : Type} (f : A -> list B) (a : A) (l : list A)
    (x : B) (l' : list B) :
  f a = x :: l' -> flat_map f (a :: l) = x :: (l' ++ flat_map f l).
Proof. intros H. cbn [flat_map]. now rewrite H. Qed.

(** After the start of the text an anchored pattern matches nowhere. *)
Lemma sub_go_anchored (r : regex) (repl : rmatch -> str)
    (budget : option nat) :
  forall (fuel : nat) (st : mstate),
    0 < m_pos st -> sub_go (Cat Bos r) repl budget fuel st = m_rest st.
Proof.
  induction fuel as [|fuel IH]; intros st Hpos; [reflexivity|].
  cbn [sub_go].
  assert (Hnone : matches (Cat Bos r) st = []).
  { rewrite matches_cat. cbn [matches].
    destruct (m_pos st) as [|n] eqn:E; [lia | reflexivity]. }
  rewrite Hnone.
  assert (Hstep : match advance st with
                  | Some (c, st') => c :: sub_go (Cat Bos r) repl budget fuel st'
                  | None => []
                  end = m_rest st).
  { unfold advance. destruct (m_rest st) as [|c t] eqn:E; [reflexivity|].
    f_equal. rewrite IH; [reflexivity | simpl; lia]. }
  rewrite Hstep. now destruct budget as [[|n]|].
Qed.

Lemma ordinal_marker_form :
  Pat.ordinal_marker
  = Cat Bos (Cat (Plus true (Cls isdecimal))
                 (Cat (Cls (fun c => ascii_eqb c "." || ascii_eqb c ")"))
                      (Star true (Cls isspace)))).
Proof. reflexivity. Qed.

Lemma ordinal_marker_removed (ds a : str) :
  ds <> [] -> Forall (fun c => isdecimal c = true) ds ->
  tight a = true ->
  re_sub Pat.ordinal_marker [] (ds ++ lit ". " ++ a) = a.
Proof.
  intros Hne Hds Ha.
  destruct ds as [|d ds]; [congruence|].
  inversion Hds as [|? ? Hd Hds']; subst.
  destruct (tight_head a Ha) as [c [a' [-> Hc]]].
  unfold re_sub, re_sub_fn.
  set (s := (d :: ds) ++ lit ". " ++ c :: a').
  assert (Hm : exists (y : mstate) (l : list mstate),
            matches Pat.ordinal_marker (at_start s) = y :: l
            /\ m_rest y = c :: a'
            /\ m_pos y = List.length (d :: ds) + 2).
  { rewrite ordinal_marker_form, matches_cat. cbn [matches at_start m_pos].
    cbn [Nat.eqb flat_map]. rewrite app_nil_r.
    change (MState 0 None s []) with (at_start s).
    destruct (matches_plus_cls_first isdecimal (at_start s) d ds
                (lit ". " ++ c :: a')) as [l1 H1];
      [reflexivity | exact Hd | exact Hds' | reflexivity |].
    fold (matches (Plus true (Cls isdecimal)) (at_start s)).
    fold (matches (Cat (Cls (fun c0 => ascii_eqb c0 "." || ascii_eqb c0 ")"))
                       (Star true (Cls isspace)))).
    rewrite H1.
    set (x := consume (at_start s) (d :: ds)).
    assert (Hx : m_rest x = "."%char :: " "%char :: c :: a')
      by (subst x; now apply consume_rest).
    assert (H2 : exists l2,
              matches (Cat (Cls (fun c0 => ascii_eqb c0 "." || ascii_eqb c0 ")"))
                           (Star true (Cls isspace))) x
              = consume x (lit ". ") :: l2).
    { rewrite matches_cat, (matches_cls _ x "."%char _ Hx).
      change (ascii_eqb "." "." || ascii_eqb "." ")") with true.
      cbn [flat_map]. rewrite app_nil_r, matches_star.
      destruct (star_cls_greedy_first isspace (c :: a') Hc [" "%char]
                  (MState (S (m_pos x)) (Some "."%char) (" "%char :: c :: a')
                          (m_caps x))
                  (List.length (" "%char :: c :: a')))
        as [l2 H2]; [reflexivity | now repeat constructor | simpl; lia |].
      cbn [m_rest]. rewrite H2. exists l2.
      cbn [consume lit list_ascii_of_string]. rewrite Hx. reflexivity. }
    destruct H2 as [l2 H2].
    rewrite (flat_map_first _ x l1 _ l2 H2).
    eexists _, _. split; [reflexivity|]. split.
    - apply consume_rest with (rest := c :: a'). exact Hx.
    - rewrite consume_pos. subst x. rewrite consume_pos. simpl. lia. }
  destruct Hm as [y [l [Hm [Hr Hp]]]].
  cbn [sub_go]. rewrite Hm.
  replace (progress (at_start s) y) with true
    by (symmetry; unfold progress; rewrite Hp; simpl; apply Nat.ltb_lt; lia).
  cbn [app option_map]. rewrite ordinal_marker_form, sub_go_anchored.
  - exact Hr.
  - cbn [m_pos]. rewrite Hp. simpl. lia.
Qed.

(** The candidates, as a function of the lines of the response. *)
Definition candidates_of_lines (lines : list str) : list str :=
  filter nonempty
    (map (re_sub Pat.ordinal_marker [])
         (filter nonempty
            (filter
               (fun line =>
                  nonempty line
                  && negb (existsb (fun skip => contains skip (lower line))
                                   leaked_instructions))
               (map strip lines)))).

Lemma candidate_translations_lines (response : str) :
  candidate_translations response = candidates_of_lines (split nl response).
Proof. reflexivity. Qed.

Lemma candidates_of_lines_app (a b : list str) :
  candidates_of_lines (a ++ b)
  = candidates_of_lines a ++ candidates_of_lines b.
Proof.
  unfold candidates_of_lines.
  now rewrite map_app, !filter_app, map_app, filter_app.
Qed.

Lemma numbered_line_marker (i : nat) :
  exists ds : str,
    str_of_nat (i + 1) = ds /\ ds <> []
    /\ Forall (fun c => isdecimal c = true) ds.
Proof.
  destruct (str_of_nat_digits (i + 1)) as [Hne Hds]. eauto.
Qed.

Lemma numbered_line_candidates (i : nat) (a : str) :
  clean_answer a -> candidates_of_lines [numbered_line i a] = [a].
Proof.
  intros [Ht [_ Hl]].
  destruct (numbered_line_marker i) as [ds [E [Hne Hds]]].
  unfold numbered_line. rewrite E.
  assert (Htight : tight (ds ++ lit ". " ++ a) = true).
  { apply tight_glue; [|exact Ht].
    apply tight_all; [exact Hne|].
    eapply Forall_impl; [|exact Hds]. apply decimal_not_space. }
  assert (Hkeep :
    existsb (fun skip => contains skip (lower (ds ++ lit ". " ++ a)))
            leaked_instructions = false).
  { rewrite app_assoc, leaked_after_marker; [exact Hl|].
    apply Forall_app. split.
    - eapply Forall_impl; [|exact Hds].
      intros c Hc. unfold marker_chr. now rewrite Hc.
    - repeat constructor. }
  unfold candidates_of_lines. cbn [map filter].
  rewrite (strip_tight _ Htight), Hkeep.
  assert (Hn : nonempty (ds ++ lit ". " ++ a) = true)
    by (destruct ds; [congruence | reflexivity]).
  rewrite Hn. cbn [negb andb filter map]. rewrite Hn. cbn [map filter].
  rewrite (ordinal_marker_removed ds a Hne Hds Ht).
  destruct (tight_head a Ht) as [c [a' [-> _]]]. reflexivity.
Qed.

Lemma numbered_candidates (answers : list str) :
  Forall clean_answer answers ->
  forall start : nat,
    candidates_of_lines
      (map (fun it => numbered_line (fst it) (snd it))
           (combine (seq start (List.length answers)) answers))
    = answers.
Proof.
  induction 1 as [|a answers Ha _ IH]; intros start; [reflexivity|].
  cbn [List.length seq combine map fst snd].
  change (numbered_line start a :: ?l) with ([numbered_line start a] ++ l).
  rewrite (candidates_of_lines_app [numbered_line start a]).
  now rewrite (numbered_line_candidates start a Ha), IH.
Qed.

Lemma numbered_line_one_line (i : nat) (a : str) :
  one_line a = true -> one_line (numbered_line i a) = true.
Proof.
  intros Ha. destruct (str_of_nat_digits (i + 1)) as [_ Hds].
  unfold numbered_line, one_line. rewrite !forallb_app.
  apply andb_true_iff. split;
    [|apply andb_true_iff; split; [reflexivity | exact Ha]].
  apply forallb_forall. intros c Hc.
  rewrite Forall_forall in Hds. specialize (Hds c Hc).
  revert Hds. destruct c as [[] [] [] [] [] [] [] []]; vm_compute; congruence.
Qed.

Lemma numbered_list_one_line (answers : list str) :
  Forall clean_answer answers ->
  forall start : nat,
    Forall (fun x => one_line x = true)
           (map (fun it => numbered_line (fst it) (snd it))
                (combine (seq start (List.length answers)) answers)).
Proof.
  induction 1 as [|a answers [_ [Ha _]] _ IH]; intros start; [constructor|].
  cbn [List.length seq combine map fst snd].
  constructor; [now apply numbered_line_one_line | apply IH].
Qed.

Lemma numbered_lines_candidates (answers : list str) :
  Forall clean_answer answers ->
  candidate_translations (numbered_lines answers) = answers.
Proof.
  intros H. rewrite candidate_translations_lines. unfold numbered_lines.
  pose proof (numbered_list_one_line answers H 0) as Hl.
  pose proof (numbered_candidates answers H 0) as Hc.
  set (lines := map (fun it => numbered_line (fst it) (snd it))
                    (combine (seq 0 (List.length answers)) answers)) in *.
  destruct lines as [|l ls] eqn:E.
  - destruct answers; [reflexivity | discriminate].
  - inversion Hl as [|? ? H1 H2].
    rewrite split_join_lines by assumption. exact Hc.
Qed.

Lemma reconciled_same (answers texts : list str) :
  List.length answers = List.length texts -> reconciled answers texts = answers.
Proof.
  intros H. unfold reconciled.
  rewrite skipn_all2 by lia. rewrite app_nil_r. apply firstn_all2. lia.
Qed.

Lemma tight_join (lines : list str) :
  lines <> [] -> Forall (fun x => tight x = true) lines ->
  tight (join nl lines) = true.
Proof.
  intros Hne Hall. induction Hall as [|l lines Hl Hrest IH]; [congruence|].
  destruct lines as [|l2 lines]; [exact Hl|].
  rewrite join_cons. apply tight_glue; [exact Hl|]. apply IH. discriminate.
Qed.

Lemma numbered_line_tight (i : nat) (a : str) :
  tight a = true -> tight (numbered_line i a) = true.
Proof.
  intros Ha. destruct (str_of_nat_digits (i + 1)) as [Hne Hds].
  unfold numbered_line. apply tight_glue; [|exact Ha].
  apply tight_all; [exact Hne|].
  eapply Forall_impl; [|exact Hds]. apply decimal_not_space.
Qed.

Lemma numbered_list_tight (answers : list str) :
  Forall clean_answer answers ->
  forall start : nat,
    Forall (fun x => tight x = true)
           (map (fun it => numbered_line (fst it) (snd it))
                (combine (seq start (List.length answers)) answers)).
Proof.
  induction 1 as [|a answers [Ha _] _ IH]; intros start; [constructor|].
  cbn [List.length seq combine map fst snd].
  constructor; [now apply numbered_line_tight | apply IH].
Qed.

Lemma strip_numbered_lines (answers : list str) :
  Forall clean_answer answers ->
  strip (numbered_lines answers) = numbered_lines answers.
Proof.
  intros H. destruct answers as [|a answers]; [reflexivity|].
  apply strip_tight. unfold numbered_lines.
  apply tight_join; [discriminate|]. now apply numbered_list_tight.
Qed.

Lemma extract_numbered_lines (answers texts : list str) :
  Forall clean_answer answers ->
  List.length answers = List.length texts ->
  extract_translations_from_evolutionary_response
    (strip (numbered_lines answers)) texts
  = answers.
Proof.
  intros H Hlen.
  rewrite (strip_numbered_lines answers H), extract_translations_reconciled.
  rewrite (numbered_lines_candidates answers H).
  now apply reconciled_same.
Qed.

(** ** The prompt, echoed *)

Definition prompt_head : list str :=
  [lit "NEVER translate words inside quotes IF they start with capital letters.";
   [];
   lit "DO NOT translate:";
   lit "- Person names (John, Maria, etc.)";
   lit "- Place names (Tokyo, New York, etc.) ";
   lit "- Technique/ability names (especially capitalized ones)";
   lit "- Any word starting with capital letter";
   [];
   lit "Translate ONLY the numbered texts to Brazilian Portuguese.";
   [];
   lit "TEXTS:"].

Definition prompt_tail : list str := [[]; lit "TRANSLATIONS:"].

Lemma join_app (a b : list str) :
  a <> [] -> b <> [] -> join nl (a ++ b) = join nl a ++ nl ++ join nl b.
Proof.
  intros Ha Hb. induction a as [|x a IH]; [congruence|].
  destruct a as [|y a].
  - destruct b; [congruence | reflexivity].
  - cbn [app]. rewrite !join_cons.
    change (y :: a ++ b) with ((y :: a) ++ b).
    rewrite IH by discriminate. now rewrite <- !app_assoc.
Qed.

Lemma evolutionary_prompt_lines (a : str) (texts : list str) :
  evolutionary_prompt (a :: texts)
  = join nl (prompt_head
             ++ map (fun it => numbered_line (fst it) (snd it))
                    (combine (seq 0 (List.length (a :: texts))) (a :: texts))
             ++ prompt_tail).
Proof.
  rewrite join_app; [|discriminate|discriminate].
  rewrite join_app; [|discriminate|discriminate].
  unfold evolutionary_prompt, numbered_lines.
  change evolutionary_prompt_before with (join nl prompt_head ++ nl).
  change evolutionary_prompt_after with (nl ++ join nl prompt_tail).
  now rewrite <- !app_assoc.
Qed.

Lemma tight_ends (a x b : str) (c : ascii) :
  match a with d :: _ => isspace d = false | [] => False end ->
  b <> [] -> isspace (last b c) = false ->
  tight (a ++ x ++ b) = true.
Proof.
  intros Ha Hb Hl. destruct a as [|d a]; [destruct Ha|].
  unfold tight. cbn [app]. rewrite Ha. cbn [negb andb].
  replace (d :: a ++ x ++ b) with ((d :: a ++ x) ++ b)
    by (simpl; now rewrite <- app_assoc).
  rewrite last_app_nonempty by exact Hb.
  now rewrite (last_default b d c Hb), Hl.
Qed.

Lemma strip_evolutionary_prompt (texts : list str) :
  strip (evolutionary_prompt texts) = evolutionary_prompt texts.
Proof.
  apply strip_tight. unfold evolutionary_prompt.
  apply (tight_ends _ _ _ " "%char); [reflexivity | discriminate | reflexivity].
Qed.

Lemma prompt_head_candidates : candidates_of_lines prompt_head = [].
Proof. vm_compute. reflexivity. Qed.

Lemma prompt_tail_candidates : candidates_of_lines prompt_tail = [].
Proof. vm_compute. reflexivity. Qed.

Lemma prompt_head_one_line : Forall (fun x => one_line x = true) prompt_head.
Proof. repeat constructor. Qed.

Lemma evolutionary_prompt_candidates (texts : list str) :
  Forall clean_answer texts ->
  candidate_translations (evolutionary_prompt texts) = texts.
Proof.
  intros H. destruct texts as [|a texts]; [vm_compute; reflexivity|].
  rewrite candidate_translations_lines, evolutionary_prompt_lines.
  pose proof (numbered_list_one_line (a :: texts) H 0) as Hl.
  pose proof (numbered_candidates (a :: texts) H 0) as Hc.
  set (numbered := map (fun it => numbered_line (fst it) (snd it))
                       (combine (seq 0 (List.length (a :: texts)))
                                (a :: texts))) in *.
  assert (Hall : Forall (fun x => one_line x = true)
                        (prompt_head ++ numbered ++ prompt_tail)).
  { apply Forall_app. split; [exact prompt_head_one_line|].
    apply Forall_app. split; [exact Hl | repeat constructor]. }
  remember (prompt_head ++ numbered ++ prompt_tail) as lines eqn:E.
  destruct lines as [|l ls]; [discriminate|].
  inversion Hall as [|? ? H1 H2].
  rewrite split_join_lines by assumption. rewrite E.
  rewrite !candidates_of_lines_app, prompt_head_candidates,
    prompt_tail_candidates, Hc.
  cbn [app]. now rewrite app_nil_r.
Qed.

Lemma extract_echoed_prompt (texts : list str) :
  Forall clean_answer texts ->
  extract_translations_from_evolutionary_response
    (strip (evolutionary_prompt texts)) texts
  = texts.
Proof.
  intros H.
  rewrite strip_evolutionary_prompt, extract_translations_reconciled.
  rewrite (evolutionary_prompt_candidates texts H).
  now apply reconciled_same.
Qed.

(** A backend that answers a chunk with its translations, numbered as
    the prompt numbers the texts. *)
Definition answers_numbered (answers : list str) : trace -> request -> reply :=
  fun _ _ => Answer 200 (Some (numbered_lines answers)).

(** A backend that answers with the prompt it was sent. *)
Definition echo : trace -> request -> reply :=
  fun _ r =>
    match r with
    | EvolutionaryPrompt texts => Answer 200 (Some (evolutionary_prompt texts))
    | _ => Answer 500 None
    end.

Section Decoding.

Variable backend : trace -> request -> reply.
Variables source_lang target_lang : str.

Lemma translate_text_chunk_answer (texts : list str) (response : str)
    (t : trace) :
  backend t (EvolutionaryPrompt texts) = Answer 200 (Some response) ->
  fst (translate_text_chunk_with_evolutionary_config backend texts
         source_lang target_lang t)
  = extract_translations_from_evolutionary_response (strip response) texts.
Proof.
  intros H. unfold translate_text_chunk_with_evolutionary_config.
  rewrite bind_run. unfold post. cbn [fst snd]. now rewrite H.
Qed.

(** When the backend answers a chunk with one translation per text,
    numbered as the prompt numbers the texts, each on one line, without
    whitespace around it and without words of the instructions, the
    chunk invoker returns exactly these translations: the marker in
    front of each is removed and nothing else. *)
Theorem numbered_answers_decoded (texts answers : list str) (t : trace) :
  backend t (EvolutionaryPrompt texts)
  = Answer 200 (Some (numbered_lines answers)) ->
  Forall clean_answer answers ->
  List.length answers = List.length texts ->
  fst (translate_text_chunk_with_evolutionary_config backend texts
         source_lang target_lang t)
  = answers.
Proof.
  intros Hb Hc Hlen.
  rewrite (translate_text_chunk_answer texts _ t Hb).
  now apply extract_numbered_lines.
Qed.

(** When the backend answers with the prompt itself, the chunk invoker
    returns the texts as they were sent: every line of instructions
    of the prompt is on the list of leaked instructions, and the
    numbered texts are read back. *)
Theorem echoed_prompt_decoded (texts : list str) (t : trace) :
  backend t (EvolutionaryPrompt texts)
  = Answer 200 (Some (evolutionary_prompt texts)) ->
  Forall clean_answer texts ->
  fst (translate_text_chunk_with_evolutionary_config backend texts
         source_lang target_lang t)
  = texts.
Proof.
  intros Hb Hc.
  rewrite (translate_text_chunk_answer texts _ t Hb).
  now apply extract_echoed_prompt.
Qed.

End Decoding.

Lemma clean_answer_check (a : str) :
  tight a && one_line a
  && negb (existsb (fun skip => contains skip (lower a)) leaked_instructions)
  = true ->
  clean_answer a.
Proof.
  intros H. apply andb_true_iff in H. destruct H as [H H3].
  apply andb_true_iff in H. destruct H as [H1 H2].
  apply negb_true_iff in H3. repeat split; assumption.
Qed.

Lemma numbered_answers_decoded_witness :
  fst (translate_text_chunk_with_evolutionary_config
         (answers_numbered [lit "Ola, John!"; lit "[explosao]"])
         [lit "Hello there, John!"; lit "[explosion]"] (lit "en")
         (lit "pt-br") [])
  = [lit "Ola, John!"; lit "[explosao]"].
Proof.
  apply (numbered_answers_decoded
           (answers_numbered [lit "Ola, John!"; lit "[explosao]"])).
  - reflexivity.
  - repeat constructor; apply clean_answer_check; vm_compute; reflexivity.
  - reflexivity.
Defined.

Lemma echoed_prompt_decoded_witness :
  fst (translate_text_chunk_with_evolutionary_config echo
         [lit "Hello there, John!"; lit "[explosion]"] (lit "en")
         (lit "pt-br") [])
  = [lit "Hello there, John!"; lit "[explosion]"].
Proof.
  apply (echoed_prompt_decoded echo).
  - reflexivity.
  - repeat constructor; apply clean_answer_check; vm_compute; reflexivity.
Defined.


(* ===================================================================== *)
(** * Properties of the legacy entry point                                *)
(* ===================================================================== *)

Section LegacyProps.

Variable backend : legacy_trace -> request -> reply.
Variable count_tokens : str -> nat.
Variable findall_subtitles : str -> list str.
Variables source_lang target_lang : str.

(** The request of chunk [i] of [n_chunks]. *)
Definition chunk_request (n_chunks : nat) (p : nat * str) : request :=
  LegacyPrompt (snd p) source_lang target_lang
    (chunk_info_of (fst p) n_chunks (count_tokens (snd p))).

(** The requests of the legacy entry point, in order: none for a text
    that is empty or, stripped, shorter than two characters; the text
    itself, without chunk information, when it is within the safe
    chunk size; otherwise one request per chunk of the chunker. *)
Definition legacy_requests (text : str) : list request :=
  if negb (nonempty text) || (List.length (strip text) <? 2) then []
  else if (Z.of_nat (count_tokens text) <=? safe_chunk_size)%Z
  then [LegacyPrompt text source_lang target_lang []]
  else
    let chunks :=
      split_srt_into_chunks count_tokens findall_subtitles text
        safe_chunk_size in
    map (chunk_request (List.length chunks))
        (combine (seq 0 (List.length chunks)) chunks).

(** The events of one request after the events [lt]: its attempts, up
    to the first that succeeds, with the pauses between them. *)
Definition request_events (lt : legacy_trace) (r : request) : legacy_trace :=
  map Invoker
      (firstn
         (2 * attempts_made (fun t r => backend (lt ++ map Invoker t) r) r []
          - 1)
         (exhausted_trace r)).

(** The events of the requests one after the other, with a pause of
    half a second between two requests. *)
Fixpoint legacy_run (requests : list request) (lt : legacy_trace)
    : legacy_trace :=
  match requests with
  | [] => lt
  | r :: rest =>
      let lt1 := lt ++ request_events lt r in
      match rest with
      | [] => lt1
      | _ => legacy_run rest (lt1 ++ [SleepHalfSecond])
      end
  end.

Lemma invoke_chunk_events (text chunk_info : str) (lt : legacy_trace) :
  snd (invoke_chunk backend text source_lang target_lang chunk_info lt)
  = lt ++ request_events lt
            (LegacyPrompt text source_lang target_lang chunk_info).
Proof.
  unfold invoke_chunk, request_events.
  pose proof (translate_chunk_events
                (fun t r => backend (lt ++ map Invoker t) r)
                text source_lang target_lang chunk_info []) as E.
  cbv zeta in E.
  destruct (translate_chunk_with_ollama _ text source_lang target_lang
              chunk_info []) as [translated t].
  cbn [snd] in *. now rewrite E.
Qed.

Lemma translate_legacy_chunks_events (chunks : list str) :
  forall (n_chunks i : nat) (translated_chunks : list str)
         (lt : legacy_trace),
    n_chunks = i + List.length chunks ->
    snd (translate_legacy_chunks backend count_tokens source_lang
           target_lang n_chunks i chunks translated_chunks lt)
    = legacy_run
        (map (chunk_request n_chunks)
             (combine (seq i (List.length chunks)) chunks))
        lt.
Proof.
  induction chunks as [|chunk rest IH]; intros n_chunks i acc lt Hn.
  - reflexivity.
  - cbn [translate_legacy_chunks].
    pose proof (invoke_chunk_events chunk
                  (chunk_info_of i n_chunks (count_tokens chunk)) lt) as E1.
    destruct (invoke_chunk backend chunk source_lang target_lang _ lt)
      as [translated_chunk lt1].
    cbn [snd] in E1. subst lt1.
    cbn [List.length seq combine map legacy_run].
    unfold chunk_request at 1 2. cbn [fst snd].
    destruct rest as [|chunk2 rest'].
    + replace (i <? n_chunks - 1) with false
        by (symmetry; apply Nat.ltb_ge; simpl in Hn; lia).
      reflexivity.
    + replace (i <? n_chunks - 1) with true
        by (symmetry; apply Nat.ltb_lt; simpl in Hn; lia).
      rewrite IH by (simpl in *; lia).
      reflexivity.
Qed.

Lemma translate_with_ollama_events (text : str) (lt : legacy_trace) :
  snd (translate_with_ollama backend count_tokens findall_subtitles text
         source_lang target_lang lt)
  = legacy_run (legacy_requests text) lt.
Proof.
  unfold translate_with_ollama, legacy_requests.
  destruct (negb (nonempty text) || (List.length (strip text) <? 2));
    [reflexivity|].
  cbv zeta. destruct (Z.of_nat (count_tokens text) <=? safe_chunk_size)%Z.
  - apply invoke_chunk_events.
  - pose proof (translate_legacy_chunks_events
                  (split_srt_into_chunks count_tokens findall_subtitles text
                     safe_chunk_size)
                  (List.length
                     (split_srt_into_chunks count_tokens findall_subtitles
                        text safe_chunk_size)) 0 [] lt eq_refl) as E.
    destruct (translate_legacy_chunks _ _ _ _ _ _ _ _ _)
      as [translated_chunks lt'].
    cbn [snd] in *. exact E.
Qed.

(** Whatever the backend answers, the legacy entry point sends the
    requests of its chunks in order.  Each request is posted again
    until an attempt succeeds (status 200 and a response the cleaning
    accepts), at most three times, with pauses of 1 and 2 seconds
    between the attempts; between two chunks, and not after the last,
    it pauses half a second.  A text that is empty or, stripped,
    shorter than two characters is sent nowhere; a text within the safe
    chunk size is one request without chunk information; any other
    text is one request per chunk of the chunker, each telling its
    number, the number of chunks and its token count. *)
Theorem legacy_entry_point_requests (text : str) (lt : legacy_trace) :
  snd (translate_with_ollama backend count_tokens findall_subtitles text
         source_lang target_lang lt)
  = legacy_run (legacy_requests text) lt.
Proof. apply translate_with_ollama_events. Qed.

Hypothesis every_attempt_fails :
  forall (lt : legacy_trace) (r : request), failing (backend lt r) = true.

Lemma invoke_chunk_fails (text chunk_info : str) (lt : legacy_trace) :
  fst (invoke_chunk backend text source_lang target_lang chunk_info lt)
  = text.
Proof.
  unfold invoke_chunk.
  rewrite (translate_chunk_exhausted
             (fun t r => backend (lt ++ map Invoker t) r)
             (fun t r => every_attempt_fails (lt ++ map Invoker t) r)).
  reflexivity.
Qed.

Lemma translate_legacy_chunks_fails (chunks : list str) :
  forall (n_chunks i : nat) (translated_chunks : list str)
         (lt : legacy_trace),
    fst (translate_legacy_chunks backend count_tokens source_lang
           target_lang n_chunks i chunks translated_chunks lt)
    = translated_chunks ++ chunks.
Proof.
  induction chunks as [|chunk rest IH]; intros n_chunks i acc lt.
  - cbn [translate_legacy_chunks fst]. now rewrite app_nil_r.
  - cbn [translate_legacy_chunks].
    pose proof (invoke_chunk_fails chunk
                  (chunk_info_of i n_chunks (count_tokens chunk)) lt) as E.
    destruct (invoke_chunk backend chunk source_lang target_lang _ lt)
      as [translated_chunk lt1].
    cbn [fst] in E. subst translated_chunk.
    rewrite IH. now rewrite <- app_assoc.
Qed.

Lemma translate_with_ollama_fails (text : str) (lt : legacy_trace) :
  fst (translate_with_ollama backend count_tokens findall_subtitles text
         source_lang target_lang lt)
  = if negb (nonempty text) || (List.length (strip text) <? 2)
       || (Z.of_nat (count_tokens text) <=? safe_chunk_size)%Z
    then text
    else join paragraph
           (split_srt_into_chunks count_tokens findall_subtitles text
              safe_chunk_size).
Proof.
  unfold translate_with_ollama.
  destruct (negb (nonempty text) || (List.length (strip text) <? 2));
    [reflexivity|].
  cbv zeta. cbn [orb].
  destruct (Z.of_nat (count_tokens text) <=? safe_chunk_size)%Z.
  - apply invoke_chunk_fails.
  - pose proof (translate_legacy_chunks_fails
                  (split_srt_into_chunks count_tokens findall_subtitles text
                     safe_chunk_size)
                  (List.length
                     (split_srt_into_chunks count_tokens findall_subtitles
                        text safe_chunk_size)) 0 [] lt) as E.
    destruct (translate_legacy_chunks _ _ _ _ _ _ _ _ _)
      as [translated_chunks lt'].
    cbn [fst] in *. now rewrite E.
Qed.

End LegacyProps.

(** When every request fails, the legacy entry point returns the text
    as it is if the text went out as one chunk (or not at all), and
    otherwise the chunks of the chunker joined by empty lines: the
    stripped subtitles regrouped, which need not be the text byte for
    byte. *)
Theorem legacy_entry_point_degrades
    (backend : legacy_trace -> request -> reply) (count_tokens : str -> nat)
    (findall_subtitles : str -> list str)
    (text source_lang target_lang : str) (lt : legacy_trace) :
  (forall (lt' : legacy_trace) (r : request),
     failing (backend lt' r) = true) ->
  fst (translate_with_ollama backend count_tokens findall_subtitles text
         source_lang target_lang lt)
  = if negb (nonempty text) || (List.length (strip text) <? 2)
       || (Z.of_nat (count_tokens text) <=? safe_chunk_size)%Z
    then text
    else join paragraph
           (split_srt_into_chunks count_tokens findall_subtitles text
              safe_chunk_size).
Proof. intros H. now apply translate_with_ollama_fails. Qed.

(** [len(text) // 4], the count of [count_tokens] without its encoder. *)
Definition quarter_length (s : str) : nat := List.length s / 4.

Lemma legacy_entry_point_degrades_witness :
  fst (translate_with_ollama (fun _ _ => Answer 500 None) quarter_length
         (fun _ => []) doc_normal (lit "en") (lit "pt-br") [])
  = doc_normal.
Proof.
  apply (legacy_entry_point_degrades (fun _ _ => Answer 500 None)
           quarter_length (fun _ => []) doc_normal (lit "en") (lit "pt-br")
           []).
  intros lt r. reflexivity.
Defined.

(* ===================================================================== *)
(** * The entry point on documents without font markup                    *)
(* ===================================================================== *)

(** [a] is a contiguous part of [b]. *)
Definition part_of (a b : str) : Prop :=
  exists before after : str, b = before ++ a ++ after.

Lemma part_of_refl (a : str) : part_of a a.
Proof. exists [], []. now rewrite app_nil_r. Qed.

Lemma part_of_nil (b : str) : part_of [] b.
Proof. exists b, []. now rewrite app_nil_r. Qed.

Lemma part_of_trans (a b c : str) : part_of a b -> part_of b c -> part_of a c.
Proof.
  intros [p1 [q1 H1]] [p2 [q2 H2]].
  exists (p2 ++ p1), (q1 ++ q2). rewrite H2, H1.
  now rewrite <- !app_assoc.
Qed.

Lemma part_of_strip (s : str) : part_of (strip s) s.
Proof. destruct (strip_spec s) as [a [b [H _]]]. now exists a, b. Qed.

Lemma startswith_app (p s after : str) :
  startswith p s = true -> startswith p (s ++ after) = true.
Proof.
  revert s. induction p as [|x p IH]; intros [|y s] H; simpl in *;
    try reflexivity; try discriminate.
  apply andb_true_iff in H. destruct H as [Hx Hp].
  now rewrite Hx, (IH s Hp).
Qed.

Lemma contains_app_r (p s after : str) :
  contains p s = true -> contains p (s ++ after) = true.
Proof.
  induction s as [|c s IH]; intros H.
  - cbn [contains] in H. rewrite orb_false_r in H.
    destruct p; [|discriminate]. destruct after; reflexivity.
  - cbn [contains app] in *. apply orb_true_iff in H.
    destruct H as [H|H].
    + pose proof (startswith_app p (c :: s) after H) as H'.
      cbn [app] in H'. now rewrite H'.
    + rewrite (IH H). apply orb_true_r.
Qed.

Lemma contains_app_l (p before s : str) :
  contains p s = true -> contains p (before ++ s) = true.
Proof.
  intros H. induction before as [|c before IH]; [exact H|].
  cbn [app contains]. rewrite IH. apply orb_true_r.
Qed.

Lemma contains_part_of (p a b : str) :
  part_of a b -> contains p a = true -> contains p b = true.
Proof.
  intros [before [after ->]] H.
  now apply contains_app_l, contains_app_r.
Qed.

(** The pieces of a split are parts of the text. *)
Lemma split_go_parts (r : regex) (full : str) :
  forall (fuel : nat) (st : mstate) (cur done : str),
    full = done ++ rev cur ++ m_rest st ->
    Forall (fun b => part_of b full) (split_go r fuel st cur).
Proof.
  induction fuel as [|fuel IH]; intros st cur done Hfull.
  - cbn [split_go]. constructor; [|constructor].
    exists done, []. now rewrite app_nil_r.
  - cbn [split_go].
    assert (Hstep :
      Forall (fun b => part_of b full)
             match advance st with
             | Some (c, st') => split_go r fuel st' (c :: cur)
             | None => [rev cur]
             end).
    { unfold advance. destruct (m_rest st) as [|c t] eqn:E.
      - constructor; [|constructor].
        exists done, []. rewrite Hfull. reflexivity.
      - apply (IH _ _ done). cbn [m_rest rev].
        rewrite Hfull. now rewrite <- !app_assoc. }
    destruct (matches r st) as [|st' l] eqn:EM; [exact Hstep|].
    destruct (progress st st'); [|exact Hstep].
    destruct (matches_sound r st st') as [w [_ [Hr _]]].
    { rewrite EM. now left. }
    constructor.
    + exists done, (m_rest st). exact Hfull.
    + apply (IH _ _ (done ++ rev cur ++ w)). cbn [m_rest rev app].
      rewrite Hfull, Hr. now rewrite <- !app_assoc.
Qed.

Lemma re_split_parts (r : regex) (s : str) :
  Forall (fun b => part_of b s) (re_split r s).
Proof. unfold re_split. now apply (split_go_parts r s _ _ [] []). Qed.

(** The content the parser keeps of a block is a part of the block. *)
Lemma content_part_of_block (block : str) :
  part_of (strip (join nl (if 2 <? List.length (split nl block)
                           then skipn 2 (split nl block) else [])))
          block.
Proof.
  destruct (2 <? List.length (split nl block)).
  - eapply part_of_trans; [apply part_of_strip|].
    destruct (join_skipn_suffix (split nl block) 2) as [before H].
    rewrite join_split in H. exists before, [].
    now rewrite app_nil_r.
  - apply part_of_nil.
Qed.

Lemma parse_block_content_part (full : str) (st : parse_state) (block : str) :
  part_of block full ->
  Forall (fun e => part_of (content e) full) (snd st) ->
  Forall (fun e => part_of (content e) full) (snd (parse_block st block)).
Proof.
  intros Hb H. destruct st as [texts smap]. unfold parse_block.
  destruct (block_header (strip block)) as [[bn ts]|]; [|exact H].
  assert (Hnew : forall c ti ht ex,
            part_of c full ->
            Forall (fun e => part_of (content e) full)
                   (smap ++ [BlockInfo bn ts c ti ht ex (strip block)])).
  { intros c ti ht ex Hc. apply Forall_app. split; [exact H|].
    constructor; [exact Hc | constructor]. }
  pose proof (part_of_trans _ _ _ (content_part_of_block (strip block))
                (part_of_trans _ _ _ (part_of_strip block) Hb)) as Hc.
  destruct (strip (join nl _)) as [|x c].
  - apply Hnew, part_of_nil.
  - destruct (extract_block_texts _); [apply Hnew, Hc|].
    destruct (_ <? 2); apply Hnew, Hc.
Qed.

Lemma extract_content_part (srt_content : str) :
  Forall (fun e => part_of (content e) srt_content)
         (snd (extract_text_from_srt srt_content)).
Proof.
  unfold extract_text_from_srt.
  pose proof (re_split_parts Pat.blank_line (strip srt_content)) as Hparts.
  assert (H : Forall (fun e => part_of (content e) srt_content)
                     (snd (([], []) : parse_state))) by constructor.
  revert H. generalize (([], []) : parse_state).
  induction Hparts as [|b blocks Hb _ IH]; intros st H; cbn [fold_left];
    [exact H|].
  apply IH, parse_block_content_part; [|exact H].
  eapply part_of_trans; [exact Hb | apply part_of_strip].
Qed.

(** The block emitted for an entry when its content has no font tag:
    the block as it was, or its first two lines and then the
    translation of its fragment. *)
Definition plain_block (translations : list str) (e : block_info) : str :=
  match text_index e with
  | Some k =>
      strip (first_line (original_block e)) ++ nl
      ++ strip (second_line (original_block e)) ++ nl
      ++ nth (Z.to_nat k) translations []
  | None => original_block e
  end.

(** For every document of subtitle shape with at least one fragment
    and no [<font] in it, and whatever the backend answers, the entry
    point raises nothing and returns one block per block the parser
    kept, in order and joined by empty lines: a block without text as
    it was (stripped), a block with text as its own number line and
    timestamp line, stripped, followed by the translation the pass
    returned for its fragment.  No block with text falls back to the
    original, since the pass returns one translation per fragment. *)
Theorem entry_point_blocks (backend : trace -> request -> reply)
    (srt_content source_lang target_lang : str) (t : trace) :
  is_some (re_search Pat.srt_shape srt_content) = true ->
  fst (extract_text_from_srt srt_content) <> [] ->
  contains (lit "<font") srt_content = false ->
  fst (translate_srt_optimized backend srt_content source_lang target_lang t)
  = Returns
      (join paragraph
         (map (plain_block
                 (fst (translate_texts_with_evolutionary_config backend
                         (fst (extract_text_from_srt srt_content))
                         source_lang target_lang t)))
              (snd (extract_text_from_srt srt_content)))).
Proof.
  intros Hshape Hne Hfont.
  rewrite (translate_srt_optimized_blocks backend source_lang target_lang
             srt_content t Hshape Hne).
  do 2 f_equal. apply map_ext_in. intros e He.
  unfold translated_block, plain_block, block_body.
  pose proof (extract_content_part srt_content) as Hparts.
  rewrite Forall_forall in Hparts. specialize (Hparts e He).
  destruct (contains (lit "<font") (content e)) eqn:E; [|reflexivity].
  rewrite (contains_part_of _ _ _ Hparts E) in Hfont. discriminate.
Qed.

Lemma entry_point_blocks_witness :
  fst (translate_srt_optimized backend_pt doc_two_texts (lit "en")
         (lit "pt-br") [])
  = Returns (lit "1
00:00:01,000 --> 00:00:02,000
Ola, John!

2
00:00:03,000 --> 00:00:04,000
[explosao]").
Proof.
  apply (entry_point_blocks backend_pt doc_two_texts (lit "en") (lit "pt-br")
           []).
  - vm_compute. reflexivity.
  - vm_compute. discriminate.
  - vm_compute. reflexivity.
Defined.

(* ===================================================================== *)
(** * A text inside one font tag                                          *)
(* ===================================================================== *)

(** ** A line of text inside one font tag *)

Definition font_open_tag (attrs : str) : str := lit "<font" ++ attrs ++ lit ">".
Definition font_close_tag : str := lit "</font>".

Definition font_line (attrs text : str) : str :=
  font_open_tag attrs ++ text ++ font_close_tag.

Lemma lower_chr_lt (x : ascii) :
  ascii_eqb (lower_chr x) "<" = ascii_eqb x "<".
Proof. destruct x as [[] [] [] [] [] [] [] []]; reflexivity. Qed.

Lemma lacks_head (c0 c : ascii) (t : str) :
  lacks c0 (c :: t) = true -> ascii_eqb c c0 = false.
Proof.
  intros H. apply lacks_cons in H. destruct H as [H _].
  unfold ascii_eqb. destruct (Ascii.eqb_spec c c0); [congruence | reflexivity].
Qed.

Lemma lacks_app (c0 : ascii) (a b : str) :
  lacks c0 (a ++ b) = lacks c0 a && lacks c0 b.
Proof. unfold lacks. apply forallb_app. Qed.

Lemma lacks_Forall (c0 : ascii) (s : str) :
  lacks c0 s = true -> Forall (fun c => c <> c0) s.
Proof.
  induction s as [|c t IH]; intros H; [constructor|].
  apply lacks_cons in H. destruct H as [Hc Ht]. constructor; auto.
Qed.

(** *** The walk over the span *)

Lemma find_chr_go_first (c : ascii) (pre rest : str) (i : nat) :
  lacks c pre = true ->
  find_chr_go c (pre ++ c :: rest) i = Some (i + List.length pre).
Proof.
  revert i. induction pre as [|x pre IH]; intros i H.
  - cbn [app find_chr_go]. unfold ascii_eqb. rewrite Ascii.eqb_refl.
    f_equal. simpl. lia.
  - cbn [app find_chr_go]. rewrite (lacks_head c x pre H).
    apply lacks_cons in H. destruct H as [_ H].
    rewrite IH by exact H. f_equal. simpl. lia.
Qed.

Lemma slice_at (pre rest : str) (k : nat) :
  slice (pre ++ rest) (List.length pre) (List.length pre + k) = firstn k rest.
Proof.
  unfold slice. rewrite skipn_app, skipn_all, Nat.sub_diag. cbn [app skipn].
  f_equal. lia.
Qed.

(** One step of the walk at a character that opens no tag. *)
Lemma font_walk_char (fuel : nat) (pre : str) (x : ascii) (post : str)
    (s : str) (stack : list str) (text_content : str) :
  ascii_eqb x "<" = false ->
  font_walk (S fuel) (pre ++ x :: post) (s :: stack) text_content true
            (List.length pre)
  = font_walk fuel (pre ++ x :: post) (s :: stack) (text_content ++ [x]) true
              (List.length pre + 1).
Proof.
  intros Hx. cbn [font_walk].
  replace (List.length pre <? List.length (pre ++ x :: post)) with true
    by (symmetry; apply Nat.ltb_lt; rewrite length_app; simpl; lia).
  rewrite !slice_at. cbn [firstn lower map str_eqb lit list_ascii_of_string].
  rewrite lower_chr_lt, Hx. cbn [andb].
  reflexivity.
Qed.

Lemma font_walk_text (todo : str) :
  forall (fuel : nat) (pre post : str) (s : str) (stack : list str)
         (text_content : str),
    lacks "<" todo = true ->
    font_walk (List.length todo + fuel) (pre ++ todo ++ post) (s :: stack)
              text_content true (List.length pre)
    = font_walk fuel (pre ++ todo ++ post) (s :: stack)
                (text_content ++ todo) true
                (List.length pre + List.length todo).
Proof.
  induction todo as [|x todo IH]; intros fuel pre post s stack tc H.
  - cbn [app List.length]. now rewrite app_nil_r, Nat.add_0_r.
  - pose proof (lacks_head "<" x todo H) as Hx.
    apply lacks_cons in H. destruct H as [_ H].
    cbn [List.length app Nat.add].
    rewrite font_walk_char by exact Hx.
    replace (pre ++ x :: todo ++ post) with ((pre ++ [x]) ++ todo ++ post)
      by (now rewrite <- app_assoc).
    replace (List.length pre + 1) with (List.length (pre ++ [x]))
      by exact (length_app pre [x]).
    rewrite IH by exact H.
    pose proof (length_app pre [x]) as L. simpl in L.
    f_equal; [now rewrite <- app_assoc | lia].
Qed.

Lemma font_walk_close (fuel : nat) (pre post text_content : str)
    (in_text : bool) :
  font_walk (S fuel) (pre ++ font_close_tag ++ post) [lit "font"]
            text_content in_text (List.length pre)
  = text_content.
Proof.
  cbn [font_walk].
  replace (List.length pre <? List.length (pre ++ font_close_tag ++ post))
    with true
    by (symmetry; apply Nat.ltb_lt; rewrite length_app; simpl; lia).
  rewrite !slice_at.
  change (firstn 5 (font_close_tag ++ post)) with (lit "</fon").
  change (firstn 7 (font_close_tag ++ post)) with (lit "</font>").
  change (str_eqb (lower (lit "</fon")) (lit "<font")) with false.
  change (str_eqb (lower (lit "</font>")) (lit "</font>")) with true.
  change (str_eqb (lit "font") (lit "font")) with true.
  reflexivity.
Qed.

Lemma font_walk_open (fuel : nat) (attrs post : str) :
  lacks ">" attrs = true ->
  font_walk (S fuel) (font_open_tag attrs ++ post) [] [] false 0
  = font_walk fuel (font_open_tag attrs ++ post) [lit "font"] [] true
              (List.length (font_open_tag attrs)).
Proof.
  intros Ha. cbn [font_walk].
  replace (0 <? List.length (font_open_tag attrs ++ post)) with true
    by (symmetry; apply Nat.ltb_lt; unfold font_open_tag;
        rewrite !length_app; simpl; lia).
  change (slice (font_open_tag attrs ++ post) 0 (0 + 5)) with (lit "<font").
  change (str_eqb (lower (lit "<font")) (lit "<font")) with true.
  cbv iota.
  assert (Hfind : find_chr ">" (font_open_tag attrs ++ post) 0
                  = Some (5 + List.length attrs)).
  { unfold find_chr. cbn [skipn]. unfold font_open_tag.
    replace ((lit "<font" ++ attrs ++ lit ">") ++ post)
      with ((lit "<font" ++ attrs) ++ ">"%char :: post)
      by (rewrite <- !app_assoc; reflexivity).
    rewrite find_chr_go_first.
    - rewrite length_app. reflexivity.
    - rewrite lacks_app, Ha. reflexivity. }
  rewrite Hfind. f_equal.
  unfold font_open_tag. rewrite !length_app. simpl. lia.
Qed.

Lemma font_walk_line (attrs text after : str) :
  lacks ">" attrs = true -> lacks "<" text = true ->
  font_walk (List.length (font_line attrs text ++ after))
            (font_line attrs text ++ after) [] [] false 0
  = text.
Proof.
  intros Ha Ht.
  assert (E : font_line attrs text ++ after
              = font_open_tag attrs ++ text ++ font_close_tag ++ after)
    by (unfold font_line; now rewrite <- !app_assoc).
  rewrite E.
  assert (Hlen : List.length
                   (font_open_tag attrs ++ text ++ font_close_tag ++ after)
                 = S (List.length text
                      + S (11 + List.length attrs + List.length after))).
  { unfold font_open_tag, font_close_tag.
    rewrite !length_app. simpl. lia. }
  rewrite Hlen.
  rewrite font_walk_open by exact Ha.
  rewrite (font_walk_text text
             (S (11 + List.length attrs + List.length after))
             (font_open_tag attrs) (font_close_tag ++ after) (lit "font")
             [] [] Ht).
  cbn [app].
  replace (font_open_tag attrs ++ text ++ font_close_tag ++ after)
    with ((font_open_tag attrs ++ text) ++ font_close_tag ++ after)
    by (now rewrite <- app_assoc).
  replace (List.length (font_open_tag attrs) + List.length text)
    with (List.length (font_open_tag attrs ++ text))
    by (exact (length_app (font_open_tag attrs) text)).
  apply font_walk_close.
Qed.

(** *** The opening tags found in the line *)

Lemma matches_cls_hit (p : ascii -> bool) (st : mstate) (c : ascii) (t : str) :
  m_rest st = c :: t -> p c = true ->
  matches (Cls p) st = [consume st [c]].
Proof.
  intros H Hp. rewrite (matches_cls p st c t H), Hp.
  cbn [consume]. now rewrite H.
Qed.

Lemma ichr_self (c : ascii) :
  ascii_eqb (lower_chr c) (lower_chr c) = true.
Proof. unfold ascii_eqb. apply Ascii.eqb_refl. Qed.

(** A word written as in the pattern is matched by its
    case-insensitive form, in one way. *)
Lemma matches_ilit (w : str) :
  w <> [] ->
  forall (st : mstate) (rest : str),
    m_rest st = w ++ rest ->
    matches (Seq (map ichr w)) st = [consume st w].
Proof.
  induction w as [|c w IH]; intros Hne st rest H; [congruence|].
  destruct w as [|d w].
  - cbn [map Seq]. unfold ichr.
    apply (matches_cls_hit _ st c rest H). apply ichr_self.
  - change (Seq (map ichr (c :: d :: w)))
      with (Cat (ichr c) (Seq (map ichr (d :: w)))).
    assert (H0 : matches (ichr c) st = [consume st [c]])
      by (unfold ichr; apply (matches_cls_hit _ st c _ H), ichr_self).
    rewrite matches_cat, H0.
    cbn [flat_map]. rewrite app_nil_r.
    rewrite (IH ltac:(discriminate) (consume st [c]) rest).
    + reflexivity.
    + apply (consume_rest st [c]). exact H.
Qed.

Lemma matches_ilit_fails (c0 : ascii) (w : str) (st : mstate) :
  match m_rest st with
  | [] => True
  | x :: _ => ascii_eqb (lower_chr x) (lower_chr c0) = false
  end ->
  matches (Seq (map ichr (c0 :: w))) st = [].
Proof.
  intros H.
  assert (H0 : matches (ichr c0) st = []).
  { unfold ichr. destruct (m_rest st) as [|x t] eqn:E.
    - now apply matches_cls_nil.
    - rewrite (matches_cls _ st x t E), H. reflexivity. }
  destruct w as [|d w].
  - exact H0.
  - change (Seq (map ichr (c0 :: d :: w)))
      with (Cat (ichr c0) (Seq (map ichr (d :: w)))).
    rewrite matches_cat, H0. reflexivity.
Qed.

Lemma not_chr_Forall (c0 : ascii) (s : str) :
  lacks c0 s = true ->
  Forall (fun c => negb (ascii_eqb c0 c) = true) s.
Proof.
  unfold lacks. intros H. apply Forall_forall. intros c Hc.
  rewrite forallb_forall in H. now apply H.
Qed.

(** At an opening tag, the first match of [<font[^>]*>] is the tag. *)
Lemma matches_font_open_at (st : mstate) (attrs rest : str) :
  lacks ">" attrs = true ->
  m_rest st = font_open_tag attrs ++ rest ->
  exists l : list mstate,
    matches Pat.font_open st = consume st (font_open_tag attrs) :: l.
Proof.
  intros Ha H.
  change Pat.font_open
    with (Cat (istr "<font") (Cat (Star true (not_chr ">")) (chr_ ">"))).
  rewrite matches_cat. unfold istr.
  assert (H1 : m_rest st = lit "<font" ++ (attrs ++ lit ">" ++ rest)).
  { rewrite H. unfold font_open_tag. now rewrite <- !app_assoc. }
  rewrite (matches_ilit (lit "<font") ltac:(discriminate) st _ H1).
  cbn [flat_map]. rewrite app_nil_r.
  set (s5 := consume st (lit "<font")).
  assert (H2 : m_rest s5 = attrs ++ ">"%char :: rest)
    by (apply (consume_rest st (lit "<font")); exact H1).
  rewrite matches_cat, matches_star. unfold not_chr.
  destruct (star_cls_greedy_first (fun x => negb (ascii_eqb ">" x))
              (">"%char :: rest) eq_refl attrs s5 (List.length (m_rest s5))
              H2 (not_chr_Forall ">" attrs Ha)) as [l Hl].
  { rewrite H2, length_app. lia. }
  rewrite Hl.
  assert (H3 : m_rest (consume s5 attrs) = ">"%char :: rest)
    by (apply consume_rest; exact H2).
  erewrite flat_map_first
    by (unfold chr_; apply (matches_cls_hit _ _ ">"%char rest H3); reflexivity).
  eexists. f_equal.
  unfold font_open_tag, s5. now rewrite <- !consume_app.
Qed.

(** No opening tag starts where the text has no [<], or has [</]. *)
Fixpoint no_font_start (s : str) : bool :=
  match s with
  | [] => true
  | c :: t =>
      (negb (ascii_eqb c "<")
       || match t with
          | d :: _ => negb (ascii_eqb (lower_chr d) "f")
          | [] => true
          end)
      && no_font_start t
  end.

Lemma matches_font_open_none (st : mstate) :
  no_font_start (m_rest st) = true -> matches Pat.font_open st = [].
Proof.
  intros H.
  change Pat.font_open
    with (Cat (istr "<font") (Cat (Star true (not_chr ">")) (chr_ ">"))).
  rewrite matches_cat.
  assert (H0 : matches (istr "<font") st = []); [|now rewrite H0].
  unfold istr.
  change (lit "<font") with ("<"%char :: lit "font").
  destruct (m_rest st) as [|c t] eqn:E.
  - apply matches_ilit_fails. now rewrite E.
  - cbn [no_font_start] in H. apply andb_true_iff in H. destruct H as [H _].
    destruct (ascii_eqb c "<") eqn:Ec.
    + cbn [negb orb] in H.
      apply Ascii.eqb_eq in Ec. subst c.
      change (Seq (map ichr ("<"%char :: lit "font")))
        with (Cat (ichr "<") (Seq (map ichr (lit "font")))).
      assert (H0 : matches (ichr "<") st = [consume st ["<"%char]])
        by (unfold ichr; apply (matches_cls_hit _ st "<"%char t E); reflexivity).
      rewrite matches_cat, H0.
      cbn [flat_map]. rewrite app_nil_r.
      change (lit "font") with ("f"%char :: lit "ont").
      apply matches_ilit_fails.
      rewrite (consume_rest st ["<"%char] t E).
      destruct t as [|d t]; [exact I|].
      now apply negb_true_iff in H.
    + apply matches_ilit_fails. rewrite E.
      now rewrite lower_chr_lt.
Qed.

Lemma matches_font_open_head (st : mstate) :
  match m_rest st with
  | [] => True
  | c :: _ => ascii_eqb c "<" = false
  end ->
  matches Pat.font_open st = [].
Proof.
  intros H.
  change Pat.font_open
    with (Cat (istr "<font") (Cat (Star true (not_chr ">")) (chr_ ">"))).
  rewrite matches_cat.
  assert (H0 : matches (istr "<font") st = []); [|now rewrite H0].
  unfold istr. change (lit "<font") with ("<"%char :: lit "font").
  apply matches_ilit_fails.
  destruct (m_rest st) as [|c t]; [exact I|].
  now rewrite lower_chr_lt.
Qed.

Lemma finditer_go_none (r : regex) (P : str -> Prop) :
  (forall st : mstate, P (m_rest st) -> matches r st = []) ->
  (forall (c : ascii) (t : str), P (c :: t) -> P t) ->
  forall (fuel : nat) (st : mstate),
    P (m_rest st) -> finditer_go r fuel st = [].
Proof.
  intros Hnone Htl. induction fuel as [|fuel IH]; intros st HP.
  - reflexivity.
  - cbn [finditer_go]. rewrite (Hnone st HP).
    unfold advance. destruct (m_rest st) as [|c t] eqn:E; [reflexivity|].
    apply IH. cbn [m_rest]. apply (Htl c t). exact HP.
Qed.

(** A search passes over text without [<] when the pattern needs one
    to start. *)
Lemma finditer_go_skip (r : regex) (todo : str) :
  (forall st : mstate,
     match m_rest st with
     | [] => True
     | c :: _ => ascii_eqb c "<" = false
     end -> matches r st = []) ->
  forall (fuel : nat) (st : mstate) (rest : str),
    lacks "<" todo = true ->
    m_rest st = todo ++ rest ->
    finditer_go r (List.length todo + fuel) st
    = finditer_go r fuel (consume st todo).
Proof.
  intros Hnone.
  induction todo as [|c t IH]; intros fuel st rest Hl H; [reflexivity|].
  pose proof (lacks_head "<" c t Hl) as Hc.
  apply lacks_cons in Hl. destruct Hl as [_ Hl].
  cbn [List.length Nat.add finditer_go].
  rewrite (Hnone st) by (now rewrite H).
  unfold advance. rewrite H. cbn [app].
  rewrite (IH fuel (MState (S (m_pos st)) (Some c) (t ++ rest) (m_caps st))
             rest Hl eq_refl).
  cbn [consume]. now rewrite H.
Qed.

Lemma no_font_start_lacks (s : str) :
  lacks "<" s = true -> no_font_start s = true.
Proof.
  induction s as [|c t IH]; intros H; [reflexivity|].
  pose proof (lacks_head "<" c t H) as Hc.
  apply lacks_cons in H. destruct H as [_ H].
  cbn [no_font_start]. now rewrite Hc, (IH H).
Qed.

Lemma no_font_start_text (text after : str) :
  lacks "<" text = true -> lacks "<" after = true ->
  no_font_start (text ++ font_close_tag ++ after) = true.
Proof.
  intros Ht Hf. induction text as [|c t IH].
  - change ([] ++ font_close_tag ++ after)
      with ("<"%char :: "/"%char :: "f"%char :: "o"%char :: "n"%char
            :: "t"%char :: ">"%char :: after).
    cbn [no_font_start]. rewrite (no_font_start_lacks after Hf).
    reflexivity.
  - pose proof (lacks_head "<" c t Ht) as Hc.
    apply lacks_cons in Ht. destruct Ht as [_ Ht].
    cbn [app no_font_start]. rewrite Hc, (IH Ht). reflexivity.
Qed.

Lemma reset_caps (st : mstate) :
  m_caps st = [] ->
  MState (m_pos st) (m_prev st) (m_rest st) [] = st.
Proof. destruct st; simpl; intros ->; reflexivity. Qed.

(** In a line with one font tag and no other [<], the search for
    opening tags finds the tag and nothing else. *)
Lemma finditer_go_font_line (st0 : mstate) (before attrs text after : str)
    (fuel : nat) :
  lacks "<" before = true -> lacks ">" attrs = true ->
  lacks "<" text = true -> lacks "<" after = true ->
  m_rest st0 = before ++ font_line attrs text ++ after ->
  map m_start
      (finditer_go Pat.font_open (List.length before + S fuel) st0)
  = [m_pos st0 + List.length before].
Proof.
  intros Hb Ha Ht Hf H0.
  rewrite (finditer_go_skip Pat.font_open before matches_font_open_head
             (S fuel) st0 (font_line attrs text ++ after) Hb H0).
  remember (consume st0 before) as sb eqn:Esb.
  assert (Hr : m_rest sb
               = font_open_tag attrs ++ text ++ font_close_tag ++ after).
  { subst sb.
    rewrite (consume_rest st0 before (font_line attrs text ++ after) H0).
    unfold font_line. now rewrite <- !app_assoc. }
  assert (Hp : m_pos sb = m_pos st0 + List.length before)
    by (subst sb; apply consume_pos).
  clear Esb. cbn [finditer_go].
  destruct (matches_font_open_at sb attrs (text ++ font_close_tag ++ after)
              Ha Hr) as [l Hl].
  rewrite Hl.
  replace (progress _ _) with true
    by (symmetry; unfold progress; rewrite consume_pos; apply Nat.ltb_lt;
        unfold font_open_tag; rewrite !length_app; simpl; lia).
  cbn [map m_start]. rewrite Hp. f_equal.
  rewrite (finditer_go_none Pat.font_open
             (fun s => no_font_start s = true)); [reflexivity | | |].
  - intros st. apply matches_font_open_none.
  - intros c t H. cbn [no_font_start] in H.
    apply andb_true_iff in H. tauto.
  - cbn [m_rest].
    rewrite (consume_rest sb (font_open_tag attrs)
               (text ++ font_close_tag ++ after) Hr).
    now apply no_font_start_text.
Qed.

Lemma finditer_font_line (before attrs text after : str) :
  lacks "<" before = true -> lacks ">" attrs = true ->
  lacks "<" text = true -> lacks "<" after = true ->
  map m_start
      (re_finditer Pat.font_open (before ++ font_line attrs text ++ after))
  = [List.length before].
Proof.
  intros Hb Ha Ht Hf. unfold re_finditer.
  replace (S (List.length (before ++ font_line attrs text ++ after)))
    with (List.length before
          + S (List.length (font_line attrs text ++ after)))
    by (rewrite (length_app before); lia).
  exact (finditer_go_font_line
           (at_start (before ++ font_line attrs text ++ after))
           before attrs text after _ Hb Ha Ht Hf eq_refl).
Qed.

Lemma plain_text_fields (t : str) :
  plain_text t = true ->
  2 <= List.length t /\ tight t = true /\ lacks "<" t = true
  /\ lacks "{" t = true /\ single_spaced t = true.
Proof.
  unfold plain_text. rewrite !andb_true_iff, Nat.leb_le. tauto.
Qed.

Lemma contains_font_line (before attrs text after : str) :
  contains (lit "<font") (before ++ font_line attrs text ++ after) = true.
Proof. apply contains_app_l. reflexivity. Qed.

Lemma contains_font_tag (attrs text : str) :
  contains (lit "<font") (font_line attrs text) = true.
Proof. reflexivity. Qed.

(** A line with one font tag around a plain text, and no other [<],
    gives the text between the tags as its only fragment. *)
Lemma extract_block_texts_in_font (before attrs text after : str) :
  lacks "<" before = true -> lacks ">" attrs = true ->
  plain_text text = true -> lacks "<" after = true ->
  extract_block_texts (before ++ font_line attrs text ++ after) = [text].
Proof.
  intros Hb Ha Hp Hf.
  destruct (plain_text_fields text Hp) as (Hlen & Htight & Hlt & Hbr & Hss).
  unfold extract_block_texts.
  rewrite contains_font_line,
    (finditer_font_line before attrs text after Hb Ha Hlt Hf).
  cbn [fold_left]. unfold font_step.
  rewrite skipn_app, skipn_all, Nat.sub_diag. cbn [skipn app].
  rewrite (font_walk_line attrs text after Ha Hlt).
  rewrite (re_sub_spaces_id text Hss), (strip_tight text Htight).
  unfold Pat.braces.
  change (Seq [chr_ "{"; Star true (not_chr "}"); chr_ "}"])
    with (Cat (chr_ "{") (Cat (Star true (not_chr "}")) (chr_ "}"))).
  rewrite (re_sub_lacks "{" _ [] text Hbr), (strip_tight text Htight).
  destruct text as [|c t]; [simpl in Hlen; lia|].
  reflexivity.
Qed.

Lemma extract_block_texts_font_line (attrs text : str) :
  lacks ">" attrs = true -> plain_text text = true ->
  extract_block_texts (font_line attrs text) = [text].
Proof.
  intros Ha Hp.
  pose proof (extract_block_texts_in_font [] attrs text [] eq_refl Ha Hp
                eq_refl) as H.
  cbn [app] in H. now rewrite app_nil_r in H.
Qed.

(** *** The translation put back between the tags *)

(** At a tag, the first match of [<[^>]+>] is the tag. *)
Lemma matches_any_tag_at (st : mstate) (c : ascii) (w rest : str) :
  ascii_eqb ">" c = false -> lacks ">" w = true ->
  m_rest st = "<"%char :: c :: w ++ ">"%char :: rest ->
  exists l : list mstate,
    matches Pat.any_tag st = consume st ("<"%char :: c :: w ++ [">"%char]) :: l.
Proof.
  intros Hc Hw H.
  change Pat.any_tag
    with (Cat (chr_ "<") (Cat (Plus true (not_chr ">")) (chr_ ">"))).
  assert (H0 : matches (chr_ "<") st = [consume st ["<"%char]])
    by (unfold chr_; apply (matches_cls_hit _ st "<"%char _ H); reflexivity).
  rewrite matches_cat, H0.
  cbn [flat_map]. rewrite app_nil_r, matches_cat.
  set (s1 := consume st ["<"%char]).
  assert (H1 : m_rest s1 = c :: w ++ ">"%char :: rest)
    by (apply (consume_rest st ["<"%char]); exact H).
  unfold not_chr.
  destruct (matches_plus_cls_first (fun x => negb (ascii_eqb ">" x)) s1 c w
              (">"%char :: rest) H1) as [l Hl].
  { now rewrite Hc. }
  { now apply not_chr_Forall. }
  { reflexivity. }
  rewrite Hl.
  assert (H2 : m_rest (consume s1 (c :: w)) = ">"%char :: rest)
    by (apply consume_rest; exact H1).
  erewrite flat_map_first
    by (unfold chr_; apply (matches_cls_hit _ _ ">"%char rest H2); reflexivity).
  eexists. f_equal. unfold s1.
  rewrite <- !consume_app. reflexivity.
Qed.

(** Text without the first character of a pattern is copied. *)
Lemma sub_go_copy (c0 : ascii) (r : regex) (repl : rmatch -> str)
    (todo : str) :
  forall (fuel : nat) (st : mstate) (rest : str),
    lacks c0 todo = true ->
    m_rest st = todo ++ rest ->
    sub_go (Cat (chr_ c0) r) repl None (List.length todo + fuel) st
    = todo ++ sub_go (Cat (chr_ c0) r) repl None fuel (consume st todo).
Proof.
  induction todo as [|c t IH]; intros fuel st rest Hl H.
  - reflexivity.
  - destruct (lacks_cons c0 c t Hl) as [Hc Ht].
    cbn [List.length Nat.add sub_go].
    rewrite (matches_first_fails c0 r st) by (now rewrite H).
    unfold advance. rewrite H. cbn [app]. f_equal.
    rewrite (IH fuel (MState (S (m_pos st)) (Some c) (t ++ rest) (m_caps st))
               rest Ht eq_refl).
    cbn [consume]. now rewrite H.
Qed.

Lemma sub_go_at_end (c0 : ascii) (r : regex) (repl : rmatch -> str)
    (budget : option nat) (fuel : nat) (st : mstate) :
  m_rest st = [] -> sub_go (Cat (chr_ c0) r) repl budget fuel st = [].
Proof.
  intros H.
  rewrite (sub_go_no_match (Cat (chr_ c0) r) repl budget (fun s => s = [])).
  - exact H.
  - intros st' E. apply matches_first_fails. now rewrite E.
  - discriminate.
  - exact H.
Qed.

(** One step of a substitution at a match. *)
Lemma sub_go_hit (r : regex) (repl : rmatch -> str) (budget : option nat)
    (fuel : nat) (st st' : mstate) (l : list mstate) :
  matches r st = st' :: l ->
  m_pos st < m_pos st' ->
  budget <> Some 0 ->
  sub_go r repl budget (S fuel) st
  = repl (RMatch (m_pos st) (m_pos st') (m_caps st'))
    ++ sub_go r repl (option_map pred budget) fuel
         (MState (m_pos st') (m_prev st') (m_rest st') []).
Proof.
  intros Hm Hp Hb. cbn [sub_go]. rewrite Hm.
  replace (progress st st') with true
    by (symmetry; unfold progress; now apply Nat.ltb_lt).
  destruct budget as [[|n]|]; [congruence | reflexivity | reflexivity].
Qed.

(** Without its tags, the line is its text. *)
Lemma sub_go_any_tag_font_line (attrs text : str) (fuel : nat) (st0 : mstate) :
  lacks ">" attrs = true -> lacks "<" text = true ->
  m_rest st0 = font_line attrs text ->
  m_caps st0 = [] ->
  sub_go Pat.any_tag (fun _ => []) None (S (List.length text + S fuel)) st0
  = text.
Proof.
  intros Ha Ht H0 Hcaps.
  assert (Hopen : font_open_tag attrs
                  = "<"%char :: "f"%char :: (lit "ont" ++ attrs) ++ [">"%char])
    by (unfold font_open_tag; now rewrite <- app_assoc).
  destruct (matches_any_tag_at st0 "f" (lit "ont" ++ attrs)
              (text ++ font_close_tag)) as [l Hl].
  { reflexivity. }
  { rewrite lacks_app, Ha. reflexivity. }
  { rewrite H0. unfold font_line.
    rewrite Hopen. cbn [app]. now rewrite <- !app_assoc. }
  rewrite <- Hopen in Hl.
  rewrite (sub_go_hit _ _ None _ st0 _ l Hl);
    [| rewrite consume_pos; unfold font_open_tag; rewrite !length_app;
       simpl; lia
     | discriminate].
  cbn [app option_map].
  remember (consume st0 (font_open_tag attrs)) as s1 eqn:E1.
  assert (H1 : m_rest s1 = text ++ font_close_tag)
    by (subst s1; apply (consume_rest st0 (font_open_tag attrs)); exact H0).
  rewrite (reset_caps s1) by (subst s1; now rewrite consume_caps).
  clear E1.
  unfold Pat.any_tag at 1.
  change (Seq [chr_ "<"; Plus true (not_chr ">"); chr_ ">"])
    with (Cat (chr_ "<") (Cat (Plus true (not_chr ">")) (chr_ ">"))).
  rewrite (sub_go_copy "<" _ _ text _ s1 font_close_tag Ht H1).
  rewrite <- (app_nil_r text) at 3. f_equal.
  remember (consume s1 text) as s2 eqn:E2.
  assert (H2 : m_rest s2 = font_close_tag ++ [])
    by (subst s2; apply (consume_rest s1 text); now rewrite app_nil_r).
  clear E2.
  destruct (matches_any_tag_at s2 "/" (lit "font") []) as [l2 Hl2];
    [reflexivity | reflexivity | exact H2 |].
  change (Cat (chr_ "<") (Cat (Plus true (not_chr ">")) (chr_ ">")))
    with Pat.any_tag.
  rewrite (sub_go_hit _ _ None _ s2 _ l2 Hl2);
    [| rewrite consume_pos; simpl; lia | discriminate].
  cbn [app option_map].
  unfold Pat.any_tag at 1.
  change (Seq [chr_ "<"; Plus true (not_chr ">"); chr_ ">"])
    with (Cat (chr_ "<") (Cat (Plus true (not_chr ">")) (chr_ ">"))).
  apply sub_go_at_end. cbn [m_rest].
  apply (consume_rest s2 _ []). exact H2.
Qed.

Lemma re_sub_any_tag_font_line (attrs text : str) :
  lacks ">" attrs = true -> lacks "<" text = true ->
  re_sub Pat.any_tag [] (font_line attrs text) = text.
Proof.
  intros Ha Ht. unfold re_sub, re_sub_fn.
  replace (List.length (font_line attrs text))
    with (List.length text + S (12 + List.length attrs))
    by (unfold font_line, font_open_tag, font_close_tag;
        rewrite !length_app; simpl; lia).
  exact (sub_go_any_tag_font_line attrs text _ (at_start (font_line attrs text))
           Ha Ht eq_refl eq_refl).
Qed.

Lemma contains_b_font_line (before attrs text after : str) :
  lacks "<" before = true -> lacks "<" attrs = true ->
  lacks "<" text = true -> lacks "<" after = true ->
  contains (lit "<b>") (before ++ font_line attrs text ++ after) = false.
Proof.
  intros Hb Ha Ht Hf.
  assert (E : font_line attrs text ++ after
              = "<"%char :: (lit "font" ++ attrs ++ lit ">" ++ text)
                            ++ "<"%char :: lit "/font>" ++ after).
  { unfold font_line, font_open_tag. rewrite <- !app_assoc. reflexivity. }
  rewrite E. change (lit "<b>") with ("<"%char :: lit "b>").
  rewrite (contains_after "<" (lit "b>") before) by (now apply lacks_Forall).
  cbn [contains].
  replace (startswith _ _) with false by reflexivity.
  cbn [orb].
  rewrite (contains_after "<" (lit "b>")
             (lit "font" ++ attrs ++ lit ">" ++ text))
    by (apply lacks_Forall; rewrite !lacks_app, Ha, Ht; reflexivity).
  cbn [contains].
  replace (startswith _ _) with false by reflexivity.
  cbn [orb].
  rewrite (contains_after "<" (lit "b>") (lit "/font>"))
    by (repeat constructor; discriminate).
  now apply contains_lacks.
Qed.

(** The iterations of a lazy star over a class, shortest first: what
    follows the star is tried after each, and the first success is at
    the first place where it succeeds. *)
Lemma star_lazy_first {B : Type} (p : ascii -> bool) (K : mstate -> list B)
    (rest : str) :
  forall (w : str) (st : mstate) (fuel : nat),
    m_rest st = w ++ rest ->
    Forall (fun c => p c = true) w ->
    List.length w <= fuel ->
    (forall w1 w2 : str, w = w1 ++ w2 -> w2 <> [] -> K (consume st w1) = []) ->
    exists l : list B,
      flat_map K (star_iter (matches (Cls p)) false fuel st)
      = K (consume st w) ++ l.
Proof.
  induction w as [|c w IH]; intros st fuel Hst Hall Hfuel HK.
  - cbn [consume]. destruct fuel as [|fuel]; cbn [star_iter flat_map].
    + now exists [].
    + eexists. reflexivity.
  - destruct fuel as [|fuel]; [simpl in Hfuel; lia|].
    inversion Hall as [|? ? Hc Hw]; subst.
    cbn [star_iter].
    rewrite (matches_cls_hit p st c (w ++ rest) Hst Hc).
    cbn [filter].
    replace (progress st _) with true
      by (symmetry; unfold progress; rewrite consume_pos; apply Nat.ltb_lt;
          simpl; lia).
    cbn [flat_map]. rewrite app_nil_r.
    assert (H0 : K st = [])
      by (apply (HK [] (c :: w)); [reflexivity | discriminate]).
    rewrite H0. cbn [app].
    destruct (IH (consume st [c]) fuel) as [l Hl].
    + apply (consume_rest st [c]). exact Hst.
    + exact Hw.
    + simpl in Hfuel. lia.
    + intros w1 w2 E Hne. rewrite <- consume_app.
      apply (HK (c :: w1) w2); [now rewrite E | exact Hne].
    + exists l. rewrite Hl. now rewrite <- consume_app.
Qed.

(** The first match of [(<font[^>]*>)(.*?)(</font>)] on the line: the
    three groups are the opening tag, the text and the closing tag. *)
Lemma matches_simple_font_line (st0 : mstate) (attrs text after : str) :
  lacks ">" attrs = true -> lacks "<" text = true ->
  m_rest st0 = font_line attrs text ++ after ->
  m_caps st0 = [] ->
  exists (y : mstate) (l : list mstate),
    matches PatR.simple_font_pattern st0 = y :: l
    /\ m_pos y = m_pos st0 + List.length (font_line attrs text)
    /\ m_rest y = after
    /\ m_caps y
       = [(3, (m_pos st0 + List.length (font_open_tag attrs)
               + List.length text,
               m_pos st0 + List.length (font_open_tag attrs)
               + List.length text + 7));
          (2, (m_pos st0 + List.length (font_open_tag attrs),
               m_pos st0 + List.length (font_open_tag attrs)
               + List.length text));
          (1, (m_pos st0, m_pos st0 + List.length (font_open_tag attrs)))].
Proof.
  intros Ha Ht H0 Hcaps.
  assert (H0' : m_rest st0
                = font_open_tag attrs ++ text ++ font_close_tag ++ after)
    by (rewrite H0; unfold font_line; now rewrite <- !app_assoc).
  change PatR.simple_font_pattern
    with (Cat (Grp 1 Pat.font_open)
              (Cat (Grp 2 (Star false any)) (Grp 3 (istr "</font>")))).
  rewrite matches_cat, matches_grp.
  destruct (matches_font_open_at st0 attrs (text ++ font_close_tag ++ after)
              Ha H0') as [l0 Hl0].
  rewrite Hl0. cbn [map flat_map].
  remember (add_cap 1 st0 (consume st0 (font_open_tag attrs))) as x1 eqn:E1.
  assert (H1 : m_rest x1 = text ++ font_close_tag ++ after).
  { subst x1. cbn [add_cap m_rest].
    apply (consume_rest st0 (font_open_tag attrs)). exact H0'. }
  assert (P1 : m_pos x1 = m_pos st0 + List.length (font_open_tag attrs))
    by (subst x1; cbn [add_cap m_pos]; apply consume_pos).
  assert (C1 : m_caps x1
               = [(1, (m_pos st0,
                       m_pos st0 + List.length (font_open_tag attrs)))]).
  { subst x1. cbn [add_cap m_caps]. now rewrite consume_caps, Hcaps, consume_pos. }
  clear E1 Hl0.
  rewrite matches_cat, matches_grp, matches_star, flat_map_map. unfold any.
  destruct (star_lazy_first (fun _ => true)
              (fun z => matches (Grp 3 (istr "</font>")) (add_cap 2 x1 z))
              (font_close_tag ++ after) text x1 (List.length (m_rest x1)) H1)
    as [l1 Hl1].
  { apply Forall_forall. reflexivity. }
  { rewrite H1, length_app. lia. }
  { intros w1 w2 E Hne. rewrite matches_grp.
    unfold istr. change (lit "</font>") with ("<"%char :: lit "/font>").
    rewrite matches_ilit_fails; [reflexivity|].
    cbn [add_cap m_rest].
    rewrite (consume_rest x1 w1 (w2 ++ font_close_tag ++ after))
      by (rewrite H1, E; now rewrite <- app_assoc).
    destruct w2 as [|c w2]; [congruence|].
    cbn [app]. change (lower_chr "<") with "<"%char. rewrite lower_chr_lt.
    rewrite E, lacks_app in Ht. apply andb_true_iff in Ht.
    destruct Ht as [_ Ht]. now apply (lacks_head "<" c w2). }
  rewrite Hl1. clear Hl1.
  remember (add_cap 2 x1 (consume x1 text)) as z2 eqn:E2.
  assert (H2 : m_rest z2 = lit "</font>" ++ after).
  { subst z2. cbn [add_cap m_rest].
    apply (consume_rest x1 text). exact H1. }
  assert (P2 : m_pos z2 = m_pos x1 + List.length text)
    by (subst z2; cbn [add_cap m_pos]; apply consume_pos).
  assert (C2 : m_caps z2
               = (2, (m_pos x1, m_pos x1 + List.length text)) :: m_caps x1).
  { subst z2. cbn [add_cap m_caps]. now rewrite consume_caps, consume_pos. }
  clear E2.
  rewrite matches_grp. unfold istr.
  rewrite (matches_ilit (lit "</font>") ltac:(discriminate) z2 after H2).
  cbn [map app].
  eexists. eexists. split; [reflexivity|].
  cbn [add_cap m_pos m_rest m_caps].
  rewrite consume_pos, consume_caps, C2, C1, P2, P1.
  split; [|split].
  - unfold font_line. rewrite !length_app. simpl. lia.
  - apply (consume_rest z2 (lit "</font>") after). exact H2.
  - reflexivity.
Qed.

Lemma sub_go_spent (r : regex) (repl : rmatch -> str) (fuel : nat)
    (st : mstate) :
  sub_go r repl (Some 0) fuel st = m_rest st.
Proof. destruct fuel; reflexivity. Qed.


Lemma slice_part (a w c : str) :
  slice (a ++ w ++ c) (List.length a) (List.length a + List.length w) = w.
Proof.
  unfold slice.
  replace (List.length a + List.length w - List.length a)
    with (List.length w) by lia.
  apply slice_middle.
Qed.

(** A substitution passes over text without [<] when the pattern needs
    one to start. *)
Lemma sub_go_pass (r : regex) (repl : rmatch -> str) (budget : option nat)
    (todo : str) :
  (forall st : mstate,
     match m_rest st with
     | [] => True
     | c :: _ => ascii_eqb c "<" = false
     end -> matches r st = []) ->
  budget <> Some 0 ->
  forall (fuel : nat) (st : mstate) (rest : str),
    lacks "<" todo = true ->
    m_rest st = todo ++ rest ->
    sub_go r repl budget (List.length todo + fuel) st
    = todo ++ sub_go r repl budget fuel (consume st todo).
Proof.
  intros Hnone Hb.
  induction todo as [|c t IH]; intros fuel st rest Hl H; [reflexivity|].
  pose proof (lacks_head "<" c t Hl) as Hc.
  apply lacks_cons in Hl. destruct Hl as [_ Hl].
  cbn [List.length Nat.add sub_go].
  rewrite (Hnone st) by (now rewrite H).
  unfold advance. rewrite H. cbn [app].
  rewrite (IH fuel (MState (S (m_pos st)) (Some c) (t ++ rest) (m_caps st))
             rest Hl eq_refl).
  cbn [consume]. rewrite H. cbn [tl].
  destruct budget as [[|n]|]; [congruence | reflexivity | reflexivity].
Qed.

Lemma matches_simple_font_head (st : mstate) :
  match m_rest st with
  | [] => True
  | c :: _ => ascii_eqb c "<" = false
  end ->
  matches PatR.simple_font_pattern st = [].
Proof.
  intros H.
  change PatR.simple_font_pattern
    with (Cat (Grp 1 Pat.font_open)
              (Cat (Grp 2 (Star false any)) (Grp 3 (istr "</font>")))).
  now rewrite matches_cat, matches_grp, (matches_font_open_head st H).
Qed.

(** The substitution of the first font element: the translation goes
    between its tags, and the line around it stays. *)
Lemma sub_go_simple_font (st0 : mstate) (full before attrs text after
    translated_text : str) (fuel : nat) :
  lacks "<" before = true -> lacks ">" attrs = true ->
  lacks "<" text = true ->
  full = before ++ font_line attrs text ++ after ->
  m_rest st0 = full -> m_pos st0 = 0 -> m_caps st0 = [] ->
  sub_go PatR.simple_font_pattern
         (replace_font_content full translated_text) (Some 1)
         (List.length before + S fuel) st0
  = before ++ font_line attrs translated_text ++ after.
Proof.
  intros Hb Ha Ht Hfull H0 Hp0 Hc0.
  rewrite (sub_go_pass PatR.simple_font_pattern _ (Some 1) before
             matches_simple_font_head ltac:(discriminate) (S fuel) st0
             (font_line attrs text ++ after) Hb)
    by (now rewrite H0, Hfull).
  f_equal.
  remember (consume st0 before) as sb eqn:Esb.
  assert (Hr : m_rest sb = font_line attrs text ++ after)
    by (subst sb; apply (consume_rest st0 before); now rewrite H0, Hfull).
  assert (Hp : m_pos sb = List.length before)
    by (subst sb; rewrite consume_pos, Hp0; reflexivity).
  assert (Hc : m_caps sb = [])
    by (subst sb; now rewrite consume_caps).
  clear Esb.
  destruct (matches_simple_font_line sb attrs text after Ha Ht Hr Hc)
    as (y & l & Hm & Hpos & Hrest & Hcaps).
  rewrite (sub_go_hit _ _ (Some 1) _ _ y l Hm);
    [| rewrite Hpos; unfold font_line, font_close_tag;
       rewrite !length_app; simpl; lia
     | discriminate].
  cbn [option_map pred]. rewrite sub_go_spent. cbn [m_rest].
  rewrite Hrest, Hcaps, Hp.
  unfold replace_font_content, group.
  cbn [m_groups find fst Nat.eqb].
  assert (G1 : slice full (List.length before)
                 (List.length before + List.length (font_open_tag attrs))
               = font_open_tag attrs).
  { rewrite Hfull. unfold font_line. rewrite <- !app_assoc.
    apply slice_part. }
  assert (G2 : slice full
                 (List.length before + List.length (font_open_tag attrs))
                 (List.length before + List.length (font_open_tag attrs)
                  + List.length text)
               = text).
  { rewrite Hfull. unfold font_line.
    replace (before ++ (font_open_tag attrs ++ text ++ font_close_tag)
             ++ after)
      with ((before ++ font_open_tag attrs) ++ text
            ++ font_close_tag ++ after)
      by (now rewrite <- !app_assoc).
    rewrite <- (length_app before (font_open_tag attrs)).
    apply slice_part. }
  assert (G3 : slice full
                 (List.length before + List.length (font_open_tag attrs)
                  + List.length text)
                 (List.length before + List.length (font_open_tag attrs)
                  + List.length text + 7)
               = font_close_tag).
  { rewrite Hfull. unfold font_line.
    replace (before ++ (font_open_tag attrs ++ text ++ font_close_tag)
             ++ after)
      with (((before ++ font_open_tag attrs) ++ text)
            ++ font_close_tag ++ after)
      by (now rewrite <- !app_assoc).
    rewrite <- (length_app before (font_open_tag attrs)).
    rewrite <- (length_app (before ++ font_open_tag attrs) text).
    apply (slice_part ((before ++ font_open_tag attrs) ++ text)
             font_close_tag after). }
  rewrite G1, G2, G3.
  rewrite (contains_lacks "<" [] text Ht
           : contains (lit "<") text = false).
  unfold font_line. now rewrite <- !app_assoc.
Qed.

(** What is left of a content without its tags and brace codes. *)
Definition remaining_text (content : str) : str :=
  strip (re_sub Pat.spaces (lit " ")
           (re_sub Pat.braces [] (re_sub Pat.any_tag [] content))).

(** The new content of a line with one font tag and no other [<]: the
    translation between the same tags, the line around them as it
    was; or the content as it was, when nothing is left of it without
    its tags and brace codes. *)
Lemma font_new_content_in_font
    (before attrs text after translated_text : str) :
  lacks "<" before = true -> lacks "<" attrs = true ->
  lacks ">" attrs = true -> lacks "<" text = true ->
  lacks "<" after = true ->
  font_new_content (before ++ font_line attrs text ++ after) translated_text
  = match remaining_text (before ++ font_line attrs text ++ after) with
    | [] => before ++ font_line attrs text ++ after
    | _ => before ++ font_line attrs translated_text ++ after
    end.
Proof.
  intros Hb Ha' Ha Ht Hf.
  unfold font_new_content, remaining_text. cbv zeta.
  rewrite (contains_b_font_line before attrs text after Hb Ha' Ht Hf).
  unfold re_sub_fn.
  replace (S (List.length (before ++ font_line attrs text ++ after)))
    with (List.length before
          + S (List.length (font_line attrs text ++ after)))
    by (rewrite (length_app before); lia).
  now rewrite (sub_go_simple_font
                 (at_start (before ++ font_line attrs text ++ after))
                 (before ++ font_line attrs text ++ after)
                 before attrs text after translated_text _ Hb Ha Ht
                 eq_refl eq_refl eq_refl eq_refl).
Qed.

(** With its own fragment, the line comes back as it was. *)
Lemma font_new_content_same (before attrs text after : str) :
  lacks "<" before = true -> lacks "<" attrs = true ->
  lacks ">" attrs = true -> lacks "<" text = true ->
  lacks "<" after = true ->
  font_new_content (before ++ font_line attrs text ++ after) text
  = before ++ font_line attrs text ++ after.
Proof.
  intros Hb Ha' Ha Ht Hf.
  rewrite (font_new_content_in_font before attrs text after text
             Hb Ha' Ha Ht Hf).
  now destruct (remaining_text _).
Qed.

(** The translation of the line: the same tags around the translation. *)
Lemma font_new_content_font_line (attrs text translated_text : str) :
  lacks ">" attrs = true -> lacks "<" attrs = true ->
  plain_text text = true ->
  font_new_content (font_line attrs text) translated_text
  = font_line attrs translated_text.
Proof.
  intros Ha Ha' Hp.
  destruct (plain_text_fields text Hp) as (Hlen & Htight & Hlt & Hbr & Hss).
  pose proof (font_new_content_in_font [] attrs text [] translated_text
                eq_refl Ha' Ha Hlt eq_refl) as H.
  cbn [app] in H. rewrite !app_nil_r in H. rewrite H.
  unfold remaining_text.
  rewrite (re_sub_any_tag_font_line attrs text Ha Hlt).
  unfold Pat.braces.
  change (Seq [chr_ "{"; Star true (not_chr "}"); chr_ "}"])
    with (Cat (chr_ "{") (Cat (Star true (not_chr "}")) (chr_ "}"))).
  rewrite (re_sub_lacks "{" _ [] text Hbr).
  rewrite (re_sub_spaces_id text Hss), (strip_tight text Htight).
  destruct text as [|c t]; [simpl in Hlen; lia | reflexivity].
Qed.

(** *** A block whose text is inside one font tag *)

(** A number line and a timestamp line the parser accepts, each one
    line without whitespace around it. *)
Definition header_ok (number timestamp_line : str) : bool :=
  tight number && one_line number && parses_as_integer number
  && tight timestamp_line && one_line timestamp_line
  && matches_timestamp_range timestamp_line.

(** Attributes on one line, without a bracket of a tag. *)
Definition font_attrs_ok (attrs : str) : bool :=
  one_line attrs && lacks "<" attrs && lacks ">" attrs.

Definition font_block (number timestamp_line attrs text : str) : str :=
  join nl [number; timestamp_line; font_line attrs text].

Lemma one_line_app (a b : str) :
  one_line (a ++ b) = one_line a && one_line b.
Proof. unfold one_line. apply forallb_app. Qed.

Lemma font_line_one_line (attrs text : str) :
  one_line attrs = true -> one_line text = true ->
  one_line (font_line attrs text) = true.
Proof.
  intros Ha Ht. unfold font_line, font_open_tag.
  rewrite !one_line_app, Ha, Ht. reflexivity.
Qed.

Lemma font_line_tight (attrs text : str) :
  tight (font_line attrs text) = true.
Proof.
  assert (E : font_line attrs text
              = "<"%char :: (lit "font" ++ attrs ++ lit ">" ++ text)
                            ++ font_close_tag).
  { unfold font_line, font_open_tag. rewrite <- !app_assoc. reflexivity. }
  rewrite E. unfold tight.
  change ("<"%char :: (lit "font" ++ attrs ++ lit ">" ++ text)
                      ++ font_close_tag)
    with (("<"%char :: lit "font" ++ attrs ++ lit ">" ++ text)
          ++ font_close_tag).
  rewrite last_app_nonempty by discriminate.
  reflexivity.
Qed.

Section FontBlock.

Variables number timestamp_line attrs text : str.
Hypothesis header : header_ok number timestamp_line = true.
Hypothesis attrs_ok : font_attrs_ok attrs = true.
Hypothesis text_ok : plain_text text = true.

Lemma header_fields :
  tight number = true /\ one_line number = true
  /\ parses_as_integer number = true
  /\ tight timestamp_line = true /\ one_line timestamp_line = true
  /\ matches_timestamp_range timestamp_line = true.
Proof.
  pose proof header as H. unfold header_ok in H.
  repeat (apply andb_true_iff in H; destruct H as [H ?]).
  repeat split; assumption.
Qed.

Lemma attrs_fields :
  one_line attrs = true /\ lacks "<" attrs = true /\ lacks ">" attrs = true.
Proof.
  pose proof attrs_ok as H. unfold font_attrs_ok in H.
  repeat (apply andb_true_iff in H; destruct H as [H ?]).
  repeat split; assumption.
Qed.

Lemma font_block_lines :
  split nl (font_block number timestamp_line attrs text)
  = [number; timestamp_line; font_line attrs text].
Proof.
  destruct header_fields as (_ & Hn1 & _ & _ & Ht1 & _).
  destruct attrs_fields as (Ha1 & _ & _).
  destruct (plain_text_fields text text_ok) as (_ & _ & _ & _ & Hss).
  unfold font_block. apply split_join_lines; [exact Hn1|].
  repeat constructor; [exact Ht1|].
  apply font_line_one_line; [exact Ha1 | now apply single_spaced_one_line].
Qed.

Lemma font_block_tight :
  tight (font_block number timestamp_line attrs text) = true.
Proof.
  destruct header_fields as (Hn & _ & _ & Ht & _ & _).
  unfold font_block. rewrite join_cons. apply tight_glue; [exact Hn|].
  rewrite join_cons. apply tight_glue; [exact Ht|].
  apply font_line_tight.
Qed.

Lemma block_header_font_block :
  block_header (font_block number timestamp_line attrs text)
  = Some (number, timestamp_line).
Proof.
  destruct header_fields as (Hn & _ & Hint & Ht & _ & Hts).
  unfold block_header.
  destruct (tight_head _ font_block_tight) as [c [t [E _]]].
  rewrite E, <- E. clear E.
  rewrite font_block_lines.
  cbn [List.length Nat.ltb Nat.leb nth].
  rewrite (strip_tight _ Hn), (strip_tight _ Ht).
  unfold parses_as_integer in Hint. rewrite (strip_tight _ Hn) in Hint.
  unfold matches_timestamp_range in Hts.
  rewrite (strip_tight _ Ht) in Hts.
  destruct (int number); [|discriminate].
  destruct (re_match Pat.timestamp_range timestamp_line);
    [reflexivity | discriminate].
Qed.

(** The entry the parser makes for the block. *)
Definition font_entry (text_index : nat) : block_info :=
  BlockInfo number timestamp_line (font_line attrs text)
            (Some (Z.of_nat text_index)) true (Some [text])
            (font_block number timestamp_line attrs text).

Lemma parse_block_font_block (st : parse_state) :
  parse_block st (font_block number timestamp_line attrs text)
  = (fst st ++ [text], snd st ++ [font_entry (List.length (fst st))]).
Proof.
  destruct st as [texts smap]. unfold parse_block.
  rewrite (strip_tight _ font_block_tight), block_header_font_block.
  rewrite font_block_lines.
  destruct attrs_fields as (_ & _ & Ha).
  destruct (plain_text_fields text text_ok) as (Hlen & _).
  cbn [List.length Nat.ltb Nat.leb skipn join].
  rewrite (strip_tight _ (font_line_tight attrs text)).
  rewrite (extract_block_texts_font_line attrs text Ha text_ok).
  rewrite (combined_plain_text text text_ok).
  replace (List.length text <=? 1) with false
    by (symmetry; apply Nat.leb_gt; lia).
  assert (E : font_line attrs text
              = "<"%char :: (lit "font" ++ attrs ++ lit ">" ++ text)
                            ++ font_close_tag).
  { unfold font_line, font_open_tag. rewrite <- !app_assoc. reflexivity. }
  rewrite E at 1. reflexivity.
Qed.

Lemma render_font_entry (text_index : nat) (translated_text : str) :
  render_block (font_entry text_index) translated_text
  = font_block number timestamp_line attrs translated_text.
Proof.
  destruct attrs_fields as (_ & Ha' & Ha).
  unfold render_block, font_entry.
  cbn [block_number timestamp content].
  rewrite contains_font_tag.
  rewrite (font_new_content_font_line attrs text translated_text Ha Ha' text_ok).
  unfold font_block. rewrite !join_cons. cbn [join].
  now rewrite <- !app_assoc.
Qed.

End FontBlock.

(** A subtitle block whose third line is a plain text inside
    one font tag, [<font ...>text</font>]: the parser takes the text
    between the tags as the fragment of the block, and from a
    translation the block is rebuilt with the same number, timestamp
    and tags around the translation. *)
Theorem font_block_translated (st : parse_state)
    (number timestamp_line attrs text translated_text : str) :
  header_ok number timestamp_line = true ->
  font_attrs_ok attrs = true ->
  plain_text text = true ->
  exists e : block_info,
    parse_block st (font_block number timestamp_line attrs text)
    = (fst st ++ [text], snd st ++ [e])
    /\ text_index e = Some (Z.of_nat (List.length (fst st)))
    /\ render_block e translated_text
       = font_block number timestamp_line attrs translated_text.
Proof.
  intros Hh Ha Ht.
  exists (font_entry number timestamp_line attrs text (List.length (fst st))).
  split; [|split].
  - now apply parse_block_font_block.
  - reflexivity.
  - now apply render_font_entry.
Qed.

Lemma font_block_translated_witness :
  exists e : block_info,
    parse_block ([lit "Good morning."], [])
      (font_block (lit "2") (lit "00:00:03,000 --> 00:00:04,500")
         (lit " color=#ffff00") (lit "See you in Tokyo"))
    = ([lit "Good morning."; lit "See you in Tokyo"], [e])
    /\ text_index e = Some 1%Z
    /\ render_block e (lit "Ate Toquio")
       = lit "2
00:00:03,000 --> 00:00:04,500
<font color=#ffff00>Ate Toquio</font>".
Proof.
  apply (font_block_translated ([lit "Good morning."], [])
           (lit "2") (lit "00:00:03,000 --> 00:00:04,500")
           (lit " color=#ffff00") (lit "See you in Tokyo") (lit "Ate Toquio"));
    vm_compute; reflexivity.
Defined.

(* ===================================================================== *)
(** * Documents in normal form, with font markup                          *)
(* ===================================================================== *)

(** The content line of a block: a plain text; a plain text inside one
    font tag, with text without tags before and after the tag on the
    same line; or a single character, of which the parser makes no
    fragment. *)
Inductive content_line : Type :=
| PlainText (text : str)
| InFont (before attrs text after : str)
| Sign (c : ascii).

Definition line_str (l : content_line) : str :=
  match l with
  | PlainText text => text
  | InFont before attrs text after => before ++ font_line attrs text ++ after
  | Sign c => [c]
  end.

(** No whitespace at the start, and none at the end. *)
Definition starts_tight (s : str) : bool :=
  match s with
  | [] => true
  | c :: _ => negb (isspace c)
  end.

Definition ends_tight (s : str) : bool :=
  match s with
  | [] => true
  | c :: _ => negb (isspace (last s c))
  end.

Definition line_ok (l : content_line) : bool :=
  match l with
  | PlainText text => plain_text text
  | InFont before attrs text after =>
      one_line before && lacks "<" before && starts_tight before
      && font_attrs_ok attrs && plain_text text
      && one_line after && lacks "<" after && ends_tight after
  | Sign c => negb (isspace c)
  end.

(** A block: its number line, its timestamp line and at most one
    content line. *)
Record cue : Type := Cue {
  cue_number : str;
  cue_timestamp : str;
  cue_line : option content_line
}.

Definition cue_ok (c : cue) : bool :=
  header_ok (cue_number c) (cue_timestamp c)
  && match cue_line c with
     | Some l => line_ok l
     | None => true
     end.

Definition cue_str (c : cue) : str :=
  join nl (cue_number c :: cue_timestamp c
           :: match cue_line c with
              | Some l => [line_str l]
              | None => []
              end).

(** The blocks with one empty line between them. *)
Definition cue_document (cues : list cue) : str :=
  join paragraph (map cue_str cues).

(** ** One block *)

Section Block.

Variables number timestamp_line : str.
Hypothesis header : header_ok number timestamp_line = true.

(** The content line, if there is one. *)
Variable body : option str.
Hypothesis body_line :
  match body with
  | Some c => tight c = true /\ one_line c = true
  | None => True
  end.

Definition block_lines_of : list str :=
  number :: timestamp_line
  :: match body with
     | Some c => [c]
     | None => []
     end.

Definition block_of : str := join nl block_lines_of.

Lemma block_of_split : split nl block_of = block_lines_of.
Proof.
  destruct (header_fields number timestamp_line header)
    as (_ & Hn1 & _ & _ & Ht1 & _).
  unfold block_of, block_lines_of. apply split_join_lines; [exact Hn1|].
  destruct body as [c|]; repeat constructor; tauto.
Qed.

Lemma block_of_tight : tight block_of = true.
Proof.
  destruct (header_fields number timestamp_line header)
    as (Hn & _ & _ & Ht & _ & _).
  unfold block_of, block_lines_of. destruct body as [c|].
  - rewrite join_cons. apply tight_glue; [exact Hn|].
    rewrite join_cons. apply tight_glue; tauto.
  - rewrite join_cons. apply tight_glue; assumption.
Qed.

Lemma block_of_blocky : blocky block_of = true.
Proof.
  pose proof block_of_tight as Htight.
  destruct (header_fields number timestamp_line header)
    as (Hn & Hn1 & _ & Ht & Ht1 & _).
  assert (Hsafe : nl_safe block_of = true).
  { unfold block_of, block_lines_of. destruct body as [c|].
    - destruct body_line as [Hc Hc1].
      rewrite join_cons.
      apply nl_safe_line; [exact Hn1 | |].
      + rewrite join_cons. apply tight_glue; assumption.
      + rewrite join_cons.
        apply nl_safe_line; [exact Ht1 | exact Hc|].
        now apply nl_safe_one_line.
    - rewrite join_cons.
      apply nl_safe_line; [exact Hn1 | exact Ht|].
      now apply nl_safe_one_line. }
  destruct (tight_head _ Htight) as [c [t [E Hc]]].
  unfold blocky. rewrite E in *. now rewrite Hc, Hsafe.
Qed.

Lemma block_header_block_of :
  block_header block_of = Some (number, timestamp_line).
Proof.
  destruct (header_fields number timestamp_line header)
    as (Hn & _ & Hint & Ht & _ & Hts).
  unfold block_header.
  destruct (tight_head _ block_of_tight) as [c [t [E _]]].
  rewrite E, <- E. clear E.
  rewrite block_of_split.
  assert (Hlen : (List.length block_lines_of <? 2) = false
                 /\ (1 <? List.length block_lines_of) = true)
    by (unfold block_lines_of; now destruct body).
  destruct Hlen as [Hl1 Hl2]. rewrite Hl1, Hl2.
  cbn [block_lines_of nth].
  rewrite (strip_tight _ Hn), (strip_tight _ Ht).
  unfold parses_as_integer in Hint. rewrite (strip_tight _ Hn) in Hint.
  unfold matches_timestamp_range in Hts.
  rewrite (strip_tight _ Ht) in Hts.
  destruct (int number); [|discriminate].
  destruct (re_match Pat.timestamp_range timestamp_line);
    [reflexivity | discriminate].
Qed.

(** A block without content line: an entry without text. *)
Lemma parse_block_bare (st : parse_state) :
  body = None ->
  parse_block st block_of
  = (fst st,
     snd st ++ [BlockInfo number timestamp_line [] None false None block_of]).
Proof.
  intros Hb. destruct st as [texts smap]. unfold parse_block.
  rewrite (strip_tight _ block_of_tight), block_header_block_of.
  rewrite block_of_split. unfold block_lines_of. rewrite Hb.
  reflexivity.
Qed.

(** A block whose content line gives one fragment of plain text. *)
Lemma parse_block_text (st : parse_state) (c t : str) :
  body = Some c ->
  extract_block_texts c = [t] ->
  plain_text t = true ->
  parse_block st block_of
  = (fst st ++ [t],
     snd st ++ [BlockInfo number timestamp_line c
                          (Some (Z.of_nat (List.length (fst st)))) true
                          (Some [t]) block_of]).
Proof.
  intros Hb He Hp. destruct st as [texts smap]. unfold parse_block.
  rewrite (strip_tight _ block_of_tight), block_header_block_of.
  rewrite block_of_split. unfold block_lines_of.
  pose proof body_line as Hc. rewrite Hb in Hc |- *. destruct Hc as [Hc _].
  cbn [List.length Nat.ltb Nat.leb skipn join].
  rewrite (strip_tight _ Hc), He, (combined_plain_text t Hp).
  destruct (plain_text_fields t Hp) as (Hlen & _).
  replace (List.length t <=? 1) with false
    by (symmetry; apply Nat.leb_gt; lia).
  destruct (tight_head c Hc) as [x [c' [E _]]].
  rewrite E at 1. reflexivity.
Qed.

(** A block whose content line gives no fragment of two characters. *)
Lemma parse_block_no_text (st : parse_state) (c : str) :
  body = Some c ->
  extract_block_texts c = []
  \/ (List.length (combined_text_of (extract_block_texts c)) <? 2) = true ->
  parse_block st block_of
  = (fst st,
     snd st ++ [BlockInfo number timestamp_line c None false None block_of]).
Proof.
  intros Hb He. destruct st as [texts smap]. unfold parse_block.
  rewrite (strip_tight _ block_of_tight), block_header_block_of.
  rewrite block_of_split. unfold block_lines_of.
  pose proof body_line as Hc. rewrite Hb in Hc |- *. destruct Hc as [Hc _].
  cbn [List.length Nat.ltb Nat.leb skipn join].
  rewrite (strip_tight _ Hc).
  destruct (tight_head c Hc) as [x [c' [E _]]].
  destruct He as [He|He].
  - rewrite He. rewrite E at 1. reflexivity.
  - destruct (extract_block_texts c) as [|t ts].
    + rewrite E at 1. reflexivity.
    + change (List.length (combined_text_of (t :: ts)) <=? 1)
        with (List.length (combined_text_of (t :: ts)) <? 2).
      rewrite He. rewrite E at 1. reflexivity.
Qed.

End Block.

(** ** The kinds of content line *)

Lemma tight_between (a x b : str) :
  starts_tight a = true -> tight x = true -> ends_tight b = true ->
  tight (a ++ x ++ b) = true.
Proof.
  intros Ha Hx Hb.
  destruct (tight_head x Hx) as [cx [x' [Ex Hcx]]].
  assert (Hlast : isspace (last x cx) = false).
  { unfold tight in Hx. rewrite Ex in Hx |- *.
    apply andb_true_iff in Hx. destruct Hx as [_ Hx].
    now apply negb_true_iff in Hx. }
  assert (Hend : forall d : ascii, isspace (last (x ++ b) d) = false).
  { intros d. destruct b as [|cb b'].
    - rewrite app_nil_r.
      rewrite (last_default x d cx) by (rewrite Ex; discriminate).
      exact Hlast.
    - rewrite last_app_nonempty by discriminate.
      rewrite (last_default (cb :: b') d cb) by discriminate.
      unfold ends_tight in Hb. now apply negb_true_iff in Hb. }
  unfold tight. destruct a as [|ca a'].
  - cbn [app]. rewrite Ex. cbn [app]. rewrite Hcx. cbn [negb andb].
    change (cx :: x' ++ b) with ((cx :: x') ++ b). rewrite <- Ex.
    now rewrite Hend.
  - cbn [app]. unfold starts_tight in Ha. rewrite Ha. cbn [andb].
    change (ca :: a' ++ x ++ b) with ((ca :: a') ++ x ++ b).
    rewrite last_app_nonempty
      by (rewrite Ex; discriminate).
    now rewrite Hend.
Qed.

Lemma line_ok_line (l : content_line) :
  line_ok l = true ->
  tight (line_str l) = true /\ one_line (line_str l) = true.
Proof.
  destruct l as [text|before attrs text after|c]; cbn [line_ok line_str];
    intros H.
  - destruct (plain_text_parts text H) as (Ht & H1 & _). auto.
  - repeat (apply andb_true_iff in H; destruct H as [H ?]).
    match goal with
    | Ha : font_attrs_ok attrs = true |- _ =>
        destruct (attrs_fields attrs Ha) as (Ha1 & _ & _)
    end.
    match goal with
    | Hp : plain_text text = true |- _ =>
        destruct (plain_text_parts text Hp) as (_ & Ht1 & _)
    end.
    split.
    + apply tight_between; [assumption | apply font_line_tight | assumption].
    + rewrite !one_line_app, (font_line_one_line attrs text Ha1 Ht1), H.
      now cbn [andb].
  - apply negb_true_iff in H. unfold tight. cbn [last].
    rewrite H. split; [reflexivity|].
    unfold one_line. cbn [forallb]. rewrite andb_true_r.
    apply negb_true_iff. unfold ascii_eqb.
    destruct (Ascii.eqb_spec NL c) as [<-|]; [discriminate H | reflexivity].
Qed.

(** Of a single character the parser makes no fragment. *)
Lemma sign_no_text (c : ascii) :
  isspace c = false ->
  extract_block_texts [c] = []
  \/ (List.length (combined_text_of (extract_block_texts [c])) <? 2) = true.
Proof.
  destruct c as [[] [] [] [] [] [] [] []]; intros H;
    solve [discriminate H | right; vm_compute; reflexivity
           | left; vm_compute; reflexivity].
Qed.

(** ** A block of the normal form *)

(** The fragment the parser takes from a block. *)
Definition cue_texts (c : cue) : list str :=
  match cue_line c with
  | Some (PlainText text) => [text]
  | Some (InFont _ _ text _) => [text]
  | Some (Sign _) => []
  | None => []
  end.

(** The entry the parser makes for a block. *)
Definition cue_entry (c : cue) (text_index : nat) : block_info :=
  match cue_line c with
  | Some (Sign x) =>
      BlockInfo (cue_number c) (cue_timestamp c) [x] None false None
                (cue_str c)
  | Some l =>
      BlockInfo (cue_number c) (cue_timestamp c) (line_str l)
                (Some (Z.of_nat text_index)) true (Some (cue_texts c))
                (cue_str c)
  | None =>
      BlockInfo (cue_number c) (cue_timestamp c) [] None false None
                (cue_str c)
  end.

Lemma cue_str_block (c : cue) :
  cue_str c
  = block_of (cue_number c) (cue_timestamp c)
             (option_map line_str (cue_line c)).
Proof.
  unfold cue_str, block_of, block_lines_of. now destruct (cue_line c).
Qed.

Section Cue.

Variable c : cue.
Hypothesis c_ok : cue_ok c = true.

Lemma cue_header : header_ok (cue_number c) (cue_timestamp c) = true.
Proof.
  pose proof c_ok as H. unfold cue_ok in H.
  apply andb_true_iff in H. tauto.
Qed.

Lemma cue_line_ok (l : content_line) :
  cue_line c = Some l -> line_ok l = true.
Proof.
  intros E. pose proof c_ok as H. unfold cue_ok in H. rewrite E in H.
  apply andb_true_iff in H. tauto.
Qed.

Lemma cue_body_line :
  match option_map line_str (cue_line c) with
  | Some s => tight s = true /\ one_line s = true
  | None => True
  end.
Proof.
  destruct (cue_line c) as [l|] eqn:E; cbn [option_map]; [|exact I].
  apply line_ok_line, cue_line_ok, E.
Qed.

Lemma cue_str_tight : tight (cue_str c) = true.
Proof.
  rewrite cue_str_block.
  apply block_of_tight; [exact cue_header | exact cue_body_line].
Qed.

Lemma cue_str_blocky : blocky (cue_str c) = true.
Proof.
  rewrite cue_str_block.
  apply block_of_blocky; [exact cue_header | exact cue_body_line].
Qed.

Lemma parse_block_cue (st : parse_state) :
  parse_block st (cue_str c)
  = (fst st ++ cue_texts c, snd st ++ [cue_entry c (List.length (fst st))]).
Proof.
  unfold cue_entry, cue_texts. rewrite cue_str_block.
  pose proof cue_header as Hh. pose proof cue_body_line as Hb.
  destruct (cue_line c) as [[text|before attrs text after|x]|] eqn:E;
    cbn [option_map line_str] in *.
  - pose proof (cue_line_ok _ E) as Hp. cbn [line_ok] in Hp.
    apply (parse_block_text _ _ Hh (Some text) Hb st text text eq_refl);
      [now apply extract_plain_text | exact Hp].
  - pose proof (cue_line_ok _ E) as Hl. cbn [line_ok] in Hl.
    repeat (apply andb_true_iff in Hl; destruct Hl as [Hl ?]).
    match goal with
    | Ha : font_attrs_ok attrs = true |- _ =>
        destruct (attrs_fields attrs Ha) as (_ & _ & Hgt)
    end.
    apply (parse_block_text _ _ Hh
             (Some (before ++ font_line attrs text ++ after)) Hb st _ text
             eq_refl);
      [now apply extract_block_texts_in_font | assumption].
  - pose proof (cue_line_ok _ E) as Hl. cbn [line_ok] in Hl.
    apply negb_true_iff in Hl.
    rewrite app_nil_r.
    exact (parse_block_no_text _ _ Hh (Some [x]) Hb st [x] eq_refl
             (sign_no_text x Hl)).
  - rewrite app_nil_r.
    exact (parse_block_bare _ _ Hh None Hb st eq_refl).
Qed.

Lemma cue_entry_original (text_index : nat) :
  original_block (cue_entry c text_index) = cue_str c.
Proof.
  unfold cue_entry. now destruct (cue_line c) as [[| |]|].
Qed.

(** Putting its own fragment back gives the block as it was. *)
Lemma cue_entry_as_extracted (text_index : nat) :
  text_as_extracted (cue_entry c text_index).
Proof.
  unfold text_as_extracted, cue_entry, cue_texts, cue_str.
  destruct (cue_line c) as [[text|before attrs text after|x]|] eqn:E;
    try discriminate; intros _;
    pose proof (cue_line_ok _ E) as Hl; cbn [line_ok] in Hl;
    unfold render_block, fragment_of;
    cbn [content extracted_texts block_number timestamp original_block
         line_str].
  - rewrite (combined_plain_text text Hl).
    destruct (plain_text_fields text Hl) as (_ & _ & Hlt & _).
    change (lit "<font") with ("<"%char :: lit "font").
    rewrite (contains_lacks "<" (lit "font") text Hlt).
    cbn [join]. now rewrite <- !app_assoc.
  - repeat (apply andb_true_iff in Hl; destruct Hl as [Hl ?]).
    match goal with
    | Ha : font_attrs_ok attrs = true |- _ =>
        destruct (attrs_fields attrs Ha) as (_ & Hlt & Hgt)
    end.
    match goal with
    | Hp : plain_text text = true |- _ =>
        rewrite (combined_plain_text text Hp);
        destruct (plain_text_fields text Hp) as (_ & _ & Htl & _)
    end.
    rewrite contains_font_line.
    rewrite font_new_content_same by assumption.
    cbn [join]. now rewrite <- !app_assoc.
Qed.

End Cue.

(** ** The document *)

Lemma tight_cue_document (c : cue) (cues : list cue) :
  Forall (fun x => cue_ok x = true) (c :: cues) ->
  tight (cue_document (c :: cues)) = true.
Proof.
  unfold cue_document. revert c.
  induction cues as [|c2 cues IH]; intros c H;
    inversion H as [|? ? Hc Hrest]; subst.
  - now apply cue_str_tight.
  - cbn [map]. rewrite join_cons.
    apply tight_glue; [now apply cue_str_tight | now apply IH].
Qed.

Lemma parse_cues (cues : list cue) :
  Forall (fun x => cue_ok x = true) cues ->
  forall st : parse_state,
    Forall text_as_extracted (snd st) ->
    let st' := fold_left parse_block (map cue_str cues) st in
    map original_block (snd st')
    = map original_block (snd st) ++ map cue_str cues
    /\ Forall text_as_extracted (snd st').
Proof.
  induction 1 as [|c cues Hc _ IH]; intros st Hst; cbn [map fold_left].
  - split; [now rewrite app_nil_r | exact Hst].
  - rewrite (parse_block_cue c Hc st).
    edestruct IH as [Hm Hf]; [|split; [rewrite Hm|exact Hf]].
    + cbn [snd]. apply Forall_app. split; [exact Hst|].
      constructor; [|constructor]. now apply cue_entry_as_extracted.
    + cbn [snd]. rewrite map_app. cbn [map].
      rewrite (cue_entry_original c). now rewrite <- app_assoc.
Qed.

Lemma extract_cue_document (cues : list cue) :
  Forall (fun x => cue_ok x = true) cues ->
  map original_block (snd (extract_text_from_srt (cue_document cues)))
  = map cue_str cues
  /\ Forall text_as_extracted
            (snd (extract_text_from_srt (cue_document cues))).
Proof.
  intros H. destruct cues as [|c cues].
  - split; [reflexivity | constructor].
  - unfold extract_text_from_srt.
    rewrite (strip_tight _ (tight_cue_document c cues H)).
    unfold cue_document. cbn [map].
    rewrite re_split_blocks.
    + apply (parse_cues (c :: cues) H ([], [])). constructor.
    + change (cue_str c :: map cue_str cues)
        with (map cue_str (c :: cues)).
      apply Forall_map. eapply Forall_impl; [|exact H].
      intros x Hx. now apply cue_str_blocky.
Qed.

Lemma round_trip_cue_document (cues : list cue) :
  Forall (fun x => cue_ok x = true) cues ->
  round_trip (cue_document cues) = Returns (cue_document cues).
Proof.
  intros H. destruct (extract_cue_document cues H) as [Hm Hf].
  apply round_trip_as_kept; [|exact Hf].
  unfold blocks_as_kept. now rewrite Hm.
Qed.


Definition cues_normal : list cue :=
  [Cue (lit "1") (lit "00:00:01,000 --> 00:00:02,000")
       (Some (InFont (lit "Hello ") (lit " color=#fff") (lit "John") []));
   Cue (lit "2") (lit "00:00:03,000 --> 00:00:04,000")
       (Some (PlainText (lit "[explosion]")));
   Cue (lit "3") (lit "00:00:05,000 --> 00:00:06,000") None].

Definition cues_styled : list cue :=
  [Cue (lit "1") (lit "00:00:01,000 --> 00:00:02,500")
       (Some (InFont [] (lit " face=Arial size=12") (lit "Good morning.")
                     (lit " (whispering)")));
   Cue (lit "2") (lit "00:00:03,000 --> 00:00:04,000")
       (Some (Sign "-"));
   Cue (lit "3") (lit "00:00:05,000 --> 00:00:06,500")
       (Some (PlainText (lit "See you in Tokyo, John!")))].

